(** * Hybrid retrieval core of AppiT-Pro: reciprocal rank fusion, the
    knowledge-graph memory and the retrieval orchestrator.

    The development embeds three Python sources,
      retrieval_service/fts_manager.py      (class ReciprocalRankFusion,
                                             FuzzySearchManager.query_fuzzy
                                             and _escape_fts5_query)
      retrieval_service/graph_memory.py     (class NeuralGraphMemory)
      retrieval_service/rag_orchestrator.py (RAGOrchestrator.hybrid_retrieve,
                                             _prepare_context and query_rag,
                                             the key rotation of GrokAPIClient)
    and states the properties of the specification, and further
    properties of the code, over that embedding.

    Conventions of the embedding:
    - a Python [dict] is an association list in insertion order ([dict_set]
      overwrites in place or appends, as CPython does);
    - a Python float is an exact rational of [Q] and rounding is not
      modelled, except in [RRF64], where the scores of the fusion are
      binary64 floats;
    - a raised exception is the [Raise] case of [outcome]; [try_except]
      is the [try: ... except Exception as e: ...] statement;
    - dict objects that the code aliases and mutates live in a [heap];
    - [datetime.now().isoformat()] is an explicit argument [now], and
      [time.time()] a function of the number of readings taken;
    - what the code reaches through SQLite, HTTP, [ast] or [re] is a
      parameter of the definitions that use it. *)

From Stdlib Require Import ZArith QArith String List Bool Lia.
From Stdlib Require Import Permutation SetoidList SetoidPermutation Sorted.
From Stdlib Require SpecFloat.
Import ListNotations.
Local Open Scope string_scope.
Local Open Scope list_scope.
Local Open Scope Z_scope.

(* ===================================================================== *)
(** * Part I: definitions                                                 *)
(* ===================================================================== *)

(** ** Python values, exceptions and dictionaries *)

Module Py.

(** The [Exception] subclasses that occur in the three sources. *)
Inductive exn : Type :=
| KeyError (key : string)
| TypeError (msg : string)
| ValueError (msg : string)
| ZeroDivisionError
| NetworkXError (msg : string)
| NetworkXNoPath
| OtherError (cls msg : string).

(** [str(e)] *)
Definition str (e : exn) : string :=
  match e with
  | KeyError key => ("'" ++ key ++ "'")%string
  | TypeError msg => msg
  | ValueError msg => msg
  | ZeroDivisionError => "float division by zero"
  | NetworkXError msg => msg
  | NetworkXNoPath => "No path"
  | OtherError _ msg => msg
  end.

Inductive outcome (A : Type) : Type :=
| Ok (a : A)
| Raise (e : exn).
Arguments Ok {A} a.
Arguments Raise {A} e.

Definition bind {A B} (c : outcome A) (f : A -> outcome B) : outcome B :=
  match c with
  | Ok a => f a
  | Raise e => Raise e
  end.

(** [try: body  except Exception as e: handler(e)] *)
Definition try_except {A} (body : outcome A) (handler : exn -> outcome A)
    : outcome A :=
  match body with
  | Ok a => Ok a
  | Raise e => handler e
  end.

(** Dynamically typed values.  [VList] stands for lists and tuples,
    [VDict] for nested dictionaries. *)
Unset Elimination Schemes.
Inductive value : Type :=
| VNone
| VInt (n : Z)
| VNum (q : Q)
| VStr (s : string)
| VList (l : list value)
| VDict (d : list (string * value)).
Set Elimination Schemes.

(** Hashable values, as used for dictionary keys. *)
Inductive key : Type :=
| KNone
| KInt (n : Z)
| KNum (q : Q)
| KStr (s : string).

(** [hash(v)]: dictionaries are unhashable. *)
Definition hash_key (v : value) : outcome key :=
  match v with
  | VNone => Ok KNone
  | VInt n => Ok (KInt n)
  | VNum q => Ok (KNum q)
  | VStr s => Ok (KStr s)
  | VList _ => Raise (TypeError "unhashable type: 'list'")
  | VDict _ => Raise (TypeError "unhashable type: 'dict'")
  end.

(** [a == b] on keys: numbers compare by value across int and float. *)
Definition key_eqb (a b : key) : bool :=
  match a, b with
  | KNone, KNone => true
  | KInt x, KInt y => Z.eqb x y
  | KNum x, KNum y => Qeq_bool x y
  | KInt x, KNum y => Qeq_bool (inject_Z x) y
  | KNum x, KInt y => Qeq_bool x (inject_Z y)
  | KStr s, KStr t => String.eqb s t
  | _, _ => false
  end.

Definition keq (a b : key) : Prop := key_eqb a b = true.

Definition pair_eqb (a b : string * string) : bool :=
  String.eqb (fst a) (fst b) && String.eqb (snd a) (snd b).

Section Dict.
Context {K V : Type} (eqb : K -> K -> bool).

(** [d.get(k)] *)
Fixpoint dict_get (d : list (K * V)) (k : K) : option V :=
  match d with
  | [] => None
  | (k', v) :: d' => if eqb k' k then Some v else dict_get d' k
  end.

(** [k in d] *)
Definition dict_mem (d : list (K * V)) (k : K) : bool :=
  match dict_get d k with
  | Some _ => true
  | None => false
  end.

(** [d[k] = v]: an existing key keeps its position, a new key goes last. *)
Fixpoint dict_set (d : list (K * V)) (k : K) (v : V) : list (K * V) :=
  match d with
  | [] => [(k, v)]
  | (k', v') :: d' =>
      if eqb k' k then (k', v) :: d' else (k', v') :: dict_set d' k v
  end.

(** [d.update(other)] *)
Definition dict_update (d other : list (K * V)) : list (K * V) :=
  fold_left (fun acc kv => dict_set acc (fst kv) (snd kv)) other d.

End Dict.

Definition sget {V} (d : list (string * V)) (k : string) : option V :=
  dict_get String.eqb d k.
Definition sset {V} (d : list (string * V)) (k : string) (v : V) :=
  dict_set String.eqb d k v.

(** [d[k]] on a string-keyed dictionary *)
Definition getitem {V} (d : list (string * V)) (k : string) : outcome V :=
  match sget d k with
  | Some v => Ok v
  | None => Raise (KeyError k)
  end.

(** [d.get(k, default)] *)
Definition get_default {V} (d : list (string * V)) (k : string) (default : V) : V :=
  match sget d k with
  | Some v => v
  | None => default
  end.

(** Numbers among the values; anything else in an arithmetic position or
    an ordering comparison with a number is a [TypeError]. *)
Definition as_number (v : value) : outcome Q :=
  match v with
  | VInt n => Ok (inject_Z n)
  | VNum q => Ok q
  | _ => Raise (TypeError "unsupported operand type(s)")
  end.

Definition Qlt_bool (a b : Q) : bool := negb (Qle_bool b a).

(** [n > v], [n < v], [n <= v] for an int [n] and a dynamic [v] *)
Definition py_gt (n : Z) (v : value) : outcome bool :=
  bind (as_number v) (fun q => Ok (Qlt_bool q (inject_Z n))).
Definition py_lt (n : Z) (v : value) : outcome bool :=
  bind (as_number v) (fun q => Ok (Qlt_bool (inject_Z n) q)).
Definition py_le (n : Z) (v : value) : outcome bool :=
  bind (as_number v) (fun q => Ok (Qle_bool (inject_Z n) q)).

(** [v + n] *)
Definition py_add (v : value) (n : Z) : outcome value :=
  match v with
  | VInt m => Ok (VInt (m + n))
  | VNum q => Ok (VNum (q + inject_Z n))
  | _ => Raise (TypeError "unsupported operand type(s) for +")
  end.

(** [w / d] for a float [w] and an int [d], in exact arithmetic *)
Definition py_div (w : Q) (d : Z) : outcome Q :=
  if Z.eqb d 0 then Raise ZeroDivisionError else Ok (w / inject_Z d)%Q.

(** [l[:k]] *)
Definition slice_to {A} (l : list A) (k : Z) : list A :=
  if (0 <=? k)%Z then firstn (Z.to_nat k) l
  else firstn (length l - Z.to_nat (- k))%nat l.

(** [s[:n]] on a string, [n >= 0] *)
Fixpoint str_prefix (n : nat) (s : string) : string :=
  match n, s with
  | S n', String c s' => String c (str_prefix n' s')
  | _, _ => EmptyString
  end.

Section Sort.
Context {A : Type} (score : A -> Q).

(** [x] enters before the first element it does not score below, so
    elements of equal score keep their order. *)
Fixpoint insert_desc (x : A) (l : list A) : list A :=
  match l with
  | [] => [x]
  | y :: l' =>
      if Qle_bool (score y) (score x) then x :: l
      else y :: insert_desc x l'
  end.

(** [sorted(l, key=score, reverse=True)]: stable, descending. *)
Definition sorted_desc (l : list A) : list A :=
  fold_right insert_desc [] l.

Definition desc (a b : A) : Prop := (score b <= score a)%Q.

End Sort.

End Py.
Import Py.

Declare Scope py_scope.
Delimit Scope py_scope with py.
Notation "x <- c1 ;; c2" := (Py.bind c1 (fun x => c2))
  (at level 61, c1 at next level, right associativity) : py_scope.

(** ** retrieval_service/fts_manager.py: class ReciprocalRankFusion *)

Module RRF.

(** A search hit is a Python dict; hits are shared objects, so the lists
    handed to [fuse_results] hold references into a heap. *)
Definition record := list (string * value).
Definition loc := nat.
Definition heap := loc -> record.

(** [obj[field] = v] on the object at [l] *)
Definition store (h : heap) (l : loc) (field : string) (v : value) : heap :=
  fun l' => if Nat.eqb l' l then sset (h l) field v else h l'.

(** Computations that read and write the heap and may raise; the heap
    survives a raise, as mutations do in Python. *)
Definition M (A : Type) : Type := heap -> outcome A * heap.

Definition ret {A} (a : A) : M A := fun h => (Ok a, h).
Definition mbind {A B} (c : M A) (f : A -> M B) : M B :=
  fun h => match c h with
           | (Ok a, h') => f a h'
           | (Raise e, h') => (Raise e, h')
           end.
Definition lift {A} (c : outcome A) : M A := fun h => (c, h).
Definition deref (l : loc) : M record := fun h => (Ok (h l), h).
Definition setitem (l : loc) (field : string) (v : value) : M unit :=
  fun h => (Ok tt, store h l field v).

Declare Scope rrf_scope.
Delimit Scope rrf_scope with rrf.
Notation "x <~ c1 ;; c2" := (mbind c1 (fun x => c2))
  (at level 61, c1 at next level, right associativity) : rrf_scope.
Notation "c1 ;;; c2" := (mbind c1 (fun _ => c2))
  (at level 61, right associativity) : rrf_scope.
Local Open Scope rrf_scope.

(** The two local dictionaries of [fuse_results]. *)
Record fusion := {
  doc_scores : list (key * Q);
  doc_metadata : list (key * loc)
}.

Definition default_weights : list (string * Q) :=
  [("vector", 6 # 10); ("fuzzy", 4 # 10)]%Q.

(** The statements shared by both loops of [fuse_results]:
<<
    doc_id = result["doc_id"]
    rrf_score = weights[strategy] / (self.k + rank + 1)
    if doc_id not in doc_scores:
        doc_scores[doc_id] = 0
        doc_metadata[doc_id] = result
    doc_scores[doc_id] += rrf_score
>>
    It returns the updated dictionaries and the object under
    [doc_metadata[doc_id]]. *)
Definition accumulate (k : Z) (weights : list (string * Q)) (strategy : string)
    (rank : Z) (result : loc) (st : fusion) : M (fusion * loc) :=
  r <~ deref result ;;
  doc_id_v <~ lift (getitem r "doc_id") ;;
  w <~ lift (getitem weights strategy) ;;
  rrf_score <~ lift (py_div w (k + rank + 1)) ;;
  doc_id <~ lift (hash_key doc_id_v) ;;
  let st1 :=
    if dict_mem key_eqb (doc_scores st) doc_id then st
    else {| doc_scores := dict_set key_eqb (doc_scores st) doc_id 0%Q;
            doc_metadata := dict_set key_eqb (doc_metadata st) doc_id result |} in
  match dict_get key_eqb (doc_scores st1) doc_id,
        dict_get key_eqb (doc_metadata st1) doc_id with
  | Some s, Some m =>
      ret ({| doc_scores := dict_set key_eqb (doc_scores st1) doc_id (s + rrf_score)%Q;
              doc_metadata := doc_metadata st1 |}, m)
  | _, _ => lift (Raise (KeyError "doc_id"))
  end.

(** Body of [for rank, result in enumerate(vector_results)] *)
Definition vector_step (k : Z) (weights : list (string * Q))
    (rank : Z) (result : loc) (st : fusion) : M fusion :=
  sm <~ accumulate k weights "vector" rank result st ;;
  let '(st', m) := sm in
  setitem m "vector_rank" (VInt rank) ;;;
  r <~ deref result ;;
  setitem m "vector_score" (get_default r "score" (VInt 0)) ;;;
  ret st'.

(** Body of [for rank, result in enumerate(fuzzy_results)]; the test
    [if doc_id in doc_metadata] holds whenever it is reached. *)
Definition fuzzy_step (k : Z) (weights : list (string * Q))
    (rank : Z) (result : loc) (st : fusion) : M fusion :=
  sm <~ accumulate k weights "fuzzy" rank result st ;;
  let '(st', m) := sm in
  setitem m "fuzzy_rank" (VInt rank) ;;;
  r <~ deref result ;;
  setitem m "fuzzy_score" (get_default r "score" (VInt 0)) ;;;
  r' <~ deref result ;;
  setitem m "fuzzy_type" (get_default r' "type" (VStr "")) ;;;
  ret st'.

(** [for rank, result in enumerate(results): step], from rank [rank] on *)
Fixpoint for_enumerate (step : Z -> loc -> fusion -> M fusion)
    (rank : Z) (results : list loc) (st : fusion) : M fusion :=
  match results with
  | [] => ret st
  | result :: rest =>
      st' <~ step rank result st ;;
      for_enumerate step (rank + 1) rest st'
  end.

(** One pass of the final loop: copy the stored hit and annotate the copy. *)
Definition emit (st : fusion) (h : heap) (item : key * Q) : outcome record :=
  match dict_get key_eqb (doc_metadata st) (fst item) with
  | Some m =>
      Ok (sset (sset (h m) "fused_score" (VNum (snd item))) "fusion_method" (VStr "RRF"))
  | None => Raise (KeyError "doc_id")
  end.

Fixpoint emit_all (st : fusion) (h : heap) (items : list (key * Q))
    : outcome (list record) :=
  match items with
  | [] => Ok []
  | item :: rest =>
      (r <- emit st h item ;;
       rs <- emit_all st h rest ;;
       Ok (r :: rs))%py
  end.

(** [ReciprocalRankFusion.fuse_results(vector_results, fuzzy_results, weights)]
    with [self.k = k]. *)
Definition fuse_results (k : Z) (vector_results fuzzy_results : list loc)
    (weights : option (list (string * Q))) : M (list record) :=
  let weights := match weights with
                 | None => default_weights
                 | Some w => w
                 end in
  let st0 := {| doc_scores := []; doc_metadata := [] |} in
  st1 <~ for_enumerate (vector_step k weights) 0 vector_results st0 ;;
  st2 <~ for_enumerate (fuzzy_step k weights) 0 fuzzy_results st1 ;;
  fun h => (emit_all st2 h (sorted_desc snd (doc_scores st2)), h).

(** The end-to-end scenario of the specification: two vector hits and two
    fuzzy hits, four distinct objects. *)
Definition scenario_heap : heap := fun l =>
  match l with
  | 0%nat => [("doc_id", VStr "d1"); ("score", VNum (9 # 10))]
  | 1%nat => [("doc_id", VStr "d2"); ("score", VNum (8 # 10))]
  | 2%nat => [("doc_id", VStr "d2"); ("score", VNum 12); ("snippet", VStr "two")]
  | 3%nat => [("doc_id", VStr "d3"); ("score", VNum 9)]
  | _ => []
  end.

Definition doc_ids (rs : list record) : list (option value) :=
  map (fun r => sget r "doc_id") rs.

(** The [doc_id]s of the records a run returned, in order. *)
Definition doc_ids_of_run (run : outcome (list record) * heap)
    : option (list (option value)) :=
  match fst run with
  | Ok rs => Some (doc_ids rs)
  | Raise _ => None
  end.

(** *** Vocabulary of the fusion properties *)

(** The item identifier of a hit, when it has a hashable one. *)
Definition rec_key (r : record) : option key :=
  match sget r "doc_id" with
  | Some v => match hash_key v with
              | Ok d => Some d
              | Raise _ => None
              end
  | None => None
  end.

Definition id_of (h : heap) (l : loc) : option key := rec_key (h l).

(** The identifiers of a result list, position by position. *)
Definition ids_are (h : heap) (results : list loc) (ids : list key) : Prop :=
  Forall2 (fun l d => id_of h l = Some d) results ids.

Definition rec_score (r : record) : option Q :=
  match sget r "fused_score" with
  | Some (VNum s) => Some s
  | _ => None
  end.

(** The specification's score: the sum, over the positions [rank] at which
    the item stands in a list, of [w / (k + rank + 1)]. *)
Fixpoint contributions (w : Q) (k rank : Z) (ids : list key) (d : key) : Q :=
  match ids with
  | [] => 0
  | i :: rest =>
      ((if key_eqb i d then w / inject_Z (k + rank + 1) else 0)
       + contributions w k (rank + 1) rest d)%Q
  end.

Definition rrf_total (wv wf : Q) (k : Z) (idsv idsf : list key) (d : key) : Q :=
  (contributions wv k 0 idsv d + contributions wf k 0 idsf d)%Q.

(** The fields that [fuse_results] writes into the hits it is given. *)
Definition annotations : list string :=
  ["vector_rank"; "vector_score"; "fuzzy_rank"; "fuzzy_score"; "fuzzy_type"].

Definition is_annotation (field : string) : bool :=
  existsb (String.eqb field) annotations.

(** What one pass of either loop does to [doc_scores]. *)
Definition bump (w : Q) (k rank : Z) (sc : list (key * Q)) (d : key) : list (key * Q) :=
  let sc1 := if dict_mem key_eqb sc d then sc else dict_set key_eqb sc d 0%Q in
  match dict_get key_eqb sc1 d with
  | Some s => dict_set key_eqb sc1 d (s + w / inject_Z (k + rank + 1))%Q
  | None => sc1
  end.

Fixpoint bump_all (w : Q) (k rank : Z) (ids : list key) (sc : list (key * Q))
    : list (key * Q) :=
  match ids with
  | [] => sc
  | d :: rest => bump_all w k (rank + 1) rest (bump w k rank sc d)
  end.

Definition score_or0 (sc : list (key * Q)) (d : key) : Q :=
  match dict_get key_eqb sc d with
  | Some s => s
  | None => 0%Q
  end.

(** [h'] differs from [h] at most in annotation fields of the object [m]. *)
Definition annotates (m : loc) (h h' : heap) : Prop :=
  (forall l, l <> m -> h' l = h l) /\
  (forall f, is_annotation f = false -> sget (h' m) f = sget (h m) f).

(** [h'] differs from [h] at most in annotation fields of objects of [ls]. *)
Definition frame (ls : list loc) (h h' : heap) : Prop :=
  (forall l, ~ In l ls -> h' l = h l) /\
  (forall l f, is_annotation f = false -> sget (h' l) f = sget (h l) f).

(** [h'] differs from [h] at most in the fields [fields] of the object [m]. *)
Definition writes (fields : list string) (m : loc) (h h' : heap) : Prop :=
  (forall l, l <> m -> h' l = h l) /\
  (forall f, ~ In f fields -> sget (h' m) f = sget (h m) f).

(** No object has a field outside [fields] changed between [h] and [h']. *)
Definition keeps (fields : list string) (h h' : heap) : Prop :=
  forall l f, ~ In f fields -> sget (h' l) f = sget (h l) f.

(** The first hit of [ls] whose identifier equals [d]. *)
Definition first_hit (h : heap) (d : key) (ls : list loc) : option loc :=
  find (fun l => match id_of h l with
                 | Some d' => key_eqb d' d
                 | None => false
                 end) ls.

(** Every object kept in [doc_metadata] comes from [ls]. *)
Definition locs_in (st : fusion) (ls : list loc) : Prop :=
  forall d m, In (d, m) (doc_metadata st) -> In m ls.

(** The loop invariant of [fuse_results], after the hits [seen]: both
    dictionaries have the same keys, pairwise different; each key is the
    identifier of the object stored under it, which is the first hit
    seen with that identifier; every hit seen has its key. *)
Definition Inv (st : fusion) (h : heap) (seen : list loc) : Prop :=
  map fst (doc_scores st) = map fst (doc_metadata st) /\
  NoDupA keq (map fst (doc_scores st)) /\
  (forall d m, In (d, m) (doc_metadata st) ->
     id_of h m = Some d /\ first_hit h d seen = Some m) /\
  (forall l, In l seen ->
     exists d, id_of h l = Some d /\ dict_mem key_eqb (doc_scores st) d = true).

(** A loop body that runs [accumulate] for [strategy] and then only
    annotates the object [accumulate] hands back. *)
Definition annotating (k : Z) (ws : list (string * Q)) (strategy : string)
    (step : Z -> loc -> fusion -> M fusion) : Prop :=
  forall rank result st h,
    match accumulate k ws strategy rank result st h with
    | (Ok (st', m), _) =>
        exists h', step rank result st h = (Ok st', h') /\ annotates m h h'
    | (Raise e, _) => step rank result st h = (Raise e, h)
    end.

(** A loop body that, after [accumulate], writes only [fields] of the
    object handed back, among them the rank of the current hit and its
    [score] (0 when it has none). *)
Definition ranking (k : Z) (ws : list (string * Q)) (strategy : string)
    (fields : list string) (rank_field score_field : string)
    (step : Z -> loc -> fusion -> M fusion) : Prop :=
  forall rank result st h,
    match accumulate k ws strategy rank result st h with
    | (Ok (st', m), _) =>
        exists h', step rank result st h = (Ok st', h') /\ writes fields m h h' /\
          sget (h' m) rank_field = Some (VInt rank) /\
          sget (h' m) score_field = Some (get_default (h result) "score" (VInt 0))
    | (Raise e, _) => step rank result st h = (Raise e, h)
    end.

(** The record [o] carries the rank and the score that the item [d] has
    at some position of [results] (ranks counted from [rank0], identifiers
    and scores read in [h0]). *)
Definition ranked (rank_field score_field : string) (h0 : heap)
    (results : list loc) (rank0 : Z) (d : key) (o : record) : Prop :=
  exists r l d',
    nth_error results r = Some l /\ id_of h0 l = Some d' /\ keq d' d /\
    sget o rank_field = Some (VInt (rank0 + Z.of_nat r)) /\
    sget o score_field = Some (get_default (h0 l) "score" (VInt 0)).

(** The item [d] stands somewhere in [results]. *)
Definition occurs (h0 : heap) (d : key) (results : list loc) : Prop :=
  exists l d', In l results /\ id_of h0 l = Some d' /\ keq d' d.

(** [h] agrees with [h0] on every field that is not an annotation. *)
Definition same_data (h0 h : heap) : Prop :=
  forall l f, is_annotation f = false -> sget (h l) f = sget (h0 l) f.

Definition vector_fields : list string := ["vector_rank"; "vector_score"].
Definition fuzzy_fields : list string := ["fuzzy_rank"; "fuzzy_score"; "fuzzy_type"].

(** The last hit of [results] whose identifier equals [d], with its
    rank; the ranks count from [rank]. *)
Fixpoint last_hit (h : heap) (d : key) (rank : Z) (results : list loc)
    : option (Z * loc) :=
  match results with
  | [] => None
  | l :: rest =>
      match last_hit h d (rank + 1) rest with
      | Some found => Some found
      | None =>
          match id_of h l with
          | Some d' => if key_eqb d' d then Some (rank, l) else None
          | None => None
          end
      end
  end.

(** The entries that the vector loop and the fuzzy loop write for a hit
    [hit] of rank [rank]. *)
Definition vector_annotations (rank : Z) (hit : record) : list (string * value) :=
  [("vector_rank", VInt rank);
   ("vector_score", get_default hit "score" (VInt 0))].

Definition fuzzy_annotations (rank : Z) (hit : record) : list (string * value) :=
  [("fuzzy_rank", VInt rank);
   ("fuzzy_score", get_default hit "score" (VInt 0));
   ("fuzzy_type", get_default hit "type" (VStr ""))].

(** A loop body that, after [accumulate], writes the entries [written]
    of the current hit into the object handed back, and nothing else. *)
Definition stamping (k : Z) (ws : list (string * Q)) (strategy : string)
    (written : Z -> record -> list (string * value))
    (step : Z -> loc -> fusion -> M fusion) : Prop :=
  forall rank result st h,
    match accumulate k ws strategy rank result st h with
    | (Ok (st', m), _) =>
        exists h', step rank result st h = (Ok st', h') /\
          writes (map fst (written rank (h result))) m h h' /\
          (forall f v, In (f, v) (written rank (h result)) -> sget (h' m) f = Some v)
    | (Raise e, _) => step rank result st h = (Raise e, h)
    end.

(** After the call the object [o] carries the entries [written] of the
    last hit of the item [d] in [results], or, when the item has no hit
    there, the fields [fields] as the object [o0] had them before. *)
Definition stamped (written : Z -> record -> list (string * value))
    (fields : list string) (h : heap) (results : list loc) (d : key)
    (o0 o : record) : Prop :=
  match last_hit h d 0 results with
  | Some (rank, l) => forall f v, In (f, v) (written rank (h l)) -> sget o f = Some v
  | None => forall f, In f fields -> sget o f = sget o0 f
  end.

End RRF.

(** ** retrieval_service/graph_memory.py: class NeuralGraphMemory *)

Module NGM.

Definition attrs := list (string * value).

(** [networkx.DiGraph]: the nodes and the edges with their attribute
    dictionaries, both in insertion order. *)
Record DiGraph := {
  nodes : list (string * attrs);
  edges : list ((string * string) * attrs)
}.

Definition empty_graph : DiGraph := {| nodes := []; edges := [] |}.

(** [n in G] *)
Definition has_node (G : DiGraph) (n : string) : bool :=
  dict_mem String.eqb (nodes G) n.

Definition has_edge (G : DiGraph) (u v : string) : bool :=
  dict_mem pair_eqb (edges G) (u, v).

Definition number_of_nodes (G : DiGraph) : nat := length (nodes G).
Definition number_of_edges (G : DiGraph) : nat := length (edges G).

(** [G.add_node(n, **attr)]: a new node gets [attr], a known node has its
    attribute dictionary updated with [attr]. *)
Definition nx_add_node (G : DiGraph) (n : string) (attr : attrs) : DiGraph :=
  {| nodes := sset (nodes G) n
                (dict_update String.eqb (get_default (nodes G) n []) attr);
     edges := edges G |}.

Definition ensure_node (ns : list (string * attrs)) (n : string)
    : list (string * attrs) :=
  if dict_mem String.eqb ns n then ns else sset ns n [].

(** [G.add_edge(u, v, **attr)]: missing end points become nodes without
    attributes; the attribute dictionary of the edge is updated. *)
Definition nx_add_edge (G : DiGraph) (u v : string) (attr : attrs) : DiGraph :=
  {| nodes := ensure_node (ensure_node (nodes G) u) v;
     edges :=
       dict_set pair_eqb (edges G) (u, v)
         (dict_update String.eqb
            (match dict_get pair_eqb (edges G) (u, v) with
             | Some a => a
             | None => []
             end) attr) |}.

Definition successors (G : DiGraph) (n : string) : list string :=
  map (fun e => snd (fst e))
      (filter (fun e => String.eqb (fst (fst e)) n) (edges G)).

(** [G.neighbors(n)] *)
Definition neighbors (G : DiGraph) (n : string) : outcome (list string) :=
  if has_node G n then Ok (successors G n)
  else Raise (NetworkXError "The node is not in the digraph.").

(** [G.nodes[n]] *)
Definition node_data (G : DiGraph) (n : string) : outcome attrs :=
  getitem (nodes G) n.

(** [G.edges[u, v]] *)
Definition edge_data (G : DiGraph) (u v : string) : outcome attrs :=
  match dict_get pair_eqb (edges G) (u, v) with
  | Some a => Ok a
  | None => Raise (KeyError v)
  end.

(** The three algorithms the class takes from networkx.  They are not
    part of the repository and stay abstract:
    [nx.pagerank(G, weight='weight')],
    [nx.shortest_path_length(G, source, target)] and
    [nx.shortest_path(G, source, target, weight='weight')]. *)
Record Networkx := {
  pagerank : DiGraph -> outcome (list (string * Q));
  shortest_path_length : DiGraph -> string -> string -> outcome Z;
  shortest_path : DiGraph -> string -> string -> outcome (list string)
}.

(** [p] leads from [s] to [t] along edges of [G]. *)
Fixpoint chain (G : DiGraph) (s : string) (p : list string) (t : string) : bool :=
  match p with
  | [] => String.eqb s t
  | x :: p' => has_edge G s x && chain G x p' t
  end.

Definition is_path (G : DiGraph) (s t : string) (p : list string) : bool :=
  match p with
  | [] => false
  | x :: p' => String.eqb x s && chain G s p' t
  end.

(** What the properties below assume of the library for one query: a
    path it returns is a path of the graph, and a length it returns is
    the number of edges of such a path. *)
Definition sound_on (nx : Networkx) (G : DiGraph) (s t : string) : Prop :=
  (forall p, shortest_path nx G s t = Ok p -> is_path G s t p = true) /\
  (forall n, shortest_path_length nx G s t = Ok n ->
     exists p, is_path G s t p = true /\ Z.of_nat (length p) = n + 1).

(** What the interpreter supplies: [datetime.now().isoformat()] and
    [hash]. *)
Record env := {
  now : string;
  hash : string -> Z
}.

Record NeuralGraphMemory := {
  graph : DiGraph;
  embeddings_cache : list (string * list Q)
}.

Definition node_types : list (string * attrs) :=
  [("document", [("color", VStr "#4CAF50"); ("shape", VStr "rectangle")]);
   ("function", [("color", VStr "#2196F3"); ("shape", VStr "ellipse")]);
   ("class", [("color", VStr "#FF9800"); ("shape", VStr "diamond")]);
   ("conversation", [("color", VStr "#9C27B0"); ("shape", VStr "circle")]);
   ("edit", [("color", VStr "#F44336"); ("shape", VStr "triangle")]);
   ("error", [("color", VStr "#795548"); ("shape", VStr "hexagon")])].

Definition unit_range : value := VList [VNum 0; VNum 1].

Definition edge_types : list (string * attrs) :=
  [("similarity", [("weight_range", unit_range); ("color", VStr "#2196F3")]);
   ("dependency", [("weight_range", unit_range); ("color", VStr "#4CAF50")]);
   ("temporal", [("weight_range", unit_range); ("color", VStr "#FF9800")]);
   ("conversation", [("weight_range", unit_range); ("color", VStr "#9C27B0")]);
   ("edit_relation", [("weight_range", unit_range); ("color", VStr "#F44336")])].

(** The attribute dictionary [add_node] builds. *)
Definition node_attrs (e : env) (node_type content : string)
    (metadata : option attrs) : attrs :=
  let attrs0 :=
    [("type", VStr node_type);
     ("content", VStr content);
     ("metadata", VDict (match metadata with
                         | None => []
                         | Some m => m
                         end));
     ("created_at", VStr (now e));
     ("content_hash", VInt (hash e content))] in
  match sget node_types node_type with
  | Some visual => dict_update String.eqb attrs0 visual
  | None => attrs0
  end.

(** The statements of [add_node] inside [try]; on arguments of the
    annotated types none of them raises. *)
Definition add_node_body (self : NeuralGraphMemory) (e : env)
    (node_id node_type content : string)
    (metadata : option attrs) (embedding : option (list Q))
    : outcome bool * NeuralGraphMemory :=
  let g := nx_add_node (graph self) node_id (node_attrs e node_type content metadata) in
  let cache := match embedding with
               | Some emb => sset (embeddings_cache self) node_id emb
               | None => embeddings_cache self
               end in
  (Ok true, {| graph := g; embeddings_cache := cache |}).

(** [NeuralGraphMemory.add_node(node_id, node_type, content, metadata, embedding)] *)
Definition add_node (self : NeuralGraphMemory) (e : env)
    (node_id node_type content : string)
    (metadata : option attrs) (embedding : option (list Q))
    : outcome bool * NeuralGraphMemory :=
  let '(r, self') := add_node_body self e node_id node_type content metadata embedding in
  (try_except r (fun _ => Ok false), self').


(** [f"{weight:.3f}"] *)
Definition format_3f (v : value) : outcome unit :=
  match v with
  | VInt _ | VNum _ => Ok tt
  | VStr _ => Raise (ValueError "Unknown format code 'f' for object of type 'str'")
  | _ => Raise (TypeError "unsupported format string passed to __format__")
  end.

(** The attribute dictionary [add_edge] builds; [metadata or {}]. *)
Definition edge_attrs (e : env) (edge_type : string) (weight : value)
    (metadata : option attrs) : attrs :=
  let attrs0 :=
    [("type", VStr edge_type);
     ("weight", weight);
     ("metadata", VDict (match metadata with
                         | None => []
                         | Some m => m
                         end));
     ("created_at", VStr (now e))] in
  match sget edge_types edge_type with
  | Some visual => dict_update String.eqb attrs0 visual
  | None => attrs0
  end.

(** The statements of [add_edge] inside [try].  The message of
    [logger.debug] is built after the edge is in the graph and formats
    [weight], which raises for a weight that is not a number. *)
Definition add_edge_body (self : NeuralGraphMemory) (e : env)
    (source target edge_type : string) (weight : value) (metadata : option attrs)
    : outcome bool * NeuralGraphMemory :=
  if negb (has_node (graph self) source) || negb (has_node (graph self) target)
  then (Ok false, self)
  else
    let self' :=
      {| graph := nx_add_edge (graph self) source target
                    (edge_attrs e edge_type weight metadata);
         embeddings_cache := embeddings_cache self |} in
    ((_ <- format_3f weight ;; Ok true)%py, self').

(** [NeuralGraphMemory.add_edge(source, target, edge_type, weight, metadata)] *)
Definition add_edge (self : NeuralGraphMemory) (e : env)
    (source target edge_type : string) (weight : value) (metadata : option attrs)
    : outcome bool * NeuralGraphMemory :=
  let '(r, self') := add_edge_body self e source target edge_type weight metadata in
  (try_except r (fun _ => Ok false), self').

(** *** query_neighbors *)

Record neighbor_info := {
  nb_node_id : string;
  nb_node_type : value;
  nb_edge_type : value;
  nb_weight : value;
  nb_depth : Z;
  nb_content_preview : value
}.

(** The keys of the mapping [query_neighbors] returns: a depth, or the
    string ["neighbors"]. *)
Inductive nkey : Type :=
| Depth (d : Z)
| Neighbors.

Definition neighborhood := list (nkey * list neighbor_info).

(** [v[:n]] *)
Definition py_slice (v : value) (n : nat) : outcome value :=
  match v with
  | VStr s => Ok (VStr (str_prefix n s))
  | VList l => Ok (VList (firstn n l))
  | _ => Raise (TypeError "object is not subscriptable")
  end.

(** [edge_types and edge_data.get("type") not in edge_types] *)
Definition filtered_out (edge_types : option (list string)) (ed : attrs) : bool :=
  match edge_types with
  | None | Some [] => false
  | Some ts =>
      match sget ed "type" with
      | Some (VStr t) => negb (existsb (String.eqb t) ts)
      | _ => true
      end
  end.

Definition zget {V} (d : list (Z * V)) (k : Z) : option V := dict_get Z.eqb d k.

(** [neighbors_by_depth[d].append(info)] on a [defaultdict(list)] *)
Definition append_at (acc : list (Z * list neighbor_info)) (d : Z)
    (info : neighbor_info) : list (Z * list neighbor_info) :=
  dict_set Z.eqb acc d
    (match zget acc d with
     | Some l => l ++ [info]
     | None => [info]
     end).

(** [for neighbor in self.graph.neighbors(current_node): ...] *)
Fixpoint qn_for (G : DiGraph) (edge_types : option (list string)) (max_depth : value)
    (current : string) (depth : Z) (nbrs : list string)
    (acc : list (Z * list neighbor_info)) (queue : list (string * Z))
    : outcome (list (Z * list neighbor_info) * list (string * Z)) :=
  match nbrs with
  | [] => Ok (acc, queue)
  | neighbor :: rest =>
      (ed <- edge_data G current neighbor ;;
       if filtered_out edge_types ed
       then qn_for G edge_types max_depth current depth rest acc queue
       else
         nd <- node_data G neighbor ;;
         preview <- py_slice (get_default nd "content" (VStr "")) 100 ;;
         let info :=
           {| nb_node_id := neighbor;
              nb_node_type := get_default nd "type" (VStr "unknown");
              nb_edge_type := get_default ed "type" (VStr "unknown");
              nb_weight := get_default ed "weight" (VNum 0);
              nb_depth := depth + 1;
              nb_content_preview := preview |} in
         push <- py_lt (depth + 1) max_depth ;;
         qn_for G edge_types max_depth current depth rest
           (append_at acc (depth + 1) info)
           (if push then queue ++ [(neighbor, depth + 1)] else queue))%py
  end.

(** [while queue: ...]; [fuel] bounds the number of items taken off the
    queue, [None] means the bound was too small. *)
Fixpoint qn_loop (fuel : nat) (G : DiGraph) (edge_types : option (list string))
    (max_depth : value) (queue : list (string * Z)) (visited : list string)
    (acc : list (Z * list neighbor_info))
    : option (outcome (list (Z * list neighbor_info))) :=
  match queue with
  | [] => Some (Ok acc)
  | (current, depth) :: rest =>
      match fuel with
      | O => None
      | S fuel' =>
          match py_gt depth max_depth with
          | Raise e => Some (Raise e)
          | Ok beyond =>
              if beyond || existsb (String.eqb current) visited
              then qn_loop fuel' G edge_types max_depth rest visited acc
              else
                match (nbrs <- neighbors G current ;;
                       qn_for G edge_types max_depth current depth nbrs acc rest)%py with
                | Raise e => Some (Raise e)
                | Ok (acc', queue') =>
                    qn_loop fuel' G edge_types max_depth queue' (current :: visited) acc'
                end
          end
      end
  end.

(** A node is expanded once and each expansion queues at most its
    successors, so no more than one item per edge and the first one
    ever leave the queue. *)
Definition walk_fuel (G : DiGraph) : nat := S (length (edges G)).

Definition not_found : neighborhood := [(Neighbors, [])].

(** [NeuralGraphMemory.query_neighbors(node_id, max_depth, edge_types)] *)
Definition query_neighbors (self : NeuralGraphMemory) (node_id : string)
    (max_depth : value) (edge_types : option (list string))
    : option (outcome neighborhood) :=
  let G := graph self in
  if negb (has_node G node_id) then Some (Ok not_found)
  else
    match qn_loop (walk_fuel G) G edge_types max_depth [(node_id, 0)] [] [] with
    | None => None
    | Some body =>
        Some (try_except
                (acc <- body ;; Ok (map (fun dl => (Depth (fst dl), snd dl)) acc))%py
                (fun _ => Ok not_found))
    end.

(** *** reasoning_walk *)

(** The result dictionaries of the three strategies; the constructor is
    the value under ["method"]. *)
Inductive walk_result : Type :=
| Bfs (node_id : string) (path : list string) (depth : Z) (composite_score : Q)
| Pagerank (node_id : string) (pagerank_score : Q) (path_length : Z)
    (composite_score : Q)
| Shortest_path (node_id : string) (path : list string) (path_length : Z)
    (path_weight : Q) (composite_score : Q).

Definition node_id (r : walk_result) : string :=
  match r with
  | Bfs n _ _ _ | Pagerank n _ _ _ | Shortest_path n _ _ _ _ => n
  end.

Definition composite_score (r : walk_result) : Q :=
  match r with
  | Bfs _ _ _ s | Pagerank _ _ _ s | Shortest_path _ _ _ _ s => s
  end.

(** [v == goal_type] for a value [v] and a string *)
Definition is_type (v : value) (goal_type : string) : bool :=
  match v with
  | VStr s => String.eqb s goal_type
  | _ => false
  end.

(** [for neighbor in self.graph.neighbors(current): if neighbor not in
    visited: queue.append((neighbor, depth + 1, path + [current]))] *)
Fixpoint bfs_for (visited : list string) (current : string) (depth : Z)
    (path : list string) (nbrs : list string)
    (queue : list (string * Z * list string)) : list (string * Z * list string) :=
  match nbrs with
  | [] => queue
  | neighbor :: rest =>
      bfs_for visited current depth path rest
        (if existsb (String.eqb neighbor) visited then queue
         else queue ++ [(neighbor, depth + 1, path ++ [current])])
  end.

(** [while queue and len(results) < 10: ...] of [_bfs_search] *)
Fixpoint bfs_loop (fuel : nat) (G : DiGraph) (start_node goal_type : string)
    (max_steps : value) (queue : list (string * Z * list string))
    (visited : list string) (results : list walk_result)
    : option (outcome (list walk_result)) :=
  match queue with
  | [] => Some (Ok results)
  | (current, depth, path) :: rest =>
      if (10 <=? length results)%nat then Some (Ok results)
      else
        match fuel with
        | O => None
        | S fuel' =>
            match py_gt depth max_steps with
            | Raise e => Some (Raise e)
            | Ok beyond =>
                if beyond || existsb (String.eqb current) visited
                then bfs_loop fuel' G start_node goal_type max_steps rest visited results
                else
                  let visited' := current :: visited in
                  match node_data G current with
                  | Raise e => Some (Raise e)
                  | Ok nd =>
                      let results' :=
                        if is_type (get_default nd "type" (VStr "")) goal_type
                           && negb (String.eqb current start_node)
                        then results ++ [Bfs current (path ++ [current]) depth
                                           (1 / inject_Z (depth + 1))%Q]
                        else results in
                      match neighbors G current with
                      | Raise e => Some (Raise e)
                      | Ok nbrs =>
                          bfs_loop fuel' G start_node goal_type max_steps
                            (bfs_for visited' current depth path nbrs rest)
                            visited' results'
                      end
                  end
            end
        end
  end.

(** [NeuralGraphMemory._bfs_search(start_node, goal_type, max_steps)] *)
Definition _bfs_search (G : DiGraph) (start_node goal_type : string)
    (max_steps : value) : option (outcome (list walk_result)) :=
  bfs_loop (walk_fuel G) G start_node goal_type max_steps [(start_node, 0, [])] [] [].

(** [node_data.get("type") == goal_type] *)
Definition has_type (nd : attrs) (goal_type : string) : bool :=
  match sget nd "type" with
  | Some v => is_type v goal_type
  | None => false
  end.

(** The loop of [_pagerank_search] over [self.graph.nodes(data=True)];
    its inner [try] skips a node on [NetworkXNoPath] only. *)
Fixpoint pagerank_for (nx : Networkx) (G : DiGraph) (start_node goal_type : string)
    (max_steps : value) (pr : list (string * Q)) (ns : list (string * attrs))
    (goal_nodes : list walk_result) : outcome (list walk_result) :=
  match ns with
  | [] => Ok goal_nodes
  | (n, nd) :: rest =>
      if has_type nd goal_type then
        match shortest_path_length nx G start_node n with
        | Raise NetworkXNoPath =>
            pagerank_for nx G start_node goal_type max_steps pr rest goal_nodes
        | Raise e => Raise e
        | Ok path_length =>
            (within <- py_le path_length max_steps ;;
             if within then
               let score := get_default pr n 0%Q in
               composite <- py_div score (path_length + 1) ;;
               pagerank_for nx G start_node goal_type max_steps pr rest
                 (goal_nodes ++ [Pagerank n score path_length composite])
             else
               pagerank_for nx G start_node goal_type max_steps pr rest goal_nodes)%py
        end
      else pagerank_for nx G start_node goal_type max_steps pr rest goal_nodes
  end.

(** [NeuralGraphMemory._pagerank_search(start_node, goal_type, max_steps)] *)
Definition _pagerank_search (nx : Networkx) (G : DiGraph) (start_node goal_type : string)
    (max_steps : value) : outcome (list walk_result) :=
  try_except
    (pr <- pagerank nx G ;;
     pagerank_for nx G start_node goal_type max_steps pr (nodes G) [])%py
    (fun _ => Ok []).

(** [path_weight]: the sum of [edge_data.get("weight", 0)] along [path] *)
Fixpoint sum_weights (G : DiGraph) (path : list string) : outcome Q :=
  match path with
  | a :: (b :: _) as rest =>
      (ed <- edge_data G a b ;;
       w <- as_number (get_default ed "weight" (VInt 0)) ;;
       s <- sum_weights G rest ;;
       Ok (w + s)%Q)%py
  | _ => Ok 0%Q
  end.

(** [len(path) <= max_steps + 1] *)
Definition fits (path : list string) (max_steps : value) : outcome bool :=
  (limit <- py_add max_steps 1 ;; py_le (Z.of_nat (length path)) limit)%py.

(** The loop of [_shortest_path_search] over the goal nodes. *)
Fixpoint shortest_for (nx : Networkx) (G : DiGraph) (start_node : string)
    (max_steps : value) (goal_nodes : list string) (results : list walk_result)
    : outcome (list walk_result) :=
  match goal_nodes with
  | [] => Ok results
  | goal_node :: rest =>
      match shortest_path nx G start_node goal_node with
      | Raise NetworkXNoPath => shortest_for nx G start_node max_steps rest results
      | Raise e => Raise e
      | Ok path =>
          (short <- fits path max_steps ;;
           if short then
             path_weight <- sum_weights G path ;;
             composite <- py_div path_weight (Z.of_nat (length path)) ;;
             shortest_for nx G start_node max_steps rest
               (results ++ [Shortest_path goal_node path
                              (Z.of_nat (length path) - 1) path_weight composite])
           else shortest_for nx G start_node max_steps rest results)%py
      end
  end.

Definition nodes_of_type (G : DiGraph) (goal_type : string) : list string :=
  map fst (filter (fun nd => has_type (snd nd) goal_type) (nodes G)).

(** [NeuralGraphMemory._shortest_path_search(start_node, goal_type, max_steps)] *)
Definition _shortest_path_search (nx : Networkx) (G : DiGraph)
    (start_node goal_type : string) (max_steps : value)
    : outcome (list walk_result) :=
  try_except
    (shortest_for nx G start_node max_steps (nodes_of_type G goal_type) [])
    (fun _ => Ok []).

(** The loop of [reasoning_walk] over the start nodes. *)
Fixpoint walk_from (nx : Networkx) (G : DiGraph) (start_nodes : list string)
    (goal_type : string) (max_steps : value) (results : list walk_result)
    : option (outcome (list walk_result)) :=
  match start_nodes with
  | [] => Some (Ok results)
  | start_node :: rest =>
      if negb (has_node G start_node)
      then walk_from nx G rest goal_type max_steps results
      else
        match _bfs_search G start_node goal_type max_steps with
        | None => None
        | Some (Raise e) => Some (Raise e)
        | Some (Ok bfs_results) =>
            match (pagerank_results <- _pagerank_search nx G start_node goal_type max_steps ;;
                   shortest_results <- _shortest_path_search nx G start_node goal_type max_steps ;;
                   Ok (results ++ bfs_results ++ pagerank_results ++ shortest_results))%py with
            | Raise e => Some (Raise e)
            | Ok results' => walk_from nx G rest goal_type max_steps results'
            end
        end
  end.

(** The first result of each [node_id] *)
Fixpoint dedupe (seen : list string) (results : list walk_result) : list walk_result :=
  match results with
  | [] => []
  | r :: rest =>
      if existsb (String.eqb (node_id r)) seen then dedupe seen rest
      else r :: dedupe (node_id r :: seen) rest
  end.

(** [NeuralGraphMemory.reasoning_walk(start_nodes, goal_type, max_steps)] *)
Definition reasoning_walk (nx : Networkx) (self : NeuralGraphMemory)
    (start_nodes : list string) (goal_type : string) (max_steps : value)
    : option (outcome (list walk_result)) :=
  match walk_from nx (graph self) start_nodes goal_type max_steps [] with
  | None => None
  | Some body =>
      Some (try_except
              (results <- body ;; Ok (sorted_desc composite_score (dedupe [] results)))%py
              (fun _ => Ok []))
  end.

(** *** Vocabulary of the graph properties *)

(** Every end point of an edge is a node, as in any networkx graph. *)
Definition wf (G : DiGraph) : Prop :=
  forall u v a, In ((u, v), a) (edges G) -> has_node G u = true /\ has_node G v = true.

(** The test of [_bfs_search] on a node: [nodes[n].get("type", "") == goal_type]. *)
Definition node_is (G : DiGraph) (n goal_type : string) : bool :=
  match sget (nodes G) n with
  | Some nd => is_type (get_default nd "type" (VStr "")) goal_type
  | None => false
  end.

(** The nodes that pass that test. *)
Definition nodes_of_bfs_type (G : DiGraph) (goal_type : string) : list string :=
  map fst (filter (fun nd => is_type (get_default (snd nd) "type" (VStr "")) goal_type)
             (nodes G)).

(** The state of the loop of [_bfs_search]. *)
Definition bfs_state : Type :=
  (list (string * Z * list string) * list string * list walk_result)%type.

(** One pass of that loop on a queue that starts with [(current, depth,
    path)], for an integer [max_steps] and a [current] that is a node. *)
Definition bfs_step (G : DiGraph) (start_node goal_type : string) (max_steps : Z)
    (current : string) (depth : Z) (path : list string)
    (rest : list (string * Z * list string))
    (visited : list string) (results : list walk_result) : bfs_state :=
  if (max_steps <? depth) || existsb (String.eqb current) visited
  then (rest, visited, results)
  else
    (bfs_for (current :: visited) current depth path (successors G current) rest,
     current :: visited,
     if node_is G current goal_type && negb (String.eqb current start_node)
     then results ++ [Bfs current (path ++ [current]) depth (1 / inject_Z (depth + 1))%Q]
     else results).

(** What holds of every queue entry of [_bfs_search] from [start] when
    the graph has no edge from [start] to [goal]: the node is in the
    graph, only [start] stands at depth 0, and [goal] stands at depth 2
    or deeper. *)
Definition entry_ok (G : DiGraph) (start goal : string)
    (x : string * Z * list string) : Prop :=
  has_node G (fst (fst x)) = true /\
  0 <= snd (fst x) /\
  (fst (fst x) <> start -> 1 <= snd (fst x)) /\
  (fst (fst x) = goal -> 2 <= snd (fst x)).

(** Invariant of the loop of [_bfs_search] with [max_steps = 1]. *)
Definition inv_one_step (G : DiGraph) (start goal : string) (st : bfs_state) : Prop :=
  let '(queue, visited, results) := st in
  Forall (entry_ok G start goal) queue /\
  (forall r, In r results -> node_id r <> goal).

(** Invariant of the loop of [_bfs_search] with [max_steps = 2], for
    edges [start -> mid -> goal]: until [goal] is reached the queue
    holds [goal] at depth 2, or [mid] among its entries of depth 1, or
    it is the initial queue. *)
Definition inv_two_steps (G : DiGraph) (start mid goal goal_type : string)
    (st : bfs_state) : Prop :=
  let '(queue, visited, results) := st in
  Forall (entry_ok G start goal) queue /\
  (forall r, In r results ->
     exists n p d,
       r = Bfs n p d (1 / inject_Z (d + 1))%Q /\
       existsb (String.eqb n) visited = true /\
       node_is G n goal_type = true /\
       (n = goal -> d = 2)) /\
  NoDup (map node_id results) /\
  (existsb (String.eqb goal) visited = true ->
     exists r, In r results /\ node_id r = goal) /\
  (existsb (String.eqb goal) visited = false ->
     (exists p, In (goal, 2, p) queue) \/
     (existsb (String.eqb mid) visited = false /\
      exists A B, queue = A ++ B /\
        Forall (fun x : string * Z * list string => snd (fst x) = 1) A /\
        exists p, In (mid, 1, p) A) \/
     (queue = [(start, 0, [])] /\ visited = [])).

(** The edges that leave a node not yet expanded. *)
Definition pending (G : DiGraph) (visited : list string) : nat :=
  length (filter (fun e => negb (existsb (String.eqb (fst (fst e))) visited)) (edges G)).

(** *** Example graphs *)

Definition env0 : env := {| now := "2025-01-01T00:00:00"; hash := fun _ => 0 |}.
Definition env1 : env := {| now := "2025-01-02T00:00:00"; hash := fun _ => 0 |}.

Definition empty_memory : NeuralGraphMemory :=
  {| graph := empty_graph; embeddings_cache := [] |}.

(** [mem.add_node(id, type, content)] followed by more calls. *)
Definition with_node (self : NeuralGraphMemory) (e : env) (id type content : string)
    : NeuralGraphMemory :=
  snd (add_node self e id type content None None).

Definition with_edge (self : NeuralGraphMemory) (e : env) (source target : string)
    : NeuralGraphMemory :=
  snd (add_edge self e source target "dependency" (VNum (5 # 10)) None).

(** A graph with the single node "a". *)
Definition memory_a : NeuralGraphMemory :=
  with_node empty_memory env0 "a" "document" "alpha".

(** A graph with the single node "s", a function. *)
Definition memory_s : NeuralGraphMemory :=
  with_node empty_memory env0 "s" "function" "def s(): pass".

(** start -> mid -> goal, where only goal is a function. *)
Definition memory_path : NeuralGraphMemory :=
  with_edge
    (with_edge
       (with_node
          (with_node
             (with_node empty_memory env0 "start" "document" "notes")
             env0 "mid" "class" "class Mid")
          env0 "goal" "function" "def goal(): pass")
       env0 "start" "mid")
    env0 "mid" "goal".

(** The same with the extra edge start -> goal. *)
Definition memory_shortcut : NeuralGraphMemory :=
  with_edge memory_path env0 "start" "goal".

(** A stand-in for networkx with which the examples run: every node has
    the same rank and both path queries search breadth first, without
    weights.  On the example graphs these are the paths networkx finds. *)
Fixpoint search (fuel : nat) (G : DiGraph) (t : string)
    (queue : list (list string)) (visited : list string) : option (list string) :=
  match fuel with
  | O => None
  | S fuel' =>
      match queue with
      | [] => None
      | [] :: rest => search fuel' G t rest visited
      | (n :: p) :: rest =>
          if String.eqb n t then Some (rev (n :: p))
          else if existsb (String.eqb n) visited then search fuel' G t rest visited
          else search fuel' G t
                 (rest ++ map (fun m => m :: n :: p) (successors G n))
                 (n :: visited)
      end
  end.

Definition plain_path (G : DiGraph) (s t : string) : outcome (list string) :=
  match search (2 * S (length (edges G))) G t [[s]] [] with
  | Some p => Ok p
  | None => Raise NetworkXNoPath
  end.

Definition plain_nx : Networkx :=
  {| pagerank := fun G =>
       Ok (map (fun nd => (fst nd, 1 # Pos.of_nat (length (nodes G)))) (nodes G));
     shortest_path_length := fun G s t =>
       (p <- plain_path G s t ;; Ok (Z.of_nat (length p) - 1))%py;
     shortest_path := plain_path |}.

End NGM.

(** ** retrieval_service/rag_orchestrator.py: RAGOrchestrator.hybrid_retrieve *)

Module RAG.
Import RRF NGM.

(** The collaborators of [hybrid_retrieve]: the vector search
    [self.vector_manager.query_semantic(query, k, pilot_id)], the fuzzy
    search [self.fuzzy_manager.query_fuzzy(query, k)] and the keyword
    match [self._find_query_nodes(query)], which catches its own
    exceptions and returns node ids.  The orchestrator calls whatever
    objects it holds, so what [hybrid_retrieve] does by itself is stated
    for every behaviour of the two searches, a raise included.  The
    managers that [__init__] installs never raise; they are embedded in
    [Managers] below. *)
Record collaborators := {
  query_semantic : string -> Z -> option string -> outcome (list record);
  query_fuzzy : string -> Z -> outcome (list record);
  _find_query_nodes : string -> list string
}.

(** The dictionary [results] of [hybrid_retrieve]. *)
Record results := {
  query : string;
  mode : string;
  pilot_id : option string;
  timestamp : string;
  vector_results : list record;
  fuzzy_results : list record;
  graph_results : list neighbor_info;
  fused_results : list record
}.

(** What [hybrid_retrieve] returns: [results], or the dictionary
    [{"error": str(e), "query": query}] of its handler. *)
Inductive retrieval : Type :=
| Retrieved (r : results)
| Failed (error : string) (query : string).

(** [mode in modes] *)
Definition mode_in (mode : string) (modes : list string) : bool :=
  existsb (String.eqb mode) modes.

(** The hits of both lists as objects: the vector hits from location 0,
    the fuzzy hits after them. *)
Definition allocate (vector_hits fuzzy_hits : list record) : heap :=
  fun l => nth l (vector_hits ++ fuzzy_hits) [].

(** [for depth, neighbor_list in neighbors.items():
       graph_results.extend(neighbor_list)] *)
Definition extend_all (graph_results : list neighbor_info) (neighbors : neighborhood)
    : list neighbor_info :=
  fold_left (fun acc entry => acc ++ snd entry) neighbors graph_results.

(** [for node_id in query_nodes[:3]: ...] *)
Fixpoint graph_search (graph_memory : NeuralGraphMemory) (query_nodes : list string)
    (graph_results : list neighbor_info) : option (outcome (list neighbor_info)) :=
  match query_nodes with
  | [] => Some (Ok graph_results)
  | n :: rest =>
      match query_neighbors graph_memory n (VInt 2) None with
      | None => None
      | Some (Raise e) => Some (Raise e)
      | Some (Ok neighbors) =>
          graph_search graph_memory rest (extend_all graph_results neighbors)
      end
  end.

(** The graph channel of [hybrid_retrieve]. *)
Definition graph_channel (c : collaborators) (graph_memory : NeuralGraphMemory)
    (query mode : string) (k : Z) : option (outcome (list neighbor_info)) :=
  if mode_in mode ["all"; "graph"] then
    match _find_query_nodes c query with
    | [] => Some (Ok [])
    | query_nodes =>
        match graph_search graph_memory (slice_to query_nodes 3) [] with
        | None => None
        | Some r => Some (graph_results <- r ;; Ok (slice_to graph_results k))%py
        end
    end
  else Some (Ok []).

(** The fusion step of [hybrid_retrieve]: the hits are fused in place, so
    the lists reported in [results] show what the fusion wrote into them. *)
Definition fuse_channel (rrf_k : Z) (mode : string) (k : Z)
    (vector_hits fuzzy_hits : list record)
    : outcome (list record * list record * list record) :=
  match mode_in mode ["all"], vector_hits ++ fuzzy_hits with
  | true, _ :: _ =>
      let n := length vector_hits in
      let m := length fuzzy_hits in
      let '(fused, h) :=
        fuse_results rrf_k (seq 0 n) (seq n m)
          (Some [("vector", 6 # 10); ("fuzzy", 4 # 10)]%Q)
          (allocate vector_hits fuzzy_hits) in
      (fused <- fused ;;
       Ok (map h (seq 0 n), map h (seq n m), slice_to fused k))%py
  | _, _ => Ok (vector_hits, fuzzy_hits, [])
  end.

(** The statements of [hybrid_retrieve] inside [try]. *)
Definition hybrid_retrieve_body (c : collaborators) (graph_memory : NeuralGraphMemory)
    (rrf_k : Z) (now : string) (query mode : string) (pilot_id : option string) (k : Z)
    : option (outcome retrieval) :=
  match (if mode_in mode ["all"; "semantic"; "vector"]
         then query_semantic c query (k * 2) pilot_id else Ok []) with
  | Raise e => Some (Raise e)
  | Ok vector_hits =>
      match (if mode_in mode ["all"; "fuzzy"; "lexical"]
             then query_fuzzy c query (k * 2) else Ok []) with
      | Raise e => Some (Raise e)
      | Ok fuzzy_hits =>
          match graph_channel c graph_memory query mode k with
          | None => None
          | Some (Raise e) => Some (Raise e)
          | Some (Ok graph_hits) =>
              Some (fused <- fuse_channel rrf_k mode k vector_hits fuzzy_hits ;;
                    let '(vs, fs, fused_hits) := fused in
                    Ok (Retrieved
                          {| query := query; mode := mode; pilot_id := pilot_id;
                             timestamp := now;
                             vector_results := vs; fuzzy_results := fs;
                             graph_results := graph_hits;
                             fused_results := fused_hits |}))%py
          end
      end
  end.

(** [RAGOrchestrator.hybrid_retrieve(query, mode, pilot_id, k)], for an
    orchestrator with [self.rrf_fusion.k = rrf_k] and
    [self.default_k = default_k]. *)
Definition hybrid_retrieve (c : collaborators) (graph_memory : NeuralGraphMemory)
    (rrf_k default_k : Z) (now : string)
    (query mode : string) (pilot_id : option string) (k : option Z)
    : option (outcome retrieval) :=
  let k := match k with
           | None => default_k
           | Some k => k
           end in
  match hybrid_retrieve_body c graph_memory rrf_k now query mode pilot_id k with
  | None => None
  | Some body => Some (try_except body (fun e => Ok (Failed (str e) query)))
  end.

(** *** Example collaborators *)

Definition two_vector_hits : list record :=
  [[("doc_id", VStr "d1"); ("score", VNum (9 # 10))];
   [("doc_id", VStr "d2"); ("score", VNum (8 # 10))]].

Definition two_fuzzy_hits : list record :=
  [[("doc_id", VStr "d2"); ("score", VNum 12)];
   [("doc_id", VStr "d3"); ("score", VNum 9)]].

(** Both searches answer. *)
Definition healthy : collaborators :=
  {| query_semantic := fun _ _ _ => Ok two_vector_hits;
     query_fuzzy := fun _ _ => Ok two_fuzzy_hits;
     _find_query_nodes := fun _ => [] |}.

End RAG.

(** ** retrieval_service/graph_memory.py: add_code_file *)

Module CodeGraph.
Import NGM.

Definition newline : Ascii.ascii := Ascii.ascii_of_nat 10.

(** [s.count('\n')] *)
Fixpoint count_newlines (s : string) : Z :=
  match s with
  | EmptyString => 0
  | String c s' => (if Ascii.eqb c newline then 1 else 0) + count_newlines s'
  end.

(** What the interpreter supplies during a call that reads the clock
    several times: [times n] is the [n]-th value of
    [datetime.now().isoformat()]. *)
Definition env_at (times : nat -> string) (hash : string -> Z) (n : nat) : env :=
  {| now := times n; hash := hash |}.

(** The [metadata] dictionary [add_code_file] gives the file node. *)
Definition file_metadata (file_path content language : string) : attrs :=
  [("file_path", VStr file_path);
   ("language", VStr language);
   ("line_count", VInt (count_newlines content + 1));
   ("size", VInt (Z.of_nat (String.length content)))].

(** [for dep_type, dep_name in dependencies: ...]; [tick] counts the
    readings of the clock: [add_node] reads it once, [add_edge] once when
    both end points are in the graph. *)
Fixpoint add_dependencies (self : NeuralGraphMemory)
    (times : nat -> string) (hash : string -> Z) (tick : nat)
    (file_id : string) (dependencies : list (string * string))
    : NeuralGraphMemory :=
  match dependencies with
  | [] => self
  | (dep_type, dep_name) :: rest =>
      let dep_id := (dep_type ++ "::" ++ dep_name)%string in
      let '(self1, tick1) :=
        if has_node (graph self) dep_id then (self, tick)
        else (snd (add_node self (env_at times hash tick) dep_id dep_type dep_name
                     None None),
              S tick) in
      let tick2 :=
        if has_node (graph self1) file_id && has_node (graph self1) dep_id
        then S tick1 else tick1 in
      let self2 :=
        snd (add_edge self1 (env_at times hash tick1) file_id dep_id "dependency"
               (VNum 1) (Some [("type", VStr dep_type)])) in
      add_dependencies self2 times hash tick2 file_id rest
  end.

(** The statements of [add_code_file] inside [try].  The dependency
    analysis [analyze_code_dependencies(file_path, content, language)]
    parses the text with [ast] and [re]; it catches its own exceptions and
    returns a list of pairs, and it is the parameter [analyze] here. *)
Definition add_code_file_body
    (analyze : string -> string -> string -> list (string * string))
    (self : NeuralGraphMemory) (times : nat -> string) (hash : string -> Z)
    (file_path content language : string) : outcome string * NeuralGraphMemory :=
  let file_id := ("file::" ++ file_path)%string in
  let self1 :=
    snd (add_node self (env_at times hash 0) file_id "document" content
           (Some (file_metadata file_path content language)) None) in
  let dependencies := analyze file_path content language in
  (Ok file_id, add_dependencies self1 times hash 1 file_id dependencies).

(** [NeuralGraphMemory.add_code_file(file_path, content, language)] *)
Definition add_code_file
    (analyze : string -> string -> string -> list (string * string))
    (self : NeuralGraphMemory) (times : nat -> string) (hash : string -> Z)
    (file_path content language : string) : outcome string * NeuralGraphMemory :=
  let '(r, self') := add_code_file_body analyze self times hash file_path content language in
  (try_except r (fun _ => Ok ""), self').

(** *** Vocabulary of the properties *)

(** The memories that [add_node] and [add_edge] build from the empty
    graph. *)
Inductive built : NeuralGraphMemory -> Prop :=
| built_empty : built empty_memory
| built_add_node self e node_id node_type content metadata embedding :
    built self ->
    built (snd (add_node self e node_id node_type content metadata embedding))
| built_add_edge self e source target edge_type weight metadata :
    built self ->
    built (snd (add_edge self e source target edge_type weight metadata)).

(** Every node carries a string under [type] and under [content]. *)
Definition typed_nodes (G : DiGraph) : Prop :=
  forall n nd, sget (nodes G) n = Some nd ->
    exists node_type content,
      sget nd "type" = Some (VStr node_type) /\ sget nd "content" = Some (VStr content).

(** Every edge carries a string under [type] and some value under
    [weight]. *)
Definition typed_edges (G : DiGraph) : Prop :=
  forall u v ed, dict_get pair_eqb (edges G) (u, v) = Some ed ->
    exists edge_type weight,
      sget ed "type" = Some (VStr edge_type) /\ sget ed "weight" = Some weight.

(** The dependency node of a pair the analysis returned. *)
Definition dep_id (dep : string * string) : string :=
  (fst dep ++ "::" ++ snd dep)%string.

(** [a == b] on the keys of the mapping [query_neighbors] returns *)
Definition nkey_eqb (a b : nkey) : bool :=
  match a, b with
  | Depth x, Depth y => Z.eqb x y
  | Neighbors, Neighbors => true
  | _, _ => false
  end.

(** The list the mapping [query_neighbors] returns holds under depth [d];
    empty when it has no such key. *)
Definition at_depth (r : neighborhood) (d : Z) : list neighbor_info :=
  match dict_get nkey_eqb r (Depth d) with
  | Some l => l
  | None => []
  end.

(** The dictionary [neighbor_info] that [query_neighbors] builds for the
    edge from [current], taken off the queue at [depth], to [neighbor]. *)
Definition info_for (G : DiGraph) (current : string) (depth : Z) (neighbor : string)
    : neighbor_info :=
  let ed := match dict_get pair_eqb (edges G) (current, neighbor) with
            | Some a => a
            | None => []
            end in
  let nd := get_default (nodes G) neighbor [] in
  {| nb_node_id := neighbor;
     nb_node_type := get_default nd "type" (VStr "unknown");
     nb_edge_type := get_default ed "type" (VStr "unknown");
     nb_weight := get_default ed "weight" (VNum 0);
     nb_depth := depth + 1;
     nb_content_preview :=
       match py_slice (get_default nd "content" (VStr "")) 100 with
       | Ok preview => preview
       | Raise _ => VNone
       end |}.

(** The successors of [current] whose edge passes the filter on the edge
    type. *)
Definition passing (G : DiGraph) (edge_types : option (list string))
    (current : string) (nbrs : list string) : list string :=
  filter (fun neighbor =>
            negb (filtered_out edge_types
                    (match dict_get pair_eqb (edges G) (current, neighbor) with
                     | Some a => a
                     | None => []
                     end))) nbrs.

(** An entry of [neighbors_by_depth]: its key lies between 1 and
    [max(1, max_depth)] and is the [depth] of each of its items. *)
Definition depth_entry_ok (max_depth : Z) (entry : Z * list neighbor_info) : Prop :=
  1 <= fst entry <= Z.max 1 max_depth /\
  Forall (fun info => nb_depth info = fst entry) (snd entry).

(** A queue entry of [_bfs_search] from [start]: a node of the graph, the
    path that led to it and the length of that path; only [start] stands
    at depth 0. *)
Definition bfs_entry (G : DiGraph) (start : string) (x : string * Z * list string)
    : Prop :=
  has_node G (fst (fst x)) = true /\
  is_path G start (fst (fst x)) (snd x ++ [fst (fst x)]) = true /\
  Z.of_nat (length (snd x)) = snd (fst x) /\
  (fst (fst x) <> start -> 1 <= snd (fst x)).

(** A result of [_bfs_search] from [start] with the bound [max_steps]: a
    node other than [start] that has the goal type, with a path of the
    graph from [start] to it, the number [depth] of edges of that path,
    and the score [1 / (depth + 1)]. *)
Definition bfs_hit (G : DiGraph) (start goal_type : string) (max_steps : Z)
    (r : walk_result) : Prop :=
  exists n p d,
    r = Bfs n p d (1 / inject_Z (d + 1))%Q /\
    n <> start /\ node_is G n goal_type = true /\
    1 <= d <= max_steps /\ Z.of_nat (length p) = d + 1 /\
    is_path G start n p = true.

(** Invariant of the loop of [_bfs_search]. *)
Definition bfs_inv (G : DiGraph) (start goal_type : string) (max_steps : Z)
    (st : bfs_state) : Prop :=
  let '(queue, visited, results) := st in
  Forall (bfs_entry G start) queue /\
  Forall (fun r => bfs_hit G start goal_type max_steps r /\
                   existsb (String.eqb (node_id r)) visited = true) results /\
  NoDup (map node_id results) /\
  (length results <= 10)%nat.

End CodeGraph.

(** ** retrieval_service/fts_manager.py: FuzzySearchManager.query_fuzzy and
       ReciprocalRankFusion.explain_fusion *)

Module FTS.
Import RRF.

(** A hit as the three searches of [FuzzySearchManager] build it: the
    [doc_id] read from the index, a hashable value; the [score], a float
    ([float(row[3])], scaled by 0.8 or 0.6); and the other entries of the
    dictionary ([content], [file_path], [type], ...). *)
Record hit := {
  doc_id : key;
  score : Q;
  fields : record
}.

(** The searches [query_fuzzy] combines.  Each one queries the SQLite
    index, catches its own exceptions and returns a list of hits:
    [_fts5_search(query, k)], [_wildcard_search(query, k)] and
    [_levenshtein_search(query, k)]. *)
Record searches := {
  _fts5_search : string -> Z -> list hit;
  _wildcard_search : string -> Z -> list hit;
  _levenshtein_search : string -> Z -> list hit
}.

(** [for result in results: if result["doc_id"] not in seen: ...] *)
Fixpoint dedupe_hits (seen : list key) (results : list hit) : list hit :=
  match results with
  | [] => []
  | result :: rest =>
      if existsb (key_eqb (doc_id result)) seen then dedupe_hits seen rest
      else result :: dedupe_hits (doc_id result :: seen) rest
  end.

(** The list [results] of [query_fuzzy] before deduplication. *)
Definition gathered (s : searches) (query : string) (k : Z) : list hit :=
  let results := _fts5_search s query k ++ _wildcard_search s query k in
  if Z.of_nat (length results) <? k
  then results ++ _levenshtein_search s query (k - Z.of_nat (length results))
  else results.

(** [FuzzySearchManager.query_fuzzy(query, k)] *)
Definition query_fuzzy (s : searches) (query : string) (k : Z) : list hit :=
  slice_to (sorted_desc score (dedupe_hits [] (gathered s query k))) k.

(** *** explain_fusion *)

(** An entry of [breakdown["components"]]; only the fuzzy one has a
    [type]. *)
Record component := {
  c_rank : value;
  c_contribution : Q;
  c_original_score : value;
  c_type : option value
}.

Record breakdown := {
  b_doc_id : value;
  b_final_score : value;
  b_components : list (string * component)
}.

Record explanation := {
  method : string;
  k_constant : Z;
  formula : string;
  results_breakdown : list breakdown
}.

(** [w / (self.k + rank + 1)] for a rank read from a record *)
Definition contribution (w : Q) (k : Z) (rank : value) : outcome Q :=
  (r <- as_number rank ;;
   let den := (inject_Z k + r + 1)%Q in
   if Qeq_bool den 0 then Raise ZeroDivisionError else Ok (w / den)%Q)%py.

(** The body of the loop of [explain_fusion]; the weights 0.6 and 0.4
    are literals of the method. *)
Definition explain_one (k : Z) (result : record) : outcome breakdown :=
  (id <- getitem result "doc_id" ;;
   final_score <- getitem result "fused_score" ;;
   vector <- match sget result "vector_rank" with
             | Some rank =>
                 vector_contrib <- contribution (6 # 10) k rank ;;
                 Ok [("vector",
                      {| c_rank := rank;
                         c_contribution := vector_contrib;
                         c_original_score := get_default result "vector_score" (VInt 0);
                         c_type := None |})]
             | None => Ok []
             end ;;
   fuzzy <- match sget result "fuzzy_rank" with
            | Some rank =>
                fuzzy_contrib <- contribution (4 # 10) k rank ;;
                Ok [("fuzzy",
                     {| c_rank := rank;
                        c_contribution := fuzzy_contrib;
                        c_original_score := get_default result "fuzzy_score" (VInt 0);
                        c_type := Some (get_default result "fuzzy_type" (VStr "")) |})]
            | None => Ok []
            end ;;
   Ok {| b_doc_id := id;
         b_final_score := final_score;
         b_components := vector ++ fuzzy |})%py.

Fixpoint explain_all (k : Z) (results : list record) : outcome (list breakdown) :=
  match results with
  | [] => Ok []
  | result :: rest =>
      (b <- explain_one k result ;;
       bs <- explain_all k rest ;;
       Ok (b :: bs))%py
  end.

(** [ReciprocalRankFusion.explain_fusion(fused_results)] with
    [self.k = k]; the method has no handler, an exception leaves it. *)
Definition explain_fusion (k : Z) (fused_results : list record) : outcome explanation :=
  (bs <- explain_all k (firstn 5 fused_results) ;;
   Ok {| method := "Reciprocal Rank Fusion";
         k_constant := k;
         formula := "score = sum(weight / (k + rank + 1)) for each result list";
         results_breakdown := bs |})%py.

(** *** Vocabulary of the properties *)

(** The contributions that a breakdown shows, added up. *)
Definition total_contribution (b : breakdown) : Q :=
  fold_right (fun c acc => (c_contribution (snd c) + acc)%Q) 0%Q (b_components b).

(** A hit that no fusion has annotated yet. *)
Definition unranked (r : record) : Prop :=
  sget r "vector_rank" = None /\ sget r "fuzzy_rank" = None.

(** The score dictionary after one strategy of weight [w] has met the
    distinct items [ids], from rank [rank] on. *)
Fixpoint single_scores (w : Q) (k rank : Z) (ids : list key) : list (key * Q) :=
  match ids with
  | [] => []
  | d :: rest =>
      (d, (0 + w / inject_Z (k + rank + 1))%Q) :: single_scores w k (rank + 1) rest
  end.

(** *** Example searches *)

Definition exact_hit : hit :=
  {| doc_id := KStr "a.py"; score := 2; fields := [("type", VStr "fts5_exact")] |}.

Definition wildcard_hit : hit :=
  {| doc_id := KStr "a.py"; score := 3; fields := [("type", VStr "wildcard")] |}.

Definition other_hit : hit :=
  {| doc_id := KStr "b.py"; score := 1; fields := [("type", VStr "wildcard")] |}.

Definition approx_hit : hit :=
  {| doc_id := KStr "c.py"; score := 6 # 10; fields := [("type", VStr "levenshtein")] |}.

Definition three_searches : searches :=
  {| _fts5_search := fun _ _ => [exact_hit];
     _wildcard_search := fun _ _ => [wildcard_hit; other_hit];
     _levenshtein_search := fun _ _ => [approx_hit] |}.

End FTS.

(** ** retrieval_service/rag_orchestrator.py: RAGOrchestrator._prepare_context
       and RAGOrchestrator.query_rag *)

Module Generation.
Import RRF NGM RAG.

(** The string ["\n"] *)
Definition nl : string := String (Ascii.ascii_of_nat 10) EmptyString.

(** [sep.join(parts)] *)
Fixpoint join (sep : string) (parts : list string) : string :=
  match parts with
  | [] => EmptyString
  | [p] => p
  | p :: rest => (p ++ sep ++ join sep rest)%string
  end.

(** [len(s)]; a character of the string stands for a character of the
    Python [str]. *)
Definition len (s : string) : Z := Z.of_nat (String.length s).

Section PrepareContext.

(** What a format string does with a value, [str(v)]; it is the
    interpreter's and stays a parameter. *)
Variable py_str : value -> string.

(** [f"[Source: {source}]\n{chunk_text}\n"] for one chunk *)
Definition format_chunk (chunk : record) : string :=
  let chunk_text := get_default chunk "chunk_text" (get_default chunk "content" (VStr "")) in
  let source := get_default chunk "file_path" (get_default chunk "doc_id" (VStr "unknown")) in
  ("[Source: " ++ py_str source ++ "]" ++ nl ++ py_str chunk_text ++ nl)%string.

(** The loop of [_prepare_context]; [break] ends it at the first chunk
    that does not fit. *)
Fixpoint context_loop (chunks : list record) (max_length : Z)
    (context_parts : list string) (current_length : Z) : list string :=
  match chunks with
  | [] => context_parts
  | chunk :: rest =>
      let formatted := format_chunk chunk in
      if max_length <? current_length + len formatted then context_parts
      else context_loop rest max_length (context_parts ++ [formatted])
             (current_length + len formatted)
  end.

(** [RAGOrchestrator._prepare_context(chunks, max_length)] *)
Definition _prepare_context (chunks : list record) (max_length : Z) : string :=
  join (nl ++ "---" ++ nl) (context_loop chunks max_length [] 0).

End PrepareContext.

(** *** query_rag *)

(** The two generators [query_rag] calls.  Both are coroutines that
    catch every exception and return a dictionary:
    [self.generate_response(query, context_chunks, task_type, pilot_id)]
    and [self.grok_client.chat_completion(messages, task_type)]. *)
Record generators := {
  generate_response : string -> list record -> string -> option string -> record;
  chat_completion : list record -> string -> record
}.

(** The dictionary under ["metadata"] of the result. *)
Record rag_metadata := {
  total_chunks_retrieved : Z;
  sources_used : Z;
  meta_task_type : string;
  meta_pilot_id : option string;
  include_graph : bool;
  processing_time : option Q
}.

(** What [query_rag] returns: the result dictionary, or the dictionary
    of its handler with the keys [query], [error] and [response]. *)
Inductive rag_result : Type :=
| Answered (query : string) (response : value) (retrieval : retrieval)
    (generation : record) (metadata : rag_metadata)
| Apology (query : string) (error : string) (response : string).

(** [retrieval_results.get("fused_results")] and the two lookups of the
    fallback, on either dictionary [hybrid_retrieve] returns. *)
Definition get_fused (r : retrieval) : option (list record) :=
  match r with
  | Retrieved res => Some (fused_results res)
  | Failed _ _ => None
  end.

Definition get_vector (r : retrieval) : list record :=
  match r with
  | Retrieved res => vector_results res
  | Failed _ _ => []
  end.

Definition get_fuzzy (r : retrieval) : list record :=
  match r with
  | Retrieved res => fuzzy_results res
  | Failed _ _ => []
  end.

(** Step 2 of [query_rag]: the fused results when there are any, else
    the first [k] of the vector and fuzzy results. *)
Definition context_chunks (retrieval_results : retrieval) (k : Z) : list record :=
  match get_fused retrieval_results with
  | Some ((_ :: _) as fused) => fused
  | _ => slice_to (get_vector retrieval_results ++ get_fuzzy retrieval_results) k
  end.

(** [len(set(xs))] for hashable values *)
Fixpoint count_distinct (seen : list key) (xs : list value) : outcome Z :=
  match xs with
  | [] => Ok (Z.of_nat (length seen))
  | x :: rest =>
      (d <- hash_key x ;;
       if existsb (key_eqb d) seen then count_distinct seen rest
       else count_distinct (d :: seen) rest)%py
  end.

(** The message list of the direct generation. *)
Definition user_message (query : string) : list record :=
  [[("role", VStr "user"); ("content", VStr query)]].

(** The statements of [query_rag] inside [try], after the retrieval. *)
Definition query_rag_body (g : generators) (retrieval_results : retrieval)
    (query : string) (k : Z) (task_type : string) (pilot_id : option string)
    (include_graph : bool) : outcome rag_result :=
  let chunks := context_chunks retrieval_results k in
  let generation_result :=
    match chunks with
    | _ :: _ => generate_response g query chunks task_type pilot_id
    | [] =>
        sset (sset (chat_completion g (user_message query) task_type)
                "context_chunks" (VInt 0))
          "sources" (VList [])
    end in
  (sources <- count_distinct []
                (map (fun chunk => get_default chunk "file_path" (VStr "")) chunks) ;;
   Ok (Answered query
         (get_default generation_result "response" (VStr ""))
         retrieval_results
         generation_result
         {| total_chunks_retrieved := Z.of_nat (length chunks);
            sources_used := sources;
            meta_task_type := task_type;
            meta_pilot_id := pilot_id;
            include_graph := include_graph;
            processing_time := None |}))%py.

(** [RAGOrchestrator.query_rag(query, k, task_type, pilot_id,
    include_graph)] *)
Definition query_rag (g : generators) (c : collaborators)
    (graph_memory : NeuralGraphMemory) (rrf_k default_k : Z) (now : string)
    (query : string) (k : Z) (task_type : string) (pilot_id : option string)
    (include_graph : bool) : option (outcome rag_result) :=
  match hybrid_retrieve c graph_memory rrf_k default_k now query "all" pilot_id (Some k) with
  | None => None
  | Some retrieved =>
      Some (try_except
              (retrieval_results <- retrieved ;;
               query_rag_body g retrieval_results query k task_type pilot_id include_graph)%py
              (fun e =>
                 Ok (Apology query (str e)
                       "I apologize, but I encountered an error processing your request.")))
  end.

(** *** Vocabulary of the properties *)

(** The lengths of the parts, added up. *)
Definition total_length (parts : list string) : Z :=
  fold_right (fun p acc => len p + acc) 0 parts.

(** *** Example generators *)

Definition echo : generators :=
  {| generate_response := fun query chunks _ _ =>
       [("response", VStr "from context"); ("context_chunks", VInt (Z.of_nat (length chunks)))];
     chat_completion := fun _ _ => [("response", VStr "without context")] |}.

(** [str] on the values of the examples. *)
Definition str_of_text (v : value) : string :=
  match v with
  | VStr s => s
  | _ => "?"
  end.

Definition three_chunks : list record :=
  [[("file_path", VStr "a.py"); ("content", VStr "alpha")];
   [("file_path", VStr "b.py"); ("content", VStr "a much longer chunk of text")];
   [("file_path", VStr "c.py"); ("content", VStr "c")]].

End Generation.

(** ** retrieval_service/rag_orchestrator.py: the key rotation of
       GrokAPIClient *)

Module Grok.
Import Py.

(** An entry of [self.rate_limits]:
    [{"requests": 0, "reset_time": time.time()}]. *)
Record rate_info := {
  requests : Z;
  reset_time : Q
}.

(** The attributes of a [GrokAPIClient] that the rotation reads and
    writes.  [api_keys] maps a key name to the key, [current_key] is a
    key name, or [None] in demo mode. *)
Record GrokAPIClient := {
  api_keys : list (string * string);
  demo_mode : bool;
  current_key : option string;
  rate_limits : list (string * rate_info);
  max_requests_per_minute : Z
}.

Definition set_rate_limits (self : GrokAPIClient) (rl : list (string * rate_info))
    : GrokAPIClient :=
  {| api_keys := api_keys self; demo_mode := demo_mode self;
     current_key := current_key self; rate_limits := rl;
     max_requests_per_minute := max_requests_per_minute self |}.

Definition set_current_key (self : GrokAPIClient) (k : option string) : GrokAPIClient :=
  {| api_keys := api_keys self; demo_mode := demo_mode self;
     current_key := k; rate_limits := rate_limits self;
     max_requests_per_minute := max_requests_per_minute self |}.

Definition set_api_keys (self : GrokAPIClient) (keys : list (string * string))
    : GrokAPIClient :=
  {| api_keys := keys; demo_mode := demo_mode self;
     current_key := current_key self; rate_limits := rate_limits self;
     max_requests_per_minute := max_requests_per_minute self |}.

(** A method of the client returns or raises, and leaves the client and
    the number of readings taken from the clock.  [time.time()] is the
    function [time] of that number. *)
Definition effect (A : Type) : Type := outcome A * GrokAPIClient * nat.

(** [GrokAPIClient._should_rotate_key(key)] *)
Definition _should_rotate_key (time : nat -> Q) (self : GrokAPIClient) (tick : nat)
    (key : string) : effect bool :=
  if demo_mode self then (Ok false, self, tick)
  else
    match sget (rate_limits self) key with
    | None => (Raise (KeyError key), self, tick)
    | Some rate_info =>
        let current_time := time tick in
        if Qlt_bool 60 (current_time - reset_time rate_info) then
          let rate_info := {| requests := 0; reset_time := current_time |} in
          (Ok (max_requests_per_minute self <=? requests rate_info),
           set_rate_limits self (sset (rate_limits self) key rate_info), S tick)
        else
          (Ok (max_requests_per_minute self <=? requests rate_info), self, S tick)
    end.

(** [keys.index(x)] *)
Fixpoint index (keys : list string) (x : string) : option nat :=
  match keys with
  | [] => None
  | k :: rest =>
      if String.eqb k x then Some 0%nat
      else match index rest x with
           | Some i => Some (S i)
           | None => None
           end
  end.

(** [repr(self.current_key)], for the key names of the client, which
    hold no quote and no escape. *)
Definition repr (k : option string) : string :=
  match k with
  | Some k => "'" ++ k ++ "'"
  | None => "None"
  end.

(** [for i in range(1, len(keys)): ...] of [_rotate_key]; [true] when a
    key was chosen and the method returned. *)
Fixpoint rotate_loop (time : nat -> Q) (keys : list string) (current_index : nat)
    (range : list nat) (self : GrokAPIClient) (tick : nat) : effect bool :=
  match range with
  | [] => (Ok false, self, tick)
  | i :: rest =>
      let next_index := ((current_index + i) mod length keys)%nat in
      let next_key := nth next_index keys "" in
      match _should_rotate_key time self tick next_key with
      | (Raise e, self, tick) => (Raise e, self, tick)
      | (Ok false, self, tick) => (Ok true, set_current_key self (Some next_key), tick)
      | (Ok true, self, tick) => rotate_loop time keys current_index rest self tick
      end
  end.

(** [self.rate_limits[k]["reset_time"]] for a key [k] of the
    dictionary *)
Definition reset_time_of (rl : list (string * rate_info)) (k : string) : Q :=
  match sget rl k with
  | Some rate_info => reset_time rate_info
  | None => 0
  end.

(** [min(ks, key=f)] after its first element: the first of the smallest
    wins. *)
Fixpoint min_from (f : string -> Q) (best : string) (ks : list string) : string :=
  match ks with
  | [] => best
  | k :: rest => if Qlt_bool (f k) (f best) then min_from f k rest else min_from f best rest
  end.

(** [min(ks, key=f)] *)
Definition min_by (f : string -> Q) (ks : list string) : outcome string :=
  match ks with
  | [] => Raise (ValueError "min() arg is an empty sequence")
  | k :: rest => Ok (min_from f k rest)
  end.

(** [GrokAPIClient._rotate_key()] *)
Definition _rotate_key (time : nat -> Q) (self : GrokAPIClient) (tick : nat) : effect unit :=
  if demo_mode self then (Ok tt, self, tick)
  else
    let keys := map fst (api_keys self) in
    match match current_key self with
          | Some k => index keys k
          | None => None
          end with
    | None => (Raise (ValueError (repr (current_key self) ++ " is not in list")), self, tick)
    | Some current_index =>
        match rotate_loop time keys current_index (seq 1 (length keys - 1)) self tick with
        | (Raise e, self, tick) => (Raise e, self, tick)
        | (Ok true, self, tick) => (Ok tt, self, tick)
        | (Ok false, self, tick) =>
            match min_by (reset_time_of (rate_limits self)) (map fst (rate_limits self)) with
            | Raise e => (Raise e, self, tick)
            | Ok oldest_key => (Ok tt, set_current_key self (Some oldest_key), tick)
            end
        end
    end.

(** [del d[k]] on a dictionary that holds [k] *)
Definition dict_del {V} (d : list (string * V)) (k : string) : list (string * V) :=
  filter (fun kv => negb (String.eqb (fst kv) k)) d.

(** The answer of [chat_completion] to the status 401:
    [del self.api_keys[self.current_key]], then [self._rotate_key()] if
    a key is left and [raise Exception("All API keys are invalid")]
    otherwise. *)
Definition drop_invalid_key (time : nat -> Q) (self : GrokAPIClient) (tick : nat)
    : effect unit :=
  match current_key self with
  | None => (Raise (OtherError "KeyError" "None"), self, tick)
  | Some k =>
      if dict_mem String.eqb (api_keys self) k then
        let self := set_api_keys self (dict_del (api_keys self) k) in
        match api_keys self with
        | [] => (Raise (OtherError "Exception" "All API keys are invalid"), self, tick)
        | _ :: _ => _rotate_key time self tick
        end
      else (Raise (KeyError k), self, tick)
  end.

(** *** Vocabulary of the properties *)

(** The key name [i] places after the current one, wrapping around:
    [keys[(current_index + i) % len(keys)]]. *)
Definition key_after (keys : list string) (current_index i : nat) : string :=
  nth ((current_index + i) mod length keys)%nat keys "".

(** The client as [__init__] leaves it with keys, at any later time:
    it is not in demo mode, each key name occurs once, each has its entry
    in [rate_limits], and the current key is one of them. *)
Definition ready (self : GrokAPIClient) (k : string) : Prop :=
  demo_mode self = false /\
  current_key self = Some k /\
  In k (map fst (api_keys self)) /\
  NoDup (map fst (api_keys self)) /\
  (forall k', In k' (map fst (api_keys self)) ->
              dict_mem String.eqb (rate_limits self) k' = true).

(** The key [k'] is at its limit in the client. *)
Definition limited (self : GrokAPIClient) (k' : string) : Prop :=
  exists rate_info,
    sget (rate_limits self) k' = Some rate_info /\
    max_requests_per_minute self <= requests rate_info.

(** The key [k'] has requests left in the client. *)
Definition free (self : GrokAPIClient) (k' : string) : Prop :=
  exists rate_info,
    sget (rate_limits self) k' = Some rate_info /\
    requests rate_info < max_requests_per_minute self.

(** *** Example client *)

(** Two keys; the window of the second one began 90 seconds ago with the
    limit reached. *)
Definition two_keys : GrokAPIClient :=
  {| api_keys := [("code_fast", "key-1"); ("general", "key-2")];
     demo_mode := false;
     current_key := Some "code_fast";
     rate_limits := [("code_fast", {| requests := 50; reset_time := 100 |});
                     ("general", {| requests := 50; reset_time := 40 |})];
     max_requests_per_minute := 50 |}.

(** A clock that shows 130 seconds at every reading. *)
Definition at_130 : nat -> Q := fun _ => 130%Q.

End Grok.

(** ** retrieval_service/fts_manager.py: FuzzySearchManager._escape_fts5_query *)

Module Escape.

(** The two characters of [special_chars], the quotation mark and the
    star. *)
Definition quote : Ascii.ascii := Ascii.ascii_of_nat 34.
Definition star : Ascii.ascii := Ascii.ascii_of_nat 42.

(** [s.replace(char, by)] for a single character [char] *)
Fixpoint replace (char : Ascii.ascii) (by_ : string) (s : string) : string :=
  match s with
  | EmptyString => EmptyString
  | String c rest =>
      if Ascii.eqb c char then (by_ ++ replace char by_ rest)%string
      else String c (replace char by_ rest)
  end.

(** The replacement text: [char] between two quotation marks. *)
Definition quoted (char : Ascii.ascii) : string :=
  String quote (String char (String quote EmptyString)).

(** [FuzzySearchManager._escape_fts5_query(query)]: the loop over the
    two characters of [special_chars], the quotation mark first. *)
Definition _escape_fts5_query (query : string) : string :=
  fold_left (fun query char => replace char (quoted char) query) [quote; star] query.

(** *** Vocabulary of the properties *)

(** [s.count(char)] *)
Fixpoint count (char : Ascii.ascii) (s : string) : nat :=
  match s with
  | EmptyString => 0%nat
  | String c rest => ((if Ascii.eqb c char then 1 else 0) + count char rest)%nat
  end.

(** The string without the occurrences of a character. *)
Fixpoint without (char : Ascii.ascii) (s : string) : string :=
  match s with
  | EmptyString => EmptyString
  | String c rest => if Ascii.eqb c char then without char rest
                     else String c (without char rest)
  end.

End Escape.

(** ** The searches behind hybrid_retrieve:
       retrieval_service/fts_manager.py, FuzzySearchManager, and
       retrieval_service/faiss_manager.py, HybridVectorManager *)

Module Managers.
Import RRF NGM RAG.

(** Every search of the two managers has the shape
<<
    try:
        ...
        return results
    except Exception as e:
        logger.error(...)
        return []
>>
    The statements inside [try] query SQLite and FAISS; what they
    return, or the exception they raise, is a parameter, and [or_empty]
    is the handler around them. *)
Definition or_empty {A} (body : outcome (list A)) : list A :=
  match body with
  | Ok results => results
  | Raise _ => []
  end.

(** *** FuzzySearchManager *)

(** The SQLite index behind the three searches: the body of the [try]
    of [_fts5_search(query, k)], of [_wildcard_search(query, k)] and of
    [_levenshtein_search(query, k)]. *)
Record fuzzy_index := {
  fts5_query : string -> Z -> outcome (list FTS.hit);
  wildcard_query : string -> Z -> outcome (list FTS.hit);
  levenshtein_query : string -> Z -> outcome (list FTS.hit)
}.

Definition _fts5_search (db : fuzzy_index) (query : string) (k : Z) : list FTS.hit :=
  or_empty (fts5_query db query k).

Definition _wildcard_search (db : fuzzy_index) (query : string) (k : Z) : list FTS.hit :=
  or_empty (wildcard_query db query k).

Definition _levenshtein_search (db : fuzzy_index) (query : string) (k : Z)
    : list FTS.hit :=
  or_empty (levenshtein_query db query k).

Definition searches_of (db : fuzzy_index) : FTS.searches :=
  {| FTS._fts5_search := _fts5_search db;
     FTS._wildcard_search := _wildcard_search db;
     FTS._levenshtein_search := _levenshtein_search db |}.

(** A hashable value as a value. *)
Definition key_value (d : key) : value :=
  match d with
  | KNone => VNone
  | KInt n => VInt n
  | KNum q => VNum q
  | KStr s => VStr s
  end.

(** The dictionary of a hit: its [doc_id], its [score] and its other
    entries. *)
Definition hit_dict (x : FTS.hit) : record :=
  sset (sset (FTS.fields x) "doc_id" (key_value (FTS.doc_id x)))
    "score" (VNum (FTS.score x)).

(** [FuzzySearchManager.query_fuzzy(query, k)], the list of dictionaries
    it returns. *)
Definition query_fuzzy (db : fuzzy_index) (query : string) (k : Z) : list record :=
  map hit_dict (FTS.query_fuzzy (searches_of db) query k).

(** *** HybridVectorManager *)

(** A chunk found by the main index, with the row of its document:
    [row[0]], [row[1]], [row[2]], [json.loads(row[3])], [float(score)]
    and the position [i] of the match. *)
Record chunk_row := {
  chunk_text : value;
  chunk_doc_id : key;
  chunk_file_path : value;
  chunk_metadata : value;
  chunk_score : Q;
  chunk_rank : Z
}.

(** An utterance found by the conversation index of a pilot. *)
Record utterance_row := {
  utterance_text : value;
  utterance_speaker : value;
  utterance_timestamp : value;
  utterance_score : Q
}.

(** The FAISS indexes and the document database of the manager:
    [self.main_index is None or self.main_index.ntotal == 0]; the rows
    that the statements of [query_semantic] from the encoding of the
    query to [conn.close()] collect, or the exception they raise; the
    keys of [self.conversation_indexes]; and the same for the
    statements of [query_conversation_memory] behind its membership
    test (an empty index gives no row). *)
Record vector_index := {
  main_index_empty : bool;
  search_chunks : string -> Z -> outcome (list chunk_row);
  conversation_indexes : list string;
  search_utterances : string -> string -> Z -> outcome (list utterance_row)
}.

(** The dictionary [query_semantic] appends for a chunk. *)
Definition chunk_dict (row : chunk_row) : record :=
  [("chunk_text", chunk_text row);
   ("doc_id", key_value (chunk_doc_id row));
   ("file_path", chunk_file_path row);
   ("metadata", chunk_metadata row);
   ("score", VNum (chunk_score row));
   ("rank", VInt (chunk_rank row))].

(** The dictionary [query_conversation_memory] appends for an
    utterance; it has no [doc_id]. *)
Definition utterance_dict (row : utterance_row) : record :=
  [("utterance", utterance_text row);
   ("speaker", utterance_speaker row);
   ("timestamp", utterance_timestamp row);
   ("score", VNum (utterance_score row));
   ("type", VStr "conversation")].

(** [pilot_id in self.conversation_indexes] *)
Definition has_conversations (ix : vector_index) (pilot_id : string) : bool :=
  existsb (String.eqb pilot_id) (conversation_indexes ix).

(** [HybridVectorManager.query_conversation_memory(query, pilot_id, k)] *)
Definition query_conversation_memory (ix : vector_index) (query pilot_id : string)
    (k : Z) : list record :=
  or_empty
    (if negb (has_conversations ix pilot_id) then Ok []
     else (rows <- search_utterances ix query pilot_id k ;;
           Ok (map utterance_dict rows))%py).

(** [if pilot_id and pilot_id in self.conversation_indexes] *)
Definition wants_conversations (ix : vector_index) (pilot_id : option string) : bool :=
  match pilot_id with
  | Some p => negb (String.eqb p "") && has_conversations ix p
  | None => false
  end.

(** [HybridVectorManager.query_semantic(query, k, pilot_id)] *)
Definition query_semantic (ix : vector_index) (query : string) (k : Z)
    (pilot_id : option string) : list record :=
  or_empty
    (if main_index_empty ix then Ok []
     else (rows <- search_chunks ix query k ;;
           let results := map chunk_dict rows in
           Ok (match pilot_id with
               | Some p =>
                   if wants_conversations ix pilot_id
                   then results ++ query_conversation_memory ix query p 5
                   else results
               | None => results
               end))%py).

(** *** The collaborators of the orchestrator *)

(** [self.vector_manager] and [self.fuzzy_manager] as [__init__] of the
    orchestrator sets them, over the given indexes, and the keyword
    match [find] of [_find_query_nodes]. *)
Definition managers (ix : vector_index) (db : fuzzy_index)
    (find : string -> list string) : collaborators :=
  {| RAG.query_semantic := fun query k pilot_id => Ok (query_semantic ix query k pilot_id);
     RAG.query_fuzzy := fun query k => Ok (query_fuzzy db query k);
     RAG._find_query_nodes := find |}.

(** *** Vocabulary of the properties *)



(** *** Example indexes *)

(** Two chunks of the documents d1 and d2. *)
Definition two_chunks : vector_index :=
  {| main_index_empty := false;
     search_chunks := fun _ _ =>
       Ok [{| chunk_text := VStr "def parse(): ..."; chunk_doc_id := KStr "d1";
              chunk_file_path := VStr "parse.py"; chunk_metadata := VDict [];
              chunk_score := 9 # 10; chunk_rank := 0 |};
           {| chunk_text := VStr "def lex(): ..."; chunk_doc_id := KStr "d2";
              chunk_file_path := VStr "lex.py"; chunk_metadata := VDict [];
              chunk_score := 8 # 10; chunk_rank := 1 |}];
     conversation_indexes := [];
     search_utterances := fun _ _ _ => Ok [] |}.

(** The same index with the conversation memory of the pilot "p1", in
    which one utterance matches. *)
Definition with_memory : vector_index :=
  {| main_index_empty := false;
     search_chunks := search_chunks two_chunks;
     conversation_indexes := ["p1"];
     search_utterances := fun _ _ _ =>
       Ok [{| utterance_text := VStr "how does parse work"; utterance_speaker := VStr "user";
              utterance_timestamp := VStr "2025-01-01T00:00:00";
              utterance_score := 7 # 10 |}] |}.


(** A fuzzy index in which no query matches. *)
Definition no_match : fuzzy_index :=
  {| fts5_query := fun _ _ => Ok [];
     wildcard_query := fun _ _ => Ok [];
     levenshtein_query := fun _ _ => Ok [] |}.

(** No node of the graph matches the query. *)
Definition no_nodes : string -> list string := fun _ => [].

End Managers.

(** ** retrieval_service/fts_manager.py: ReciprocalRankFusion.fuse_results
       with its scores as binary64 floats *)

(** The module [RRF] above computes the scores in exact arithmetic, which
    is enough for what the fusion does to the hits.  The scores
    themselves and the order they give depend on the rounding of each
    division and each addition, so here the same method is embedded with
    the floats of Python: IEEE 754 binary64 numbers with the operations
    of [SpecFloat], rounded to nearest even.  The hits are the objects
    of [RRF]; only what the fusion computes is a float. *)

Module RRF64.
Import RRF.
Local Open Scope rrf_scope.

Definition float : Type := SpecFloat.spec_float.
Definition prec : Z := 53.
Definition emax : Z := 1024.

(** [0.0], which is also what the int [0] is converted to *)
Definition zero : float := SpecFloat.S754_zero false.

(** The literals [0.6] and [0.4]: the floats next to 6/10 and 4/10,
    5404319552844595 * 2^-53 and 7205759403792794 * 2^-54. *)
Definition lit_0_6 : float := SpecFloat.S754_finite false 5404319552844595 (-53).
Definition lit_0_4 : float := SpecFloat.S754_finite false 7205759403792794 (-54).

(** [a + b] on floats *)
Definition add (a b : float) : float := SpecFloat.SFadd prec emax a b.

(** [a <= b] and [a < b] on floats *)
Definition leb (a b : float) : bool := SpecFloat.SFleb a b.
Definition ltb (a b : float) : bool := SpecFloat.SFltb a b.

(** The conversion of an int to a float, rounded to nearest even. *)
Definition nearest (n : Z) : float := SpecFloat.binary_normalize prec emax n 0 false.

(** [float(n)] as the arithmetic applies it to an int operand: beyond
    the range of the floats it raises [OverflowError]. *)
Definition float_of_int (n : Z) : outcome float :=
  match nearest n with
  | SpecFloat.S754_infinity _ =>
      Raise (OtherError "OverflowError" "int too large to convert to float")
  | x => Ok x
  end.

(** [w / d] for a float [w] and an int [d]: the int is converted, a
    divisor [0.0] raises, and the quotient is rounded.  An int other
    than 0 never converts to [0.0], so the test is made on the int. *)
Definition py_div (w : float) (d : Z) : outcome float :=
  if Z.eqb d 0 then Raise ZeroDivisionError
  else (x <- float_of_int d ;; Ok (SpecFloat.SFdiv prec emax w x))%py.

(** The two local dictionaries of [fuse_results]. *)
Record fusion := {
  doc_scores : list (key * float);
  doc_metadata : list (key * loc)
}.

Definition default_weights : list (string * float) :=
  [("vector", lit_0_6); ("fuzzy", lit_0_4)].

(** The statements shared by both loops of [fuse_results]:
<<
    doc_id = result["doc_id"]
    rrf_score = weights[strategy] / (self.k + rank + 1)
    if doc_id not in doc_scores:
        doc_scores[doc_id] = 0
        doc_metadata[doc_id] = result
    doc_scores[doc_id] += rrf_score
>>
    The first addition to a score is [0 + rrf_score] with the int [0],
    which is [0.0 + rrf_score]. *)
Definition accumulate (k : Z) (weights : list (string * float)) (strategy : string)
    (rank : Z) (result : loc) (st : fusion) : M (fusion * loc) :=
  r <~ deref result ;;
  doc_id_v <~ lift (getitem r "doc_id") ;;
  w <~ lift (getitem weights strategy) ;;
  rrf_score <~ lift (py_div w (k + rank + 1)) ;;
  doc_id <~ lift (hash_key doc_id_v) ;;
  let st1 :=
    if dict_mem key_eqb (doc_scores st) doc_id then st
    else {| doc_scores := dict_set key_eqb (doc_scores st) doc_id zero;
            doc_metadata := dict_set key_eqb (doc_metadata st) doc_id result |} in
  match dict_get key_eqb (doc_scores st1) doc_id,
        dict_get key_eqb (doc_metadata st1) doc_id with
  | Some s, Some m =>
      ret ({| doc_scores := dict_set key_eqb (doc_scores st1) doc_id (add s rrf_score);
              doc_metadata := doc_metadata st1 |}, m)
  | _, _ => lift (Raise (KeyError "doc_id"))
  end.

(** Body of [for rank, result in enumerate(vector_results)] *)
Definition vector_step (k : Z) (weights : list (string * float))
    (rank : Z) (result : loc) (st : fusion) : M fusion :=
  sm <~ accumulate k weights "vector" rank result st ;;
  let '(st', m) := sm in
  setitem m "vector_rank" (VInt rank) ;;;
  r <~ deref result ;;
  setitem m "vector_score" (get_default r "score" (VInt 0)) ;;;
  ret st'.

(** Body of [for rank, result in enumerate(fuzzy_results)]; the test
    [if doc_id in doc_metadata] holds whenever it is reached. *)
Definition fuzzy_step (k : Z) (weights : list (string * float))
    (rank : Z) (result : loc) (st : fusion) : M fusion :=
  sm <~ accumulate k weights "fuzzy" rank result st ;;
  let '(st', m) := sm in
  setitem m "fuzzy_rank" (VInt rank) ;;;
  r <~ deref result ;;
  setitem m "fuzzy_score" (get_default r "score" (VInt 0)) ;;;
  r' <~ deref result ;;
  setitem m "fuzzy_type" (get_default r' "type" (VStr "")) ;;;
  ret st'.

(** [for rank, result in enumerate(results): step], from rank [rank] on *)
Fixpoint for_enumerate (step : Z -> loc -> fusion -> M fusion)
    (rank : Z) (results : list loc) (st : fusion) : M fusion :=
  match results with
  | [] => ret st
  | result :: rest =>
      st' <~ step rank result st ;;
      for_enumerate step (rank + 1) rest st'
  end.

Section Sort.
Context {A : Type} (score : A -> float).

(** [x] enters before the first element it does not score below, so
    elements of equal score keep their order. *)
Fixpoint insert_desc (x : A) (l : list A) : list A :=
  match l with
  | [] => [x]
  | y :: l' =>
      if leb (score y) (score x) then x :: l
      else y :: insert_desc x l'
  end.

(** [sorted(l, key=score, reverse=True)] for scores that are numbers
    (no nan among them): stable, descending. *)
Definition sorted_desc (l : list A) : list A :=
  fold_right insert_desc [] l.

End Sort.

(** A value of a fused record: a value of the hit the record copies, or
    a float that the fusion computed. *)
Inductive fused_value : Type :=
| Copied (v : value)
| Float (x : float).

Definition fused_record := list (string * fused_value).

(** [hit.copy()] *)
Definition copy (hit : record) : fused_record :=
  map (fun entry => (fst entry, Copied (snd entry))) hit.

(** One pass of the final loop: copy the stored hit and annotate the copy. *)
Definition emit (st : fusion) (h : heap) (item : key * float) : outcome fused_record :=
  match dict_get key_eqb (doc_metadata st) (fst item) with
  | Some m =>
      Ok (sset (sset (copy (h m)) "fused_score" (Float (snd item)))
            "fusion_method" (Copied (VStr "RRF")))
  | None => Raise (KeyError "doc_id")
  end.

Fixpoint emit_all (st : fusion) (h : heap) (items : list (key * float))
    : outcome (list fused_record) :=
  match items with
  | [] => Ok []
  | item :: rest =>
      (r <- emit st h item ;;
       rs <- emit_all st h rest ;;
       Ok (r :: rs))%py
  end.

(** [ReciprocalRankFusion.fuse_results(vector_results, fuzzy_results, weights)]
    with [self.k = k]. *)
Definition fuse_results (k : Z) (vector_results fuzzy_results : list loc)
    (weights : option (list (string * float))) : M (list fused_record) :=
  let weights := match weights with
                 | None => default_weights
                 | Some w => w
                 end in
  let st0 := {| doc_scores := []; doc_metadata := [] |} in
  st1 <~ for_enumerate (vector_step k weights) 0 vector_results st0 ;;
  st2 <~ for_enumerate (fuzzy_step k weights) 0 fuzzy_results st1 ;;
  fun h => (emit_all st2 h (sorted_desc snd (doc_scores st2)), h).

(** *** Vocabulary of the properties *)

(** The [doc_id]s of the records a run returned, in order. *)
Definition doc_ids_of_run (run : outcome (list fused_record) * heap)
    : option (list (option fused_value)) :=
  match fst run with
  | Ok rs => Some (map (fun r => sget r "doc_id") rs)
  | Raise _ => None
  end.

(** The item identifier and the score of a fused record. *)
Definition rec_key (r : fused_record) : option key :=
  match sget r "doc_id" with
  | Some (Copied v) => match hash_key v with
                       | Ok d => Some d
                       | Raise _ => None
                       end
  | _ => None
  end.

Definition rec_score (r : fused_record) : option float :=
  match sget r "fused_score" with
  | Some (Float s) => Some s
  | _ => None
  end.

(** A weight above zero: a finite float of positive sign. *)
Definition positive (w : float) : Prop :=
  match w with
  | SpecFloat.S754_finite false _ _ => True
  | _ => False
  end.

(** The int [n] is within the range of the floats. *)
Definition convertible (n : Z) : Prop :=
  exists x, float_of_int n = Ok x.

(** The denominators [k + rank + 1] of a list of [n] hits are within the
    range of the floats. *)
Definition in_range (k : Z) (n : nat) : Prop :=
  forall rank, 0 <= rank < Z.of_nat n -> convertible (k + rank + 1).

(** The float quotient [w / d] of a weight and a denominator. *)
Definition quotient (w : float) (d : Z) : float :=
  SpecFloat.SFdiv prec emax w (nearest d).

(** The quotients [w / (k + rank + 1)] for the positions [rank] at which
    the item [d] stands in a list, in the order of the list. *)
Fixpoint terms (w : float) (k rank : Z) (ids : list key) (d : key) : list float :=
  match ids with
  | [] => []
  | i :: rest =>
      (if key_eqb i d then [quotient w (k + rank + 1)] else [])
      ++ terms w k (rank + 1) rest d
  end.

(** The first position, counted from [rank], at which the item [d]
    stands in a list. *)
Fixpoint position (d : key) (rank : Z) (ids : list key) : option Z :=
  match ids with
  | [] => None
  | i :: rest => if key_eqb i d then Some rank else position d (rank + 1) rest
  end.

(** The one quotient [w / (k + rank + 1)] of an item that a list holds
    at the position [rank]; nothing for an item the list does not hold. *)
Definition term (w : float) (k : Z) (ids : list key) (d : key) : list float :=
  match position d 0 ids with
  | Some rank => [quotient w (k + rank + 1)]
  | None => []
  end.

(** The sum of floats as the loops accumulate it, from [0.0] on. *)
Definition sum_from (start : float) (xs : list float) : float :=
  fold_left add xs start.

(** The score of the item [d]: its terms from the vector list, then its
    terms from the fuzzy list, added up in this order. *)
Definition rrf_total (wv wf : float) (k : Z) (idsv idsf : list key) (d : key) : float :=
  sum_from zero (terms wv k 0 idsv d ++ terms wf k 0 idsf d).

(** No later record scores above an earlier one. *)
Definition desc (a b : key * float) : Prop := leb (snd b) (snd a) = true.

(** What one pass of either loop does to [doc_scores]. *)
Definition bump (w : float) (k rank : Z) (sc : list (key * float)) (d : key)
    : list (key * float) :=
  let sc1 := if dict_mem key_eqb sc d then sc else dict_set key_eqb sc d zero in
  match dict_get key_eqb sc1 d with
  | Some s => dict_set key_eqb sc1 d (add s (quotient w (k + rank + 1)))
  | None => sc1
  end.

Fixpoint bump_all (w : float) (k rank : Z) (ids : list key) (sc : list (key * float))
    : list (key * float) :=
  match ids with
  | [] => sc
  | d :: rest => bump_all w k (rank + 1) rest (bump w k rank sc d)
  end.

Definition score_or0 (sc : list (key * float)) (d : key) : float :=
  match dict_get key_eqb sc d with
  | Some s => s
  | None => zero
  end.

(** A float that is a number of positive sign: [0.0], a finite float
    above zero or the positive infinity. *)
Definition nonneg (x : float) : Prop :=
  match x with
  | SpecFloat.S754_zero false
  | SpecFloat.S754_infinity false
  | SpecFloat.S754_finite false _ _ => True
  | _ => False
  end.

(** The state of the fusion in exact arithmetic and the state in floats
    go through the loops together: the same items in the same order, the
    same stored hits. *)
Definition together (st : RRF.fusion) (st64 : fusion) : Prop :=
  map fst (RRF.doc_scores st) = map fst (doc_scores st64) /\
  RRF.doc_metadata st = doc_metadata st64.

(** *** Example: a document found twice *)

(** Three vector hits: a chunk of d2, then two chunks of d1. *)
Definition chunks_heap : heap := fun l =>
  match l with
  | 0%nat => [("doc_id", VStr "d2"); ("score", VNum (9 # 10))]
  | 1%nat => [("doc_id", VStr "d1"); ("score", VNum (8 # 10))]
  | 2%nat => [("doc_id", VStr "d1"); ("score", VNum (7 # 10))]
  | _ => []
  end.

End RRF64.

(* ===================================================================== *)
(** * Part II: theorems                                                   *)
(* ===================================================================== *)

Import Py.

(** ** Facts about keys and dictionaries *)

Module PyFacts.

Lemma Qeq_bool_sym (x y : Q) : Qeq_bool x y = Qeq_bool y x.
Proof.
  destruct (Qeq_bool x y) eqn:E1, (Qeq_bool y x) eqn:E2; try reflexivity.
  - apply Qeq_bool_iff in E1. symmetry in E1. apply Qeq_bool_iff in E1. congruence.
  - apply Qeq_bool_iff in E2. symmetry in E2. apply Qeq_bool_iff in E2. congruence.
Qed.

Lemma key_eqb_refl (a : key) : key_eqb a a = true.
Proof.
  destruct a; simpl.
  - reflexivity.
  - apply Z.eqb_refl.
  - apply Qeq_bool_refl.
  - apply String.eqb_refl.
Qed.

Lemma key_eqb_sym (a b : key) : key_eqb a b = key_eqb b a.
Proof.
  destruct a, b; simpl; try reflexivity.
  - apply Z.eqb_sym.
  - apply Qeq_bool_sym.
  - apply Qeq_bool_sym.
  - apply Qeq_bool_sym.
  - apply String.eqb_sym.
Qed.

Ltac key_props :=
  repeat match goal with
  | H : Z.eqb _ _ = true |- _ => apply Z.eqb_eq in H
  | H : Qeq_bool _ _ = true |- _ => apply Qeq_bool_iff in H
  | H : String.eqb _ _ = true |- _ => apply String.eqb_eq in H
  | |- Z.eqb _ _ = true => apply Z.eqb_eq
  | |- Qeq_bool _ _ = true => apply Qeq_bool_iff
  | |- String.eqb _ _ = true => apply String.eqb_eq
  end.

Lemma key_eqb_trans (a b c : key) :
  key_eqb a b = true -> key_eqb b c = true -> key_eqb a c = true.
Proof.
  destruct a, b, c; simpl; intros H1 H2; try discriminate; try reflexivity;
    key_props; subst;
    try match goal with |- @eq Z _ _ => apply inject_Z_injective end;
    solve [ assumption | reflexivity | etransitivity; eassumption ].
Qed.

Lemma key_eqb_congr (a b c : key) :
  key_eqb a b = true -> key_eqb a c = key_eqb b c.
Proof.
  intros Hab.
  destruct (key_eqb a c) eqn:Eac, (key_eqb b c) eqn:Ebc; try reflexivity.
  - rewrite key_eqb_sym in Hab.
    rewrite (key_eqb_trans _ _ _ Hab Eac) in Ebc. discriminate.
  - rewrite (key_eqb_trans _ _ _ Hab Ebc) in Eac. discriminate.
Qed.

#[export] Instance keq_equiv : Equivalence keq.
Proof.
  split.
  - intros a. apply key_eqb_refl.
  - intros a b H. unfold keq in *. rewrite key_eqb_sym. exact H.
  - intros a b c. apply key_eqb_trans.
Qed.

Section DictFacts.
Context {K V : Type} (eqb : K -> K -> bool).
Hypothesis eqb_refl : forall a, eqb a a = true.
Hypothesis eqb_sym : forall a b, eqb a b = eqb b a.
Hypothesis eqb_trans : forall a b c, eqb a b = true -> eqb b c = true -> eqb a c = true.

Lemma eqb_congr_r (a b c : K) : eqb a b = true -> eqb c a = eqb c b.
Proof.
  intros Hab.
  destruct (eqb c a) eqn:Eca, (eqb c b) eqn:Ecb; try reflexivity.
  - rewrite (eqb_trans _ _ _ Eca Hab) in Ecb. discriminate.
  - rewrite eqb_sym in Hab. rewrite (eqb_trans _ _ _ Ecb Hab) in Eca. discriminate.
Qed.

Lemma dict_get_set_same (d : list (K * V)) k k' v :
  eqb k k' = true -> dict_get eqb (dict_set eqb d k v) k' = Some v.
Proof.
  intros Hk. induction d as [|[k0 v0] d IH]; simpl.
  - rewrite Hk. reflexivity.
  - destruct (eqb k0 k) eqn:E0; simpl.
    + rewrite <- (eqb_congr_r _ _ k0 Hk), E0. reflexivity.
    + rewrite <- (eqb_congr_r _ _ k0 Hk), E0. exact IH.
Qed.

Lemma dict_get_set_other (d : list (K * V)) k k' v :
  eqb k k' = false -> dict_get eqb (dict_set eqb d k v) k' = dict_get eqb d k'.
Proof.
  intros Hk. induction d as [|[k0 v0] d IH]; simpl.
  - rewrite Hk. reflexivity.
  - destruct (eqb k0 k) eqn:E0; simpl.
    + destruct (eqb k0 k') eqn:E1; [|reflexivity].
      rewrite eqb_sym in E0. rewrite (eqb_trans _ _ _ E0 E1) in Hk. discriminate.
    + destruct (eqb k0 k'); [reflexivity | exact IH].
Qed.

Lemma dict_get_congr (d : list (K * V)) k k' :
  eqb k k' = true -> dict_get eqb d k = dict_get eqb d k'.
Proof.
  intros Hk. induction d as [|[k0 v0] d IH]; simpl; [reflexivity|].
  rewrite (eqb_congr_r _ _ k0 Hk), IH. reflexivity.
Qed.

Lemma dict_set_keys_mem (d : list (K * V)) k v :
  dict_mem eqb d k = true -> map fst (dict_set eqb d k v) = map fst d.
Proof.
  unfold dict_mem. induction d as [|[k0 v0] d IH]; simpl; [discriminate|].
  destruct (eqb k0 k) eqn:E0; simpl; [reflexivity|].
  intros H. rewrite IH by exact H. reflexivity.
Qed.

Lemma dict_set_keys_new (d : list (K * V)) k v :
  dict_mem eqb d k = false -> dict_set eqb d k v = d ++ [(k, v)].
Proof.
  unfold dict_mem. induction d as [|[k0 v0] d IH]; simpl; [reflexivity|].
  destruct (eqb k0 k) eqn:E0; simpl; [discriminate|].
  intros H. rewrite IH by exact H. reflexivity.
Qed.

Lemma dict_get_In (d : list (K * V)) k v :
  dict_get eqb d k = Some v -> exists k0, In (k0, v) d /\ eqb k0 k = true.
Proof.
  induction d as [|[k0 v0] d IH]; simpl; [discriminate|].
  destruct (eqb k0 k) eqn:E0.
  - intros [= ->]. exists k0. auto.
  - intros H. destruct (IH H) as (k1 & Hin & Hk). exists k1. auto.
Qed.

Lemma dict_get_None (d : list (K * V)) k :
  dict_get eqb d k = None <-> (forall k0, In k0 (map fst d) -> eqb k0 k = false).
Proof.
  induction d as [|[k0 v0] d IH]; simpl.
  - split; [intros _ k0 [] | reflexivity].
  - destruct (eqb k0 k) eqn:E0.
    + split; [discriminate|]. intros H. specialize (H k0 (or_introl eq_refl)). congruence.
    + rewrite IH. split.
      * intros H k1 [<-|Hin]; auto.
      * intros H k1 Hin. apply H. auto.
Qed.

End DictFacts.

Section SortFacts.
Context {A : Type} (score : A -> Q).

Lemma insert_desc_perm x l : Permutation (insert_desc score x l) (x :: l).
Proof.
  induction l as [|y l IH]; simpl; [reflexivity|].
  destruct (Qle_bool (score y) (score x)); [reflexivity|].
  rewrite IH. apply perm_swap.
Qed.

Lemma sorted_desc_perm l : Permutation (sorted_desc score l) l.
Proof.
  induction l as [|x l IH]; simpl; [reflexivity|].
  rewrite insert_desc_perm. constructor. exact IH.
Qed.

Lemma insert_desc_sorted x l :
  StronglySorted (desc score) l -> StronglySorted (desc score) (insert_desc score x l).
Proof.
  induction 1 as [|y l Hs IH Hall]; simpl.
  - repeat constructor.
  - destruct (Qle_bool (score y) (score x)) eqn:E.
    + apply Qle_bool_iff in E. constructor.
      * constructor; assumption.
      * constructor; [exact E|].
        rewrite Forall_forall in *. intros z Hz. unfold desc in *.
        eapply Qle_trans; [apply Hall; exact Hz | exact E].
    + constructor; [exact IH|].
      assert (Hxy : (score x <= score y)%Q).
      { destruct (Qlt_le_dec (score x) (score y)) as [Hlt|Hle].
        - apply Qlt_le_weak. exact Hlt.
        - apply Qle_bool_iff in Hle. congruence. }
      rewrite Forall_forall in *. intros z Hz.
      apply (Permutation_in _ (insert_desc_perm x l)) in Hz.
      destruct Hz as [<-|Hz]; [exact Hxy | apply Hall; exact Hz].
Qed.

Lemma sorted_desc_sorted l : StronglySorted (desc score) (sorted_desc score l).
Proof.
  induction l as [|x l IH]; simpl; [constructor|].
  apply insert_desc_sorted. exact IH.
Qed.

End SortFacts.

End PyFacts.
Import Py PyFacts RRF.

Module RRFFacts.

(** *** The score dictionary *)

#[local] Abbreviation kget := (dict_get key_eqb).
#[local] Abbreviation kset := (dict_set key_eqb).
#[local] Abbreviation kmem := (dict_mem key_eqb).

Lemma kget_set_same {V} (d : list (key * V)) k k' v :
  key_eqb k k' = true -> kget (kset d k v) k' = Some v.
Proof. apply dict_get_set_same; [apply key_eqb_sym | apply key_eqb_trans]. Qed.

Lemma kget_set_other {V} (d : list (key * V)) k k' v :
  key_eqb k k' = false -> kget (kset d k v) k' = kget d k'.
Proof. apply dict_get_set_other; [apply key_eqb_sym | apply key_eqb_trans]. Qed.

Lemma kget_congr {V} (d : list (key * V)) k k' :
  key_eqb k k' = true -> kget d k = kget d k'.
Proof. apply dict_get_congr; [apply key_eqb_sym | apply key_eqb_trans]. Qed.

Lemma kmem_InA {V} (d : list (key * V)) k :
  kmem d k = true <-> InA keq k (map fst d).
Proof.
  unfold dict_mem. induction d as [|[k0 v0] d IH]; simpl.
  - split; [discriminate | intros H; inversion H].
  - destruct (key_eqb k0 k) eqn:E.
    + split; [|reflexivity]. intros _. left. unfold keq. rewrite key_eqb_sym. exact E.
    + rewrite IH. split.
      * intros H. right. exact H.
      * intros H. inversion H as [? ? Hk|? ? Hk]; subst; [|exact Hk].
        unfold keq in Hk. rewrite key_eqb_sym in Hk. congruence.
Qed.

Lemma kmem_keys {V W} (d1 : list (key * V)) (d2 : list (key * W)) k :
  map fst d1 = map fst d2 -> kmem d1 k = kmem d2 k.
Proof.
  intros H.
  destruct (kmem d1 k) eqn:E1, (kmem d2 k) eqn:E2; try reflexivity.
  - apply kmem_InA in E1. rewrite H in E1. apply kmem_InA in E1. congruence.
  - apply kmem_InA in E2. rewrite <- H in E2. apply kmem_InA in E2. congruence.
Qed.

Lemma kset_keys {V} (d : list (key * V)) k v :
  map fst (kset d k v) = if kmem d k then map fst d else map fst d ++ [k].
Proof.
  destruct (kmem d k) eqn:E.
  - apply dict_set_keys_mem. exact E.
  - rewrite dict_set_keys_new by exact E. rewrite map_app. reflexivity.
Qed.

Lemma kget_of_In {V} (d : list (key * V)) k v :
  NoDupA keq (map fst d) -> In (k, v) d -> kget d k = Some v.
Proof.
  induction d as [|[k0 v0] d IH]; simpl; [intros _ []|].
  intros Hnd Hin. inversion Hnd as [|? ? Hnot Hnd']; subst.
  destruct Hin as [[= -> ->]|Hin].
  - rewrite key_eqb_refl. reflexivity.
  - destruct (key_eqb k0 k) eqn:E.
    + exfalso. apply Hnot. apply InA_alt. exists k. split; [exact E|].
      apply (in_map fst) in Hin. exact Hin.
    + apply IH; assumption.
Qed.

Section Bump.
Variables (w : Q) (k : Z).

Lemma bump_score rank sc d d' :
  (score_or0 (bump w k rank sc d) d'
   == score_or0 sc d' + (if key_eqb d d' then w / inject_Z (k + rank + 1) else 0))%Q.
Proof.
  unfold bump, score_or0.
  destruct (kmem sc d) eqn:Em.
  - unfold dict_mem in Em. destruct (kget sc d) as [s|] eqn:Eg; [|discriminate].
    destruct (key_eqb d d') eqn:E.
    + rewrite (kget_set_same _ _ _ _ E), <- (kget_congr _ _ _ E), Eg. reflexivity.
    + rewrite (kget_set_other _ _ _ _ E). ring.
  - rewrite (kget_set_same _ _ _ _ (key_eqb_refl d)).
    unfold dict_mem in Em. destruct (kget sc d) as [s|] eqn:Eg; [discriminate|].
    destruct (key_eqb d d') eqn:E.
    + rewrite (kget_set_same _ _ _ _ E), <- (kget_congr _ _ _ E), Eg. reflexivity.
    + rewrite !(kget_set_other _ _ _ _ E). ring.
Qed.

Lemma bump_keys rank sc d :
  map fst (bump w k rank sc d) = if kmem sc d then map fst sc else map fst sc ++ [d].
Proof.
  unfold bump. destruct (kmem sc d) eqn:Em.
  - unfold dict_mem in Em. destruct (kget sc d) as [s|] eqn:Eg; [|discriminate].
    rewrite kset_keys. unfold dict_mem. rewrite Eg. reflexivity.
  - rewrite (kget_set_same _ _ _ _ (key_eqb_refl d)).
    rewrite kset_keys.
    assert (Hm : kmem (kset sc d 0%Q) d = true).
    { unfold dict_mem. rewrite (kget_set_same _ _ _ _ (key_eqb_refl d)). reflexivity. }
    rewrite Hm, kset_keys, Em. reflexivity.
Qed.

Lemma bump_all_score ids : forall rank sc d',
  (score_or0 (bump_all w k rank ids sc) d'
   == score_or0 sc d' + contributions w k rank ids d')%Q.
Proof.
  induction ids as [|d ids IH]; intros rank sc d'; simpl.
  - ring.
  - rewrite IH, bump_score. ring.
Qed.

Lemma bump_NoDupA rank sc d :
  NoDupA keq (map fst sc) -> NoDupA keq (map fst (bump w k rank sc d)).
Proof.
  intros Hnd. rewrite bump_keys. destruct (kmem sc d) eqn:Em; [exact Hnd|].
  apply NoDupA_app; [apply keq_equiv | exact Hnd | repeat constructor; intros H; inversion H |].
  intros x Hx Hd. inversion Hd as [? ? Hxd|? ? Hxd]; subst; [|inversion Hxd].
  assert (InA keq d (map fst sc)) as Hin.
  { rewrite <- Hxd. exact Hx. }
  apply kmem_InA in Hin. congruence.
Qed.

Lemma bump_InA rank sc d x :
  InA keq x (map fst (bump w k rank sc d)) <-> InA keq x (map fst sc) \/ keq x d.
Proof.
  rewrite bump_keys. destruct (kmem sc d) eqn:Em.
  - split; [auto|]. intros [H|H]; [exact H|].
    apply kmem_InA in Em. rewrite H. exact Em.
  - rewrite InA_app_iff. split; (intros [H|H]; [left; exact H | right]).
    + inversion H as [? ? Hx|? ? Hx]; subst; [exact Hx | inversion Hx].
    + left. exact H.
Qed.

Lemma bump_all_NoDupA ids : forall rank sc,
  NoDupA keq (map fst sc) -> NoDupA keq (map fst (bump_all w k rank ids sc)).
Proof.
  induction ids as [|d ids IH]; intros rank sc Hnd; simpl; [exact Hnd|].
  apply IH. apply bump_NoDupA. exact Hnd.
Qed.

Lemma bump_all_InA ids : forall rank sc x,
  InA keq x (map fst (bump_all w k rank ids sc))
  <-> InA keq x (map fst sc) \/ InA keq x ids.
Proof.
  induction ids as [|d ids IH]; intros rank sc x; simpl.
  - split; [auto|]. intros [H|H]; [exact H | inversion H].
  - rewrite IH, bump_InA. split.
    + intros [[H|H]|H]; auto.
    + intros [H|H]; [auto|]. inversion H; subst; auto.
Qed.

End Bump.


(** *** Hits and the heap *)

Lemma sget_sset_same {V} (r : list (string * V)) f v : sget (sset r f v) f = Some v.
Proof.
  apply dict_get_set_same; [apply String.eqb_sym | | apply String.eqb_refl].
  intros a b c Hab Hbc. apply String.eqb_eq in Hab, Hbc. subst. apply String.eqb_refl.
Qed.

Lemma sget_sset_other {V} (r : list (string * V)) f f' v :
  f <> f' -> sget (sset r f v) f' = sget r f'.
Proof.
  intros Hf. apply dict_get_set_other; [apply String.eqb_sym | | apply String.eqb_neq; exact Hf].
  intros a b c Hab Hbc. apply String.eqb_eq in Hab, Hbc. subst. apply String.eqb_refl.
Qed.

Lemma store_same h l f v : store h l f v l = sset (h l) f v.
Proof. unfold store. rewrite Nat.eqb_refl. reflexivity. Qed.

Lemma store_other h l f v l' : l' <> l -> store h l f v l' = h l'.
Proof. unfold store. intros H. apply Nat.eqb_neq in H. rewrite H. reflexivity. Qed.

Lemma is_annotation_neq f f' :
  is_annotation f = true -> is_annotation f' = false -> f <> f'.
Proof. intros H1 H2 ->. congruence. Qed.

Lemma annotates_store m h f v :
  is_annotation f = true -> annotates m h (store h m f v).
Proof.
  intros Hf. split.
  - intros l Hl. apply store_other. exact Hl.
  - intros f' Hf'. rewrite store_same. apply sget_sset_other.
    apply is_annotation_neq; assumption.
Qed.

Lemma annotates_trans m h1 h2 h3 :
  annotates m h1 h2 -> annotates m h2 h3 -> annotates m h1 h3.
Proof.
  intros [A1 B1] [A2 B2]. split.
  - intros l Hl. rewrite A2, A1 by exact Hl. reflexivity.
  - intros f Hf. rewrite B2, B1 by exact Hf. reflexivity.
Qed.

Lemma frame_refl ls h : frame ls h h.
Proof. split; reflexivity. Qed.

Lemma frame_trans ls h1 h2 h3 : frame ls h1 h2 -> frame ls h2 h3 -> frame ls h1 h3.
Proof.
  intros [A1 B1] [A2 B2]. split.
  - intros l Hl. rewrite A2, A1 by exact Hl. reflexivity.
  - intros l f Hf. rewrite B2, B1 by exact Hf. reflexivity.
Qed.

Lemma annotates_frame ls m h h' : In m ls -> annotates m h h' -> frame ls h h'.
Proof.
  intros Hm [A B]. split.
  - intros l Hl. apply A. intros ->. apply Hl, Hm.
  - intros l f Hf. destruct (Nat.eq_dec l m) as [->|Hne].
    + apply B. exact Hf.
    + rewrite A by exact Hne. reflexivity.
Qed.

Lemma frame_get h h' ls l f :
  frame ls h h' -> is_annotation f = false -> sget (h' l) f = sget (h l) f.
Proof. intros [_ B]. apply B. Qed.

Lemma frame_id_of ls h h' l : frame ls h h' -> id_of h' l = id_of h l.
Proof.
  intros F. unfold id_of, rec_key. rewrite (frame_get _ _ _ l "doc_id" F); reflexivity.
Qed.

Lemma frame_ids_are ls h h' results ids :
  frame ls h h' -> ids_are h results ids -> ids_are h' results ids.
Proof.
  intros F H. induction H; constructor; [|assumption].
  rewrite (frame_id_of _ _ _ _ F). assumption.
Qed.

(** *** One pass of a loop *)

Lemma accumulate_heap k ws strategy rank result st h res h' :
  accumulate k ws strategy rank result st h = (res, h') -> h' = h.
Proof.
  unfold accumulate, mbind, lift, deref, ret.
  destruct (getitem (h result) "doc_id"); [|intros [= _ <-]; reflexivity].
  destruct (getitem ws strategy); [|intros [= _ <-]; reflexivity].
  destruct (py_div _ _); [|intros [= _ <-]; reflexivity].
  destruct (hash_key _); [|intros [= _ <-]; reflexivity].
  destruct (kget _ _); [|intros [= _ <-]; reflexivity].
  destruct (kget _ _); intros [= _ <-]; reflexivity.
Qed.

Lemma vector_step_unfold k ws rank result st h :
  vector_step k ws rank result st h =
  match accumulate k ws "vector" rank result st h with
  | (Ok (st', m), h1) =>
      let h2 := store h1 m "vector_rank" (VInt rank) in
      (Ok st', store h2 m "vector_score" (get_default (h2 result) "score" (VInt 0)))
  | (Raise e, h1) => (Raise e, h1)
  end.
Proof.
  unfold vector_step, mbind at 1.
  destruct (accumulate k ws "vector" rank result st h) as [[[st' m]|e] h1]; reflexivity.
Qed.

Lemma fuzzy_step_unfold k ws rank result st h :
  fuzzy_step k ws rank result st h =
  match accumulate k ws "fuzzy" rank result st h with
  | (Ok (st', m), h1) =>
      let h2 := store h1 m "fuzzy_rank" (VInt rank) in
      let h3 := store h2 m "fuzzy_score" (get_default (h2 result) "score" (VInt 0)) in
      (Ok st', store h3 m "fuzzy_type" (get_default (h3 result) "type" (VStr "")))
  | (Raise e, h1) => (Raise e, h1)
  end.
Proof.
  unfold fuzzy_step, mbind at 1.
  destruct (accumulate k ws "fuzzy" rank result st h) as [[[st' m]|e] h1]; reflexivity.
Qed.

Lemma writes_store fields m h f v : In f fields -> writes fields m h (store h m f v).
Proof.
  intros Hf. split.
  - intros l Hl. apply store_other. exact Hl.
  - intros f' Hf'. rewrite store_same. apply sget_sset_other. intros ->. contradiction.
Qed.

Lemma writes_trans fields m h1 h2 h3 :
  writes fields m h1 h2 -> writes fields m h2 h3 -> writes fields m h1 h3.
Proof.
  intros [A1 B1] [A2 B2]. split.
  - intros l Hl. rewrite A2, A1 by exact Hl. reflexivity.
  - intros f Hf. rewrite B2, B1 by exact Hf. reflexivity.
Qed.

Lemma writes_annotates fields m h h' :
  (forall f, In f fields -> is_annotation f = true) ->
  writes fields m h h' -> annotates m h h'.
Proof.
  intros Hsub [A B]. split; [exact A|].
  intros f Hf. apply B. intros Hin. rewrite (Hsub _ Hin) in Hf. discriminate.
Qed.

Lemma writes_keeps fields m h h' : writes fields m h h' -> keeps fields h h'.
Proof.
  intros [A B] l f Hf. destruct (Nat.eq_dec l m) as [->|Hne].
  - apply B. exact Hf.
  - rewrite A by exact Hne. reflexivity.
Qed.

Lemma vector_fields_annotations f : In f vector_fields -> is_annotation f = true.
Proof. intros [<-|[<-|[]]]; reflexivity. Qed.

Lemma fuzzy_fields_annotations f : In f fuzzy_fields -> is_annotation f = true.
Proof. intros [<-|[<-|[<-|[]]]]; reflexivity. Qed.

Lemma ranking_annotating k ws strategy fields rf sf step :
  (forall f, In f fields -> is_annotation f = true) ->
  ranking k ws strategy fields rf sf step -> annotating k ws strategy step.
Proof.
  intros Hsub Hr rank result st h. specialize (Hr rank result st h).
  destruct (accumulate k ws strategy rank result st h) as [[[st' m]|e] h1]; [|exact Hr].
  destruct Hr as (h' & Hrun & Hw & _). exists h'. split; [exact Hrun|].
  apply (writes_annotates fields); assumption.
Qed.

Lemma vector_step_ranking k ws :
  ranking k ws "vector" vector_fields "vector_rank" "vector_score" (vector_step k ws).
Proof.
  intros rank result st h. rewrite vector_step_unfold.
  destruct (accumulate k ws "vector" rank result st h) as [[[st' m]|e] h1] eqn:E;
    apply accumulate_heap in E; subst h1; [|reflexivity].
  eexists. split; [reflexivity|]. cbv zeta. split; [|split].
  - eapply writes_trans; apply writes_store; simpl; auto.
  - rewrite store_same, sget_sset_other by discriminate.
    rewrite store_same. apply sget_sset_same.
  - rewrite store_same, sget_sset_same. f_equal. unfold get_default.
    destruct (Nat.eq_dec result m) as [->|Hne].
    + rewrite store_same, sget_sset_other by discriminate. reflexivity.
    + rewrite store_other by exact Hne. reflexivity.
Qed.

Lemma fuzzy_step_ranking k ws :
  ranking k ws "fuzzy" fuzzy_fields "fuzzy_rank" "fuzzy_score" (fuzzy_step k ws).
Proof.
  intros rank result st h. rewrite fuzzy_step_unfold.
  destruct (accumulate k ws "fuzzy" rank result st h) as [[[st' m]|e] h1] eqn:E;
    apply accumulate_heap in E; subst h1; [|reflexivity].
  eexists. split; [reflexivity|]. cbv zeta. split; [|split].
  - eapply writes_trans; [|apply writes_store; simpl; auto].
    eapply writes_trans; apply writes_store; simpl; auto.
  - rewrite store_same, sget_sset_other by discriminate.
    rewrite store_same, sget_sset_other by discriminate.
    rewrite store_same. apply sget_sset_same.
  - rewrite store_same, sget_sset_other by discriminate.
    rewrite store_same, sget_sset_same. f_equal. unfold get_default.
    destruct (Nat.eq_dec result m) as [->|Hne].
    + rewrite store_same, sget_sset_other by discriminate. reflexivity.
    + rewrite store_other by exact Hne. reflexivity.
Qed.

Lemma vector_step_annotating k ws : annotating k ws "vector" (vector_step k ws).
Proof.
  eapply ranking_annotating; [apply vector_fields_annotations | apply vector_step_ranking].
Qed.

Lemma fuzzy_step_annotating k ws : annotating k ws "fuzzy" (fuzzy_step k ws).
Proof.
  eapply ranking_annotating; [apply fuzzy_fields_annotations | apply fuzzy_step_ranking].
Qed.

Lemma annotates_id_of m h h' l : annotates m h h' -> id_of h' l = id_of h l.
Proof.
  intros A. apply (frame_id_of [m]). apply (annotates_frame _ m); [left; reflexivity | exact A].
Qed.

Lemma accumulate_inv k ws strategy rank result st h st' m h1 :
  accumulate k ws strategy rank result st h = (Ok (st', m), h1) ->
  exists w d,
    id_of h result = Some d /\ sget ws strategy = Some w /\ k + rank + 1 <> 0 /\
    doc_scores st' = bump w k rank (doc_scores st) d /\
    doc_metadata st' =
      (if kmem (doc_scores st) d then doc_metadata st
       else kset (doc_metadata st) d result) /\
    kget (doc_metadata st') d = Some m.
Proof.
  unfold accumulate, mbind, lift, deref, ret, getitem, py_div, id_of, rec_key.
  destruct (sget (h result) "doc_id") as [v|]; [|discriminate].
  destruct (sget ws strategy) as [w|]; [|discriminate].
  destruct (Z.eqb_spec (k + rank + 1) 0) as [|Hk]; [discriminate|].
  destruct (hash_key v) as [d|]; [|discriminate].
  destruct (kmem (doc_scores st) d) eqn:Em; simpl.
  - destruct (kget (doc_scores st) d) as [s|] eqn:Es; [|discriminate].
    destruct (kget (doc_metadata st) d) as [m0|] eqn:Eg; [|discriminate].
    intros [= <- <- <-]. exists w, d. unfold bump. simpl. rewrite Em, Es. auto 10.
  - destruct (kget (kset (doc_scores st) d 0%Q) d) as [s|] eqn:Es; [|discriminate].
    destruct (kget (kset (doc_metadata st) d result) d) as [m0|] eqn:Eg; [|discriminate].
    intros [= <- <- <-]. exists w, d. unfold bump. simpl. rewrite Em, Es. auto 10.
Qed.

Lemma accumulate_ok k ws strategy w rank result st h d :
  id_of h result = Some d -> sget ws strategy = Some w -> k + rank + 1 <> 0 ->
  map fst (doc_scores st) = map fst (doc_metadata st) ->
  exists st' m, accumulate k ws strategy rank result st h = (Ok (st', m), h).
Proof.
  intros Hid Hw Hk Hkeys.
  unfold accumulate, mbind, lift, deref, ret, getitem, py_div.
  unfold id_of, rec_key in Hid.
  destruct (sget (h result) "doc_id") as [v|]; [|discriminate].
  rewrite Hw. destruct (Z.eqb_spec (k + rank + 1) 0) as [|_]; [contradiction|].
  destruct (hash_key v) as [d0|]; [|discriminate]. injection Hid as ->.
  destruct (kmem (doc_scores st) d) eqn:Em; simpl.
  - pose proof Em as Em'. rewrite (kmem_keys _ (doc_metadata st) _ Hkeys) in Em'.
    unfold dict_mem in Em, Em'.
    destruct (kget (doc_scores st) d); [|discriminate].
    destruct (kget (doc_metadata st) d); [|discriminate].
    eauto.
  - rewrite !(kget_set_same _ _ _ _ (key_eqb_refl d)). eauto.
Qed.

Lemma In_kset {V} (d : list (key * V)) k v k' v' :
  In (k', v') (kset d k v) -> In (k', v') d \/ v' = v.
Proof.
  induction d as [|[k0 v0] d IH]; simpl.
  - intros [[= <- <-]|[]]. right. reflexivity.
  - destruct (key_eqb k0 k); simpl.
    + intros [[= <- <-]|H]; auto.
    + intros [H|H]; [auto|]. destruct (IH H); auto.
Qed.

(** *** The loops leave everything but annotations alone *)

Section LoopFrame.
Variables (k : Z) (ws : list (string * Q)) (strategy : string).
Variable step : Z -> loc -> fusion -> M fusion.
Hypothesis Hstep : annotating k ws strategy step.
Variable ls : list loc.

Lemma step_frame rank result st h res h' :
  In result ls -> locs_in st ls ->
  step rank result st h = (res, h') ->
  frame ls h h' /\ (forall st', res = Ok st' -> locs_in st' ls).
Proof.
  intros Hres Hst Hrun. specialize (Hstep rank result st h).
  destruct (accumulate k ws strategy rank result st h) as [[[st1 m]|e] h1] eqn:E.
  - destruct Hstep as (h2 & Hrun' & Hann). rewrite Hrun' in Hrun.
    injection Hrun as <- <-.
    destruct (accumulate_inv _ _ _ _ _ _ _ _ _ _ E)
      as (w & d & _ & _ & _ & _ & Hmd & Hm).
    assert (Hst1 : locs_in st1 ls).
    { intros d' m' Hin. rewrite Hmd in Hin.
      destruct (kmem (doc_scores st) d); [exact (Hst _ _ Hin)|].
      destruct (In_kset _ _ _ _ _ Hin) as [H| ->]; [exact (Hst _ _ H) | exact Hres]. }
    split.
    + apply (annotates_frame ls m); [|exact Hann].
      destruct (dict_get_In _ _ _ _ Hm) as (k0 & Hin & _). exact (Hst1 _ _ Hin).
    + intros st' [= <-]. exact Hst1.
  - rewrite Hstep in Hrun. injection Hrun as <- <-.
    split; [apply frame_refl | discriminate].
Qed.

Lemma loop_frame results : forall rank st h res h',
  incl results ls -> locs_in st ls ->
  for_enumerate step rank results st h = (res, h') ->
  frame ls h h' /\ (forall st', res = Ok st' -> locs_in st' ls).
Proof.
  induction results as [|result rest IH]; intros rank st h res h' Hincl Hst; simpl.
  - unfold ret. intros [= <- <-]. split; [apply frame_refl|].
    intros st' [= <-]. exact Hst.
  - unfold mbind. destruct (step rank result st h) as [[st1|e] h1] eqn:E;
      destruct (step_frame _ _ _ _ _ _ (Hincl _ (or_introl eq_refl)) Hst E) as [F1 L1].
    + intros Hrun.
      destruct (IH _ _ _ _ _ (fun l H => Hincl l (or_intror H)) (L1 _ eq_refl) Hrun)
        as [F2 L2].
      split; [exact (frame_trans _ _ _ _ F1 F2) | exact L2].
    + intros [= <- <-]. split; [exact F1 | discriminate].
Qed.

End LoopFrame.

(** *** The loops compute the score dictionary *)

Lemma first_hit_app h d ls l m :
  first_hit h d ls = Some m -> first_hit h d (ls ++ [l]) = Some m.
Proof.
  unfold first_hit. induction ls as [|x ls IH]; simpl; [discriminate|].
  destruct (match id_of h x with Some d' => key_eqb d' d | None => false end);
    [trivial | exact IH].
Qed.

Lemma first_hit_new h d ls l :
  (forall x, In x ls -> exists d', id_of h x = Some d' /\ key_eqb d' d = false) ->
  id_of h l = Some d ->
  first_hit h d (ls ++ [l]) = Some l.
Proof.
  unfold first_hit. intros Hls Hl. induction ls as [|x ls IH]; simpl.
  - rewrite Hl, key_eqb_refl. reflexivity.
  - destruct (Hls x (or_introl eq_refl)) as (d' & -> & ->).
    apply IH. intros y Hy. apply Hls. right. exact Hy.
Qed.

Lemma first_hit_frame ls0 h h' d ls :
  frame ls0 h h' -> first_hit h' d ls = first_hit h d ls.
Proof.
  intros F. unfold first_hit. induction ls as [|l ls IH]; simpl; [reflexivity|].
  rewrite (frame_id_of _ _ _ _ F), IH. reflexivity.
Qed.

Lemma Inv_frame ls0 st h h' seen : frame ls0 h h' -> Inv st h seen -> Inv st h' seen.
Proof.
  intros F (I1 & I2 & I3 & I4). repeat split; try assumption.
  - rewrite (frame_id_of _ _ _ _ F). apply (I3 _ _ H).
  - rewrite (first_hit_frame _ _ _ _ _ F). apply (I3 _ _ H).
  - intros l Hl. destruct (I4 l Hl) as (d & Hd & Hm). exists d.
    rewrite (frame_id_of _ _ _ _ F). auto.
Qed.

Lemma bump_kmem w k rank sc d d' :
  kmem sc d' = true -> kmem (bump w k rank sc d) d' = true.
Proof.
  intros H. apply kmem_InA. apply bump_InA. left. apply kmem_InA. exact H.
Qed.

Lemma bump_kmem_self w k rank sc d : kmem (bump w k rank sc d) d = true.
Proof. apply kmem_InA. apply bump_InA. right. apply key_eqb_refl. Qed.

Lemma accumulate_Inv k ws strategy rank result st h st' m h1 seen :
  accumulate k ws strategy rank result st h = (Ok (st', m), h1) ->
  Inv st h seen -> Inv st' h (seen ++ [result]).
Proof.
  intros E (I1 & I2 & I3 & I4).
  destruct (accumulate_inv _ _ _ _ _ _ _ _ _ _ E)
    as (w & d & Hid & _ & _ & Hsc & Hmd & _).
  repeat split.
  - rewrite Hsc, Hmd, bump_keys.
    destruct (kmem (doc_scores st) d) eqn:Em; [exact I1|].
    rewrite kset_keys, <- (kmem_keys _ _ _ I1), Em, I1. reflexivity.
  - rewrite Hsc. apply bump_NoDupA. exact I2.
  - rewrite Hmd in H. destruct (kmem (doc_scores st) d) eqn:Em.
    + apply (I3 _ _ H).
    + rewrite dict_set_keys_new in H
        by (rewrite <- (kmem_keys _ _ _ I1); exact Em).
      apply in_app_or in H. destruct H as [H|[[= <- <-]|[]]]; [apply (I3 _ _ H) | exact Hid].
  - rewrite Hmd in H. destruct (kmem (doc_scores st) d) eqn:Em.
    + apply first_hit_app. apply (I3 _ _ H).
    + rewrite dict_set_keys_new in H
        by (rewrite <- (kmem_keys _ _ _ I1); exact Em).
      apply in_app_or in H. destruct H as [H|[[= <- <-]|[]]].
      * apply first_hit_app. apply (I3 _ _ H).
      * apply first_hit_new; [|exact Hid].
        intros x Hx. destruct (I4 x Hx) as (d' & Hd' & Hm'). exists d'.
        split; [exact Hd'|].
        destruct (key_eqb d' d) eqn:E'; [|reflexivity].
        unfold dict_mem in Hm', Em. rewrite (kget_congr _ _ _ E') in Hm'.
        rewrite Hm' in Em. discriminate.
  - intros l Hl. rewrite Hsc. apply in_app_or in Hl. destruct Hl as [Hl|[<-|[]]].
    + destruct (I4 l Hl) as (d' & Hd' & Hm'). exists d'. split; [exact Hd'|].
      apply bump_kmem. exact Hm'.
    + exists d. split; [exact Hid | apply bump_kmem_self].
Qed.

Section LoopScores.
Variables (k : Z) (ws : list (string * Q)) (strategy : string) (w : Q).
Variable step : Z -> loc -> fusion -> M fusion.
Hypothesis Hstep : annotating k ws strategy step.
Hypothesis Hw : sget ws strategy = Some w.
Hypothesis Hk : 0 <= k.

Lemma loop_ok results : forall ids rank st h seen,
  0 <= rank -> ids_are h results ids -> Inv st h seen ->
  exists st' h',
    for_enumerate step rank results st h = (Ok st', h') /\
    doc_scores st' = bump_all w k rank ids (doc_scores st) /\
    Inv st' h' (seen ++ results).
Proof.
  induction results as [|result rest IH]; intros ids rank st h seen Hrank Hids HI.
  - inversion Hids; subst. exists st, h. simpl. rewrite app_nil_r. auto.
  - inversion Hids as [|? d ? ids' Hid Hids']; subst. simpl.
    destruct HI as (I1 & I2 & I3 & I4).
    destruct (accumulate_ok k ws strategy w rank result st h d Hid Hw ltac:(lia) I1)
      as (st1 & m & E).
    pose proof (Hstep rank result st h) as Hs. rewrite E in Hs.
    destruct Hs as (h1 & Hrun & Hann).
    assert (F : frame [m] h h1) by (apply (annotates_frame _ m); [left; reflexivity | exact Hann]).
    pose proof (accumulate_Inv _ _ _ _ _ _ _ _ _ _ seen E
                  (conj I1 (conj I2 (conj I3 I4)))) as HI1.
    apply (Inv_frame _ _ _ _ _ F) in HI1.
    destruct (IH ids' (rank + 1) st1 h1 (seen ++ [result]) ltac:(lia)
                (frame_ids_are _ _ _ _ _ F Hids') HI1) as (st2 & h2 & Hrun2 & Hsc2 & HI2).
    exists st2, h2. unfold mbind. rewrite Hrun. split; [exact Hrun2|].
    split.
    + rewrite Hsc2.
      destruct (accumulate_inv _ _ _ _ _ _ _ _ _ _ E)
        as (w' & d' & Hid' & Hw' & _ & Hsc & _).
      rewrite Hid in Hid'. injection Hid' as <-. rewrite Hw in Hw'. injection Hw' as <-.
      rewrite Hsc. reflexivity.
    + rewrite <- app_assoc in HI2. exact HI2.
Qed.

End LoopScores.

(** *** The final loop *)

Lemma Inv_lookup st h seen d s :
  Inv st h seen -> In (d, s) (doc_scores st) ->
  kget (doc_scores st) d = Some s /\
  exists m, kget (doc_metadata st) d = Some m /\ id_of h m = Some d.
Proof.
  intros (I1 & I2 & I3 & _) Hin. split; [apply kget_of_In; assumption|].
  assert (Hk : In d (map fst (doc_metadata st))).
  { rewrite <- I1. apply (in_map fst) in Hin. exact Hin. }
  apply in_map_iff in Hk. destruct Hk as ([d0 m] & Hd & Hm). simpl in Hd. subst d0.
  exists m. split; [|apply (I3 _ _ Hm)].
  apply kget_of_In; [rewrite <- I1; exact I2 | exact Hm].
Qed.

Lemma emit_fields (h : heap) (m : loc) s f :
  f <> "fused_score" -> f <> "fusion_method" ->
  sget (sset (sset (h m) "fused_score" (VNum s)) "fusion_method" (VStr "RRF")) f
  = sget (h m) f.
Proof.
  intros H1 H2. rewrite !sget_sset_other by (intros E; symmetry in E; contradiction).
  reflexivity.
Qed.

Lemma emit_all_ok st h seen items :
  Inv st h seen -> incl items (doc_scores st) ->
  exists out,
    emit_all st h items = Ok out /\
    Forall2 (fun o it =>
       rec_key o = Some (fst it) /\ rec_score o = Some (snd it) /\
       exists m, kget (doc_metadata st) (fst it) = Some m /\
         o = sset (sset (h m) "fused_score" (VNum (snd it))) "fusion_method" (VStr "RRF"))
      out items.
Proof.
  intros HI. induction items as [|[d s] items IH]; intros Hincl; simpl.
  - exists []. split; [reflexivity | constructor].
  - destruct (Inv_lookup _ _ _ _ _ HI (Hincl _ (or_introl eq_refl)))
      as (_ & m & Hm & Hid).
    destruct (IH (fun x H => Hincl x (or_intror H))) as (out & Hout & HF).
    unfold emit. simpl. rewrite Hm. simpl. rewrite Hout. simpl.
    eexists. split; [reflexivity|]. constructor; [|exact HF]. simpl.
    split; [|split].
    + unfold rec_key. rewrite emit_fields by discriminate. exact Hid.
    + unfold rec_score. rewrite sget_sset_other by discriminate.
      rewrite sget_sset_same. reflexivity.
    + exists m. auto.
Qed.

Lemma Inv_empty h : Inv {| doc_scores := []; doc_metadata := [] |} h [].
Proof.
  repeat split; simpl; try constructor; try contradiction.
Qed.

Lemma fuse_results_unfold k vs fs weights h :
  fuse_results k vs fs weights h =
  let ws := match weights with None => default_weights | Some w => w end in
  match for_enumerate (vector_step k ws) 0 vs {| doc_scores := []; doc_metadata := [] |} h with
  | (Ok st1, h1) =>
      match for_enumerate (fuzzy_step k ws) 0 fs st1 h1 with
      | (Ok st2, h2) => (emit_all st2 h2 (sorted_desc snd (doc_scores st2)), h2)
      | (Raise e, h2) => (Raise e, h2)
      end
  | (Raise e, h1) => (Raise e, h1)
  end.
Proof.
  unfold fuse_results, mbind. simpl.
  destruct (for_enumerate _ 0 vs _ h) as [[st1|e] h1]; [|reflexivity].
  destruct (for_enumerate _ 0 fs st1 h1) as [[st2|e] h2]; reflexivity.
Qed.


(** *** Ranks and scores written into the hits *)

Lemma same_data_refl h : same_data h h.
Proof. intros l f _. reflexivity. Qed.

Lemma same_data_frame ls h0 h h' : same_data h0 h -> frame ls h h' -> same_data h0 h'.
Proof.
  intros S [_ B] l f Hf. rewrite B, S by exact Hf. reflexivity.
Qed.

Lemma same_data_id_of h0 h l : same_data h0 h -> id_of h l = id_of h0 l.
Proof. intros S. unfold id_of, rec_key. rewrite (S l "doc_id"); reflexivity. Qed.

Lemma same_data_score h0 h l :
  same_data h0 h ->
  get_default (h l) "score" (VInt 0) = get_default (h0 l) "score" (VInt 0).
Proof. intros S. unfold get_default. rewrite (S l "score"); reflexivity. Qed.

Lemma keeps_refl fields h : keeps fields h h.
Proof. intros l f _. reflexivity. Qed.

Lemma keeps_trans fields h1 h2 h3 :
  keeps fields h1 h2 -> keeps fields h2 h3 -> keeps fields h1 h3.
Proof. intros A B l f Hf. rewrite B, A by exact Hf. reflexivity. Qed.

Lemma accumulate_incl k ws strategy rank result st h st' m h1 :
  accumulate k ws strategy rank result st h = (Ok (st', m), h1) ->
  map fst (doc_scores st) = map fst (doc_metadata st) ->
  incl (doc_metadata st) (doc_metadata st').
Proof.
  intros E I1.
  destruct (accumulate_inv _ _ _ _ _ _ _ _ _ _ E) as (w & d & _ & _ & _ & _ & Hmd & _).
  rewrite Hmd. destruct (kmem (doc_scores st) d) eqn:Em; [apply incl_refl|].
  rewrite dict_set_keys_new by (rewrite <- (kmem_keys _ _ _ I1); exact Em).
  apply incl_appl, incl_refl.
Qed.

Section LoopRanked.
Variables (k : Z) (ws : list (string * Q)) (strategy : string).
Variables (fields : list string) (rf sf : string).
Variable step : Z -> loc -> fusion -> M fusion.
Hypothesis Hstep : ranking k ws strategy fields rf sf step.
Hypothesis Hsub : forall f, In f fields -> is_annotation f = true.

Lemma loop_keeps results : forall rank st h res h',
  for_enumerate step rank results st h = (res, h') -> keeps fields h h'.
Proof.
  induction results as [|result rest IH]; intros rank st h res h'; simpl.
  - unfold ret. intros [= _ <-]. apply keeps_refl.
  - unfold mbind. pose proof (Hstep rank result st h) as Hs.
    destruct (accumulate k ws strategy rank result st h) as [[[st1 m]|e] hx].
    + destruct Hs as (h1 & -> & Hw & _). intros Hrun.
      eapply keeps_trans; [exact (writes_keeps _ _ _ _ Hw) | exact (IH _ _ _ _ _ Hrun)].
    + rewrite Hs. intros [= _ <-]. apply keeps_refl.
Qed.

Lemma loop_ranked h0 rank0 rest : forall done st h seen st' h',
  Inv st h seen -> same_data h0 h ->
  (forall d m, In (d, m) (doc_metadata st) -> occurs h0 d done ->
     ranked rf sf h0 done rank0 d (h m)) ->
  for_enumerate step (rank0 + Z.of_nat (length done)) rest st h = (Ok st', h') ->
  incl (doc_metadata st) (doc_metadata st') /\
  (forall d m, In (d, m) (doc_metadata st') -> occurs h0 d (done ++ rest) ->
     ranked rf sf h0 (done ++ rest) rank0 d (h' m)).
Proof.
  induction rest as [|result rest IH]; intros done st h seen st' h' HI HS Hpre; simpl.
  - unfold ret. intros [= <- <-]. rewrite app_nil_r. split; [apply incl_refl | exact Hpre].
  - unfold mbind. pose proof (Hstep (rank0 + Z.of_nat (length done)) result st h) as Hs.
    destruct (accumulate k ws strategy _ result st h) as [[[st1 m0]|e] hx] eqn:E;
      [|rewrite Hs; discriminate].
    destruct Hs as (h1 & -> & Hw & Hrank & Hscore). intros Hrun.
    pose proof (writes_annotates _ _ _ _ Hsub Hw) as Hann.
    assert (F : frame [m0] h h1) by (apply (annotates_frame _ m0); [left; reflexivity | exact Hann]).
    pose proof (accumulate_Inv _ _ _ _ _ _ _ _ _ _ seen E HI) as HI1.
    pose proof (accumulate_incl _ _ _ _ _ _ _ _ _ _ E (proj1 HI)) as Hincl1.
    destruct (accumulate_inv _ _ _ _ _ _ _ _ _ _ E)
      as (w & d0 & Hid0 & _ & _ & _ & Hmd & Hm0).
    assert (Hlen : rank0 + Z.of_nat (length done) + 1
                   = rank0 + Z.of_nat (length (done ++ [result]))).
    { rewrite length_app. simpl. lia. }
    rewrite Hlen in Hrun.
    destruct (IH (done ++ [result]) st1 h1 (seen ++ [result]) st' h'
                (Inv_frame _ _ _ _ _ F HI1) (same_data_frame _ _ _ _ HS F)) as [Hincl2 Hpost];
      [|exact Hrun|].
    + intros d m Hin Hocc.
      destruct HI1 as (J1 & J2 & J3 & _).
      assert (Hgm : kget (doc_metadata st1) d = Some m).
      { apply kget_of_In; [rewrite <- J1; exact J2 | exact Hin]. }
      destruct (key_eqb d0 d) eqn:Ed.
      * rewrite (kget_congr _ _ _ Ed), Hgm in Hm0. injection Hm0 as <-.
        exists (length done), result, d0. repeat split.
        -- rewrite nth_error_app2, Nat.sub_diag by lia. reflexivity.
        -- rewrite <- (same_data_id_of _ _ _ HS). exact Hid0.
        -- exact Ed.
        -- exact Hrank.
        -- rewrite Hscore, (same_data_score _ _ _ HS). reflexivity.
      * assert (Hne : m <> m0).
        { intros ->. destruct (dict_get_In _ _ _ _ Hm0) as (k0 & Hk0 & Hk0d).
          destruct (J3 _ _ Hk0) as [Hid_m0 _]. destruct (J3 _ _ Hin) as [Hid_m _].
          rewrite Hid_m0 in Hid_m. injection Hid_m as ->.
          rewrite key_eqb_sym in Hk0d. congruence. }
        assert (Hin0 : In (d, m) (doc_metadata st)).
        { rewrite Hmd in Hin. destruct (kmem (doc_scores st) d0) eqn:Em; [exact Hin|].
          rewrite dict_set_keys_new in Hin
            by (rewrite <- (kmem_keys _ _ _ (proj1 HI)); exact Em).
          apply in_app_or in Hin. destruct Hin as [Hin|[[= <- <-]|[]]]; [exact Hin|].
          rewrite key_eqb_refl in Ed. discriminate. }
        assert (Hocc0 : occurs h0 d done).
        { destruct Hocc as (l & d' & Hl & Hidl & Hk). apply in_app_or in Hl.
          destruct Hl as [Hl|[<-|[]]]; [exists l, d'; auto|].
          rewrite <- (same_data_id_of _ _ _ HS), Hid0 in Hidl. injection Hidl as <-.
          unfold keq in Hk. congruence. }
        destruct (Hpre _ _ Hin0 Hocc0) as (r & l & d' & Hn & Hidl & Hk & Hr & Hsc).
        exists r, l, d'. destruct Hw as [Hother _]. rewrite (Hother _ Hne).
        repeat split; try assumption.
        rewrite nth_error_app1 by (apply nth_error_Some; congruence). exact Hn.
    + rewrite <- app_assoc in Hpost. simpl in Hpost.
      split; [|exact Hpost]. intros x Hx. apply Hincl2, Hincl1, Hx.
Qed.

End LoopRanked.

Lemma ranked_record rf sf h0 results rank0 d (o o' : record) :
  sget o' rf = sget o rf -> sget o' sf = sget o sf ->
  ranked rf sf h0 results rank0 d o -> ranked rf sf h0 results rank0 d o'.
Proof.
  intros Hr Hs (r & l & d' & A & B & C & D & E).
  exists r, l, d'. rewrite Hr, Hs. auto 10.
Qed.

Lemma ranked_heap rf sf h0 h1 results rank0 d o :
  same_data h0 h1 ->
  ranked rf sf h1 results rank0 d o -> ranked rf sf h0 results rank0 d o.
Proof.
  intros HS (r & l & d' & A & B & C & D & E).
  exists r, l, d'. rewrite <- (same_data_id_of _ _ _ HS), <- (same_data_score _ _ _ HS).
  auto 10.
Qed.

Lemma occurs_InA h results ids d :
  ids_are h results ids -> InA keq d ids -> occurs h d results.
Proof.
  intros Hids. induction Hids as [|l d0 results ids Hid _ IH]; intros HIn.
  - inversion HIn.
  - inversion HIn as [? ? Hk|? ? Hk]; subst.
    + exists l, d0. split; [left; reflexivity|]. split; [exact Hid|].
      unfold keq in *. rewrite key_eqb_sym. exact Hk.
    + destruct (IH Hk) as (l' & d' & A & B & C). exists l', d'. split; [right|]; auto.
Qed.

Lemma first_hit_occurs h d ls ls' :
  occurs h d ls -> first_hit h d (ls ++ ls') = first_hit h d ls.
Proof.
  intros (l & d' & Hl & Hid & Hk). unfold first_hit.
  induction ls as [|x ls IH]; simpl; [contradiction|].
  destruct (match id_of h x with Some d'0 => key_eqb d'0 d | None => false end) eqn:E;
    [reflexivity|].
  apply IH. destruct Hl as [->|Hl]; [|exact Hl].
  rewrite Hid in E. unfold keq in Hk. congruence.
Qed.

Lemma first_hit_congr h d d' ls :
  keq d d' -> first_hit h d ls = first_hit h d' ls.
Proof.
  intros Hk. unfold first_hit. induction ls as [|x ls IH]; simpl; [reflexivity|].
  rewrite IH. destruct (id_of h x) as [dx|]; [|reflexivity].
  rewrite (eqb_congr_r key_eqb key_eqb_sym key_eqb_trans _ _ dx Hk). reflexivity.
Qed.

Lemma occurs_congr h d d' ls : keq d d' -> occurs h d ls -> occurs h d' ls.
Proof.
  intros Hk (l & d0 & A & B & C). exists l, d0. split; [exact A|]. split; [exact B|].
  unfold keq in *. eapply key_eqb_trans; eassumption.
Qed.

Lemma occurs_heap h0 h d ls : same_data h0 h -> occurs h0 d ls -> occurs h d ls.
Proof.
  intros HS (l & d0 & A & B & C). exists l, d0.
  rewrite (same_data_id_of _ _ _ HS). auto.
Qed.

Lemma ranked_congr rf sf h0 results rank0 d d' o :
  keq d d' -> ranked rf sf h0 results rank0 d o -> ranked rf sf h0 results rank0 d' o.
Proof.
  intros Hk (r & l & d0 & A & B & C & D & E). exists r, l, d0.
  repeat split; try assumption. unfold keq in *. eapply key_eqb_trans; eassumption.
Qed.

Lemma Inv_occurs st h seen d :
  Inv st h seen -> occurs h d seen ->
  exists d1 m1, In (d1, m1) (doc_metadata st) /\ keq d1 d.
Proof.
  intros (I1 & _ & _ & I4) (l & d0 & Hl & Hid & Hk).
  destruct (I4 l Hl) as (d0' & Hid' & Hm). rewrite Hid in Hid'. injection Hid' as <-.
  rewrite (kmem_keys _ (doc_metadata st) _ I1) in Hm. unfold dict_mem in Hm.
  destruct (kget (doc_metadata st) d0) as [m1|] eqn:Eg; [|discriminate].
  destruct (dict_get_In _ _ _ _ Eg) as (d1 & Hin & Hk1).
  exists d1, m1. split; [exact Hin|]. unfold keq in *. eapply key_eqb_trans; eassumption.
Qed.

Lemma Inv_same_object st h seen d m d1 m1 :
  Inv st h seen -> In (d, m) (doc_metadata st) -> In (d1, m1) (doc_metadata st) ->
  keq d1 d -> m1 = m.
Proof.
  intros (I1 & I2 & _) Hin Hin1 Hk.
  rewrite I1 in I2.
  pose proof (kget_of_In _ _ _ I2 Hin) as G.
  pose proof (kget_of_In _ _ _ I2 Hin1) as G1.
  rewrite (kget_congr _ _ _ Hk), G in G1. congruence.
Qed.

(** What a successful run leaves in the objects kept in [doc_metadata]. *)
Lemma fuse_results_ranked k ws wv wf vs fs h idsv idsf :
  0 <= k -> sget ws "vector" = Some wv -> sget ws "fuzzy" = Some wf ->
  ids_are h vs idsv -> ids_are h fs idsf ->
  exists st h',
    fuse_results k vs fs (Some ws) h
      = (emit_all st h' (sorted_desc snd (doc_scores st)), h') /\
    Inv st h' (vs ++ fs) /\ frame (vs ++ fs) h h' /\
    (forall d m, In (d, m) (doc_metadata st) -> occurs h d vs ->
       ranked "vector_rank" "vector_score" h vs 0 d (h' m)) /\
    (forall d m, In (d, m) (doc_metadata st) -> occurs h d fs ->
       ranked "fuzzy_rank" "fuzzy_score" h fs 0 d (h' m)).
Proof.
  intros Hk Hwv Hwf Hv Hf. rewrite fuse_results_unfold. simpl.
  destruct (loop_ok k ws "vector" wv _ (vector_step_annotating k ws) Hwv Hk
              vs idsv 0 _ h [] ltac:(lia) Hv (Inv_empty h))
    as (st1 & h1 & Hrun1 & _ & HI1).
  rewrite Hrun1.
  assert (L0 : locs_in {| doc_scores := []; doc_metadata := [] |} (vs ++ fs))
    by (intros ? ? []).
  destruct (loop_frame k ws "vector" _ (vector_step_annotating k ws) (vs ++ fs)
              vs 0 _ h _ _ ltac:(apply incl_appl, incl_refl) L0 Hrun1) as [F1 L1].
  destruct (loop_ok k ws "fuzzy" wf _ (fuzzy_step_annotating k ws) Hwf Hk
              fs idsf 0 st1 h1 ([] ++ vs) ltac:(lia)
              (frame_ids_are _ _ _ _ _ F1 Hf) HI1)
    as (st2 & h2 & Hrun2 & _ & HI2).
  rewrite Hrun2.
  destruct (loop_frame k ws "fuzzy" _ (fuzzy_step_annotating k ws) (vs ++ fs)
              fs 0 st1 h1 _ _ ltac:(apply incl_appr, incl_refl)
              (L1 _ eq_refl) Hrun2) as [F2 _].
  assert (S1 : same_data h h1) by (apply (same_data_frame _ _ _ _ (same_data_refl h) F1)).
  destruct (loop_ranked k ws "vector" vector_fields _ _ _ (vector_step_ranking k ws)
              vector_fields_annotations h 0 vs [] _ h [] st1 h1
              (Inv_empty h) (same_data_refl h) ltac:(intros ? ? []) Hrun1)
    as [_ R1].
  destruct (loop_ranked k ws "fuzzy" fuzzy_fields _ _ _ (fuzzy_step_ranking k ws)
              fuzzy_fields_annotations h1 0 fs [] st1 h1 ([] ++ vs) st2 h2
              HI1 (same_data_refl h1)
              ltac:(intros ? ? _ (l & ? & [] & _)) Hrun2)
    as [Hincl R2].
  pose proof (loop_keeps k ws "fuzzy" fuzzy_fields _ _ _ (fuzzy_step_ranking k ws)
                fs 0 st1 h1 _ _ Hrun2) as K2.
  exists st2, h2. split; [reflexivity|]. split; [exact HI2|].
  split; [exact (frame_trans _ _ _ _ F1 F2)|]. split.
  - intros d m Hin Hocc.
    destruct (Inv_occurs _ _ _ d HI1 (occurs_heap _ _ _ _ S1 Hocc)) as (d1 & m1 & Hin1 & Hk1).
    pose proof (Inv_same_object _ _ _ _ _ _ _ HI2 Hin (Hincl _ Hin1) Hk1) as ->.
    apply (ranked_congr _ _ _ _ _ d1 d _ Hk1).
    apply (ranked_record _ _ _ _ _ _ (h1 m)).
    + apply K2. simpl. intros [H|[H|[H|[]]]]; discriminate.
    + apply K2. simpl. intros [H|[H|[H|[]]]]; discriminate.
    + apply (R1 d1 m Hin1). simpl. apply (occurs_congr _ d); [|exact Hocc].
      unfold keq in *. rewrite key_eqb_sym. exact Hk1.
  - intros d m Hin Hocc.
    apply (ranked_heap _ _ h h1 _ _ _ _ S1).
    apply (R2 d m Hin). simpl. apply (occurs_heap _ _ _ _ S1 Hocc).
Qed.

Lemma Forall2_In_r {A B} (R : A -> B -> Prop) (l1 : list A) (l2 : list B) (b : B) :
  Forall2 R l1 l2 -> In b l2 -> exists a, In a l1 /\ R a b.
Proof.
  induction 1 as [|a0 b0 l1 l2 HR _ IH]; simpl; [contradiction|].
  intros [<-|Hin].
  - exists a0. auto.
  - destruct (IH Hin) as (a & Ha & HRa). exists a. auto.
Qed.

End RRFFacts.
Import RRFFacts.

(** ** What the loops of fuse_results write, and into which hits *)

Module RRFWrites.

#[local] Abbreviation kget := (dict_get key_eqb).
#[local] Abbreviation kset := (dict_set key_eqb).
#[local] Abbreviation kmem := (dict_mem key_eqb).

Lemma get_default_data (r r' : record) f (v : value) :
  sget r f = sget r' f -> get_default r f v = get_default r' f v.
Proof. unfold get_default. intros ->. reflexivity. Qed.

Lemma vector_annotations_data rank (r r' : record) :
  (forall f, is_annotation f = false -> sget r f = sget r' f) ->
  vector_annotations rank r = vector_annotations rank r'.
Proof.
  intros H. unfold vector_annotations.
  rewrite (get_default_data r r' "score") by (apply H; reflexivity). reflexivity.
Qed.

Lemma fuzzy_annotations_data rank (r r' : record) :
  (forall f, is_annotation f = false -> sget r f = sget r' f) ->
  fuzzy_annotations rank r = fuzzy_annotations rank r'.
Proof.
  intros H. unfold fuzzy_annotations.
  rewrite (get_default_data r r' "score") by (apply H; reflexivity).
  rewrite (get_default_data r r' "type") by (apply H; reflexivity). reflexivity.
Qed.

Lemma get_default_store h m f v l g (dflt : value) :
  f <> g -> get_default (store h m f v l) g dflt = get_default (h l) g dflt.
Proof.
  intros Hfg. apply get_default_data. destruct (Nat.eq_dec l m) as [->|Hne].
  - rewrite store_same. apply sget_sset_other. exact Hfg.
  - rewrite store_other by exact Hne. reflexivity.
Qed.

Lemma vector_step_stamping k ws :
  stamping k ws "vector" vector_annotations (vector_step k ws).
Proof.
  intros rank result st h. rewrite vector_step_unfold.
  destruct (accumulate k ws "vector" rank result st h) as [[[st' m]|e] h1] eqn:E;
    apply accumulate_heap in E; subst h1; [|reflexivity].
  eexists. split; [reflexivity|]. cbv zeta. split.
  - eapply writes_trans; apply writes_store; simpl; auto.
  - intros f v [[= <- <-]|[[= <- <-]|[]]].
    + rewrite store_same, sget_sset_other by discriminate.
      rewrite store_same. apply sget_sset_same.
    + rewrite store_same, sget_sset_same. f_equal.
      apply get_default_store. discriminate.
Qed.

Lemma fuzzy_step_stamping k ws :
  stamping k ws "fuzzy" fuzzy_annotations (fuzzy_step k ws).
Proof.
  intros rank result st h. rewrite fuzzy_step_unfold.
  destruct (accumulate k ws "fuzzy" rank result st h) as [[[st' m]|e] h1] eqn:E;
    apply accumulate_heap in E; subst h1; [|reflexivity].
  eexists. split; [reflexivity|]. cbv zeta. split.
  - eapply writes_trans; [|apply writes_store; simpl; auto].
    eapply writes_trans; apply writes_store; simpl; auto.
  - intros f v [[= <- <-]|[[= <- <-]|[[= <- <-]|[]]]].
    + rewrite store_same, sget_sset_other by discriminate.
      rewrite store_same, sget_sset_other by discriminate.
      rewrite store_same. apply sget_sset_same.
    + rewrite store_same, sget_sset_other by discriminate.
      rewrite store_same, sget_sset_same. f_equal.
      apply get_default_store. discriminate.
    + rewrite store_same, sget_sset_same. f_equal.
      rewrite get_default_store by discriminate.
      apply get_default_store. discriminate.
Qed.

(** *** The last hit of an item *)

Lemma last_hit_same_data h0 h d results : forall rank,
  same_data h0 h -> last_hit h d rank results = last_hit h0 d rank results.
Proof.
  induction results as [|l rest IH]; intros rank S; simpl; [reflexivity|].
  rewrite (IH _ S), (same_data_id_of _ _ _ S). reflexivity.
Qed.

Lemma last_hit_congr h d d' results : forall rank,
  keq d d' -> last_hit h d rank results = last_hit h d' rank results.
Proof.
  induction results as [|l rest IH]; intros rank Hk; simpl; [reflexivity|].
  rewrite (IH _ Hk). destruct (last_hit h d' (rank + 1) rest); [reflexivity|].
  destruct (id_of h l) as [d0|]; [|reflexivity].
  assert (E : key_eqb d0 d = key_eqb d0 d').
  { rewrite (key_eqb_sym d0 d), (key_eqb_sym d0 d'). apply key_eqb_congr. exact Hk. }
  rewrite E. reflexivity.
Qed.

Lemma last_hit_In h d results : forall rank r l,
  last_hit h d rank results = Some (r, l) ->
  In l results /\ exists d', id_of h l = Some d' /\ keq d' d.
Proof.
  induction results as [|x rest IH]; intros rank r l; simpl; [discriminate|].
  destruct (last_hit h d (rank + 1) rest) as [y|] eqn:E.
  - intros [= ->]. destruct (IH _ _ _ E) as (Hin & Hd). split; [right; exact Hin | exact Hd].
  - destruct (id_of h x) as [d'|] eqn:Hid; [|discriminate].
    destruct (key_eqb d' d) eqn:Hk; [|discriminate].
    intros [= <- <-]. split; [left; reflexivity | eauto].
Qed.

Lemma first_hit_same_data h0 h d ls :
  same_data h0 h -> first_hit h d ls = first_hit h0 d ls.
Proof.
  intros S. unfold first_hit. induction ls as [|l ls IH]; simpl; [reflexivity|].
  rewrite (same_data_id_of _ _ _ S), IH. reflexivity.
Qed.

Lemma same_data_trans h0 h1 h2 : same_data h0 h1 -> same_data h1 h2 -> same_data h0 h2.
Proof. intros A B l f Hf. rewrite B, A by exact Hf. reflexivity. Qed.

Lemma annotates_same_data m h h' : annotates m h h' -> same_data h h'.
Proof.
  intros [A B] l f Hf. destruct (Nat.eq_dec l m) as [->|Hne].
  - apply B. exact Hf.
  - rewrite A by exact Hne. reflexivity.
Qed.

(** *** One loop *)

Section LoopLast.
Variables (k : Z) (ws : list (string * Q)) (strategy : string).
Variable written : Z -> record -> list (string * value).
Variable fields : list string.
Variable step : Z -> loc -> fusion -> M fusion.
Hypothesis Hstep : stamping k ws strategy written step.
Hypothesis Hfields : forall rank r, map fst (written rank r) = fields.
Hypothesis Hsub : forall f, In f fields -> is_annotation f = true.
Hypothesis Hdata : forall rank (r r' : record),
  (forall f, is_annotation f = false -> sget r f = sget r' f) ->
  written rank r = written rank r'.

Lemma loop_last results : forall rank st h seen st' h',
  Inv st h seen ->
  for_enumerate step rank results st h = (Ok st', h') ->
  Inv st' h' (seen ++ results) /\
  incl (doc_metadata st) (doc_metadata st') /\
  same_data h h' /\
  keeps fields h h' /\
  (forall l, (forall d, ~ In (d, l) (doc_metadata st')) -> h' l = h l) /\
  (forall d m, In (d, m) (doc_metadata st') ->
     match last_hit h d rank results with
     | Some (r, l) => forall f v, In (f, v) (written r (h l)) -> sget (h' m) f = Some v
     | None => h' m = h m
     end).
Proof.
  induction results as [|result rest IH]; intros rank st h seen st' h' HI; simpl.
  - unfold ret. intros [= <- <-]. rewrite app_nil_r.
    split; [exact HI|]. split; [apply incl_refl|]. split; [apply same_data_refl|].
    split; [apply keeps_refl|]. split; reflexivity.
  - unfold mbind. pose proof (Hstep rank result st h) as Hs.
    destruct (accumulate k ws strategy rank result st h) as [[[st1 m0]|e] hx] eqn:E;
      [|rewrite Hs; discriminate].
    destruct Hs as (h1 & -> & Hw & Hval). intros Hrun.
    rewrite Hfields in Hw.
    pose proof (writes_annotates _ _ _ _ Hsub Hw) as Hann.
    pose proof (annotates_same_data _ _ _ Hann) as S1.
    assert (F : frame [m0] h h1)
      by (apply (annotates_frame _ m0); [left; reflexivity | exact Hann]).
    pose proof (accumulate_Inv _ _ _ _ _ _ _ _ _ _ seen E HI) as HI1.
    pose proof (accumulate_incl _ _ _ _ _ _ _ _ _ _ E (proj1 HI)) as Hincl1.
    destruct (accumulate_inv _ _ _ _ _ _ _ _ _ _ E)
      as (w & d0 & Hid0 & _ & _ & _ & _ & Hm0).
    destruct (dict_get_In _ _ _ _ Hm0) as (k0 & Hk0 & Hk0d).
    destruct (IH (rank + 1) st1 h1 (seen ++ [result]) st' h'
                (Inv_frame _ _ _ _ _ F HI1) Hrun)
      as (HI' & Hincl2 & S2 & K2 & Hun & Hlast).
    rewrite <- app_assoc in HI'. simpl in HI'.
    split; [exact HI'|].
    split; [intros x Hx; apply Hincl2, Hincl1, Hx|].
    split; [exact (same_data_trans _ _ _ S1 S2)|].
    split; [exact (keeps_trans _ _ _ _ (writes_keeps _ _ _ _ Hw) K2)|].
    split.
    + intros l Hl. rewrite (Hun l Hl). destruct Hw as [A _]. apply A.
      intros ->. exact (Hl k0 (Hincl2 _ Hk0)).
    + intros d m Hin. specialize (Hlast d m Hin).
      rewrite (last_hit_same_data h h1 d rest (rank + 1) S1) in Hlast.
      destruct (last_hit h d (rank + 1) rest) as [[r l]|].
      * intros f v Hfv. apply Hlast.
        rewrite (Hdata r (h1 l) (h l)); [exact Hfv|].
        intros g Hg. apply S1. exact Hg.
      * rewrite Hid0. rewrite Hlast.
        destruct (key_eqb d0 d) eqn:Ed.
        -- assert (Hmm : m0 = m).
           { apply (Inv_same_object _ _ _ d m k0 m0 HI' Hin (Hincl2 _ Hk0)).
             unfold keq. eapply key_eqb_trans; eassumption. }
           subst m0. exact Hval.
        -- destruct Hw as [A _]. apply A. intros ->.
           destruct HI' as (_ & _ & I3 & _).
           destruct (I3 _ _ Hin) as [Hid_m _].
           destruct (I3 _ _ (Hincl2 _ Hk0)) as [Hid_m0 _].
           rewrite Hid_m in Hid_m0. injection Hid_m0 as <-.
           rewrite key_eqb_sym in Ed. congruence.
Qed.

End LoopLast.

(** *** Both loops *)

(** A stored hit is the first hit of its item, and the first hit of an
    item that was met is stored. *)
Lemma Inv_first_hit st h seen d m :
  Inv st h seen -> first_hit h d seen = Some m ->
  exists d1, In (d1, m) (doc_metadata st) /\ keq d1 d.
Proof.
  intros HI Hfirst.
  assert (Hocc : occurs h d seen).
  { unfold first_hit in Hfirst. apply find_some in Hfirst. destruct Hfirst as [Hin Hid].
    destruct (id_of h m) as [d'|] eqn:E; [|discriminate].
    exists m, d'. auto. }
  destruct (Inv_occurs _ _ _ d HI Hocc) as (d1 & m1 & Hin1 & Hk1).
  exists d1. split; [|exact Hk1].
  destruct HI as (_ & _ & I3 & _). destruct (I3 _ _ Hin1) as [_ Hf1].
  rewrite (first_hit_congr _ _ _ _ Hk1) in Hf1. rewrite Hfirst in Hf1.
  injection Hf1 as ->. exact Hin1.
Qed.

(** What a run of [fuse_results] that returns has written: nothing
    into a hit that is not the first of its item, and into the first hit
    of an item the entries of its last hit in either list. *)
Lemma fuse_results_writes k vs fs weights h out h' :
  fuse_results k vs fs weights h = (Ok out, h') ->
  (forall l, (forall d, first_hit h d (vs ++ fs) <> Some l) -> h' l = h l) /\
  (forall d m, first_hit h d (vs ++ fs) = Some m ->
     stamped vector_annotations vector_fields h vs d (h m) (h' m) /\
     stamped fuzzy_annotations fuzzy_fields h fs d (h m) (h' m)).
Proof.
  rewrite fuse_results_unfold. cbv zeta.
  set (ws := match weights with None => default_weights | Some w => w end).
  destruct (for_enumerate (vector_step k ws) 0 vs _ h) as [[st1|e] h1] eqn:E1;
    [|discriminate].
  destruct (for_enumerate (fuzzy_step k ws) 0 fs st1 h1) as [[st2|e] h2] eqn:E2;
    [|discriminate].
  intros [= _ <-].
  destruct (loop_last k ws "vector" vector_annotations vector_fields _
              (vector_step_stamping k ws) ltac:(reflexivity) vector_fields_annotations
              vector_annotations_data vs 0 _ h [] st1 h1 (Inv_empty h) E1)
    as (HI1 & _ & S1 & K1 & Hun1 & Hlast1).
  destruct (loop_last k ws "fuzzy" fuzzy_annotations fuzzy_fields _
              (fuzzy_step_stamping k ws) ltac:(reflexivity) fuzzy_fields_annotations
              fuzzy_annotations_data fs 0 st1 h1 ([] ++ vs) st2 h2 HI1 E2)
    as (HI2 & Hincl2 & S2 & K2 & Hun2 & Hlast2).
  simpl in HI1, HI2.
  pose proof (same_data_trans _ _ _ S1 S2) as S.
  assert (Hstored : forall d m, In (d, m) (doc_metadata st2) ->
                      first_hit h d (vs ++ fs) = Some m).
  { intros d m Hin. destruct HI2 as (_ & _ & I3 & _).
    destruct (I3 _ _ Hin) as [_ Hf]. rewrite (first_hit_same_data h h2 _ _ S) in Hf.
    exact Hf. }
  split.
  - intros l Hl.
    assert (Hno2 : forall d, ~ In (d, l) (doc_metadata st2)).
    { intros d Hin. exact (Hl d (Hstored _ _ Hin)). }
    rewrite (Hun2 l Hno2). apply Hun1. intros d Hin. exact (Hno2 d (Hincl2 _ Hin)).
  - intros d m Hfirst.
    assert (Hfirst2 : first_hit h2 d (vs ++ fs) = Some m)
      by (rewrite (first_hit_same_data h h2 _ _ S); exact Hfirst).
    destruct (Inv_first_hit _ _ _ _ _ HI2 Hfirst2) as (d2 & Hin2 & Hk2).
    split.
    + unfold stamped. rewrite <- (last_hit_congr h d2 d vs 0 Hk2).
      destruct (last_hit h d2 0 vs) as [[r l]|] eqn:El.
      * assert (Hin1 : In (d2, m) (doc_metadata st1)).
        { destruct (last_hit_In _ _ _ _ _ _ El) as (Hl & d' & Hid & Hk).
          assert (Hocc : occurs h1 d2 vs).
          { exists l, d'. rewrite (same_data_id_of _ _ _ S1). auto. }
          destruct (Inv_occurs _ _ _ d2 HI1 Hocc) as (d1 & m1 & Hin1 & Hk1).
          pose proof (Inv_same_object _ _ _ _ _ _ _ HI2 Hin2 (Hincl2 _ Hin1) Hk1) as ->.
          destruct HI1 as (_ & _ & I3 & _). destruct (I3 _ _ Hin1) as [Hid1 _].
          destruct HI2 as (_ & _ & J3 & _). destruct (J3 _ _ Hin2) as [Hid2 _].
          rewrite (same_data_id_of _ _ _ S2) in Hid2. rewrite Hid1 in Hid2.
          injection Hid2 as ->. exact Hin1. }
        pose proof (Hlast1 d2 m Hin1) as H1. rewrite El in H1.
        intros f v Hfv. rewrite (K2 m f); [exact (H1 f v Hfv)|].
        intros Hf. apply (in_map fst) in Hfv. simpl in Hfv.
        destruct Hfv as [<-|[<-|[]]]; simpl in Hf;
          destruct Hf as [Hf|[Hf|[Hf|[]]]]; discriminate.
      * intros f Hf.
        rewrite (K2 m f)
          by (simpl in Hf; destruct Hf as [<-|[<-|[]]]; simpl;
              intros [H|[H|[H|[]]]]; discriminate).
        assert (E : h1 m = h m).
        { destruct (in_dec (fun a b => Nat.eq_dec a b) m
                      (map snd (doc_metadata st1))) as [Hyes|Hno].
          - apply in_map_iff in Hyes. destruct Hyes as ([d1 m1] & Hm1 & Hin1).
            simpl in Hm1. subst m1.
            assert (Hd : d1 = d2).
            { destruct HI1 as (_ & _ & I3 & _). destruct (I3 _ _ Hin1) as [Hid1 _].
              destruct HI2 as (_ & _ & J3 & _). destruct (J3 _ _ Hin2) as [Hid2 _].
              rewrite (same_data_id_of _ _ _ S2) in Hid2. congruence. }
            subst d1. pose proof (Hlast1 d2 m Hin1) as H1. rewrite El in H1. exact H1.
          - apply Hun1. intros d1 Hin1. apply Hno.
            apply in_map_iff. exists (d1, m). auto. }
        rewrite E. reflexivity.
    + unfold stamped. rewrite <- (last_hit_congr h d2 d fs 0 Hk2).
      pose proof (Hlast2 d2 m Hin2) as H2.
      rewrite (last_hit_same_data h h1 d2 fs 0 S1) in H2.
      destruct (last_hit h d2 0 fs) as [[r l]|].
      * intros f v Hfv. apply H2.
        rewrite (fuzzy_annotations_data r (h1 l) (h l)); [exact Hfv|].
        intros g Hg. apply S1. exact Hg.
      * intros f Hf. rewrite H2. apply K1.
        simpl in Hf. destruct Hf as [<-|[<-|[<-|[]]]]; simpl;
          intros [H|[H|[]]]; discriminate.
Qed.

End RRFWrites.
Import RRFFacts RRFWrites.

(** ** Properties of reciprocal rank fusion *)

Module RRFClaims.

(** C6, refuted as stated: on the scenario of the specification the call
    returns normally, and afterwards the first vector hit, which had no
    field [vector_rank], has one. *)
Lemma C6_fuse_mutates_its_inputs :
  exists out h',
    fuse_results 60 [0; 1]%nat [2; 3]%nat None scenario_heap = (Ok out, h') /\
    sget (scenario_heap 0%nat) "vector_rank" = None /\
    sget (h' 0%nat) "vector_rank" = Some (VInt 0).
Proof.
  eexists. eexists. split; [vm_compute; reflexivity|].
  split; reflexivity.
Qed.

(** C6, amended.  Whatever its arguments and whether it returns or
    raises, [fuse_results] leaves every object outside its two lists as it
    was, and in the hits of the lists it changes nothing but the fields
    [vector_rank], [vector_score], [fuzzy_rank], [fuzzy_score] and
    [fuzzy_type].  When it returns it has written them, and only into
    the first hit of each item (the first hit with that [doc_id] in the
    vector list followed by the fuzzy list): a hit that is not the first
    of its item is as it was; the first hit of an item carries the rank
    and the score of the item's last hit in the vector list, and the
    rank, the score and the type of its last hit in the fuzzy list;
    for a list in which the item has no hit, the fields of that list are
    as they were. *)
Theorem C6_fuse_annotates_first_hits
    (k : Z) (vs fs : list loc) (weights : option (list (string * Q))) (h : heap) :
  frame (vs ++ fs) h (snd (fuse_results k vs fs weights h)) /\
  forall out h', fuse_results k vs fs weights h = (Ok out, h') ->
    (forall l, (forall d, first_hit h d (vs ++ fs) <> Some l) -> h' l = h l) /\
    (forall d m, first_hit h d (vs ++ fs) = Some m ->
       stamped vector_annotations vector_fields h vs d (h m) (h' m) /\
       stamped fuzzy_annotations fuzzy_fields h fs d (h m) (h' m)).
Proof.
  split; [|intros out h' Hrun; exact (fuse_results_writes _ _ _ _ _ _ _ Hrun)].
  rewrite fuse_results_unfold. simpl.
  set (ws := match weights with None => default_weights | Some w => w end).
  assert (L0 : locs_in {| doc_scores := []; doc_metadata := [] |} (vs ++ fs))
    by (intros ? ? []).
  destruct (for_enumerate (vector_step k ws) 0 vs _ h) as [res1 h1] eqn:E1.
  destruct (loop_frame k ws "vector" _ (vector_step_annotating k ws) (vs ++ fs)
              vs 0 _ h _ _ ltac:(apply incl_appl, incl_refl) L0 E1) as [F1 L1].
  destruct res1 as [st1|e]; [|exact F1].
  destruct (for_enumerate (fuzzy_step k ws) 0 fs st1 h1) as [res2 h2] eqn:E2.
  destruct (loop_frame k ws "fuzzy" _ (fuzzy_step_annotating k ws) (vs ++ fs)
              fs 0 st1 h1 _ _ ltac:(apply incl_appr, incl_refl)
              (L1 _ eq_refl) E2) as [F2 _].
  destruct res2; exact (frame_trans _ _ _ _ F1 F2).
Qed.

(** C6 amended, at the scenario of the specification, where the call
    returns. *)
Lemma C6_fuse_annotates_first_hits_witness :
  exists out h',
    fuse_results 60 [0; 1]%nat [2; 3]%nat None scenario_heap = (Ok out, h') /\
    (forall l, (forall d, first_hit scenario_heap d ([0; 1] ++ [2; 3])%nat <> Some l) ->
       h' l = scenario_heap l) /\
    (forall d m, first_hit scenario_heap d ([0; 1] ++ [2; 3])%nat = Some m ->
       stamped vector_annotations vector_fields scenario_heap [0; 1]%nat d
         (scenario_heap m) (h' m) /\
       stamped fuzzy_annotations fuzzy_fields scenario_heap [2; 3]%nat d
         (scenario_heap m) (h' m)).
Proof.
  assert (E : exists out h',
            fuse_results 60 [0; 1]%nat [2; 3]%nat None scenario_heap = (Ok out, h')).
  { eexists. eexists. vm_compute. reflexivity. }
  destruct E as (out & h' & E). exists out, h'. split; [exact E|].
  exact (proj2 (C6_fuse_annotates_first_hits 60 [0; 1]%nat [2; 3]%nat None scenario_heap)
           out h' E).
Defined.

(** C8, refuted as stated: with weights that name only the vector
    strategy and a non-empty fuzzy list, the call raises [KeyError]. *)
Lemma C8_missing_weight_is_not_zero :
  fst (fuse_results 60 [0; 1]%nat [2; 3]%nat (Some [("vector", 6 # 10)]%Q) scenario_heap)
  = Raise (KeyError "fuzzy").
Proof. vm_compute. reflexivity. Qed.

(** C7, refuted as stated: in the scenario the fuzzy hit of d2 has a
    field [snippet] that its vector hit lacks; the fused record of d2, the
    first one returned, has no [snippet]. *)
Lemma C7_later_fields_are_not_merged :
  exists o rest h',
    fuse_results 60 [0; 1]%nat [2; 3]%nat None scenario_heap = (Ok (o :: rest), h') /\
    sget o "doc_id" = Some (VStr "d2") /\
    sget (scenario_heap 1%nat) "doc_id" = Some (VStr "d2") /\
    sget (scenario_heap 2%nat) "doc_id" = Some (VStr "d2") /\
    sget (scenario_heap 2%nat) "snippet" = Some (VStr "two") /\
    sget o "snippet" = None.
Proof.
  eexists. eexists. eexists. split; [vm_compute; reflexivity|].
  repeat split; reflexivity.
Qed.

(** C7, amended.  For an item [d] that stands in both lists, the fused
    output has a record [o] for it which is a copy of the first vector
    hit [m] of the item: every field of [o] other than the five
    annotations, [fused_score] and [fusion_method] is the field of [m] as
    it was before the call, so a field that only a later hit has is not
    in [o]; and [o] carries in [vector_rank], [vector_score] and in
    [fuzzy_rank], [fuzzy_score] a rank and the score of the item in the
    vector list and in the fuzzy list. *)
Theorem C7_fused_record_of_shared_item
    (k : Z) (ws : list (string * Q)) (wv wf : Q)
    (vs fs : list loc) (h : heap) (idsv idsf : list key) (d : key) :
  0 <= k -> sget ws "vector" = Some wv -> sget ws "fuzzy" = Some wf ->
  ids_are h vs idsv -> ids_are h fs idsf ->
  InA keq d idsv -> InA keq d idsf ->
  exists out h' o m,
    fuse_results k vs fs (Some ws) h = (Ok out, h') /\
    In o out /\
    (exists d', rec_key o = Some d' /\ keq d' d) /\
    first_hit h d vs = Some m /\
    (forall f, is_annotation f = false -> f <> "fused_score" -> f <> "fusion_method" ->
       sget o f = sget (h m) f) /\
    ranked "vector_rank" "vector_score" h vs 0 d o /\
    ranked "fuzzy_rank" "fuzzy_score" h fs 0 d o.
Proof.
  intros Hk Hwv Hwf Hv Hf Hdv Hdf.
  destruct (fuse_results_ranked k ws wv wf vs fs h idsv idsf Hk Hwv Hwf Hv Hf)
    as (st & h' & Hrun & HI & F & RV & RF).
  set (items := sorted_desc snd (doc_scores st)) in *.
  assert (Hperm : Permutation items (doc_scores st)) by apply sorted_desc_perm.
  destruct (emit_all_ok st h' _ items HI) as (out & Hout & HF).
  { intros x Hx. apply (Permutation_in _ Hperm). exact Hx. }
  pose proof (occurs_InA _ _ _ _ Hv Hdv) as Ov.
  pose proof (occurs_InA _ _ _ _ Hf Hdf) as Of.
  assert (S : same_data h h') by (apply (same_data_frame _ _ _ _ (same_data_refl h) F)).
  assert (Oseen : occurs h' d (vs ++ fs)).
  { apply (occurs_heap h); [exact S|].
    destruct Ov as (l & d0 & A & B & C). exists l, d0. split; [apply in_or_app; auto | auto]. }
  destruct (Inv_occurs _ _ _ d HI Oseen) as (d1 & m & Hin1 & Hk1).
  assert (Hit : exists s, In (d1, s) items).
  { destruct HI as (I1 & _).
    assert (Hd1 : In d1 (map fst (doc_scores st))).
    { rewrite I1. apply (in_map fst) in Hin1. exact Hin1. }
    apply in_map_iff in Hd1. destruct Hd1 as ([d1' s] & Heq & Hs). simpl in Heq. subst d1'.
    exists s. apply (Permutation_in _ (Permutation_sym Hperm)). exact Hs. }
  destruct Hit as (s & Hit).
  destruct (Forall2_In_r _ _ _ _ HF Hit) as (o & Ho & Hkey & _ & m' & Hm' & Heq).
  simpl in Hkey, Hm', Heq.
  assert (Hmm : m' = m).
  { destruct HI as (I1 & I2 & _). rewrite I1 in I2.
    rewrite (kget_of_In _ _ _ I2 Hin1) in Hm'. congruence. }
  subst m'.
  assert (Hfields : forall f, f <> "fused_score" -> f <> "fusion_method" ->
                      sget o f = sget (h' m) f).
  { intros f H1 H2. rewrite Heq. apply emit_fields; assumption. }
  assert (Hk1' : keq d d1) by (unfold keq in *; rewrite key_eqb_sym; exact Hk1).
  exists out, h', o, m. rewrite Hrun, Hout.
  split; [reflexivity|]. split; [exact Ho|]. split; [exists d1; auto|].
  split; [|split; [|split]].
  - destruct HI as (_ & _ & I3 & _). destruct (I3 _ _ Hin1) as [_ Hfirst].
    rewrite (first_hit_frame _ _ _ _ _ F) in Hfirst.
    rewrite (first_hit_congr _ _ _ _ Hk1) in Hfirst.
    rewrite (first_hit_occurs _ _ _ _ Ov) in Hfirst. exact Hfirst.
  - intros f Ha H1 H2. rewrite (Hfields f H1 H2). apply S. exact Ha.
  - apply (ranked_congr _ _ _ _ _ d1 d _ Hk1).
    apply (ranked_record _ _ _ _ _ _ (h' m)); [apply Hfields; discriminate ..|].
    apply (RV d1 m Hin1). apply (occurs_congr _ d); assumption.
  - apply (ranked_congr _ _ _ _ _ d1 d _ Hk1).
    apply (ranked_record _ _ _ _ _ _ (h' m)); [apply Hfields; discriminate ..|].
    apply (RF d1 m Hin1). apply (occurs_congr _ d); assumption.
Qed.

(** C7 amended, at the scenario of the specification and the item d2. *)
Lemma C7_fused_record_of_shared_item_witness :
  exists out h' o m,
    fuse_results 60 [0; 1]%nat [2; 3]%nat (Some default_weights) scenario_heap
      = (Ok out, h') /\
    In o out /\
    (exists d', rec_key o = Some d' /\ keq d' (KStr "d2")) /\
    first_hit scenario_heap (KStr "d2") [0; 1]%nat = Some m /\
    (forall f, is_annotation f = false -> f <> "fused_score" -> f <> "fusion_method" ->
       sget o f = sget (scenario_heap m) f) /\
    ranked "vector_rank" "vector_score" scenario_heap [0; 1]%nat 0 (KStr "d2") o /\
    ranked "fuzzy_rank" "fuzzy_score" scenario_heap [2; 3]%nat 0 (KStr "d2") o.
Proof.
  apply (C7_fused_record_of_shared_item 60 default_weights (6 # 10) (4 # 10)
           [0; 1]%nat [2; 3]%nat scenario_heap
           [KStr "d1"; KStr "d2"] [KStr "d2"; KStr "d3"] (KStr "d2")).
  - lia.
  - reflexivity.
  - reflexivity.
  - repeat constructor.
  - repeat constructor.
  - right. left. reflexivity.
  - left. reflexivity.
Defined.

(** C8, amended.  When the weights mapping lacks the tag of a strategy
    whose list is not empty, [fuse_results] on identified hits does not
    return: it raises [KeyError] for a tag the mapping lacks. *)
Theorem C8_missing_weight_raises
    (k : Z) (ws : list (string * Q)) (vs fs : list loc) (h : heap)
    (idsv idsf : list key) :
  0 <= k -> ids_are h vs idsv -> ids_are h fs idsf ->
  (sget ws "vector" = None /\ vs <> []) \/ (sget ws "fuzzy" = None /\ fs <> []) ->
  exists tag h',
    fuse_results k vs fs (Some ws) h = (Raise (KeyError tag), h') /\
    sget ws tag = None.
Proof.
  intros Hk Hv Hf Hmiss. rewrite fuse_results_unfold. simpl.
  assert (Hfirst : forall strategy step l rest st (h0 : heap) d,
            annotating k ws strategy step -> sget ws strategy = None ->
            id_of h0 l = Some d ->
            for_enumerate step 0 (l :: rest) st h0 = (Raise (KeyError strategy), h0)).
  { intros strategy step l rest st h0 d Hstep Hnone Hid. simpl. unfold mbind.
    specialize (Hstep 0 l st h0).
    assert (E : accumulate k ws strategy 0 l st h0 = (Raise (KeyError strategy), h0)).
    { unfold accumulate, mbind, lift, deref, getitem. unfold id_of, rec_key in Hid.
      destruct (sget (h0 l) "doc_id"); [|discriminate]. rewrite Hnone. reflexivity. }
    rewrite E in Hstep. rewrite Hstep. reflexivity. }
  destruct (sget ws "vector") as [wv|] eqn:Ewv.
  - destruct Hmiss as [[Hnone _]|[Hnone Hne]]; [discriminate|].
    destruct (loop_ok k ws "vector" wv _ (vector_step_annotating k ws) Ewv Hk
                vs idsv 0 _ h [] ltac:(lia) Hv (Inv_empty h))
      as (st1 & h1 & Hrun1 & _ & _).
    rewrite Hrun1.
    assert (L0 : locs_in {| doc_scores := []; doc_metadata := [] |} (vs ++ fs))
      by (intros ? ? []).
    destruct (loop_frame k ws "vector" _ (vector_step_annotating k ws) (vs ++ fs)
                vs 0 _ h _ _ ltac:(apply incl_appl, incl_refl) L0 Hrun1) as [F1 _].
    pose proof (frame_ids_are _ _ _ _ _ F1 Hf) as Hf1.
    destruct Hf1 as [|l d fs' idsf' Hid _]; [contradiction|].
    rewrite (Hfirst "fuzzy" _ l fs' st1 h1 d (fuzzy_step_annotating k ws) Hnone Hid).
    exists "fuzzy", h1. auto.
  - destruct Hv as [|l d vs' idsv' Hid _].
    + destruct Hmiss as [[_ Hne]|[Hnone Hne]]; [contradiction|].
      simpl. unfold ret.
      destruct Hf as [|l d fs' idsf' Hid _]; [contradiction|].
      rewrite (Hfirst "fuzzy" _ l fs' _ h d (fuzzy_step_annotating k ws) Hnone Hid).
      exists "fuzzy", h. auto.
    + rewrite (Hfirst "vector" _ l vs' _ h d (vector_step_annotating k ws) Ewv Hid).
      exists "vector", h. auto.
Qed.

(** C8 amended, at the scenario of the specification with a weights
    mapping that names the vector strategy only. *)
Lemma C8_missing_weight_raises_witness :
  exists tag h',
    fuse_results 60 [0; 1]%nat [2; 3]%nat (Some [("vector", 6 # 10)]%Q) scenario_heap
      = (Raise (KeyError tag), h') /\
    sget [("vector", 6 # 10)]%Q tag = None.
Proof.
  apply (C8_missing_weight_raises 60 [("vector", 6 # 10)]%Q
           [0; 1]%nat [2; 3]%nat scenario_heap
           [KStr "d1"; KStr "d2"] [KStr "d2"; KStr "d3"]).
  - lia.
  - repeat constructor.
  - repeat constructor.
  - right. split; [reflexivity | discriminate].
Defined.

End RRFClaims.

(** ** Facts about the binary64 operations *)

Module FloatFacts.
Import SpecFloat RRF64.

(** *** Rounding keeps the sign *)

Lemma iter_pos_keeps {A} (P : A -> Prop) (f : A -> A) :
  (forall x, P x -> P (f x)) -> forall n x, P x -> P (iter_pos f n x).
Proof.
  intros Hf. induction n as [n IH|n IH|]; intros x Hx; simpl.
  - apply IH, IH, Hf, Hx.
  - apply IH, IH, Hx.
  - apply Hf, Hx.
Qed.

Lemma shr_1_nonneg mrs : 0 <= shr_m mrs -> 0 <= shr_m (shr_1 mrs).
Proof.
  destruct mrs as [m r s]. simpl. intros Hm.
  destruct m as [|p|p]; [simpl; lia | | lia].
  destruct p; simpl; lia.
Qed.

Lemma shr_nonneg mrs e n : 0 <= shr_m mrs -> 0 <= shr_m (fst (shr mrs e n)).
Proof.
  intros Hm. unfold shr. destruct n as [|p|p]; simpl; try exact Hm.
  apply (iter_pos_keeps (fun x => 0 <= shr_m x)); [apply shr_1_nonneg | exact Hm].
Qed.

Lemma shr_record_of_loc_m m l : shr_m (shr_record_of_loc m l) = m.
Proof. destruct l as [|[]]; reflexivity. Qed.

Lemma shr_fexp_nonneg m e l : 0 <= m -> 0 <= shr_m (fst (shr_fexp prec emax m e l)).
Proof.
  intros Hm. unfold shr_fexp. apply shr_nonneg. rewrite shr_record_of_loc_m. exact Hm.
Qed.

Lemma round_nearest_even_nonneg m l : 0 <= m -> 0 <= round_nearest_even m l.
Proof.
  intros Hm. unfold round_nearest_even. destruct l as [|[]]; try lia.
  destruct (Z.even m); lia.
Qed.

Lemma binary_round_aux_nonneg mx ex lx :
  0 <= mx -> nonneg (binary_round_aux prec emax false mx ex lx).
Proof.
  intros Hm. unfold binary_round_aux.
  pose proof (shr_fexp_nonneg mx ex lx Hm) as H1.
  destruct (shr_fexp prec emax mx ex lx) as [mrs' e']. simpl in H1.
  pose proof (shr_fexp_nonneg _ e' loc_Exact
                (round_nearest_even_nonneg _ (loc_of_shr_record mrs') H1)) as H2.
  destruct (shr_fexp prec emax _ e' loc_Exact) as [mrs'' e'']. simpl in H2.
  destruct (shr_m mrs'') as [|m|m]; [exact I | | lia].
  destruct (e'' <=? emax - prec); exact I.
Qed.

Lemma binary_round_nonneg m e : nonneg (binary_round prec emax false m e).
Proof.
  unfold binary_round. destruct (shl_align m e _) as [mz ez].
  apply binary_round_aux_nonneg. lia.
Qed.

Lemma nearest_nonneg n : 0 <= n -> nonneg (nearest n).
Proof.
  intros Hn. unfold nearest, binary_normalize. destruct n as [|p|p]; [exact I | | lia].
  apply binary_round_nonneg.
Qed.

(** *** Ints that are floats *)

Lemma digits2_pos_size p : digits2_pos p = Pos.size p.
Proof. induction p as [p IH|p IH|]; simpl; rewrite ?IH; reflexivity. Qed.

Lemma digits2_pos_small p : Z.pos p < 2 ^ 53 -> Z.pos (digits2_pos p) <= 53.
Proof.
  intros Hp. rewrite digits2_pos_size.
  pose proof (Pos.size_le p) as Hle.
  apply Pos2Z.pos_le_pos in Hle. rewrite Pos2Z.inj_pow in Hle.
  assert (Hlt : 2 ^ Z.pos (Pos.size p) < 2 ^ 54).
  { change (2 ^ 54) with (2 * 2 ^ 53). lia. }
  apply Z.pow_lt_mono_r_iff in Hlt; lia.
Qed.

Lemma digits2_pos_shift p d :
  Z.pos (digits2_pos (Pos.iter xO p d)) = Z.pos (digits2_pos p) + Z.pos d.
Proof.
  induction d as [|d IH] using Pos.peano_ind.
  - simpl. lia.
  - rewrite Pos.iter_succ. simpl digits2_pos. lia.
Qed.

(** A mantissa of 53 digits with an exponent that needs no shift is
    kept by the rounding. *)
Lemma binary_round_aux_exact m e :
  Z.pos (digits2_pos m) = 53 -> -1074 <= e <= 971 ->
  binary_round_aux prec emax false (Z.pos m) e loc_Exact = S754_finite false m e.
Proof.
  intros Hd He.
  assert (Hsh : shr_fexp prec emax (Z.pos m) e loc_Exact
                = ({| shr_m := Z.pos m; shr_r := false; shr_s := false |}, e)).
  { unfold shr_fexp. simpl Zdigits2. rewrite Hd.
    replace (fexp prec emax (53 + e) - e) with 0
      by (unfold fexp, SpecFloat.emin, prec, emax; lia).
    reflexivity. }
  unfold binary_round_aux. rewrite Hsh. cbn [shr_m loc_of_shr_record round_nearest_even].
  rewrite Hsh. cbn [shr_m].
  destruct (Z.leb_spec e (emax - prec)) as [_|H]; [reflexivity|].
  unfold emax, prec in H. lia.
Qed.

(** An int above zero and below [2^53] is converted to a finite float. *)
Lemma nearest_small n :
  0 < n < 2 ^ 53 -> exists m e, nearest n = S754_finite false m e.
Proof.
  intros [Hpos Hn]. destruct n as [|p|p]; [lia | | lia].
  pose proof (digits2_pos_small p Hn) as Hd.
  unfold nearest, binary_normalize, binary_round, shl_align.
  replace (fexp prec emax (Z.pos (digits2_pos p) + 0) - 0)
    with (Z.pos (digits2_pos p) - 53)
    by (unfold fexp, SpecFloat.emin, prec, emax; lia).
  replace (fexp prec emax (Z.pos (digits2_pos p) + 0))
    with (Z.pos (digits2_pos p) - 53)
    by (unfold fexp, SpecFloat.emin, prec, emax; lia).
  destruct (Z.pos (digits2_pos p) - 53) as [|d|d] eqn:E; [| lia |].
  - exists p, 0. apply binary_round_aux_exact; lia.
  - eexists. eexists. rewrite <- E. apply binary_round_aux_exact; [|lia].
    rewrite digits2_pos_shift. lia.
Qed.

(** *** Quotients and sums of floats of positive sign *)

Lemma div_core_nonneg mx ex my ey :
  0 <= fst (fst (SFdiv_core_binary prec emax (Z.pos mx) ex (Z.pos my) ey)).
Proof.
  unfold SFdiv_core_binary. cbv zeta.
  set (s := _ - _ - _).
  set (m' := match s with Z0 => Z.pos mx | Z.pos _ => Z.shiftl (Z.pos mx) s | Z.neg _ => 0 end).
  assert (Hm' : 0 <= m').
  { unfold m'. destruct s; [lia | | lia]. apply Z.shiftl_nonneg. lia. }
  pose proof (Z.div_pos m' (Z.pos my) Hm' ltac:(lia)) as Hq.
  unfold Z.div in Hq. destruct (Z.div_eucl m' (Z.pos my)) as [q r]. exact Hq.
Qed.

Lemma quotient_nonneg w n : positive w -> 0 <= n -> nonneg (quotient w n).
Proof.
  intros Hw Hn. unfold quotient. pose proof (nearest_nonneg n Hn) as Hx.
  destruct w as [| | |[] mw ew]; try contradiction.
  destruct (nearest n) as [[]|[]| |[] mx ex]; try contradiction; try exact I.
  unfold SFdiv. pose proof (div_core_nonneg mw ew mx ex) as Hq.
  destruct (SFdiv_core_binary prec emax (Z.pos mw) ew (Z.pos mx) ex) as [[mz ez] lz].
  apply binary_round_aux_nonneg. exact Hq.
Qed.

Lemma add_nonneg a b : nonneg a -> nonneg b -> nonneg (add a b).
Proof.
  intros Ha Hb. unfold add.
  destruct a as [[]|[]| |[] ma ea]; try contradiction;
    destruct b as [[]|[]| |[] mb eb]; try contradiction; try exact I.
  unfold SFadd, cond_Zopp, binary_normalize.
  destruct (shl_align ma ea (Z.min ea eb)) as [ma' ea'].
  destruct (shl_align mb eb (Z.min ea eb)) as [mb' eb']. simpl.
  apply binary_round_nonneg.
Qed.

(** *** The order of the floats of positive sign *)

Lemma finite_compare m1 e1 m2 e2 :
  SFcompare (S754_finite false m1 e1) (S754_finite false m2 e2)
  = Some (match e1 ?= e2 with
          | Lt => Lt
          | Gt => Gt
          | Eq => (m1 ?= m2)%positive
          end).
Proof. reflexivity. Qed.

Lemma leb_total a b : nonneg a -> nonneg b -> leb a b = false -> leb b a = true.
Proof.
  intros Ha Hb. unfold leb, SFleb.
  destruct a as [[]|[]| |[] ma ea]; try contradiction;
    destruct b as [[]|[]| |[] mb eb]; try contradiction;
    try reflexivity; try discriminate.
  rewrite !finite_compare. rewrite (Z.compare_antisym ea eb), (Pos.compare_antisym ma mb).
  destruct (ea ?= eb); simpl; try discriminate; try reflexivity.
  destruct (ma ?= mb)%positive; simpl; try discriminate; reflexivity.
Qed.

Lemma leb_trans a b c :
  nonneg a -> nonneg b -> nonneg c ->
  leb a b = true -> leb b c = true -> leb a c = true.
Proof.
  intros Ha Hb Hc. unfold leb, SFleb.
  destruct a as [[]|[]| |[] ma ea]; try contradiction;
    destruct b as [[]|[]| |[] mb eb]; try contradiction;
    destruct c as [[]|[]| |[] mc ec]; try contradiction;
    try reflexivity; try discriminate.
  rewrite !finite_compare.
  destruct (Z.compare_spec ea eb) as [->|Hab|Hab]; try discriminate.
  - destruct (Z.compare_spec eb ec) as [->|Hbc|Hbc]; try discriminate; [|reflexivity].
    destruct (Pos.compare_spec ma mb) as [->|Hm|Hm]; try discriminate; [trivial|].
    destruct (Pos.compare_spec mb mc) as [->|Hn|Hn]; try discriminate.
    + intros _ _. destruct (Pos.compare_spec ma mc); try reflexivity. lia.
    + intros _ _. destruct (Pos.compare_spec ma mc); try reflexivity. lia.
  - destruct (Z.compare_spec eb ec) as [->|Hbc|Hbc]; try discriminate.
    + intros _ _. destruct (Z.compare_spec ea ec); try reflexivity; lia.
    + intros _ _. destruct (Z.compare_spec ea ec); try reflexivity; lia.
Qed.

(** *** Sorting by a float *)

Section SortFacts64.
Context {A : Type} (score : A -> float).

Lemma insert_desc64_perm x l : Permutation (insert_desc score x l) (x :: l).
Proof.
  induction l as [|y l IH]; simpl; [reflexivity|].
  destruct (leb (score y) (score x)); [reflexivity|].
  rewrite IH. apply perm_swap.
Qed.

Lemma sorted_desc64_perm l : Permutation (sorted_desc score l) l.
Proof.
  induction l as [|x l IH]; simpl; [reflexivity|].
  rewrite insert_desc64_perm. constructor. exact IH.
Qed.

Lemma insert_desc64_sorted x l :
  nonneg (score x) -> Forall (fun y => nonneg (score y)) l ->
  StronglySorted (fun a b => leb (score b) (score a) = true) l ->
  StronglySorted (fun a b => leb (score b) (score a) = true) (insert_desc score x l).
Proof.
  intros Hx Hl. induction 1 as [|y l Hs IH Hall]; simpl.
  - repeat constructor.
  - inversion Hl as [|? ? Hy Hl']; subst.
    destruct (leb (score y) (score x)) eqn:E.
    + constructor.
      * constructor; assumption.
      * constructor; [exact E|].
        rewrite Forall_forall in *. intros z Hz.
        apply (leb_trans _ (score y)); auto.
    + constructor; [exact (IH Hl')|].
      pose proof (leb_total _ _ Hy Hx E) as Hxy.
      rewrite Forall_forall in *. intros z Hz.
      apply (Permutation_in _ (insert_desc64_perm x l)) in Hz.
      destruct Hz as [<-|Hz]; [exact Hxy | apply Hall; exact Hz].
Qed.

Lemma sorted_desc64_sorted l :
  Forall (fun y => nonneg (score y)) l ->
  StronglySorted (fun a b => leb (score b) (score a) = true) (sorted_desc score l).
Proof.
  induction l as [|x l IH]; intros Hl; simpl; [constructor|].
  inversion Hl; subst. apply insert_desc64_sorted; auto.
  rewrite Forall_forall in *. intros y Hy.
  apply (Permutation_in _ (sorted_desc64_perm l)) in Hy. auto.
Qed.

End SortFacts64.

End FloatFacts.

(** ** Facts about fuse_results with binary64 scores *)

Module RRF64Facts.
Import SpecFloat RRF64 FloatFacts.

#[local] Abbreviation kget := (dict_get key_eqb).
#[local] Abbreviation kset := (dict_set key_eqb).
#[local] Abbreviation kmem := (dict_mem key_eqb).

(** *** The score dictionary *)

Section Bump64.
Variables (w : float) (k : Z).

Lemma bump64_score rank sc d d' :
  score_or0 (bump w k rank sc d) d'
  = if key_eqb d d' then add (score_or0 sc d') (quotient w (k + rank + 1))
    else score_or0 sc d'.
Proof.
  unfold bump, score_or0.
  destruct (kmem sc d) eqn:Em.
  - unfold dict_mem in Em. destruct (kget sc d) as [s|] eqn:Eg; [|discriminate].
    destruct (key_eqb d d') eqn:E.
    + rewrite (kget_set_same _ _ _ _ E), <- (kget_congr _ _ _ E), Eg. reflexivity.
    + rewrite (kget_set_other _ _ _ _ E). reflexivity.
  - rewrite (kget_set_same _ _ _ _ (key_eqb_refl d)).
    unfold dict_mem in Em. destruct (kget sc d) as [s|] eqn:Eg; [discriminate|].
    destruct (key_eqb d d') eqn:E.
    + rewrite (kget_set_same _ _ _ _ E), <- (kget_congr _ _ _ E), Eg. reflexivity.
    + rewrite !(kget_set_other _ _ _ _ E). reflexivity.
Qed.

Lemma bump64_keys rank sc d :
  map fst (bump w k rank sc d) = if kmem sc d then map fst sc else map fst sc ++ [d].
Proof.
  unfold bump. destruct (kmem sc d) eqn:Em.
  - unfold dict_mem in Em. destruct (kget sc d) as [s|] eqn:Eg; [|discriminate].
    rewrite kset_keys. unfold dict_mem. rewrite Eg. reflexivity.
  - rewrite (kget_set_same _ _ _ _ (key_eqb_refl d)).
    rewrite kset_keys.
    assert (Hm : kmem (kset sc d zero) d = true).
    { unfold dict_mem. rewrite (kget_set_same _ _ _ _ (key_eqb_refl d)). reflexivity. }
    rewrite Hm, kset_keys, Em. reflexivity.
Qed.

Lemma bump_all64_score ids : forall rank sc d',
  score_or0 (bump_all w k rank ids sc) d'
  = sum_from (score_or0 sc d') (terms w k rank ids d').
Proof.
  induction ids as [|d ids IH]; intros rank sc d'; simpl; [reflexivity|].
  rewrite IH, bump64_score. destruct (key_eqb d d'); reflexivity.
Qed.

Lemma bump_all64_keys (wq : Q) ids : forall rank sc (scq : list (key * Q)),
  map fst scq = map fst sc ->
  map fst (RRF.bump_all wq k rank ids scq) = map fst (bump_all w k rank ids sc).
Proof.
  induction ids as [|d ids IH]; intros rank sc scq Hkeys; simpl; [exact Hkeys|].
  apply IH. rewrite bump_keys, bump64_keys, (kmem_keys scq sc d Hkeys), Hkeys.
  reflexivity.
Qed.

Lemma bump64_nonneg rank sc d :
  positive w -> 0 <= k + rank + 1 ->
  Forall (fun it => nonneg (snd it)) sc ->
  Forall (fun it => nonneg (snd it)) (bump w k rank sc d).
Proof.
  intros Hw Hden Hsc. pose proof (quotient_nonneg w _ Hw Hden) as Hq.
  rewrite Forall_forall in *. unfold bump.
  assert (H1 : forall it, In it (if kmem sc d then sc else kset sc d zero) ->
                          nonneg (snd it)).
  { intros [d1 s1] Hin. destruct (kmem sc d); [exact (Hsc _ Hin)|].
    destruct (In_kset _ _ _ _ _ Hin) as [H| ->]; [exact (Hsc _ H) | exact I]. }
  destruct (kget _ d) as [s|] eqn:Eg; [|exact H1].
  intros [d1 s1] Hin. destruct (In_kset _ _ _ _ _ Hin) as [H| ->]; [exact (H1 _ H)|].
  simpl. apply add_nonneg; [|exact Hq].
  destruct (dict_get_In _ _ _ _ Eg) as (k0 & Hk0 & _). exact (H1 _ Hk0).
Qed.

Lemma bump_all64_nonneg ids : forall rank sc,
  positive w -> 0 <= k + rank ->
  Forall (fun it => nonneg (snd it)) sc ->
  Forall (fun it => nonneg (snd it)) (bump_all w k rank ids sc).
Proof.
  induction ids as [|d ids IH]; intros rank sc Hw Hk Hsc; simpl; [exact Hsc|].
  apply IH; [exact Hw | lia |]. apply bump64_nonneg; [exact Hw | lia | exact Hsc].
Qed.

End Bump64.

(** Denominators below [2^53] are within the range of the floats: the
    conversion of such an int is exact. *)
Lemma in_range_small k n : 0 <= k -> k + Z.of_nat n < 2 ^ 53 -> in_range k n.
Proof.
  intros Hk Hn rank Hr. unfold convertible, float_of_int.
  destruct (nearest_small (k + rank + 1)) as (m & e & ->); [lia|]. eauto.
Qed.

(** *** One pass of a loop, in exact arithmetic and in floats *)

Lemma vector_step64_unfold k ws rank result st h :
  vector_step k ws rank result st h =
  match accumulate k ws "vector" rank result st h with
  | (Ok (st', m), h1) =>
      let h2 := store h1 m "vector_rank" (VInt rank) in
      (Ok st', store h2 m "vector_score" (get_default (h2 result) "score" (VInt 0)))
  | (Raise e, h1) => (Raise e, h1)
  end.
Proof.
  unfold vector_step, mbind at 1.
  destruct (accumulate k ws "vector" rank result st h) as [[[st' m]|e] h1]; reflexivity.
Qed.

Lemma fuzzy_step64_unfold k ws rank result st h :
  fuzzy_step k ws rank result st h =
  match accumulate k ws "fuzzy" rank result st h with
  | (Ok (st', m), h1) =>
      let h2 := store h1 m "fuzzy_rank" (VInt rank) in
      let h3 := store h2 m "fuzzy_score" (get_default (h2 result) "score" (VInt 0)) in
      (Ok st', store h3 m "fuzzy_type" (get_default (h3 result) "type" (VStr "")))
  | (Raise e, h1) => (Raise e, h1)
  end.
Proof.
  unfold fuzzy_step, mbind at 1.
  destruct (accumulate k ws "fuzzy" rank result st h) as [[[st' m]|e] h1]; reflexivity.
Qed.

Lemma float_of_int_nearest n x : float_of_int n = Ok x -> x = nearest n.
Proof.
  unfold float_of_int. destruct (nearest n); intros [= <-] || discriminate; reflexivity.
Qed.

Lemma py_div_quotient w d :
  d <> 0 -> convertible d -> py_div w d = Ok (quotient w d).
Proof.
  intros Hd (x & Hx). unfold py_div. destruct (Z.eqb_spec d 0) as [|_]; [contradiction|].
  rewrite Hx. cbn [bind]. rewrite (float_of_int_nearest _ _ Hx). reflexivity.
Qed.

(** Where [accumulate] succeeds in exact arithmetic it succeeds in
    floats, on the same stored hit, when the denominator is within the
    range of the floats. *)
Lemma accumulate_together k wsq ws strategy w rank result st st64 h st' m h1 :
  RRF.accumulate k wsq strategy rank result st h = (Ok (st', m), h1) ->
  together st st64 -> sget ws strategy = Some w -> convertible (k + rank + 1) ->
  exists st64' d,
    accumulate k ws strategy rank result st64 h = (Ok (st64', m), h) /\
    together st' st64' /\ id_of h result = Some d /\
    doc_scores st64' = bump w k rank (doc_scores st64) d.
Proof.
  intros E [Tk Tm] Hw Hconv.
  destruct (accumulate_inv _ _ _ _ _ _ _ _ _ _ E)
    as (wq & d & Hid & _ & Hden & Hsc & Hmd & Hm).
  unfold accumulate, mbind, lift, deref, ret, getitem.
  pose proof Hid as Hid'. unfold id_of, RRF.rec_key in Hid'.
  destruct (sget (h result) "doc_id") as [v|]; [|discriminate].
  rewrite Hw, (py_div_quotient w _ Hden Hconv).
  destruct (hash_key v) as [d0|]; [|discriminate]. injection Hid' as ->.
  rewrite <- (kmem_keys _ _ d Tk).
  destruct (kmem (RRF.doc_scores st) d) eqn:Em; cbn [doc_scores doc_metadata].
  - assert (Em64 : kmem (doc_scores st64) d = true)
      by (rewrite <- (kmem_keys _ _ d Tk); exact Em).
    unfold dict_mem in Em64. destruct (kget (doc_scores st64) d) as [s|] eqn:Es;
      [|discriminate].
    rewrite Hmd in Hm. rewrite <- Tm, Hm.
    eexists. exists d. split; [reflexivity|]. cbn [doc_scores doc_metadata].
    split; [|split; [exact Hid|]].
    + split; cbn [doc_scores doc_metadata]; [|rewrite Hmd; try rewrite Tm; reflexivity].
      rewrite Hsc, bump_keys, Em, kset_keys. unfold dict_mem. rewrite Es. exact Tk.
    + unfold bump, dict_mem. rewrite Es. cbv iota. rewrite Es. reflexivity.
  - rewrite !(kget_set_same _ _ _ _ (key_eqb_refl d)).
    rewrite Hmd, (kget_set_same _ _ _ _ (key_eqb_refl d)) in Hm. injection Hm as <-.
    assert (Em64 : kmem (doc_scores st64) d = false)
      by (rewrite <- (kmem_keys _ _ d Tk); exact Em).
    eexists. exists d. split; [reflexivity|]. cbn [doc_scores doc_metadata].
    split; [|split; [exact Hid|]].
    + split; cbn [doc_scores doc_metadata]; [|rewrite Hmd; try rewrite Tm; reflexivity].
      rewrite Hsc, bump_keys, Em.
      assert (Hm1 : kmem (kset (doc_scores st64) d zero) d = true).
      { unfold dict_mem. rewrite (kget_set_same _ _ _ _ (key_eqb_refl d)). reflexivity. }
      rewrite kset_keys, Hm1, kset_keys, Em64, Tk. reflexivity.
    + unfold bump. rewrite Em64, (kget_set_same _ _ _ _ (key_eqb_refl d)). reflexivity.
Qed.

(** *** A loop, in exact arithmetic and in floats *)

Section LoopTogether.
Variables (k : Z) (wsq : list (string * Q)) (ws : list (string * float)).
Variables (strategy : string) (w : float).
Variable post : Z -> loc -> loc -> heap -> heap.
Variable stepq : Z -> loc -> RRF.fusion -> M RRF.fusion.
Variable step : Z -> loc -> fusion -> M fusion.
Hypothesis Hann : annotating k wsq strategy stepq.
Hypothesis Hstepq : forall rank result st h,
  stepq rank result st h =
  match RRF.accumulate k wsq strategy rank result st h with
  | (Ok (st', m), h1) => (Ok st', post rank result m h1)
  | (Raise e, h1) => (Raise e, h1)
  end.
Hypothesis Hstep : forall rank result st h,
  step rank result st h =
  match accumulate k ws strategy rank result st h with
  | (Ok (st', m), h1) => (Ok st', post rank result m h1)
  | (Raise e, h1) => (Raise e, h1)
  end.
Hypothesis Hw : sget ws strategy = Some w.

Lemma loop_together results : forall ids rank st st64 h st' h',
  RRF.for_enumerate stepq rank results st h = (Ok st', h') ->
  together st st64 ->
  (forall r, rank <= r < rank + Z.of_nat (length results) -> convertible (k + r + 1)) ->
  ids_are h results ids ->
  exists st64',
    for_enumerate step rank results st64 h = (Ok st64', h') /\
    together st' st64' /\
    doc_scores st64' = bump_all w k rank ids (doc_scores st64).
Proof.
  induction results as [|result rest IH]; intros ids rank st st64 h st' h' Hrun T Hconv Hids.
  - inversion Hids; subst. simpl in Hrun. unfold ret in Hrun. injection Hrun as <- <-.
    exists st64. simpl. auto.
  - inversion Hids as [|? d ? ids' Hid Hids']; subst.
    simpl in Hrun. unfold mbind in Hrun.
    pose proof (Hann rank result st h) as Ha. rewrite Hstepq in Hrun.
    destruct (RRF.accumulate k wsq strategy rank result st h) as [[[st1 m]|e] hx] eqn:E;
      [|discriminate].
    pose proof (accumulate_heap _ _ _ _ _ _ _ _ _ E) as Ehx. subst hx.
    destruct Ha as (h1 & Hh1 & Hann1). rewrite Hstepq, E in Hh1. injection Hh1 as Hh1.
    rewrite Hh1 in Hrun.
    destruct (accumulate_together k wsq ws strategy w rank result st st64 h st1 m h
                E T Hw) as (st641 & d0 & E64 & T1 & Hid0 & Hsc1).
    { apply Hconv. simpl length. lia. }
    rewrite Hid in Hid0. injection Hid0 as <-.
    assert (F : frame [m] h h1)
      by (apply (annotates_frame _ m); [left; reflexivity | exact Hann1]).
    destruct (IH ids' (rank + 1) st1 st641 h1 st' h' Hrun T1) as (st64' & Hrun64 & T' & Hsc').
    { intros r Hr. apply Hconv. simpl length. lia. }
    { exact (frame_ids_are _ _ _ _ _ F Hids'). }
    exists st64'. simpl. unfold mbind. rewrite Hstep, E64, Hh1.
    split; [exact Hrun64|]. split; [exact T'|]. rewrite Hsc', Hsc1. reflexivity.
Qed.

End LoopTogether.

(** *** The final loop *)

Lemma sget_copy (r : record) f : sget (copy r) f = option_map Copied (sget r f).
Proof.
  unfold sget, copy. induction r as [|[f0 v0] r IH]; simpl; [reflexivity|].
  destruct (String.eqb f0 f); [reflexivity | exact IH].
Qed.

Lemma emit_all64_ok st st64 h seen items :
  together st st64 -> Inv st h seen -> incl items (doc_scores st64) ->
  exists out,
    emit_all st64 h items = Ok out /\
    Forall2 (fun o it => rec_key o = Some (fst it) /\ rec_score o = Some (snd it))
      out items.
Proof.
  intros [Tk Tm] HI. induction items as [|[d s] items IH]; intros Hincl; simpl.
  - exists []. split; [reflexivity | constructor].
  - assert (Hd : In d (map fst (RRF.doc_scores st))).
    { rewrite Tk. exact (in_map fst _ _ (Hincl _ (or_introl eq_refl))). }
    apply in_map_iff in Hd. destruct Hd as ([d0 sq] & Hd0 & Hsq). simpl in Hd0. subst d0.
    destruct (Inv_lookup _ _ _ _ _ HI Hsq) as (_ & m & Hm & Hid).
    destruct (IH (fun x H => Hincl x (or_intror H))) as (out & Hout & HF).
    unfold emit. simpl. rewrite <- Tm, Hm. simpl. rewrite Hout. simpl.
    eexists. split; [reflexivity|]. constructor; [|exact HF]. simpl. split.
    + unfold rec_key. rewrite !sget_sset_other by discriminate. rewrite sget_copy.
      unfold id_of, RRF.rec_key in Hid.
      destruct (sget (h m) "doc_id") as [v|]; [|discriminate]. simpl. exact Hid.
    + unfold rec_score. rewrite sget_sset_other by discriminate.
      rewrite sget_sset_same. reflexivity.
Qed.

(** *** The whole run *)

Lemma fuse_results64_unfold k vs fs weights h :
  fuse_results k vs fs weights h =
  let ws := match weights with None => default_weights | Some w => w end in
  match for_enumerate (vector_step k ws) 0 vs {| doc_scores := []; doc_metadata := [] |} h with
  | (Ok st1, h1) =>
      match for_enumerate (fuzzy_step k ws) 0 fs st1 h1 with
      | (Ok st2, h2) => (emit_all st2 h2 (sorted_desc snd (doc_scores st2)), h2)
      | (Raise e, h2) => (Raise e, h2)
      end
  | (Raise e, h1) => (Raise e, h1)
  end.
Proof.
  unfold fuse_results, mbind. simpl.
  destruct (for_enumerate _ 0 vs _ h) as [[st1|e] h1]; [|reflexivity].
  destruct (for_enumerate _ 0 fs st1 h1) as [[st2|e] h2]; reflexivity.
Qed.

(** Success of [fuse_results] on identified hits with denominators
    within the range of the floats, and the scores it has computed. *)
Lemma fuse_results64_run k ws wv wf vs fs h idsv idsf :
  0 <= k -> in_range k (length vs) -> in_range k (length fs) ->
  sget ws "vector" = Some wv -> sget ws "fuzzy" = Some wf ->
  ids_are h vs idsv -> ids_are h fs idsf ->
  exists st st64 h',
    fuse_results k vs fs (Some ws) h
      = (emit_all st64 h' (sorted_desc snd (doc_scores st64)), h') /\
    doc_scores st64 = bump_all wf k 0 idsf (bump_all wv k 0 idsv []) /\
    map fst (doc_scores st64)
      = map fst (RRF.bump_all (4 # 10) k 0 idsf (RRF.bump_all (6 # 10) k 0 idsv [])) /\
    together st st64 /\ Inv st h' (vs ++ fs).
Proof.
  intros Hk Rv Rf Hwv Hwf Hv Hf. rewrite fuse_results64_unfold. cbv zeta.
  destruct (loop_ok k RRF.default_weights "vector" (6 # 10) _
              (vector_step_annotating k RRF.default_weights) eq_refl Hk
              vs idsv 0 _ h [] ltac:(lia) Hv (Inv_empty h))
    as (st1 & h1 & Hrun1 & Hsc1 & HI1).
  assert (L0 : locs_in {| RRF.doc_scores := []; RRF.doc_metadata := [] |} (vs ++ fs))
    by (intros ? ? []).
  destruct (loop_frame k RRF.default_weights "vector" _
              (vector_step_annotating k RRF.default_weights) (vs ++ fs)
              vs 0 _ h _ _ ltac:(apply incl_appl, incl_refl) L0 Hrun1) as [F1 _].
  destruct (loop_ok k RRF.default_weights "fuzzy" (4 # 10) _
              (fuzzy_step_annotating k RRF.default_weights) eq_refl Hk
              fs idsf 0 st1 h1 ([] ++ vs) ltac:(lia)
              (frame_ids_are _ _ _ _ _ F1 Hf) HI1)
    as (st2 & h2 & Hrun2 & Hsc2 & HI2).
  destruct (loop_together k RRF.default_weights ws "vector" wv
              (fun rank result m h1 =>
                 let h2 := store h1 m "vector_rank" (VInt rank) in
                 store h2 m "vector_score" (get_default (h2 result) "score" (VInt 0)))
              (RRF.vector_step k RRF.default_weights) (vector_step k ws)
              (vector_step_annotating k RRF.default_weights)
              (vector_step_unfold k RRF.default_weights)
              (vector_step64_unfold k ws) Hwv
              vs idsv 0 _ {| doc_scores := []; doc_metadata := [] |} h st1 h1 Hrun1)
    as (st641 & Hrun641 & T1 & Hsc641).
  { split; reflexivity. }
  { intros r Hr. apply Rv. lia. }
  { exact Hv. }
  destruct (loop_together k RRF.default_weights ws "fuzzy" wf
              (fun rank result m h1 =>
                 let h2 := store h1 m "fuzzy_rank" (VInt rank) in
                 let h3 := store h2 m "fuzzy_score"
                             (get_default (h2 result) "score" (VInt 0)) in
                 store h3 m "fuzzy_type" (get_default (h3 result) "type" (VStr "")))
              (RRF.fuzzy_step k RRF.default_weights) (fuzzy_step k ws)
              (fuzzy_step_annotating k RRF.default_weights)
              (fuzzy_step_unfold k RRF.default_weights)
              (fuzzy_step64_unfold k ws) Hwf
              fs idsf 0 st1 st641 h1 st2 h2 Hrun2 T1)
    as (st642 & Hrun642 & T2 & Hsc642).
  { intros r Hr. apply Rf. lia. }
  { exact (frame_ids_are _ _ _ _ _ F1 Hf). }
  rewrite Hrun641, Hrun642.
  exists st2, st642, h2. split; [reflexivity|]. split; [|split; [|split]].
  - rewrite Hsc642, Hsc641. reflexivity.
  - destruct T2 as [Tk _]. rewrite <- Tk, Hsc2, Hsc1. reflexivity.
  - exact T2.
  - exact HI2.
Qed.

(** *** The terms of a score *)

Lemma terms_absent w k ids d : forall rank,
  ~ InA keq d ids -> terms w k rank ids d = [].
Proof.
  induction ids as [|i ids IH]; intros rank Hnot; simpl; [reflexivity|].
  destruct (key_eqb i d) eqn:E.
  - exfalso. apply Hnot. left. unfold keq. rewrite key_eqb_sym. exact E.
  - apply IH. intros H. apply Hnot. right. exact H.
Qed.

(** In a list that holds no item twice, an item has the one term of its
    position. *)
Lemma terms_distinct w k ids d :
  NoDupA keq ids -> terms w k 0 ids d = term w k ids d.
Proof.
  unfold term. generalize 0. induction ids as [|i ids IH]; intros rank Hnd; simpl;
    [reflexivity|].
  inversion Hnd as [|? ? Hnot Hnd']; subst.
  destruct (key_eqb i d) eqn:E.
  - rewrite terms_absent; [reflexivity|].
    intros H. apply Hnot. rewrite InA_alt in *. destruct H as (y & Hy & Hin).
    exists y. split; [|exact Hin]. unfold keq in *. exact (key_eqb_trans _ _ _ E Hy).
  - apply IH. exact Hnd'.
Qed.

Lemma sum_from_app start xs ys :
  sum_from start (xs ++ ys) = sum_from (sum_from start xs) ys.
Proof. unfold sum_from. apply fold_left_app. Qed.

End RRF64Facts.

(** ** The scores and the order of reciprocal rank fusion *)

Module ScoreClaims.
Import SpecFloat RRF64 FloatFacts RRF64Facts.

(** Beyond the range of the floats the division raises: with
    [k = 2^1024] the first hit already ends the call with
    [OverflowError], and nothing is returned. *)
Lemma fuse_results_beyond_the_floats :
  fst (fuse_results (2 ^ 1024) [0%nat] [] None chunks_heap)
  = Raise (OtherError "OverflowError" "int too large to convert to float").
Proof. vm_compute. reflexivity. Qed.

(** C2, refuted as stated: the vector list holds a chunk of d2 and then
    two chunks of d1, the fuzzy list is empty, the weights are the
    default ones and [k = 60].  The item d1 is in one list, and a single
    term for it, [0.6 / 62] or [0.6 / 63], is below the score [0.6 / 61]
    of d2.  The call scores d1 with both terms, which is above the score
    of d2, and returns d1 before d2. *)
Lemma C2_repeated_item_counts_every_position :
  exists out h',
    fuse_results 60 [0; 1; 2]%nat [] None chunks_heap = (Ok out, h') /\
    ids_are chunks_heap [0; 1; 2]%nat [KStr "d2"; KStr "d1"; KStr "d1"] /\
    map rec_key out = [Some (KStr "d1"); Some (KStr "d2")] /\
    map rec_score out
    = [Some (add (add zero (quotient lit_0_6 62)) (quotient lit_0_6 63));
       Some (add zero (quotient lit_0_6 61))] /\
    ltb (quotient lit_0_6 62) (add zero (quotient lit_0_6 61)) = true /\
    ltb (quotient lit_0_6 63) (add zero (quotient lit_0_6 61)) = true /\
    ltb (add zero (quotient lit_0_6 61))
        (add (add zero (quotient lit_0_6 62)) (quotient lit_0_6 63)) = true.
Proof.
  eexists. eexists. split; [vm_compute; reflexivity|].
  split; [repeat constructor|].
  repeat split; vm_compute; reflexivity.
Qed.

(** C2, amended.  The scores are binary64 floats.  Take two lists of
    hits that carry a hashable [doc_id], float weights above zero for
    both strategies, [k >= 0] and denominators [k + rank + 1] within the
    range of the floats (as they are below [2^53], by
    [in_range_small]).  Then [fuse_results] returns one record per
    distinct item identifier of the two lists.  The [fused_score] of a
    record is the float sum, accumulated from [0.0] in the order of the
    lists (vector list first), of the float quotients
    [weights[s] / (k + rank + 1)] over every position [rank] at which
    the item stands, so an item that a list holds twice has two terms
    from that list; for lists that hold no item twice this is the one
    term of each list that holds the item.  No record scores above an
    earlier one.  On the scenario of the specification (vector list d1,
    d2; fuzzy list d2, d3; weights 0.6 and 0.4; k = 60) the order is d2,
    d1, d3. *)
Theorem C2_fuse_scores_every_position
    (k : Z) (ws : list (string * float)) (wv wf : float)
    (vs fs : list loc) (h : heap) (idsv idsf : list key) :
  0 <= k -> in_range k (length vs) -> in_range k (length fs) ->
  sget ws "vector" = Some wv -> sget ws "fuzzy" = Some wf ->
  positive wv -> positive wf ->
  ids_are h vs idsv -> ids_are h fs idsf ->
  (exists out h' items,
     fuse_results k vs fs (Some ws) h = (Ok out, h') /\
     Forall2 (fun o it => rec_key o = Some (fst it) /\ rec_score o = Some (snd it))
       out items /\
     NoDupA keq (map fst items) /\
     (forall d, InA keq d (map fst items) <-> InA keq d (idsv ++ idsf)) /\
     (forall d s, In (d, s) items -> s = rrf_total wv wf k idsv idsf d) /\
     (NoDupA keq idsv -> NoDupA keq idsf ->
      forall d s, In (d, s) items ->
        s = sum_from zero (term wv k idsv d ++ term wf k idsf d)) /\
     StronglySorted desc items) /\
  doc_ids_of_run
    (fuse_results 60 [0; 1]%nat [2; 3]%nat (Some default_weights) scenario_heap)
  = Some [Some (Copied (VStr "d2")); Some (Copied (VStr "d1"));
          Some (Copied (VStr "d3"))].
Proof.
  intros Hk Rv Rf Hwv Hwf Pv Pf Hv Hf. split; [|vm_compute; reflexivity].
  destruct (fuse_results64_run k ws wv wf vs fs h idsv idsf Hk Rv Rf Hwv Hwf Hv Hf)
    as (st & st64 & h' & Hrun & Hsc & Hkeys & T & HI).
  set (items := sorted_desc snd (doc_scores st64)) in *.
  assert (Hperm : Permutation items (doc_scores st64)) by apply sorted_desc64_perm.
  destruct (emit_all64_ok st st64 h' (vs ++ fs) items T HI) as (out & Hout & HF).
  { intros x Hx. apply (Permutation_in _ Hperm). exact Hx. }
  assert (Hnd : NoDupA keq (map fst (doc_scores st64))).
  { destruct T as [Tk _]. rewrite <- Tk. destruct HI as (_ & I2 & _). exact I2. }
  assert (Hscore : forall d s, In (d, s) items -> s = rrf_total wv wf k idsv idsf d).
  { intros d s Hin. apply (Permutation_in _ Hperm) in Hin.
    pose proof (kget_of_In _ _ _ Hnd Hin) as Hget.
    assert (Hs : s = score_or0 (doc_scores st64) d).
    { unfold score_or0. rewrite Hget. reflexivity. }
    rewrite Hs, Hsc, !bump_all64_score. unfold rrf_total.
    rewrite sum_from_app. reflexivity. }
  exists out, h', items. rewrite Hrun, Hout.
  split; [reflexivity|]. split; [exact HF|]. split; [|split; [|split; [|split]]].
  - apply (PermutationA_preserves_NoDupA _ (l₁ := map fst (doc_scores st64))); [|exact Hnd].
    apply Permutation_PermutationA; [apply keq_equiv|].
    apply Permutation_map. symmetry. exact Hperm.
  - intros d.
    assert (Hiff : InA keq d (map fst items) <-> InA keq d (map fst (doc_scores st64))).
    { rewrite !InA_alt. split; intros (y & Hy & Hin); exists y; (split; [exact Hy|]).
      - apply (Permutation_in _ (Permutation_map fst Hperm)). exact Hin.
      - apply (Permutation_in _ (Permutation_map fst (Permutation_sym Hperm))). exact Hin. }
    rewrite Hiff, Hkeys, bump_all_InA, bump_all_InA, InA_app_iff. simpl.
    split.
    + intros [[H|H]|H]; [inversion H | auto | auto].
    + intros [H|H]; auto.
  - exact Hscore.
  - intros Nv Nf d s Hin. rewrite (Hscore d s Hin). unfold rrf_total.
    rewrite (terms_distinct wv k idsv d Nv), (terms_distinct wf k idsf d Nf). reflexivity.
  - apply (sorted_desc64_sorted snd). rewrite Hsc.
    apply bump_all64_nonneg; [exact Pf | lia |].
    apply bump_all64_nonneg; [exact Pv | lia | constructor].
Qed.

(** C2 amended, at the scenario of the specification. *)
Lemma C2_fuse_scores_every_position_witness :
  (exists out h' items,
     fuse_results 60 [0; 1]%nat [2; 3]%nat (Some default_weights) scenario_heap
       = (Ok out, h') /\
     Forall2 (fun o it => rec_key o = Some (fst it) /\ rec_score o = Some (snd it))
       out items /\
     NoDupA keq (map fst items) /\
     (forall d, InA keq d (map fst items)
                <-> InA keq d ([KStr "d1"; KStr "d2"] ++ [KStr "d2"; KStr "d3"])) /\
     (forall d s, In (d, s) items ->
        s = rrf_total lit_0_6 lit_0_4 60
              [KStr "d1"; KStr "d2"] [KStr "d2"; KStr "d3"] d) /\
     (NoDupA keq [KStr "d1"; KStr "d2"] -> NoDupA keq [KStr "d2"; KStr "d3"] ->
      forall d s, In (d, s) items ->
        s = sum_from zero (term lit_0_6 60 [KStr "d1"; KStr "d2"] d
                           ++ term lit_0_4 60 [KStr "d2"; KStr "d3"] d)) /\
     StronglySorted desc items) /\
  doc_ids_of_run
    (fuse_results 60 [0; 1]%nat [2; 3]%nat (Some default_weights) scenario_heap)
  = Some [Some (Copied (VStr "d2")); Some (Copied (VStr "d1"));
          Some (Copied (VStr "d3"))].
Proof.
  apply (C2_fuse_scores_every_position 60 default_weights lit_0_6 lit_0_4
           [0; 1]%nat [2; 3]%nat scenario_heap
           [KStr "d1"; KStr "d2"] [KStr "d2"; KStr "d3"]).
  - lia.
  - intros rank Hr. assert (E : rank = 0 \/ rank = 1) by (simpl in Hr; lia).
    destruct E as [-> | ->]; eexists; vm_compute; reflexivity.
  - intros rank Hr. assert (E : rank = 0 \/ rank = 1) by (simpl in Hr; lia).
    destruct E as [-> | ->]; eexists; vm_compute; reflexivity.
  - reflexivity.
  - reflexivity.
  - exact I.
  - exact I.
  - repeat constructor.
  - repeat constructor.
Defined.

End ScoreClaims.
Import NGM.

(** ** Facts about the graph memory *)

Module NGMFacts.

Lemma string_eqb_trans (a b c : string) :
  String.eqb a b = true -> String.eqb b c = true -> String.eqb a c = true.
Proof. intros H1 H2. apply String.eqb_eq in H1, H2. subst. apply String.eqb_refl. Qed.

Lemma sget_app {V} (d1 d2 : list (string * V)) k :
  sget (d1 ++ d2) k = match sget d1 k with
                      | Some v => Some v
                      | None => sget d2 k
                      end.
Proof.
  unfold sget. induction d1 as [|[k0 v0] d1 IH]; simpl; [reflexivity|].
  destruct (String.eqb k0 k); [reflexivity | exact IH].
Qed.

Lemma sget_sset {V} (d : list (string * V)) k k' v :
  sget (sset d k v) k' = if String.eqb k k' then Some v else sget d k'.
Proof.
  destruct (String.eqb_spec k k') as [<-|Hne].
  - apply RRFFacts.sget_sset_same.
  - apply RRFFacts.sget_sset_other. exact Hne.
Qed.

(** [d.update(other)]: the last binding of a key in [other] wins. *)
Lemma sget_dict_update {V} (other : list (string * V)) : forall d k,
  sget (dict_update String.eqb d other) k
  = match sget (rev other) k with
    | Some v => Some v
    | None => sget d k
    end.
Proof.
  unfold dict_update.
  induction other as [|[k0 v0] other IH]; intros d k; simpl; [reflexivity|].
  rewrite IH, sget_app. destruct (sget (rev other) k); [reflexivity|].
  fold (sset d k0 v0). rewrite sget_sset. unfold sget at 1. simpl.
  destruct (String.eqb k0 k); reflexivity.
Qed.

Lemma sset_length_mem {V} (d : list (string * V)) k v :
  dict_mem String.eqb d k = true -> length (sset d k v) = length d.
Proof.
  intros H. rewrite <- (length_map fst (sset d k v)), <- (length_map fst d).
  unfold sset. rewrite (dict_set_keys_mem _ _ _ _ H). reflexivity.
Qed.

(** The attributes [add_node] always writes. *)
Lemma node_attrs_written e node_type content metadata :
  let nd := rev (node_attrs e node_type content metadata) in
  sget nd "type" = Some (VStr node_type) /\
  sget nd "content" = Some (VStr content) /\
  sget nd "created_at" = Some (VStr (now e)) /\
  sget nd "content_hash" = Some (VInt (hash e content)).
Proof.
  unfold node_attrs.
  destruct (sget node_types node_type) as [visual|] eqn:E.
  - unfold sget in E. apply dict_get_In in E. destruct E as (k0 & Hin & _).
    unfold node_types in Hin. simpl in Hin.
    repeat (destruct Hin as [Hin|Hin]; [injection Hin as <- <-; cbn; auto|]).
    contradiction.
  - cbn. auto.
Qed.

(** *** The queue loops do not run out of fuel *)

Lemma pending_nil G : pending G [] = length (edges G).
Proof.
  unfold pending. induction (edges G) as [|e es IH]; simpl; [reflexivity|].
  f_equal. exact IH.
Qed.

Lemma pending_visit G visited current :
  existsb (String.eqb current) visited = false ->
  pending G visited
  = (pending G (current :: visited) + length (successors G current))%nat.
Proof.
  intros Hnew. unfold pending, successors. rewrite length_map.
  induction (edges G) as [|[[u v] a] es IH]; [reflexivity|].
  cbn [filter fst existsb] in IH |- *.
  destruct (String.eqb_spec u current) as [->|Hne].
  - rewrite Hnew. cbn [negb orb length]. rewrite IH. lia.
  - cbn [orb]. destruct (existsb (String.eqb u) visited); cbn [negb length];
      rewrite IH; lia.
Qed.

Lemma bfs_for_length visited current depth path nbrs : forall queue,
  (length (bfs_for visited current depth path nbrs queue)
   <= length queue + length nbrs)%nat.
Proof.
  induction nbrs as [|n nbrs IH]; intros queue; simpl; [lia|].
  etransitivity; [apply IH|].
  destruct (existsb (String.eqb n) visited); [lia|].
  rewrite length_app. simpl. lia.
Qed.

Lemma neighbors_Ok G n nbrs : neighbors G n = Ok nbrs -> nbrs = successors G n.
Proof. unfold neighbors. destruct (has_node G n); [congruence | discriminate]. Qed.

Lemma bfs_loop_cons fuel G start_node goal_type max_steps c d p rest visited results :
  bfs_loop (S fuel) G start_node goal_type max_steps ((c, d, p) :: rest) visited results
  = if (10 <=? length results)%nat then Some (Ok results)
    else
      match py_gt d max_steps with
      | Raise e => Some (Raise e)
      | Ok beyond =>
          if beyond || existsb (String.eqb c) visited
          then bfs_loop fuel G start_node goal_type max_steps rest visited results
          else
            match node_data G c with
            | Raise e => Some (Raise e)
            | Ok nd =>
                match neighbors G c with
                | Raise e => Some (Raise e)
                | Ok nbrs =>
                    bfs_loop fuel G start_node goal_type max_steps
                      (bfs_for (c :: visited) c d p nbrs rest) (c :: visited)
                      (if is_type (get_default nd "type" (VStr "")) goal_type
                          && negb (String.eqb c start_node)
                       then results ++ [Bfs c (p ++ [c]) d (1 / inject_Z (d + 1))%Q]
                       else results)
                end
            end
      end.
Proof. reflexivity. Qed.

Lemma bfs_loop_fuel G start_node goal_type max_steps fuel :
  forall queue visited results,
    (length queue + pending G visited <= fuel)%nat ->
    exists o, bfs_loop fuel G start_node goal_type max_steps queue visited results = Some o.
Proof.
  induction fuel as [|fuel IH]; intros queue visited results Hfuel.
  - destruct queue as [|[[c d] p] rest]; simpl in *; [eauto | lia].
  - destruct queue as [|[[c d] p] rest]; [simpl; eauto|].
    rewrite bfs_loop_cons. simpl in Hfuel.
    destruct (10 <=? length results)%nat; [eauto|].
    destruct (py_gt d max_steps) as [beyond|e]; [|eauto].
    destruct (beyond || existsb (String.eqb c) visited) eqn:Eskip.
    + apply IH. lia.
    + destruct (node_data G c); [|eauto].
      destruct (neighbors G c) as [nbrs|e] eqn:En; [|eauto].
      apply neighbors_Ok in En. subst nbrs. apply IH.
      apply orb_false_iff in Eskip. destruct Eskip as [_ Hnew].
      pose proof (pending_visit G visited c Hnew).
      pose proof (bfs_for_length (c :: visited) c d p (successors G c) rest). lia.
Qed.

Lemma bfs_search_returns G start_node goal_type max_steps :
  exists o, _bfs_search G start_node goal_type max_steps = Some o.
Proof.
  apply bfs_loop_fuel. rewrite pending_nil. unfold walk_fuel. simpl. lia.
Qed.

Lemma qn_for_length G edge_types max_depth current depth nbrs :
  forall acc queue acc' queue',
    qn_for G edge_types max_depth current depth nbrs acc queue = Ok (acc', queue') ->
    (length queue' <= length queue + length nbrs)%nat.
Proof.
  induction nbrs as [|n nbrs IH]; intros acc queue acc' queue'; simpl.
  - intros [= <- <-]. lia.
  - unfold bind. destruct (edge_data G current n); [|discriminate].
    destruct (filtered_out edge_types a).
    + intros H. apply IH in H. lia.
    + destruct (node_data G n); [|discriminate].
      destruct (py_slice _ _); [|discriminate].
      destruct (py_lt _ _) as [push|]; [|discriminate].
      intros H. apply IH in H. destruct push; [rewrite length_app in H; simpl in H|]; lia.
Qed.

Lemma qn_loop_fuel G edge_types max_depth fuel :
  forall queue visited acc,
    (length queue + pending G visited <= fuel)%nat ->
    exists o, qn_loop fuel G edge_types max_depth queue visited acc = Some o.
Proof.
  induction fuel as [|fuel IH]; intros queue visited acc Hfuel.
  - destruct queue as [|[c d] rest]; simpl in *; [eauto | lia].
  - destruct queue as [|[c d] rest]; simpl in *; [eauto|].
    destruct (py_gt d max_depth) as [beyond|e]; [|eauto].
    destruct (beyond || existsb (String.eqb c) visited) eqn:Eskip.
    + apply IH. lia.
    + unfold bind. destruct (neighbors G c) as [nbrs|e] eqn:En; [|eauto].
      apply neighbors_Ok in En. subst nbrs.
      destruct (qn_for G edge_types max_depth c d (successors G c) acc rest)
        as [[acc' queue']|e] eqn:Ef; [|eauto].
      apply IH. apply qn_for_length in Ef.
      apply orb_false_iff in Eskip. destruct Eskip as [_ Hnew].
      pose proof (pending_visit G visited c Hnew). lia.
Qed.

Lemma try_except_default {A} (body : outcome A) (a : A) :
  exists r, try_except body (fun _ => Ok a) = Ok r.
Proof. destruct body; simpl; eauto. Qed.

Lemma query_neighbors_returns self node_id max_depth edge_types :
  exists r, query_neighbors self node_id max_depth edge_types = Some (Ok r).
Proof.
  unfold query_neighbors. destruct (negb (has_node (graph self) node_id)); [eauto|].
  destruct (qn_loop_fuel (graph self) edge_types max_depth (walk_fuel (graph self))
              [(node_id, 0)] [] []) as [o Ho].
  { rewrite pending_nil. unfold walk_fuel. simpl. lia. }
  rewrite Ho. cbv beta iota.
  destruct (try_except_default
              (acc <- o ;; Ok (map (fun dl => (Depth (fst dl), snd dl)) acc))%py not_found)
    as [r Hr].
  exists r. f_equal. exact Hr.
Qed.

Lemma pagerank_search_returns nx G start_node goal_type max_steps :
  exists r, _pagerank_search nx G start_node goal_type max_steps = Ok r.
Proof. apply try_except_default. Qed.

Lemma shortest_path_search_returns nx G start_node goal_type max_steps :
  exists r, _shortest_path_search nx G start_node goal_type max_steps = Ok r.
Proof. apply try_except_default. Qed.

Lemma walk_from_returns nx G goal_type max_steps start_nodes :
  forall results,
    exists o, walk_from nx G start_nodes goal_type max_steps results = Some o.
Proof.
  induction start_nodes as [|s rest IH]; intros results; simpl; [eauto|].
  destruct (negb (has_node G s)); [apply IH|].
  destruct (bfs_search_returns G s goal_type max_steps) as [[bfs|e] ->]; [|eauto].
  destruct (pagerank_search_returns nx G s goal_type max_steps) as [pr ->].
  destruct (shortest_path_search_returns nx G s goal_type max_steps) as [sp ->].
  simpl. apply IH.
Qed.

Lemma reasoning_walk_returns nx self start_nodes goal_type max_steps :
  exists r, reasoning_walk nx self start_nodes goal_type max_steps = Some (Ok r).
Proof.
  unfold reasoning_walk.
  destruct (walk_from_returns nx (graph self) goal_type max_steps start_nodes [])
    as [o ->].
  destruct (try_except_default
              (results <- o ;; Ok (sorted_desc composite_score (dedupe [] results)))%py [])
    as [r Hr].
  exists r. f_equal. exact Hr.
Qed.

End NGMFacts.
Import NGMFacts.

(** ** Properties of the graph memory *)

Module NGMClaims.

(** C3, refuted as stated: on the graph whose only node is "a", adding an
    edge to "missing_node" raises nothing; the call returns [False]. *)
Lemma C3_unknown_endpoint_returns_false :
  has_node (graph memory_a) "a" = true /\
  has_node (graph memory_a) "missing_node" = false /\
  fst (add_edge memory_a env0 "a" "missing_node" "similarity" (VNum (5 # 10)) None)
  = Ok false.
Proof. repeat split; reflexivity. Qed.

(** C3, amended.  When the source or the target is not a node of the
    graph, [add_edge] returns [False] and leaves the memory as it was, so
    the numbers of nodes and of edges are unchanged. *)
Theorem C3_add_edge_unknown_endpoint
    (self : NeuralGraphMemory) (e : env) (source target edge_type : string)
    (weight : value) (metadata : option attrs) :
  has_node (graph self) source = false \/ has_node (graph self) target = false ->
  let '(r, self') := add_edge self e source target edge_type weight metadata in
  r = Ok false /\ self' = self /\
  number_of_nodes (graph self') = number_of_nodes (graph self) /\
  number_of_edges (graph self') = number_of_edges (graph self).
Proof.
  intros H. unfold add_edge, add_edge_body.
  assert (Hguard : negb (has_node (graph self) source)
                   || negb (has_node (graph self) target) = true).
  { destruct H as [-> | ->]; simpl; [reflexivity | apply orb_true_r]. }
  rewrite Hguard. simpl. auto.
Qed.

(** C3 amended, on the graph whose only node is "a". *)
Lemma C3_add_edge_unknown_endpoint_witness :
  let '(r, self') :=
    add_edge memory_a env0 "a" "missing_node" "similarity" (VNum (5 # 10)) None in
  r = Ok false /\ self' = memory_a /\
  number_of_nodes (graph self') = number_of_nodes (graph memory_a) /\
  number_of_edges (graph self') = number_of_edges (graph memory_a).
Proof.
  apply (C3_add_edge_unknown_endpoint memory_a env0 "a" "missing_node" "similarity"
           (VNum (5 # 10)) None).
  right. reflexivity.
Defined.

(** C9, refuted as stated: the node "a" was created at the time of
    [env0]; adding it again at the time of [env1] leaves one node, with
    the new content and with [created_at] set to the later time. *)
Lemma C9_created_at_is_overwritten :
  let self' := snd (add_node memory_a env1 "a" "document" "beta" None None) in
  (nd <- node_data (graph memory_a) "a" ;; getitem nd "created_at")%py
    = Ok (VStr "2025-01-01T00:00:00") /\
  number_of_nodes (graph self') = 1%nat /\
  (nd <- node_data (graph self') "a" ;; getitem nd "content")%py = Ok (VStr "beta") /\
  (nd <- node_data (graph self') "a" ;; getitem nd "created_at")%py
    = Ok (VStr "2025-01-02T00:00:00").
Proof. repeat split; reflexivity. Qed.

(** C9, amended.  Adding a node whose id is already in the graph returns
    [True], keeps the number of nodes, every other node and all edges,
    and overwrites the node's [type], [content], [content_hash] and also
    its [created_at], which becomes the time of the second call. *)
Theorem C9_add_node_again
    (self : NeuralGraphMemory) (e : env) (node_id node_type content : string)
    (metadata : option attrs) (embedding : option (list Q)) :
  has_node (graph self) node_id = true ->
  let '(r, self') := add_node self e node_id node_type content metadata embedding in
  r = Ok true /\
  number_of_nodes (graph self') = number_of_nodes (graph self) /\
  edges (graph self') = edges (graph self) /\
  (forall n, n <> node_id -> sget (nodes (graph self')) n = sget (nodes (graph self)) n) /\
  exists nd,
    sget (nodes (graph self')) node_id = Some nd /\
    sget nd "type" = Some (VStr node_type) /\
    sget nd "content" = Some (VStr content) /\
    sget nd "content_hash" = Some (VInt (hash e content)) /\
    sget nd "created_at" = Some (VStr (now e)).
Proof.
  intros Hin. unfold add_node, add_node_body. simpl.
  split; [reflexivity|]. split; [|split; [reflexivity|split]].
  - unfold number_of_nodes. simpl. apply sset_length_mem. exact Hin.
  - intros n Hn. apply RRFFacts.sget_sset_other. congruence.
  - eexists. split; [apply RRFFacts.sget_sset_same|].
    destruct (node_attrs_written e node_type content metadata) as (A & B & C & D).
    rewrite !sget_dict_update, A, B, C, D. auto.
Qed.

(** C9 amended, on the graph whose only node is "a". *)
Lemma C9_add_node_again_witness :
  let '(r, self') := add_node memory_a env1 "a" "document" "beta" None None in
  r = Ok true /\
  number_of_nodes (graph self') = number_of_nodes (graph memory_a) /\
  edges (graph self') = edges (graph memory_a) /\
  (forall n, n <> "a" -> sget (nodes (graph self')) n = sget (nodes (graph memory_a)) n) /\
  exists nd,
    sget (nodes (graph self')) "a" = Some nd /\
    sget nd "type" = Some (VStr "document") /\
    sget nd "content" = Some (VStr "beta") /\
    sget nd "content_hash" = Some (VInt (hash env1 "beta")) /\
    sget nd "created_at" = Some (VStr (now env1)).
Proof.
  apply (C9_add_node_again memory_a env1 "a" "document" "beta" None None).
  reflexivity.
Defined.



End NGMClaims.
(** ** Facts about the reasoning walk *)

Module WalkFacts.

(** *** Comparisons with an integer bound *)

Lemma Qle_bool_inject (a b : Z) : Qle_bool (inject_Z a) (inject_Z b) = (a <=? b).
Proof.
  destruct (Z.leb_spec a b) as [H|H].
  - apply Qle_bool_iff. rewrite <- Zle_Qle. exact H.
  - destruct (Qle_bool (inject_Z a) (inject_Z b)) eqn:E; [|reflexivity].
    apply Qle_bool_iff in E. rewrite <- Zle_Qle in E. lia.
Qed.

Lemma py_gt_int (d ms : Z) : py_gt d (VInt ms) = Ok (ms <? d).
Proof.
  unfold py_gt, Qlt_bool. simpl. rewrite Qle_bool_inject, Z.ltb_antisym. reflexivity.
Qed.

Lemma py_le_int (n ms : Z) : py_le n (VInt ms) = Ok (n <=? ms).
Proof. unfold py_le. simpl. rewrite Qle_bool_inject. reflexivity. Qed.

(** *** Edges and successors *)

Lemma pair_eqb_eq (a b : string * string) : pair_eqb a b = true <-> a = b.
Proof.
  destruct a as [a1 a2], b as [b1 b2]. unfold pair_eqb. simpl.
  rewrite andb_true_iff, !String.eqb_eq. split; [intros [-> ->] | intros [= -> ->]]; auto.
Qed.

Lemma has_edge_In G u v : has_edge G u v = true <-> exists a, In ((u, v), a) (edges G).
Proof.
  unfold has_edge, dict_mem. split.
  - destruct (dict_get pair_eqb (edges G) (u, v)) as [a|] eqn:E; [|discriminate].
    intros _. apply dict_get_In in E. destruct E as (k0 & Hin & Hk).
    apply pair_eqb_eq in Hk. subst k0. eauto.
  - intros (a & Hin). induction (edges G) as [|[k0 a0] es IH]; simpl; [contradiction|].
    destruct (pair_eqb k0 (u, v)) eqn:E; [reflexivity|].
    destruct Hin as [[= -> _]|Hin]; [|exact (IH Hin)].
    assert (pair_eqb (u, v) (u, v) = true) by (apply pair_eqb_eq; reflexivity).
    congruence.
Qed.

Lemma successors_In G u v : In v (successors G u) <-> has_edge G u v = true.
Proof.
  rewrite has_edge_In. unfold successors. rewrite in_map_iff. split.
  - intros ([[u' v'] a] & Hv & Hin). simpl in Hv. subst v'.
    apply filter_In in Hin. destruct Hin as [Hin Hu]. simpl in Hu.
    apply String.eqb_eq in Hu. subst u'. eauto.
  - intros (a & Hin). exists ((u, v), a). split; [reflexivity|].
    apply filter_In. split; [exact Hin|]. simpl. apply String.eqb_refl.
Qed.

Lemma wf_successor G u v : wf G -> In v (successors G u) -> has_node G v = true.
Proof.
  intros Hwf Hin. apply successors_In, has_edge_In in Hin. destruct Hin as (a & Hin).
  apply (Hwf _ _ _ Hin).
Qed.

Lemma wf_source G u v : wf G -> has_edge G u v = true -> has_node G u = true.
Proof.
  intros Hwf Hin. apply has_edge_In in Hin. destruct Hin as (a & Hin).
  apply (Hwf _ _ _ Hin).
Qed.

Lemma existsb_eqb_In (n : string) (l : list string) :
  existsb (String.eqb n) l = true <-> In n l.
Proof.
  rewrite existsb_exists. split.
  - intros (x & Hin & Hx). apply String.eqb_eq in Hx. subst. exact Hin.
  - intros Hin. exists n. split; [exact Hin | apply String.eqb_refl].
Qed.

Lemma existsb_eqb_cons (n c : string) (l : list string) :
  existsb (String.eqb n) (c :: l) = String.eqb n c || existsb (String.eqb n) l.
Proof. reflexivity. Qed.

(** *** The inner loop of the breadth-first search *)

Lemma bfs_for_app visited c d p nbrs : forall queue,
  bfs_for visited c d p nbrs queue = queue ++ bfs_for visited c d p nbrs [].
Proof.
  induction nbrs as [|n nbrs IH]; intros queue; simpl; [rewrite app_nil_r; reflexivity|].
  destruct (existsb (String.eqb n) visited); [apply IH|].
  rewrite IH, (IH [_]), app_assoc. reflexivity.
Qed.

Lemma bfs_for_new visited c d p nbrs x :
  In x (bfs_for visited c d p nbrs []) <->
  exists n, x = (n, d + 1, p ++ [c]) /\ In n nbrs /\ existsb (String.eqb n) visited = false.
Proof.
  induction nbrs as [|n nbrs IH]; simpl.
  - split; [contradiction | intros (n & _ & [] & _)].
  - destruct (existsb (String.eqb n) visited) eqn:E.
    + rewrite IH. split.
      * intros (m & A & B & C). exists m. auto.
      * intros (m & A & [<-|B] & C); [congruence|]. exists m. auto.
    + rewrite bfs_for_app. simpl. rewrite IH. split.
      * intros [<-|(m & A & B & C)]; [exists n; auto | exists m; auto].
      * intros (m & A & [<-|B] & C); [left; auto | right; exists m; auto].
Qed.

(** *** One pass of the breadth-first search *)

Lemma node_is_data G c goal_type :
  has_node G c = true ->
  exists nd, node_data G c = Ok nd /\
    node_is G c goal_type = is_type (get_default nd "type" (VStr "")) goal_type.
Proof.
  unfold has_node, dict_mem, node_data, getitem, node_is, sget.
  destruct (dict_get String.eqb (nodes G) c) as [nd|]; [|discriminate].
  intros _. exists nd. auto.
Qed.

Lemma bfs_loop_step fuel G start_node goal_type ms c d p rest visited results :
  (length results < 10)%nat ->
  (ms <? d) || existsb (String.eqb c) visited = true \/ has_node G c = true ->
  bfs_loop (S fuel) G start_node goal_type (VInt ms) ((c, d, p) :: rest) visited results
  = let '(queue', visited', results') :=
      bfs_step G start_node goal_type ms c d p rest visited results in
    bfs_loop fuel G start_node goal_type (VInt ms) queue' visited' results'.
Proof.
  intros Hlen Hc. rewrite bfs_loop_cons.
  destruct (Nat.leb_spec 10 (length results)) as [Hge|_]; [lia|].
  rewrite py_gt_int. unfold bfs_step.
  destruct ((ms <? d) || existsb (String.eqb c) visited) eqn:Eskip; [reflexivity|].
  destruct Hc as [Hc|Hc]; [discriminate|].
  destruct (node_is_data G c goal_type Hc) as (nd & -> & ->).
  unfold neighbors. rewrite Hc. reflexivity.
Qed.

(** The rule of the loop: a property that every pass preserves holds when
    the loop ends, and the loop ends with a result. *)
Lemma bfs_loop_rule (P : bfs_state -> Prop) G start_node goal_type ms :
  (forall c d p rest visited results,
     P ((c, d, p) :: rest, visited, results) -> (length results < 10)%nat ->
     ((ms <? d) || existsb (String.eqb c) visited = true \/ has_node G c = true) /\
     P (bfs_step G start_node goal_type ms c d p rest visited results)) ->
  forall fuel queue visited results,
    (length queue + pending G visited <= fuel)%nat ->
    P (queue, visited, results) ->
    exists queue' visited' rs,
      bfs_loop fuel G start_node goal_type (VInt ms) queue visited results = Some (Ok rs) /\
      P (queue', visited', rs) /\
      (queue' = [] \/ (10 <= length rs)%nat).
Proof.
  intros Hpass. induction fuel as [|fuel IH]; intros queue visited results Hfuel HP.
  - destruct queue as [|x rest]; simpl in Hfuel; [|lia].
    exists [], visited, results. simpl. auto.
  - destruct queue as [|[[c d] p] rest].
    + exists [], visited, results. simpl. auto.
    + destruct (Nat.leb_spec 10 (length results)) as [Hge|Hlt].
      * exists ((c, d, p) :: rest), visited, results. rewrite bfs_loop_cons.
        destruct (Nat.leb_spec 10 (length results)); [auto | lia].
      * destruct (Hpass c d p rest visited results HP Hlt) as [Hc HP'].
        rewrite (bfs_loop_step fuel G start_node goal_type ms c d p rest visited results
                   Hlt Hc).
        unfold bfs_step in *.
        destruct ((ms <? d) || existsb (String.eqb c) visited) eqn:Eskip.
        -- apply IH; [simpl in Hfuel; lia | exact HP'].
        -- apply IH; [|exact HP'].
           apply orb_false_iff in Eskip. destruct Eskip as [_ Hnew].
           pose proof (NGMFacts.pending_visit G visited c Hnew).
           pose proof (NGMFacts.bfs_for_length (c :: visited) c d p (successors G c) rest).
           simpl in Hfuel. lia.
Qed.

(** *** The search from [start] when [goal] is two edges away *)

Section TwoEdges.
Variables (G : DiGraph) (start mid goal goal_type : string).
Hypothesis Hwf : wf G.
Hypothesis Hsm : has_edge G start mid = true.
Hypothesis Hmg : has_edge G mid goal = true.
Hypothesis Hgoal : node_is G goal goal_type = true.
Hypothesis Hstart : node_is G start goal_type = false.
Hypothesis Hno : has_edge G start goal = false.

Lemma start_not_goal : start <> goal.
Proof. intros E. rewrite E in Hstart. congruence. Qed.

Lemma mid_not_start : mid <> start.
Proof. intros E. rewrite E in Hmg. congruence. Qed.

Lemma mid_not_goal : mid <> goal.
Proof. intros E. rewrite E in Hsm. congruence. Qed.

Lemma entry_ok_successor c d p n :
  entry_ok G start goal (c, d, p) -> In n (successors G c) ->
  entry_ok G start goal (n, d + 1, p ++ [c]).
Proof.
  intros (_ & Hd0 & Hd1 & _) Hn. unfold entry_ok in *. simpl in *.
  split; [exact (wf_successor _ _ _ Hwf Hn)|]. split; [lia|]. split; [lia|].
  intros ->. assert (c <> start).
  { intros ->. apply successors_In in Hn. congruence. }
  specialize (Hd1 H). lia.
Qed.

Lemma entry_ok_queue visited c d p rest :
  Forall (entry_ok G start goal) ((c, d, p) :: rest) ->
  Forall (entry_ok G start goal) (bfs_for visited c d p (successors G c) rest).
Proof.
  intros HQ. inversion HQ as [|x l Hc Hrest]; subst.
  rewrite bfs_for_app. apply Forall_app. split; [exact Hrest|].
  apply Forall_forall. intros x Hx. apply bfs_for_new in Hx.
  destruct Hx as (n & -> & Hn & _). apply entry_ok_successor; assumption.
Qed.

(** With one step allowed the search never emits [goal]. *)
Lemma one_step_pass c d p rest visited results :
  inv_one_step G start goal ((c, d, p) :: rest, visited, results) ->
  (length results < 10)%nat ->
  ((1 <? d) || existsb (String.eqb c) visited = true \/ has_node G c = true) /\
  inv_one_step G start goal (bfs_step G start goal_type 1 c d p rest visited results).
Proof.
  intros [HQ HR] _. pose proof HQ as HQ'.
  inversion HQ as [|x l (Hnode & Hd0 & Hd1 & Hd2) Hrest]; subst. simpl in *.
  split; [right; exact Hnode|]. unfold bfs_step.
  destruct ((1 <? d) || existsb (String.eqb c) visited) eqn:Eskip.
  - split; assumption.
  - apply orb_false_iff in Eskip. destruct Eskip as [Hbeyond _].
    apply Z.ltb_ge in Hbeyond.
    split; [apply entry_ok_queue; exact HQ'|].
    destruct (node_is G c goal_type && negb (String.eqb c start)); [|exact HR].
    intros r Hr. apply in_app_or in Hr. destruct Hr as [Hr|[<-|[]]]; [exact (HR r Hr)|].
    simpl. intros E. specialize (Hd2 E). lia.
Qed.

Lemma bfs_one_step :
  exists rs,
    _bfs_search G start goal_type (VInt 1) = Some (Ok rs) /\
    forall r, In r rs -> node_id r <> goal.
Proof.
  unfold _bfs_search.
  destruct (bfs_loop_rule (inv_one_step G start goal) G start goal_type 1 one_step_pass
              (walk_fuel G) [(start, 0, [])] [] [])
    as (queue' & visited' & rs & Hrun & [_ HR] & _).
  - rewrite NGMFacts.pending_nil. unfold walk_fuel. simpl. lia.
  - split; [|intros r []]. repeat constructor; simpl.
    + exact (wf_source _ _ _ Hwf Hsm).
    + lia.
    + congruence.
    + intros E. destruct start_not_goal. exact E.
  - exists rs. auto.
Qed.

Lemma visited_cons n c visited :
  existsb (String.eqb n) (c :: visited) = false ->
  n <> c /\ existsb (String.eqb n) visited = false.
Proof.
  rewrite existsb_eqb_cons. intros H. apply orb_false_iff in H. destruct H as [H1 H2].
  apply String.eqb_neq in H1. auto.
Qed.

(** With two steps allowed the search reaches [goal] at depth 2. *)
Lemma two_steps_pass c d p rest visited results :
  inv_two_steps G start mid goal goal_type ((c, d, p) :: rest, visited, results) ->
  (length results < 10)%nat ->
  ((2 <? d) || existsb (String.eqb c) visited = true \/ has_node G c = true) /\
  inv_two_steps G start mid goal goal_type
    (bfs_step G start goal_type 2 c d p rest visited results).
Proof.
  intros (HQ & HR & HND & HG & HPROG) _. pose proof HQ as HQ'.
  inversion HQ as [|x l (Hnode & Hd0 & Hd1 & Hd2) Hrest]; subst. simpl in *.
  split; [right; exact Hnode|]. unfold bfs_step.
  destruct ((2 <? d) || existsb (String.eqb c) visited) eqn:Eskip.
  - (* the entry is skipped *)
    split; [exact Hrest|]. split; [exact HR|]. split; [exact HND|]. split; [exact HG|].
    intros Hgv.
    destruct (HPROG Hgv) as [(p' & Hin)|[(Hmv & A & B & HAB & HA & p' & Hin)|(Hq & Hv)]].
    + destruct Hin as [[= -> -> ->]|Hin]; [|left; eauto].
      rewrite Hgv in Eskip. discriminate.
    + right. left. split; [exact Hmv|].
      destruct A as [|a A']; [contradiction|].
      simpl in HAB. injection HAB as <- ->.
      inversion HA as [|? ? Ha HA']; subst.
      destruct Hin as [[= -> -> ->]|Hin]; [rewrite Hmv in Eskip; discriminate|].
      exists A', B. eauto.
    + inversion Hq; subst. discriminate.
  - (* the node is expanded *)
    apply orb_false_iff in Eskip. destruct Eskip as [Hbeyond Hnew].
    apply Z.ltb_ge in Hbeyond.
    split; [apply entry_ok_queue; exact HQ'|].
    assert (Hfresh : ~ In c (map node_id results)).
    { intros Hin. apply in_map_iff in Hin. destruct Hin as (r & Hid & Hr).
      destruct (HR r Hr) as (n & p0 & d0 & -> & Hv & _). simpl in Hid. subst n.
      congruence. }
    split; [|split; [|split]].
    + intros r Hr.
      assert (Hold : In r results ->
                exists n p0 d0, r = Bfs n p0 d0 (1 / inject_Z (d0 + 1))%Q /\
                  existsb (String.eqb n) (c :: visited) = true /\
                  node_is G n goal_type = true /\ (n = goal -> d0 = 2)).
      { intros Hr'. destruct (HR r Hr') as (n & p0 & d0 & A & B & C & D).
        exists n, p0, d0. rewrite existsb_eqb_cons, B, orb_true_r. auto. }
      destruct (node_is G c goal_type && negb (String.eqb c start)) eqn:Ehit;
        [|exact (Hold Hr)].
      apply in_app_or in Hr. destruct Hr as [Hr|[<-|[]]]; [exact (Hold Hr)|].
      apply andb_true_iff in Ehit. destruct Ehit as [Ety _].
      exists c, (p ++ [c]), d. rewrite existsb_eqb_cons, String.eqb_refl.
      repeat split; auto. intros E. specialize (Hd2 E). lia.
    + destruct (node_is G c goal_type && negb (String.eqb c start)); [|exact HND].
      rewrite map_app. simpl. apply NoDup_app; [exact HND | repeat constructor; auto |].
      intros x Hx [<-|[]]. contradiction.
    + (* once [goal] is expanded it is among the results *)
      rewrite existsb_eqb_cons. intros Hgv. apply orb_true_iff in Hgv.
      destruct (String.eqb_spec goal c) as [<-|Hne].
      * rewrite Hgoal. destruct (String.eqb_spec goal start) as [E|_];
          [destruct start_not_goal; symmetry; exact E|].
        simpl. eexists. split; [apply in_or_app; right; left; reflexivity | reflexivity].
      * destruct Hgv as [Hgv|Hgv]; [discriminate|].
        destruct (HG Hgv) as (r & Hr & Hid). exists r. split; [|exact Hid].
        destruct (node_is G c goal_type && negb (String.eqb c start));
          [apply in_or_app; left|]; exact Hr.
    + (* until then it stays ahead in the queue *)
      intros Hgv. apply visited_cons in Hgv. destruct Hgv as [Hgc Hgv].
      destruct (HPROG Hgv) as [(p' & Hin)|[(Hmv & A & B & HAB & HA & p' & Hin)|(Hq & Hv)]].
      * destruct Hin as [[= -> -> ->]|Hin]; [congruence|].
        left. exists p'. rewrite bfs_for_app. apply in_or_app. left. exact Hin.
      * destruct A as [|a A']; [contradiction|].
        simpl in HAB. injection HAB as <- ->.
        inversion HA as [|? ? Ha HA']; subst. simpl in Ha. subst d.
        destruct (String.eqb_spec mid c) as [<-|Hmc].
        -- left. exists (p ++ [mid]). rewrite bfs_for_app. apply in_or_app. right.
           apply bfs_for_new. exists goal. split; [reflexivity|].
           split; [apply successors_In; exact Hmg|].
           rewrite existsb_eqb_cons, Hgv, orb_false_r. apply String.eqb_neq. exact Hgc.
        -- right. left. split.
           ++ rewrite existsb_eqb_cons, Hmv, orb_false_r. apply String.eqb_neq. exact Hmc.
           ++ exists A', (B ++ bfs_for (c :: visited) c 1 p (successors G c) []).
              split; [rewrite bfs_for_app, app_assoc; reflexivity|].
              split; [exact HA'|].
              destruct Hin as [[= E _]|Hin]; [congruence | eauto].
      * inversion Hq; subst.
        right. left. split.
        -- simpl. rewrite orb_false_r. apply String.eqb_neq. exact mid_not_start.
        -- exists (bfs_for [start] start 0 [] (successors G start) []), [].
           split; [rewrite app_nil_r; reflexivity|]. split.
           ++ apply Forall_forall. intros x Hx. apply bfs_for_new in Hx.
              destruct Hx as (n & -> & _). reflexivity.
           ++ exists ([] ++ [start]). apply bfs_for_new. exists mid.
              split; [reflexivity|]. split; [apply successors_In; exact Hsm|].
              simpl. rewrite orb_false_r. apply String.eqb_neq. exact mid_not_start.
Qed.

Lemma node_is_In n : node_is G n goal_type = true -> In n (nodes_of_bfs_type G goal_type).
Proof.
  unfold node_is, nodes_of_bfs_type, sget.
  destruct (dict_get String.eqb (nodes G) n) as [nd|] eqn:E; [|discriminate].
  intros Hty. apply dict_get_In in E. destruct E as (k0 & Hin & Hk).
  apply String.eqb_eq in Hk. subst k0.
  apply in_map_iff. exists (n, nd). split; [reflexivity|].
  apply filter_In. split; [exact Hin | exact Hty].
Qed.

Lemma bfs_two_steps :
  (length (nodes_of_bfs_type G goal_type) <= 10)%nat ->
  exists rs,
    _bfs_search G start goal_type (VInt 2) = Some (Ok rs) /\
    (exists r, In r rs /\ node_id r = goal) /\
    (forall r, In r rs -> node_id r = goal ->
       exists p, r = Bfs goal p 2 (1 / inject_Z (2 + 1))%Q).
Proof.
  intros Hcount. unfold _bfs_search.
  destruct (bfs_loop_rule (inv_two_steps G start mid goal goal_type) G start goal_type 2
              two_steps_pass (walk_fuel G) [(start, 0, [])] [] [])
    as (queue' & visited' & rs & Hrun & (HQ & HR & HND & HG & HPROG) & Hend).
  - rewrite NGMFacts.pending_nil. unfold walk_fuel. simpl. lia.
  - split; [|split; [intros r []|split; [constructor|split; [discriminate|auto]]]].
    repeat constructor; simpl.
    + exact (wf_source _ _ _ Hwf Hsm).
    + lia.
    + congruence.
    + intros E. destruct start_not_goal. exact E.
  - exists rs. split; [exact Hrun|]. split.
    + destruct (existsb (String.eqb goal) visited') eqn:Hgv; [exact (HG eq_refl)|].
      exfalso.
      assert (Hne : queue' <> []).
      { destruct (HPROG eq_refl) as [(p & Hin)|[(_ & A & B & -> & _ & p & Hin)|(-> & _)]].
        - intros ->. contradiction.
        - destruct A; [contradiction | discriminate].
        - discriminate. }
      destruct Hend as [->|Hlen]; [congruence|].
      assert (Hincl : incl (goal :: map node_id rs) (nodes_of_bfs_type G goal_type)).
      { intros x [<-|Hx]; [exact (node_is_In _ Hgoal)|].
        apply in_map_iff in Hx. destruct Hx as (r & <- & Hr).
        destruct (HR r Hr) as (n & p & d & -> & _ & Hty & _). exact (node_is_In _ Hty). }
      assert (Hnd : NoDup (goal :: map node_id rs)).
      { constructor; [|exact HND]. intros Hx.
        apply in_map_iff in Hx. destruct Hx as (r & Hid & Hr).
        destruct (HR r Hr) as (n & p & d & -> & Hv & _). simpl in Hid. subst n.
        congruence. }
      pose proof (NoDup_incl_length Hnd Hincl) as Hle. simpl in Hle.
      rewrite length_map in Hle. lia.
    + intros r Hr Hid. destruct (HR r Hr) as (n & p & d & -> & _ & _ & Hd).
      simpl in Hid. subst n. rewrite (Hd eq_refl). eauto.
Qed.

(** *** The other two strategies when [goal] is two edges away *)

Lemma is_path_long p : is_path G start goal p = true -> (3 <= length p)%nat.
Proof.
  destruct p as [|x [|y [|z p]]]; simpl; try discriminate; try lia.
  - rewrite andb_true_iff. intros [_ E%String.eqb_eq]. destruct start_not_goal. exact E.
  - rewrite !andb_true_iff. intros (_ & He & E%String.eqb_eq).
    subst y. congruence.
Qed.

Lemma pagerank_for_hits nx ms pr ns : forall acc out,
  pagerank_for nx G start goal_type (VInt ms) pr ns acc = Ok out ->
  forall r, In r out ->
    In r acc \/
    exists len, shortest_path_length nx G start (node_id r) = Ok len /\ len <= ms.
Proof.
  induction ns as [|[n nd] ns IH]; intros acc out; cbn [pagerank_for].
  - intros [= <-] r Hr. auto.
  - destruct (has_type nd goal_type); [|apply IH].
    destruct (shortest_path_length nx G start n) as [len|e] eqn:El.
    + rewrite py_le_int. cbn [bind].
      destruct (Z.leb_spec len ms) as [Hle|_]; [|apply IH].
      destruct (py_div _ _) as [c|]; cbn [bind]; [|discriminate].
      intros Hrun r Hr. destruct (IH _ _ Hrun r Hr) as [Hin|Hhit]; [|auto].
      apply in_app_or in Hin. destruct Hin as [Hin|[<-|[]]]; [auto|].
      right. exists len. auto.
    + destruct e; try discriminate. apply IH.
Qed.

Lemma shortest_for_hits nx ms goal_nodes : forall acc out,
  shortest_for nx G start (VInt ms) goal_nodes acc = Ok out ->
  forall r, In r out ->
    In r acc \/
    exists path, shortest_path nx G start (node_id r) = Ok path /\
      Z.of_nat (length path) <= ms + 1.
Proof.
  induction goal_nodes as [|n ns IH]; intros acc out; cbn [shortest_for].
  - intros [= <-] r Hr. auto.
  - destruct (shortest_path nx G start n) as [path|e] eqn:Ep.
    + unfold fits. cbn [py_add bind]. rewrite py_le_int. cbn [bind].
      destruct (Z.leb_spec (Z.of_nat (length path)) (ms + 1)) as [Hle|_]; [|apply IH].
      destruct (sum_weights G path) as [w|]; cbn [bind]; [|discriminate].
      destruct (py_div _ _) as [c|]; cbn [bind]; [|discriminate].
      intros Hrun r Hr. destruct (IH _ _ Hrun r Hr) as [Hin|Hhit]; [|auto].
      apply in_app_or in Hin. destruct Hin as [Hin|[<-|[]]]; [auto|].
      right. exists path. auto.
    + destruct e; try discriminate. apply IH.
Qed.

Lemma pagerank_search_one_step nx out :
  sound_on nx G start goal ->
  _pagerank_search nx G start goal_type (VInt 1) = Ok out ->
  forall r, In r out -> node_id r <> goal.
Proof.
  intros [_ Hlen]. unfold _pagerank_search, try_except, bind.
  destruct (pagerank nx G) as [pr|]; [|intros [= <-] r []].
  destruct (pagerank_for nx G start goal_type (VInt 1) pr (nodes G) []) as [out'|] eqn:E;
    [|intros [= <-] r []].
  intros [= <-] r Hr Hid.
  destruct (pagerank_for_hits nx 1 pr _ _ _ E r Hr) as [[]|(len & Hl & Hle)].
  rewrite Hid in Hl. destruct (Hlen _ Hl) as (p & Hp & Hlp).
  apply is_path_long in Hp. lia.
Qed.

Lemma shortest_path_search_one_step nx out :
  sound_on nx G start goal ->
  _shortest_path_search nx G start goal_type (VInt 1) = Ok out ->
  forall r, In r out -> node_id r <> goal.
Proof.
  intros [Hpath _]. unfold _shortest_path_search, try_except.
  destruct (shortest_for nx G start (VInt 1) (nodes_of_type G goal_type) [])
    as [out'|] eqn:E; [|intros [= <-] r []].
  intros [= <-] r Hr Hid.
  destruct (shortest_for_hits nx 1 _ _ _ E r Hr) as [[]|(path & Hp & Hle)].
  rewrite Hid in Hp. apply Hpath in Hp. apply is_path_long in Hp. lia.
Qed.

End TwoEdges.

(** *** Deduplication and ranking of the pooled results *)

Lemma dedupe_In seen results r : In r (dedupe seen results) -> In r results.
Proof.
  revert seen. induction results as [|x results IH]; intros seen; simpl; [auto|].
  destruct (existsb (String.eqb (node_id x)) seen).
  - intros H. right. exact (IH _ H).
  - intros [<-|H]; [left; reflexivity | right; exact (IH _ H)].
Qed.

Lemma dedupe_keeps_first n l2 l1 : forall seen,
  existsb (String.eqb n) seen = false ->
  (exists r, In r l1 /\ node_id r = n) ->
  exists r', In r' l1 /\ node_id r' = n /\ In r' (dedupe seen (l1 ++ l2)).
Proof.
  induction l1 as [|x l1 IH]; intros seen Hseen (r & Hr & Hid); [contradiction|].
  simpl. destruct (String.eqb_spec (node_id x) n) as [Hx|Hx].
  - exists x. rewrite Hx, Hseen. subst n. simpl. auto.
  - assert (Hr' : exists r, In r l1 /\ node_id r = n).
    { destruct Hr as [<-|Hr]; [contradiction | eauto]. }
    destruct (existsb (String.eqb (node_id x)) seen).
    + destruct (IH seen Hseen Hr') as (r' & A & B & C). exists r'. auto.
    + destruct (IH (node_id x :: seen)) as (r' & A & B & C); [|exact Hr'|].
      * simpl. rewrite Hseen, orb_false_r. apply String.eqb_neq. congruence.
      * exists r'. simpl. auto.
Qed.

Lemma dedupe_seen n l : forall seen r,
  existsb (String.eqb n) seen = true -> In r (dedupe seen l) -> node_id r <> n.
Proof.
  induction l as [|y l IH]; intros seen r Hseen Hr; simpl in Hr; [contradiction|].
  destruct (existsb (String.eqb (node_id y)) seen) eqn:Ey.
  - exact (IH _ _ Hseen Hr).
  - destruct Hr as [<-|Hr].
    + intros E. rewrite E in Ey. congruence.
    + apply (IH (node_id y :: seen)); [|exact Hr].
      simpl. rewrite Hseen. apply orb_true_r.
Qed.

Lemma dedupe_only_first n l2 l1 : forall seen r,
  (exists r0, In r0 l1 /\ node_id r0 = n) ->
  In r (dedupe seen (l1 ++ l2)) -> node_id r = n -> In r l1.
Proof.
  induction l1 as [|x l1 IH]; intros seen r (r0 & Hr0 & Hid0) Hr Hid; [contradiction|].
  simpl in Hr.
  assert (Hrest : node_id x <> n -> exists r0, In r0 l1 /\ node_id r0 = n).
  { intros Hx. destruct Hr0 as [<-|Hr0]; [contradiction | eauto]. }
  destruct (existsb (String.eqb (node_id x)) seen) eqn:Es.
  - destruct (String.eqb_spec (node_id x) n) as [Hx|Hx].
    + rewrite Hx in Es. destruct (dedupe_seen n _ _ _ Es Hr). exact Hid.
    + right. exact (IH _ _ (Hrest Hx) Hr Hid).
  - destruct Hr as [<-|Hr]; [left; reflexivity|].
    destruct (String.eqb_spec (node_id x) n) as [Hx|Hx].
    + assert (Hs : existsb (String.eqb n) (node_id x :: seen) = true).
      { simpl. rewrite Hx, String.eqb_refl. reflexivity. }
      destruct (dedupe_seen n _ _ _ Hs Hr). exact Hid.
    + right. exact (IH _ _ (Hrest Hx) Hr Hid).
Qed.

Lemma sorted_desc_In {A} (score : A -> Q) l x : In x (sorted_desc score l) <-> In x l.
Proof.
  split; apply Permutation_in; [|symmetry]; apply sorted_desc_perm.
Qed.

(** The pooled results of a walk from one start node that is in the graph. *)
Lemma reasoning_walk_single nx self start goal_type max_steps bfs pr sp :
  has_node (graph self) start = true ->
  _bfs_search (graph self) start goal_type max_steps = Some (Ok bfs) ->
  _pagerank_search nx (graph self) start goal_type max_steps = Ok pr ->
  _shortest_path_search nx (graph self) start goal_type max_steps = Ok sp ->
  reasoning_walk nx self [start] goal_type max_steps
  = Some (Ok (sorted_desc composite_score (dedupe [] (bfs ++ pr ++ sp)))).
Proof.
  intros Hnode Hbfs Hpr Hsp. unfold reasoning_walk. simpl.
  rewrite Hnode, Hbfs, Hpr, Hsp. reflexivity.
Qed.

End WalkFacts.
Import WalkFacts.

(** ** Properties of the reasoning walk *)

Module WalkClaims.

(** C4, refuted as stated: the graph start -> mid -> goal with the extra
    edge start -> goal contains the path of the claim, yet with
    [max_steps = 1] the walk returns [goal], and with [max_steps = 2]
    its breadth-first score is 1/2, not 1/3. *)
Lemma C4_shortcut_edge_reaches_goal_in_one_step :
  has_edge (graph memory_shortcut) "start" "mid" = true /\
  has_edge (graph memory_shortcut) "mid" "goal" = true /\
  node_is (graph memory_shortcut) "goal" "function" = true /\
  node_is (graph memory_shortcut) "start" "function" = false /\
  node_is (graph memory_shortcut) "mid" "function" = false /\
  reasoning_walk plain_nx memory_shortcut ["start"] "function" (VInt 1)
    = Some (Ok [Bfs "goal" ["start"; "goal"] 1 (1 # 2)]) /\
  reasoning_walk plain_nx memory_shortcut ["start"] "function" (VInt 2)
    = Some (Ok [Bfs "goal" ["start"; "goal"] 1 (1 # 2)]).
Proof. repeat split; vm_compute; reflexivity. Qed.

(** C4, amended.  Let the graph be well formed with edges start -> mid
    and mid -> goal but no edge start -> goal, let [goal] have the goal
    type and [start] not, let at most ten nodes have the goal type, and
    let the library answer the path queries from [start] to [goal] with
    paths of the graph.  Then [reasoning_walk] from [start] with
    [max_steps = 2] returns a result for [goal], and every result it
    returns for [goal] is the breadth-first one, of depth 2 and
    composite score 1/3; with [max_steps = 1] it returns no result for
    [goal]. *)
Theorem C4_goal_two_edges_away
    (nx : Networkx) (self : NeuralGraphMemory) (start mid goal goal_type : string) :
  wf (graph self) ->
  has_edge (graph self) start mid = true ->
  has_edge (graph self) mid goal = true ->
  has_edge (graph self) start goal = false ->
  node_is (graph self) goal goal_type = true ->
  node_is (graph self) start goal_type = false ->
  (length (nodes_of_bfs_type (graph self) goal_type) <= 10)%nat ->
  sound_on nx (graph self) start goal ->
  (exists rs,
     reasoning_walk nx self [start] goal_type (VInt 2) = Some (Ok rs) /\
     (exists r, In r rs /\ node_id r = goal) /\
     (forall r, In r rs -> node_id r = goal ->
        (exists p, r = Bfs goal p 2 (composite_score r)) /\
        (composite_score r == 1 # 3)%Q)) /\
  (exists rs,
     reasoning_walk nx self [start] goal_type (VInt 1) = Some (Ok rs) /\
     forall r, In r rs -> node_id r <> goal).
Proof.
  intros Hwf Hsm Hmg Hno Hgoal Hstart Hcount Hsound.
  pose proof (wf_source _ _ _ Hwf Hsm) as Hnode.
  split.
  - destruct (bfs_two_steps _ start mid goal goal_type Hwf Hsm Hmg Hgoal Hstart Hno Hcount)
      as (bfs & Hbfs & Hex & Hform).
    destruct (NGMFacts.pagerank_search_returns nx (graph self) start goal_type (VInt 2))
      as [pr Hpr].
    destruct (NGMFacts.shortest_path_search_returns nx (graph self) start goal_type (VInt 2))
      as [sp Hsp].
    eexists. split; [exact (reasoning_walk_single _ _ _ _ _ _ _ _ Hnode Hbfs Hpr Hsp)|].
    destruct (dedupe_keeps_first goal (pr ++ sp) bfs [] eq_refl Hex) as (r' & Hin & Hid & Hkept).
    split.
    + exists r'. split; [apply sorted_desc_In; exact Hkept | exact Hid].
    + intros r Hr Hid_r. apply sorted_desc_In in Hr.
      pose proof (dedupe_only_first goal (pr ++ sp) bfs [] r Hex Hr Hid_r) as Hbfs_r.
      destruct (Hform r Hbfs_r Hid_r) as (p & ->). simpl. split; [eauto | reflexivity].
  - destruct (bfs_one_step _ start mid goal goal_type Hwf Hsm Hgoal Hstart Hno)
      as (bfs & Hbfs & Hnone).
    destruct (NGMFacts.pagerank_search_returns nx (graph self) start goal_type (VInt 1))
      as [pr Hpr].
    destruct (NGMFacts.shortest_path_search_returns nx (graph self) start goal_type (VInt 1))
      as [sp Hsp].
    eexists. split; [exact (reasoning_walk_single _ _ _ _ _ _ _ _ Hnode Hbfs Hpr Hsp)|].
    intros r Hr. apply sorted_desc_In, dedupe_In in Hr.
    apply in_app_or in Hr. destruct Hr as [Hr|Hr]; [exact (Hnone r Hr)|].
    apply in_app_or in Hr. destruct Hr as [Hr|Hr].
    + exact (pagerank_search_one_step _ start goal goal_type Hgoal Hstart Hno
               nx pr Hsound Hpr r Hr).
    + exact (shortest_path_search_one_step _ start goal goal_type Hgoal Hstart Hno
               nx sp Hsound Hsp r Hr).
Qed.

(** C4 amended, on the graph start -> mid -> goal of the specification. *)
Lemma C4_goal_two_edges_away_witness :
  (exists rs,
     reasoning_walk plain_nx memory_path ["start"] "function" (VInt 2) = Some (Ok rs) /\
     (exists r, In r rs /\ node_id r = "goal") /\
     (forall r, In r rs -> node_id r = "goal" ->
        (exists p, r = Bfs "goal" p 2 (composite_score r)) /\
        (composite_score r == 1 # 3)%Q)) /\
  (exists rs,
     reasoning_walk plain_nx memory_path ["start"] "function" (VInt 1) = Some (Ok rs) /\
     forall r, In r rs -> node_id r <> "goal").
Proof.
  apply (C4_goal_two_edges_away plain_nx memory_path "start" "mid" "goal" "function").
  - intros u v a Hin. vm_compute in Hin.
    destruct Hin as [Hin|[Hin|[]]]; injection Hin as <- <- _; split; reflexivity.
  - reflexivity.
  - reflexivity.
  - reflexivity.
  - reflexivity.
  - reflexivity.
  - vm_compute. lia.
  - split.
    + intros p Hp. vm_compute in Hp. injection Hp as <-. reflexivity.
    + intros n Hn. vm_compute in Hn. injection Hn as <-.
      exists ["start"; "mid"; "goal"]. split; reflexivity.
Defined.

(** C5, at the failing input: the graph whose only node is the function
    "s", walked from "s" towards functions with [max_steps = 0].  The
    breadth-first strategy emits nothing, but the other two do not
    exclude the start node: whenever the library answers the path query
    from "s" to itself with the path ["s"], the walk returns one result,
    the start node itself. *)
Theorem C5_zero_steps_returns_the_start_node (nx : Networkx) :
  shortest_path nx (graph memory_s) "s" "s" = Ok ["s"] ->
  _bfs_search (graph memory_s) "s" "function" (VInt 0) = Some (Ok []) /\
  exists r,
    reasoning_walk nx memory_s ["s"] "function" (VInt 0) = Some (Ok [r]) /\
    node_id r = "s".
Proof.
  intros Hpath.
  assert (Hbfs : _bfs_search (graph memory_s) "s" "function" (VInt 0) = Some (Ok []))
    by (vm_compute; reflexivity).
  split; [exact Hbfs|].
  assert (Hsp : _shortest_path_search nx (graph memory_s) "s" "function" (VInt 0)
                = Ok [Shortest_path "s" ["s"] 0 0 (0 / 1)%Q]).
  { unfold _shortest_path_search.
    change (nodes_of_type (graph memory_s) "function") with ["s"].
    cbn [shortest_for]. rewrite Hpath. reflexivity. }
  assert (Hpr : exists L,
            _pagerank_search nx (graph memory_s) "s" "function" (VInt 0) = Ok L /\
            (L = [] \/ exists a b c, L = [Pagerank "s" a b c])).
  { unfold _pagerank_search.
    destruct (pagerank nx (graph memory_s)) as [pr|]; [|simpl; eauto].
    cbn [bind].
    change (nodes (graph memory_s))
      with [("s", node_attrs env0 "function" "def s(): pass" None)].
    cbn [pagerank_for].
    change (has_type (node_attrs env0 "function" "def s(): pass" None) "function")
      with true. cbv iota.
    destruct (shortest_path_length nx (graph memory_s) "s" "s") as [len|e].
    - rewrite py_le_int. cbn [bind].
      destruct (len <=? 0); [|simpl; eauto].
      destruct (py_div _ _); simpl; eauto 7.
    - destruct e; simpl; eauto. }
  destruct Hpr as (L & Hpr & HL).
  rewrite (reasoning_walk_single nx memory_s "s" "function" (VInt 0) [] L _
             eq_refl Hbfs Hpr Hsp).
  destruct HL as [->|(a & b & c & ->)]; simpl; eauto.
Qed.

(** C5 at the failing input, with the stand-in library. *)
Lemma C5_zero_steps_returns_the_start_node_witness :
  _bfs_search (graph memory_s) "s" "function" (VInt 0) = Some (Ok []) /\
  exists r,
    reasoning_walk plain_nx memory_s ["s"] "function" (VInt 0) = Some (Ok [r]) /\
    node_id r = "s".
Proof.
  apply (C5_zero_steps_returns_the_start_node plain_nx). reflexivity.
Defined.

End WalkClaims.
Import CodeGraph.

(** ** Facts about building the graph *)

Module GraphFacts.

Lemma pair_eqb_refl (a : string * string) : pair_eqb a a = true.
Proof. apply pair_eqb_eq. reflexivity. Qed.

Lemma pair_eqb_sym (a b : string * string) : pair_eqb a b = pair_eqb b a.
Proof.
  unfold pair_eqb. rewrite (String.eqb_sym (fst a)), (String.eqb_sym (snd a)). reflexivity.
Qed.

Lemma pair_eqb_trans (a b c : string * string) :
  pair_eqb a b = true -> pair_eqb b c = true -> pair_eqb a c = true.
Proof. rewrite !pair_eqb_eq. congruence. Qed.

Lemma In_dict_set {K V} (eqb : K -> K -> bool) (d : list (K * V)) k v k' v' :
  In (k', v') (dict_set eqb d k v) ->
  In (k', v') d \/ (v' = v /\ (k' = k \/ eqb k' k = true)).
Proof.
  induction d as [|[k0 v0] d IH]; simpl.
  - intros [[= <- <-]|[]]. auto.
  - destruct (eqb k0 k) eqn:E; simpl.
    + intros [[= <- <-]|H]; auto.
    + intros [H|H]; [auto|]. destruct (IH H) as [H'|H']; auto.
Qed.

(** *** Nodes *)

Lemma has_node_sget G n : has_node G n = true <-> exists nd, sget (nodes G) n = Some nd.
Proof.
  unfold has_node, dict_mem, sget. destruct (dict_get String.eqb (nodes G) n).
  - split; eauto.
  - split; [discriminate | intros (nd & H); discriminate].
Qed.

Lemma has_node_false G n : has_node G n = false <-> sget (nodes G) n = None.
Proof.
  unfold has_node, dict_mem, sget. destruct (dict_get String.eqb (nodes G) n).
  - split; discriminate.
  - split; reflexivity.
Qed.

Lemma nodes_nx_add_node G n a m :
  sget (nodes (nx_add_node G n a)) m
  = if String.eqb n m
    then Some (dict_update String.eqb (get_default (nodes G) n []) a)
    else sget (nodes G) m.
Proof. unfold nx_add_node. simpl. apply NGMFacts.sget_sset. Qed.

Lemma has_node_nx_add_node G n a m :
  has_node (nx_add_node G n a) m = String.eqb n m || has_node G m.
Proof.
  unfold has_node, dict_mem. fold (sget (nodes (nx_add_node G n a)) m).
  rewrite nodes_nx_add_node. destruct (String.eqb n m); reflexivity.
Qed.

Lemma ensure_node_mem ns n : dict_mem String.eqb ns n = true -> ensure_node ns n = ns.
Proof. unfold ensure_node. intros ->. reflexivity. Qed.

Lemma nodes_nx_add_edge G u v a :
  has_node G u = true -> has_node G v = true -> nodes (nx_add_edge G u v a) = nodes G.
Proof.
  unfold has_node, nx_add_edge. simpl. intros Hu Hv.
  rewrite (ensure_node_mem _ _ Hu). apply ensure_node_mem. exact Hv.
Qed.

(** *** Edges *)

Lemma edges_nx_add_edge G u v a x y :
  dict_get pair_eqb (edges (nx_add_edge G u v a)) (x, y)
  = if pair_eqb (u, v) (x, y)
    then Some (dict_update String.eqb
                 (match dict_get pair_eqb (edges G) (u, v) with
                  | Some a0 => a0
                  | None => []
                  end) a)
    else dict_get pair_eqb (edges G) (x, y).
Proof.
  unfold nx_add_edge. simpl. destruct (pair_eqb (u, v) (x, y)) eqn:E.
  - apply (dict_get_set_same pair_eqb pair_eqb_sym pair_eqb_trans). exact E.
  - apply (dict_get_set_other pair_eqb pair_eqb_sym pair_eqb_trans). exact E.
Qed.

Lemma has_edge_nx_add_edge G u v a x y :
  has_edge (nx_add_edge G u v a) x y = pair_eqb (u, v) (x, y) || has_edge G x y.
Proof.
  unfold has_edge, dict_mem. rewrite edges_nx_add_edge.
  destruct (pair_eqb (u, v) (x, y)); reflexivity.
Qed.

Lemma dict_set_length {K V} (eqb : K -> K -> bool) (d : list (K * V)) k v :
  length (dict_set eqb d k v)
  = if dict_mem eqb d k then length d else S (length d).
Proof.
  unfold dict_mem. induction d as [|[k0 v0] d IH]; simpl; [reflexivity|].
  destruct (eqb k0 k); simpl; [reflexivity|].
  rewrite IH. destruct (dict_get eqb d k); reflexivity.
Qed.

Lemma number_of_edges_nx_add_edge G u v a :
  number_of_edges (nx_add_edge G u v a)
  = if has_edge G u v then number_of_edges G else S (number_of_edges G).
Proof. unfold number_of_edges, has_edge, nx_add_edge. simpl. apply dict_set_length. Qed.

(** *** Well-formedness *)

Lemma wf_empty : wf empty_graph.
Proof. intros u v a []. Qed.

Lemma wf_nx_add_node G n a : wf G -> wf (nx_add_node G n a).
Proof.
  intros Hwf u v a0 Hin. simpl in Hin. destruct (Hwf u v a0 Hin) as [Hu Hv].
  rewrite !has_node_nx_add_node, Hu, Hv, !orb_true_r. auto.
Qed.

Lemma wf_nx_add_edge G u v a :
  has_node G u = true -> has_node G v = true -> wf G -> wf (nx_add_edge G u v a).
Proof.
  intros Hu Hv Hwf x y a0 Hin. unfold has_node.
  rewrite (nodes_nx_add_edge G u v a Hu Hv). fold (has_node G x) (has_node G y).
  simpl in Hin. apply In_dict_set in Hin.
  destruct Hin as [Hin|[_ [[= -> ->]|E]]].
  - exact (Hwf x y a0 Hin).
  - auto.
  - apply pair_eqb_eq in E. injection E as -> ->. auto.
Qed.

(** *** What one call does to the memory *)

Lemma add_node_graph self e node_id node_type content metadata embedding :
  graph (snd (add_node self e node_id node_type content metadata embedding))
  = nx_add_node (graph self) node_id (node_attrs e node_type content metadata).
Proof. reflexivity. Qed.

(** [add_edge] either leaves the memory alone or adds the edge between
    two nodes of the graph. *)
Lemma add_edge_graph self e source target edge_type weight metadata :
  (snd (add_edge self e source target edge_type weight metadata) = self /\
   (has_node (graph self) source = false \/ has_node (graph self) target = false)) \/
  (has_node (graph self) source = true /\ has_node (graph self) target = true /\
   graph (snd (add_edge self e source target edge_type weight metadata))
   = nx_add_edge (graph self) source target (edge_attrs e edge_type weight metadata)).
Proof.
  unfold add_edge, add_edge_body.
  destruct (has_node (graph self) source) eqn:Hs; simpl; [|left; auto].
  destruct (has_node (graph self) target) eqn:Ht; simpl; [|left; auto].
  right. auto.
Qed.

Lemma add_edge_present self e source target edge_type weight metadata :
  has_node (graph self) source = true -> has_node (graph self) target = true ->
  add_edge self e source target edge_type weight metadata
  = (try_except (_ <- format_3f weight ;; Ok true)%py (fun _ => Ok false),
     {| graph := nx_add_edge (graph self) source target
                   (edge_attrs e edge_type weight metadata);
        embeddings_cache := embeddings_cache self |}).
Proof.
  intros Hs Ht. unfold add_edge, add_edge_body. rewrite Hs, Ht. reflexivity.
Qed.

(** The attributes [add_edge] always writes. *)
Lemma edge_attrs_written e edge_type weight metadata :
  let ed := rev (edge_attrs e edge_type weight metadata) in
  sget ed "type" = Some (VStr edge_type) /\
  sget ed "weight" = Some weight /\
  sget ed "created_at" = Some (VStr (now e)).
Proof.
  unfold edge_attrs.
  destruct (sget edge_types edge_type) as [visual|] eqn:E.
  - unfold sget in E. apply dict_get_In in E. destruct E as (k0 & Hin & _).
    unfold edge_types in Hin. simpl in Hin.
    repeat (destruct Hin as [Hin|Hin]; [injection Hin as <- <-; cbn; auto|]).
    contradiction.
  - cbn. auto.
Qed.

(** *** The invariant of the memories built from the empty graph *)

Lemma typed_nodes_nx_add_node G e n node_type content metadata :
  typed_nodes G -> typed_nodes (nx_add_node G n (node_attrs e node_type content metadata)).
Proof.
  intros HT m nd. rewrite nodes_nx_add_node.
  destruct (String.eqb n m); [|apply HT].
  intros [= <-]. exists node_type, content.
  destruct (NGMFacts.node_attrs_written e node_type content metadata) as (A & B & _).
  rewrite !NGMFacts.sget_dict_update, A, B. auto.
Qed.

Lemma typed_edges_nx_add_edge G e u v edge_type weight metadata :
  typed_edges G ->
  typed_edges (nx_add_edge G u v (edge_attrs e edge_type weight metadata)).
Proof.
  intros HT x y ed. rewrite edges_nx_add_edge.
  destruct (pair_eqb (u, v) (x, y)); [|apply HT].
  intros [= <-]. exists edge_type, weight.
  destruct (edge_attrs_written e edge_type weight metadata) as (A & B & _).
  rewrite !NGMFacts.sget_dict_update, A, B. auto.
Qed.

Lemma built_invariant self :
  built self ->
  wf (graph self) /\ typed_nodes (graph self) /\ typed_edges (graph self).
Proof.
  induction 1 as [|self e n ty c md emb _ (Hwf & Hn & He)
                  |self e s t ty w md _ (Hwf & Hn & He)].
  - split; [exact wf_empty|]. split.
    + intros n nd H. discriminate.
    + intros u v ed H. discriminate.
  - rewrite add_node_graph. split; [apply wf_nx_add_node; exact Hwf|].
    split; [apply typed_nodes_nx_add_node; exact Hn|].
    intros u v ed. apply He.
  - destruct (add_edge_graph self e s t ty w md) as [[-> _]|(Hs & Ht & ->)]; [auto|].
    split; [apply wf_nx_add_edge; assumption|]. split.
    + intros n nd. rewrite (nodes_nx_add_edge _ _ _ _ Hs Ht). apply Hn.
    + apply typed_edges_nx_add_edge. exact He.
Qed.

(** *** The loop of add_code_file over the dependencies *)

Lemma add_node_keeps self e node_id node_type content metadata embedding :
  let self' := snd (add_node self e node_id node_type content metadata embedding) in
  has_node (graph self') node_id = true /\
  (forall n, has_node (graph self) n = true -> has_node (graph self') n = true) /\
  (forall n, n <> node_id -> sget (nodes (graph self')) n = sget (nodes (graph self)) n) /\
  edges (graph self') = edges (graph self).
Proof.
  cbv zeta. rewrite add_node_graph. split; [|split; [|split]].
  - rewrite has_node_nx_add_node, String.eqb_refl. reflexivity.
  - intros n Hn. rewrite has_node_nx_add_node, Hn. apply orb_true_r.
  - intros n Hn. rewrite nodes_nx_add_node.
    destruct (String.eqb_spec node_id n); [congruence | reflexivity].
  - reflexivity.
Qed.

(** One dependency: its node is created when missing, the edge from the
    file is added or overwritten, and nothing else changes. *)
Lemma add_dependency_step self e e' file_id dep_type dep_name :
  has_node (graph self) file_id = true ->
  let d := (dep_type ++ "::" ++ dep_name)%string in
  let self1 := if has_node (graph self) d then self
               else snd (add_node self e d dep_type dep_name None None) in
  let self2 := snd (add_edge self1 e' file_id d "dependency" (VNum 1)
                      (Some [("type", VStr dep_type)])) in
  has_node (graph self1) file_id = true /\ has_node (graph self1) d = true /\
  graph self2 = nx_add_edge (graph self1) file_id d
                  (edge_attrs e' "dependency" (VNum 1) (Some [("type", VStr dep_type)])) /\
  nodes (graph self2) = nodes (graph self1) /\
  (forall n, has_node (graph self) n = true ->
     sget (nodes (graph self1)) n = sget (nodes (graph self)) n) /\
  edges (graph self1) = edges (graph self).
Proof.
  intros Hfile. cbv zeta.
  set (d := (dep_type ++ "::" ++ dep_name)%string).
  set (self1 := if has_node (graph self) d then self
                else snd (add_node self e d dep_type dep_name None None)).
  assert (H1 : has_node (graph self1) file_id = true /\ has_node (graph self1) d = true /\
               (forall n, has_node (graph self) n = true ->
                  sget (nodes (graph self1)) n = sget (nodes (graph self)) n) /\
               edges (graph self1) = edges (graph self)).
  { unfold self1. destruct (has_node (graph self) d) eqn:Hd; [auto|].
    destruct (add_node_keeps self e d dep_type dep_name None None) as (A & B & C & D).
    split; [apply B; exact Hfile|]. split; [exact A|]. split; [|exact D].
    intros n Hn. apply C. intros ->. congruence. }
  destruct H1 as (Hf1 & Hd1 & Hsame & Hedges).
  rewrite (add_edge_present _ _ _ _ _ _ _ Hf1 Hd1). cbn [snd graph].
  split; [exact Hf1|]. split; [exact Hd1|]. split; [reflexivity|].
  split; [apply nodes_nx_add_edge; assumption|]. split; [exact Hsame | exact Hedges].
Qed.

Lemma has_node_nodes G G' n : nodes G' = nodes G -> has_node G' n = has_node G n.
Proof. unfold has_node. intros ->. reflexivity. Qed.

Lemma add_dependencies_spec times hash file_id dependencies : forall self tick,
  has_node (graph self) file_id = true ->
  let self' := add_dependencies self times hash tick file_id dependencies in
  (forall n, has_node (graph self) n = true ->
     has_node (graph self') n = true /\
     sget (nodes (graph self')) n = sget (nodes (graph self)) n) /\
  (forall x y, has_edge (graph self) x y = true -> has_edge (graph self') x y = true) /\
  (forall dep, In dep dependencies ->
     has_node (graph self') (dep_id dep) = true /\
     has_edge (graph self') file_id (dep_id dep) = true) /\
  (forall x y, has_edge (graph self') x y = true ->
     has_edge (graph self) x y = true \/
     (x = file_id /\ exists dep, In dep dependencies /\ y = dep_id dep)) /\
  (wf (graph self) -> wf (graph self')).
Proof.
  induction dependencies as [|[dep_type dep_name] rest IH]; intros self tick Hfile.
  - simpl. split; [auto|]. split; [auto|]. split; [intros dep []|]. split; auto.
  - cbn [add_dependencies].
    destruct (add_dependency_step self (env_at times hash tick)
                (env_at times hash
                   (if has_node (graph self) (dep_type ++ "::" ++ dep_name)
                    then tick else S tick))
                file_id dep_type dep_name Hfile)
      as (Hf1 & Hd1 & Hg2 & Hn2 & Hsame & Hedges).
    set (d := (dep_type ++ "::" ++ dep_name)%string) in *.
    destruct (has_node (graph self) d) eqn:Hd.
    + (* the dependency node exists *)
      cbv iota beta in *.
      set (self2 := snd (add_edge self (env_at times hash tick) file_id d "dependency"
                           (VNum 1) (Some [("type", VStr dep_type)]))) in *.
      assert (Hfile2 : has_node (graph self2) file_id = true)
        by (rewrite (has_node_nodes _ _ _ Hn2); exact Hfile).
      cbv zeta.
      destruct (IH self2 (if has_node (graph self) file_id && has_node (graph self) d
                          then S tick else tick) Hfile2)
        as (A & B & C & D & E).
      split; [|split; [|split; [|split]]].
      * intros n Hn. destruct (A n) as [A1 A2];
          [rewrite (has_node_nodes _ _ _ Hn2); exact Hn|].
        split; [exact A1|]. rewrite A2, Hn2. reflexivity.
      * intros x y Hxy. apply B. rewrite Hg2, has_edge_nx_add_edge, Hxy. apply orb_true_r.
      * intros dep [<-|Hin]; [|exact (C dep Hin)]. unfold dep_id. simpl. fold d.
        split.
        -- apply A. rewrite (has_node_nodes _ _ _ Hn2). exact Hd.
        -- apply B. rewrite Hg2, has_edge_nx_add_edge, pair_eqb_refl. reflexivity.
      * intros x y Hxy. destruct (D x y Hxy) as [H|(-> & dep & Hin & ->)].
        -- rewrite Hg2, has_edge_nx_add_edge in H. apply orb_true_iff in H.
           destruct H as [H|H]; [|auto]. apply pair_eqb_eq in H. injection H as <- <-.
           right. split; [reflexivity|]. exists (dep_type, dep_name). split; [left|]; reflexivity.
        -- right. split; [reflexivity|]. exists dep. split; [right; exact Hin | reflexivity].
      * intros Hwf. apply E. rewrite Hg2. apply wf_nx_add_edge; assumption.
    + (* the dependency node is created *)
      cbv iota beta in *.
      set (self1 := snd (add_node self (env_at times hash tick) d dep_type dep_name
                           None None)) in *.
      set (self2 := snd (add_edge self1 (env_at times hash (S tick)) file_id d "dependency"
                           (VNum 1) (Some [("type", VStr dep_type)]))) in *.
      assert (Hfile2 : has_node (graph self2) file_id = true)
        by (rewrite (has_node_nodes _ _ _ Hn2); exact Hf1).
      cbv zeta.
      destruct (IH self2 (if has_node (graph self1) file_id && has_node (graph self1) d
                          then S (S tick) else S tick) Hfile2)
        as (A & B & C & D & E).
      destruct (add_node_keeps self (env_at times hash tick) d dep_type dep_name None None)
        as (K1 & K2 & K3 & K4). fold self1 in K1, K2, K3, K4.
      split; [|split; [|split; [|split]]].
      * intros n Hn. destruct (A n) as [A1 A2];
          [rewrite (has_node_nodes _ _ _ Hn2); apply K2; exact Hn|].
        split; [exact A1|]. rewrite A2, Hn2. apply Hsame. exact Hn.
      * intros x y Hxy. apply B. rewrite Hg2, has_edge_nx_add_edge.
        unfold has_edge in *. rewrite Hedges, Hxy. apply orb_true_r.
      * intros dep [<-|Hin]; [|exact (C dep Hin)]. unfold dep_id. simpl. fold d.
        split.
        -- apply A. rewrite (has_node_nodes _ _ _ Hn2). exact Hd1.
        -- apply B. rewrite Hg2, has_edge_nx_add_edge, pair_eqb_refl. reflexivity.
      * intros x y Hxy. destruct (D x y Hxy) as [H|(-> & dep & Hin & ->)].
        -- rewrite Hg2, has_edge_nx_add_edge in H. apply orb_true_iff in H.
           destruct H as [H|H].
           ++ apply pair_eqb_eq in H. injection H as <- <-.
              right. split; [reflexivity|]. exists (dep_type, dep_name).
              split; [left|]; reflexivity.
           ++ left. unfold has_edge in *. rewrite <- Hedges. exact H.
        -- right. split; [reflexivity|]. exists dep. split; [right; exact Hin | reflexivity].
      * intros Hwf. apply E. rewrite Hg2. apply wf_nx_add_edge; [assumption..|].
        unfold self1. rewrite add_node_graph. apply wf_nx_add_node. exact Hwf.
Qed.

End GraphFacts.
Import GraphFacts.

(** ** Facts about query_neighbors *)

Module NeighborFacts.

Lemma py_lt_int (n m : Z) : py_lt n (VInt m) = Ok (n <? m).
Proof.
  unfold py_lt, Qlt_bool. simpl. rewrite Qle_bool_inject, Z.ltb_antisym. reflexivity.
Qed.

(** *** The depths recorded by the loop, on any graph *)

Lemma append_at_ok md acc d info :
  1 <= d <= Z.max 1 md -> nb_depth info = d ->
  Forall (depth_entry_ok md) acc -> Forall (depth_entry_ok md) (append_at acc d info).
Proof.
  intros Hd Hinfo Hacc. apply Forall_forall. intros [d' l'] Hin.
  unfold append_at in Hin. apply In_dict_set in Hin.
  rewrite Forall_forall in Hacc.
  destruct Hin as [Hin|[-> Hk]]; [exact (Hacc _ Hin)|].
  assert (d' = d) as -> by (destruct Hk as [->|E]; [reflexivity | apply Z.eqb_eq; exact E]).
  split; [exact Hd|]. simpl.
  destruct (zget acc d) as [l|] eqn:E.
  - apply Forall_app. split; [|repeat constructor; exact Hinfo].
    unfold zget in E. apply dict_get_In in E. destruct E as (k0 & Hin & Hk0).
    apply Z.eqb_eq in Hk0. subst k0. exact (proj2 (Hacc _ Hin)).
  - repeat constructor. exact Hinfo.
Qed.

Lemma qn_for_depths G et md c d nbrs : forall acc queue acc' queue',
  qn_for G et (VInt md) c d nbrs acc queue = Ok (acc', queue') ->
  1 <= d + 1 <= Z.max 1 md ->
  Forall (depth_entry_ok md) acc ->
  Forall (depth_entry_ok md) acc' /\
  exists new, queue' = queue ++ new /\
    Forall (fun x : string * Z => snd x = d + 1 /\ d + 1 < md) new.
Proof.
  induction nbrs as [|n nbrs IH]; intros acc queue acc' queue'; cbn [qn_for].
  - intros [= <- <-] _ Hacc. split; [exact Hacc|]. exists []. rewrite app_nil_r. auto.
  - unfold bind. destruct (edge_data G c n) as [ed|]; [|discriminate].
    destruct (filtered_out et ed); [apply IH|].
    destruct (node_data G n) as [nd|]; [|discriminate].
    destruct (py_slice _ _) as [preview|]; [|discriminate].
    rewrite py_lt_int. intros Hrun Hd Hacc.
    destruct (IH _ _ _ _ Hrun Hd) as (Hacc' & new & -> & Hnew).
    { apply append_at_ok; [exact Hd | reflexivity | exact Hacc]. }
    split; [exact Hacc'|].
    destruct (Z.ltb_spec (d + 1) md) as [Hlt|_].
    + exists ((n, d + 1) :: new). rewrite <- app_assoc. split; [reflexivity|].
      constructor; [simpl; auto | exact Hnew].
    + exists new. auto.
Qed.

Lemma qn_loop_depths G et md fuel : forall queue visited acc out,
  qn_loop fuel G et (VInt md) queue visited acc = Some (Ok out) ->
  Forall (fun x : string * Z => snd x = 0 \/ (1 <= snd x /\ snd x < md)) queue ->
  Forall (depth_entry_ok md) acc ->
  Forall (depth_entry_ok md) out.
Proof.
  induction fuel as [|fuel IH]; intros queue visited acc out.
  - destruct queue as [|[c d] rest]; simpl; [|discriminate].
    intros [= <-] _ Hacc. exact Hacc.
  - destruct queue as [|[c d] rest]; cbn [qn_loop]; [intros [= <-] _ Hacc; exact Hacc|].
    rewrite py_gt_int. intros Hrun HQ Hacc.
    inversion HQ as [|x l Hd Hrest]; subst. simpl in Hd.
    destruct ((md <? d) || existsb (String.eqb c) visited) eqn:Eskip.
    + exact (IH _ _ _ _ Hrun Hrest Hacc).
    + apply orb_false_iff in Eskip. destruct Eskip as [Hle _]. apply Z.ltb_ge in Hle.
      unfold bind in Hrun. destruct (neighbors G c) as [nbrs|]; [|discriminate].
      destruct (qn_for G et (VInt md) c d nbrs acc rest) as [[acc1 queue1]|] eqn:Ef;
        [|discriminate].
      destruct (qn_for_depths _ _ _ _ _ _ _ _ _ _ Ef) as (Hacc1 & new & -> & Hnew);
        [lia | exact Hacc |].
      apply (IH _ _ _ _ Hrun); [|exact Hacc1].
      apply Forall_app. split; [exact Hrest|].
      eapply Forall_impl; [|exact Hnew]. simpl. intros x [Hx Hlt]. right. lia.
Qed.

(** *** The loop on a well-formed graph whose nodes carry strings *)

Section Typed.
Variable G : DiGraph.
Hypothesis Hwf : wf G.
Hypothesis Hnodes : typed_nodes G.
Variables (et : option (list string)) (md : Z).

Lemma qn_for_typed c d nbrs : forall acc queue,
  incl nbrs (successors G c) ->
  qn_for G et (VInt md) c d nbrs acc queue
  = Ok (fold_left (fun a n => append_at a (d + 1) (info_for G c d n))
          (passing G et c nbrs) acc,
        queue ++ (if d + 1 <? md
                  then map (fun n => (n, d + 1)) (passing G et c nbrs)
                  else [])).
Proof.
  induction nbrs as [|n nbrs IH]; intros acc queue Hincl; cbn [qn_for].
  - simpl. destruct (d + 1 <? md); rewrite app_nil_r; reflexivity.
  - assert (Hn : In n (successors G c)) by (apply Hincl; left; reflexivity).
    assert (Hrest : incl nbrs (successors G c)) by (intros x Hx; apply Hincl; right; exact Hx).
    pose proof (wf_successor _ _ _ Hwf Hn) as Hnode.
    apply successors_In in Hn. unfold has_edge, dict_mem in Hn.
    unfold edge_data, passing. cbn [filter].
    destruct (dict_get pair_eqb (edges G) (c, n)) as [ed|] eqn:Eed; [|discriminate].
    fold (passing G et c nbrs). cbn [bind].
    destruct (filtered_out et ed); cbn [negb]; [apply IH; exact Hrest|].
    apply has_node_sget in Hnode. destruct Hnode as (nd & Hnd).
    destruct (Hnodes _ _ Hnd) as (ty & content & Hty & Hcontent).
    unfold node_data, getitem. rewrite Hnd. cbn [bind].
    assert (Econtent : get_default nd "content" (VStr "") = VStr content)
      by (unfold get_default; rewrite Hcontent; reflexivity).
    assert (Hinfo : info_for G c d n
              = {| nb_node_id := n;
                   nb_node_type := get_default nd "type" (VStr "unknown");
                   nb_edge_type := get_default ed "type" (VStr "unknown");
                   nb_weight := get_default ed "weight" (VNum 0);
                   nb_depth := d + 1;
                   nb_content_preview := VStr (str_prefix 100 content) |}).
    { assert (E1 : get_default (nodes G) n [] = nd)
        by (unfold get_default; rewrite Hnd; reflexivity).
      unfold info_for. rewrite Eed, E1, Econtent. reflexivity. }
    rewrite Econtent. cbn [py_slice bind].
    rewrite py_lt_int. cbn [bind]. rewrite IH by exact Hrest.
    cbn [fold_left]. rewrite Hinfo. f_equal. f_equal.
    destruct (d + 1 <? md); [|reflexivity].
    cbn [map]. rewrite <- app_assoc. reflexivity.
Qed.

Lemma zget_append_at_other acc d info d' :
  d <> d' -> zget (append_at acc d info) d' = zget acc d'.
Proof.
  intros Hne. unfold append_at, zget.
  apply (dict_get_set_other Z.eqb Z.eqb_sym).
  - intros a b c H1 H2. apply Z.eqb_eq in H1, H2. apply Z.eqb_eq. congruence.
  - apply Z.eqb_neq. exact Hne.
Qed.

Lemma zget_append_at_same acc d info :
  zget (append_at acc d info) d
  = Some (match zget acc d with
          | Some l => l ++ [info]
          | None => [info]
          end).
Proof.
  unfold append_at, zget.
  apply (dict_get_set_same Z.eqb Z.eqb_sym).
  - intros a b c H1 H2. apply Z.eqb_eq in H1, H2. apply Z.eqb_eq. congruence.
  - apply Z.eqb_refl.
Qed.

Lemma zget_fold_other (f : string -> neighbor_info) d d' ns : forall acc,
  d <> d' ->
  zget (fold_left (fun a n => append_at a d (f n)) ns acc) d' = zget acc d'.
Proof.
  induction ns as [|n ns IH]; intros acc Hne; simpl; [reflexivity|].
  rewrite IH by exact Hne. apply zget_append_at_other. exact Hne.
Qed.

Lemma zget_fold_same (f : string -> neighbor_info) d ns : forall acc,
  ns <> [] ->
  zget (fold_left (fun a n => append_at a d (f n)) ns acc) d
  = Some (match zget acc d with
          | Some l => l ++ map f ns
          | None => map f ns
          end).
Proof.
  induction ns as [|n ns IH]; intros acc Hne; [contradiction|].
  simpl. destruct ns as [|n' ns].
  - simpl. apply zget_append_at_same.
  - rewrite IH by discriminate. rewrite zget_append_at_same.
    destruct (zget acc d); [rewrite <- app_assoc|]; reflexivity.
Qed.

(** From a queue of nodes the loop ends with the mapping it built, and
    entries queued at depth 1 or deeper leave the list under depth 1 as
    it is. *)
Lemma qn_loop_typed fuel : forall queue visited acc,
  (length queue + pending G visited <= fuel)%nat ->
  Forall (fun x : string * Z => has_node G (fst x) = true) queue ->
  exists out,
    qn_loop fuel G et (VInt md) queue visited acc = Some (Ok out) /\
    (Forall (fun x : string * Z => 1 <= snd x) queue -> zget out 1 = zget acc 1).
Proof.
  induction fuel as [|fuel IH]; intros queue visited acc Hfuel HQ.
  - destruct queue as [|x rest]; simpl in Hfuel; [|lia]. exists acc. simpl. auto.
  - destruct queue as [|[c d] rest]; [exists acc; simpl; auto|].
    cbn [qn_loop]. rewrite py_gt_int.
    inversion HQ as [|x l Hc Hrest]; subst. simpl in Hc, Hfuel.
    destruct ((md <? d) || existsb (String.eqb c) visited) eqn:Eskip.
    + destruct (IH rest visited acc ltac:(lia) Hrest) as (out & Hrun & Hone).
      exists out. split; [exact Hrun|]. intros Hd. apply Hone.
      inversion Hd; assumption.
    + apply orb_false_iff in Eskip. destruct Eskip as [_ Hnew].
      unfold neighbors. rewrite Hc. cbn [bind].
      rewrite qn_for_typed by apply incl_refl.
      set (kept := passing G et c (successors G c)).
      assert (Hkept : incl kept (successors G c)).
      { intros x Hx. apply filter_In in Hx. exact (proj1 Hx). }
      pose proof (NGMFacts.pending_visit G visited c Hnew) as Hpend.
      assert (Hlen : (length kept <= length (successors G c))%nat).
      { unfold kept, passing. apply filter_length_le. }
      destruct (IH (rest ++ (if d + 1 <? md then map (fun n => (n, d + 1)) kept else []))
                  (c :: visited)
                  (fold_left (fun a n => append_at a (d + 1) (info_for G c d n)) kept acc))
        as (out & Hrun & Hone).
      * rewrite length_app. destruct (d + 1 <? md); [rewrite length_map|]; simpl; lia.
      * apply Forall_app. split; [exact Hrest|].
        destruct (d + 1 <? md); [|constructor].
        apply Forall_forall. intros x Hx. apply in_map_iff in Hx.
        destruct Hx as (n & <- & Hn). simpl.
        exact (wf_successor _ _ _ Hwf (Hkept _ Hn)).
      * exists out. split; [exact Hrun|]. intros Hd.
        inversion Hd as [|x l Hd1 Hdrest]; subst. simpl in Hd1.
        rewrite Hone.
        -- apply zget_fold_other. lia.
        -- apply Forall_app. split; [exact Hdrest|].
           destruct (d + 1 <? md); [|constructor].
           apply Forall_forall. intros x Hx. apply in_map_iff in Hx.
           destruct Hx as (n & <- & _). simpl. lia.
Qed.

(** The whole loop from the start node. *)
Lemma qn_loop_start n :
  has_node G n = true -> 0 <= md ->
  exists out,
    qn_loop (walk_fuel G) G et (VInt md) [(n, 0)] [] [] = Some (Ok out) /\
    match zget out 1 with
    | Some l => l
    | None => []
    end = map (info_for G n 0) (passing G et n (successors G n)).
Proof.
  intros Hn Hmd. unfold walk_fuel. cbn [qn_loop]. rewrite py_gt_int.
  destruct (Z.ltb_spec md 0) as [Hlt|_]; [lia|]. cbn [orb existsb].
  unfold neighbors. rewrite Hn. cbn [bind].
  rewrite qn_for_typed by apply incl_refl. change (0 + 1) with 1. cbn [app].
  set (kept := passing G et n (successors G n)).
  assert (Hkept : incl kept (successors G n)).
  { intros x Hx. apply filter_In in Hx. exact (proj1 Hx). }
  assert (Hlen : (length kept <= length (successors G n))%nat).
  { unfold kept, passing. apply filter_length_le. }
  pose proof (NGMFacts.pending_visit G [] n eq_refl) as Hpend.
  rewrite NGMFacts.pending_nil in Hpend.
  set (queue := if 1 <? md then map (fun m : string => (m, 1)) kept else []).
  assert (Hqueue : Forall (fun x : string * Z => has_node G (fst x) = true /\ 1 <= snd x)
                     queue /\ (length queue <= length kept)%nat).
  { unfold queue. destruct (1 <? md); [|split; [constructor | simpl; lia]].
    rewrite length_map. split; [|lia].
    apply Forall_forall. intros x Hx. apply in_map_iff in Hx.
    destruct Hx as (m & <- & Hm). simpl.
    split; [exact (wf_successor _ _ _ Hwf (Hkept _ Hm)) | lia]. }
  destruct Hqueue as [Hqueue Hqlen].
  destruct (qn_loop_typed (length (edges G)) queue [n]
              (fold_left (fun a m => append_at a 1 (info_for G n 0 m)) kept []))
    as (out & Hrun & Hone).
  - lia.
  - eapply Forall_impl; [|exact Hqueue]. simpl. intros x Hx. exact (proj1 Hx).
  - exists out. split; [exact Hrun|]. rewrite Hone.
    + destruct kept as [|m kept'] eqn:Ek; [reflexivity|].
      rewrite zget_fold_same by discriminate. reflexivity.
    + eapply Forall_impl; [|exact Hqueue]. simpl. intros x Hx. exact (proj2 Hx).
Qed.

End Typed.

Lemma at_depth_map acc d :
  at_depth (map (fun dl : Z * list neighbor_info => (Depth (fst dl), snd dl)) acc) d
  = match zget acc d with
    | Some l => l
    | None => []
    end.
Proof.
  unfold at_depth, zget. induction acc as [|[d0 l0] acc IH]; simpl; [reflexivity|].
  destruct (d0 =? d); [reflexivity | exact IH].
Qed.

End NeighborFacts.

(** ** Facts about the breadth-first search and the pooled walk *)

Module BfsFacts.

Lemma chain_snoc G t n : forall p s,
  chain G s p t = true -> has_edge G t n = true -> chain G s (p ++ [n]) n = true.
Proof.
  induction p as [|x p IH]; intros s; simpl.
  - intros E%String.eqb_eq He. subst t. rewrite He, String.eqb_refl. reflexivity.
  - rewrite !andb_true_iff. intros [Hsx Hc] He. split; [exact Hsx|]. apply IH; assumption.
Qed.

Lemma is_path_snoc G s t n p :
  is_path G s t p = true -> has_edge G t n = true -> is_path G s n (p ++ [n]) = true.
Proof.
  destruct p as [|x p]; simpl; [discriminate|].
  rewrite !andb_true_iff. intros [Hx Hc] He. split; [exact Hx|].
  apply (chain_snoc G t); assumption.
Qed.

Lemma is_path_start G s : is_path G s s [s] = true.
Proof. simpl. rewrite String.eqb_refl. reflexivity. Qed.

(** *** The invariant of the search *)

Section Search.
Variables (G : DiGraph) (start goal_type : string) (ms : Z).
Hypothesis Hwf : wf G.

Lemma search_pass c d p rest visited results :
  bfs_inv G start goal_type ms ((c, d, p) :: rest, visited, results) ->
  (length results < 10)%nat ->
  ((ms <? d) || existsb (String.eqb c) visited = true \/ has_node G c = true) /\
  bfs_inv G start goal_type ms (bfs_step G start goal_type ms c d p rest visited results).
Proof.
  intros (HQ & HR & HND & _) Hlen.
  inversion HQ as [|x l (Hnode & Hpath & Hd & Hd1) Hrest]; subst. simpl in *.
  split; [right; exact Hnode|]. unfold bfs_step.
  destruct ((ms <? d) || existsb (String.eqb c) visited) eqn:Eskip.
  - repeat split; try assumption. lia.
  - apply orb_false_iff in Eskip. destruct Eskip as [Hbeyond Hnew].
    apply Z.ltb_ge in Hbeyond.
    split; [|split; [|split]].
    + rewrite bfs_for_app. apply Forall_app. split; [exact Hrest|].
      apply Forall_forall. intros x Hx. apply bfs_for_new in Hx.
      destruct Hx as (n & -> & Hn & _). unfold bfs_entry. simpl.
      split; [exact (wf_successor _ _ _ Hwf Hn)|].
      split; [apply (is_path_snoc G start c); [exact Hpath | apply successors_In; exact Hn]|].
      split; [rewrite length_app; simpl; lia|]. intros _. lia.
    + assert (Hold : Forall (fun r => bfs_hit G start goal_type ms r /\
                         existsb (String.eqb (node_id r)) (c :: visited) = true) results).
      { eapply Forall_impl; [|exact HR]. intros r [Hr Hv]. split; [exact Hr|].
        rewrite existsb_eqb_cons, Hv. apply orb_true_r. }
      destruct (node_is G c goal_type && negb (String.eqb c start)) eqn:Ehit; [|exact Hold].
      apply Forall_app. split; [exact Hold|]. constructor; [|constructor].
      apply andb_true_iff in Ehit. destruct Ehit as [Hty Hne].
      apply negb_true_iff, String.eqb_neq in Hne.
      split; [|simpl; rewrite String.eqb_refl; reflexivity].
      exists c, (p ++ [c]), d. specialize (Hd1 Hne). rewrite length_app. simpl.
      repeat split; auto; lia.
    + destruct (node_is G c goal_type && negb (String.eqb c start)); [|exact HND].
      rewrite map_app. simpl. apply NoDup_app; [exact HND | repeat constructor; auto |].
      intros x Hx [<-|[]]. apply in_map_iff in Hx. destruct Hx as (r & Hid & Hr).
      rewrite Forall_forall in HR. destruct (HR r Hr) as [_ Hv].
      rewrite Hid in Hv. congruence.
    + destruct (node_is G c goal_type && negb (String.eqb c start)); [|lia].
      rewrite length_app. simpl. lia.
Qed.

Lemma bfs_search_hits :
  has_node G start = true ->
  exists rs,
    _bfs_search G start goal_type (VInt ms) = Some (Ok rs) /\
    (length rs <= 10)%nat /\
    NoDup (map node_id rs) /\
    Forall (bfs_hit G start goal_type ms) rs.
Proof.
  intros Hstart. unfold _bfs_search.
  destruct (bfs_loop_rule (bfs_inv G start goal_type ms) G start goal_type ms search_pass
              (walk_fuel G) [(start, 0, [])] [] [])
    as (queue' & visited' & rs & Hrun & (_ & HR & HND & Hlen) & _).
  - rewrite NGMFacts.pending_nil. unfold walk_fuel. simpl. lia.
  - split; [|split; [constructor|split; [constructor|simpl; lia]]].
    constructor; [|constructor]. unfold bfs_entry. simpl.
    rewrite String.eqb_refl. repeat split; auto. congruence.
  - exists rs. split; [exact Hrun|]. split; [exact Hlen|]. split; [exact HND|].
    eapply Forall_impl; [|exact HR]. intros r [Hr _]. exact Hr.
Qed.

End Search.

(** *** Start nodes that are not in the graph *)

Lemma walk_from_known nx G goal_type max_steps start_nodes : forall results,
  walk_from nx G start_nodes goal_type max_steps results
  = walk_from nx G (filter (has_node G) start_nodes) goal_type max_steps results.
Proof.
  induction start_nodes as [|s rest IH]; intros results; [reflexivity|].
  cbn [walk_from filter]. destruct (has_node G s) eqn:Hs; cbn [negb].
  - cbn [walk_from]. rewrite Hs. cbn [negb].
    destruct (_bfs_search G s goal_type max_steps) as [[bfs|]|]; [|reflexivity..].
    destruct (_ <- _ ;; _)%py; [apply IH | reflexivity].
  - apply IH.
Qed.

(** *** Deduplication *)

Lemma dedupe_fresh l : forall seen r,
  In r (dedupe seen l) -> existsb (String.eqb (node_id r)) seen = false.
Proof.
  induction l as [|x l IH]; intros seen r; simpl; [contradiction|].
  destruct (existsb (String.eqb (node_id x)) seen) eqn:E; [apply IH|].
  intros [<-|Hr]; [exact E|].
  apply IH in Hr. simpl in Hr. apply orb_false_iff in Hr. exact (proj2 Hr).
Qed.

Lemma dedupe_NoDup l : forall seen, NoDup (map node_id (dedupe seen l)).
Proof.
  induction l as [|x l IH]; intros seen; simpl; [constructor|].
  destruct (existsb (String.eqb (node_id x)) seen); [apply IH|].
  simpl. constructor; [|apply IH].
  intros Hin. apply in_map_iff in Hin. destruct Hin as (r & Hid & Hr).
  apply dedupe_fresh in Hr. simpl in Hr. rewrite Hid, String.eqb_refl in Hr. discriminate.
Qed.

End BfsFacts.
Import NeighborFacts BfsFacts.

(** ** Further properties of the graph memory *)

Module GraphProps.

Lemma built_memory_path : built memory_path.
Proof.
  unfold memory_path, with_edge, with_node.
  apply built_add_edge, built_add_edge, built_add_node, built_add_node, built_add_node.
  exact built_empty.
Qed.

Lemma sget_absent {V} (l : list (string * V)) key :
  ~ In key (map fst l) -> sget (rev l) key = None.
Proof.
  intros Hnot. unfold sget. apply dict_get_None. intros k0 Hin.
  rewrite map_rev in Hin. apply in_rev in Hin.
  apply String.eqb_neq. intros ->. contradiction.
Qed.

(** X1.  In every memory built from the empty graph by [add_node] and
    [add_edge], both end points of every edge are nodes of the graph
    ([add_edge] never creates a node), every node carries a string under
    [type] and under [content], and every edge carries a string under
    [type] and a value under [weight]. *)
Theorem built_memory_invariant (self : NeuralGraphMemory) :
  built self ->
  (forall u v, has_edge (graph self) u v = true ->
     has_node (graph self) u = true /\ has_node (graph self) v = true) /\
  (forall n, has_node (graph self) n = true ->
     exists nd node_type content,
       node_data (graph self) n = Ok nd /\
       sget nd "type" = Some (VStr node_type) /\
       sget nd "content" = Some (VStr content)) /\
  (forall u v, has_edge (graph self) u v = true ->
     exists ed edge_type weight,
       edge_data (graph self) u v = Ok ed /\
       sget ed "type" = Some (VStr edge_type) /\
       sget ed "weight" = Some weight).
Proof.
  intros Hb. destruct (built_invariant self Hb) as (Hwf & Hn & He).
  split; [|split].
  - intros u v Huv. apply has_edge_In in Huv. destruct Huv as (a & Hin).
    exact (Hwf u v a Hin).
  - intros n Hnode. apply has_node_sget in Hnode. destruct Hnode as (nd & Hnd).
    destruct (Hn n nd Hnd) as (ty & content & A & B).
    exists nd, ty, content. unfold node_data, getitem. rewrite Hnd. auto.
  - intros u v Huv. unfold has_edge, dict_mem in Huv. unfold edge_data.
    destruct (dict_get pair_eqb (edges (graph self)) (u, v)) as [ed|] eqn:E; [|discriminate].
    destruct (He u v ed E) as (ty & w & A & B). exists ed, ty, w. auto.
Qed.

(** X1, on the graph start -> mid -> goal. *)
Lemma built_memory_invariant_witness :
  (forall u v, has_edge (graph memory_path) u v = true ->
     has_node (graph memory_path) u = true /\ has_node (graph memory_path) v = true) /\
  (forall n, has_node (graph memory_path) n = true ->
     exists nd node_type content,
       node_data (graph memory_path) n = Ok nd /\
       sget nd "type" = Some (VStr node_type) /\
       sget nd "content" = Some (VStr content)) /\
  (forall u v, has_edge (graph memory_path) u v = true ->
     exists ed edge_type weight,
       edge_data (graph memory_path) u v = Ok ed /\
       sget ed "type" = Some (VStr edge_type) /\
       sget ed "weight" = Some weight).
Proof.
  apply (built_memory_invariant memory_path).
  unfold memory_path, with_edge, with_node.
  apply built_add_edge, built_add_edge, built_add_node, built_add_node, built_add_node.
  exact built_empty.
Defined.

(** X2.  Between two nodes of the graph and with a numeric weight,
    [add_edge] returns [True]; afterwards the edge is in the graph with
    the given [type] and [weight] and the time of the call, the nodes
    and every other edge are as before, and the number of edges has
    grown by one unless the ordered pair was already joined, in which
    case the edge was overwritten: the graph holds one edge per ordered
    pair. *)
Theorem add_edge_stores_one_edge_per_pair
    (self : NeuralGraphMemory) (e : env) (source target edge_type : string)
    (weight : value) (metadata : option attrs) (q : Q) :
  has_node (graph self) source = true -> has_node (graph self) target = true ->
  as_number weight = Ok q ->
  let '(r, self') := add_edge self e source target edge_type weight metadata in
  r = Ok true /\
  nodes (graph self') = nodes (graph self) /\
  (exists ed,
     edge_data (graph self') source target = Ok ed /\
     sget ed "type" = Some (VStr edge_type) /\
     sget ed "weight" = Some weight /\
     sget ed "created_at" = Some (VStr (now e))) /\
  (forall x y, (x, y) <> (source, target) ->
     edge_data (graph self') x y = edge_data (graph self) x y) /\
  number_of_edges (graph self')
  = if has_edge (graph self) source target
    then number_of_edges (graph self)
    else S (number_of_edges (graph self)).
Proof.
  intros Hs Ht Hw. rewrite (add_edge_present _ _ _ _ _ _ _ Hs Ht). cbn [graph].
  split; [destruct weight; try discriminate; reflexivity|].
  split; [apply nodes_nx_add_edge; assumption|]. split; [|split].
  - unfold edge_data. rewrite edges_nx_add_edge, pair_eqb_refl. eexists.
    split; [reflexivity|].
    destruct (edge_attrs_written e edge_type weight metadata) as (A & B & C).
    rewrite !NGMFacts.sget_dict_update, A, B, C. auto.
  - intros x y Hne. unfold edge_data. rewrite edges_nx_add_edge.
    destruct (pair_eqb (source, target) (x, y)) eqn:E; [|reflexivity].
    apply pair_eqb_eq in E. congruence.
  - apply number_of_edges_nx_add_edge.
Qed.

(** X2, adding the edge start -> goal to the graph start -> mid -> goal. *)
Lemma add_edge_stores_one_edge_per_pair_witness :
  let '(r, self') :=
    add_edge memory_path env1 "start" "goal" "similarity" (VNum (7 # 10)) None in
  r = Ok true /\
  nodes (graph self') = nodes (graph memory_path) /\
  (exists ed,
     edge_data (graph self') "start" "goal" = Ok ed /\
     sget ed "type" = Some (VStr "similarity") /\
     sget ed "weight" = Some (VNum (7 # 10)) /\
     sget ed "created_at" = Some (VStr (now env1))) /\
  (forall x y, (x, y) <> ("start", "goal") ->
     edge_data (graph self') x y = edge_data (graph memory_path) x y) /\
  number_of_edges (graph self')
  = if has_edge (graph memory_path) "start" "goal"
    then number_of_edges (graph memory_path)
    else S (number_of_edges (graph memory_path)).
Proof.
  apply (add_edge_stores_one_edge_per_pair memory_path env1 "start" "goal" "similarity"
           (VNum (7 # 10)) None (7 # 10)); reflexivity.
Defined.

(** X3.  Between two nodes of the graph and with a weight that is not a
    number, [add_edge] returns [False], and yet the edge is in the graph
    afterwards, with that weight: the message that formats the weight is
    built after the edge was added. *)
Theorem add_edge_false_after_adding
    (self : NeuralGraphMemory) (e : env) (source target edge_type : string)
    (weight : value) (metadata : option attrs) (x : exn) :
  has_node (graph self) source = true -> has_node (graph self) target = true ->
  as_number weight = Raise x ->
  let '(r, self') := add_edge self e source target edge_type weight metadata in
  r = Ok false /\
  has_edge (graph self') source target = true /\
  exists ed,
    edge_data (graph self') source target = Ok ed /\ sget ed "weight" = Some weight.
Proof.
  intros Hs Ht Hw. rewrite (add_edge_present _ _ _ _ _ _ _ Hs Ht). cbn [graph].
  split; [destruct weight; try discriminate; reflexivity|]. split.
  - rewrite has_edge_nx_add_edge, pair_eqb_refl. reflexivity.
  - unfold edge_data. rewrite edges_nx_add_edge, pair_eqb_refl. eexists.
    split; [reflexivity|].
    destruct (edge_attrs_written e edge_type weight metadata) as (_ & B & _).
    rewrite NGMFacts.sget_dict_update, B. reflexivity.
Qed.

(** X3, with the weight [None] on the graph start -> mid -> goal. *)
Lemma add_edge_false_after_adding_witness :
  let '(r, self') := add_edge memory_path env1 "start" "goal" "similarity" VNone None in
  r = Ok false /\
  has_edge (graph self') "start" "goal" = true /\
  exists ed,
    edge_data (graph self') "start" "goal" = Ok ed /\ sget ed "weight" = Some VNone.
Proof.
  apply (add_edge_false_after_adding memory_path env1 "start" "goal" "similarity"
           VNone None (TypeError "unsupported operand type(s)")); reflexivity.
Defined.

(** X4.  Adding a node whose id is already in the graph merges the new
    attributes into the old ones: an attribute the call does not write
    keeps its value.  So when the new [node_type] has no entry in the
    registry of node types, the node gets the new [type] and keeps the
    [color] and [shape] of its previous type. *)
Theorem add_node_again_merges_attributes
    (self : NeuralGraphMemory) (e : env) (node_id node_type content : string)
    (metadata : option attrs) (embedding : option (list Q)) (nd : attrs) :
  sget (nodes (graph self)) node_id = Some nd ->
  exists nd',
    sget (nodes (graph (snd (add_node self e node_id node_type content metadata embedding))))
      node_id = Some nd' /\
    sget nd' "type" = Some (VStr node_type) /\
    (forall key, ~ In key (map fst (node_attrs e node_type content metadata)) ->
       sget nd' key = sget nd key) /\
    (sget node_types node_type = None ->
       sget nd' "color" = sget nd "color" /\ sget nd' "shape" = sget nd "shape").
Proof.
  intros Hnd. rewrite add_node_graph, nodes_nx_add_node, String.eqb_refl.
  eexists. split; [reflexivity|].
  assert (Hold : get_default (nodes (graph self)) node_id [] = nd)
    by (unfold get_default; rewrite Hnd; reflexivity).
  rewrite Hold.
  destruct (NGMFacts.node_attrs_written e node_type content metadata) as (A & _).
  split; [rewrite NGMFacts.sget_dict_update, A; reflexivity|]. split.
  - intros key Hkey. rewrite NGMFacts.sget_dict_update, (sget_absent _ _ Hkey). reflexivity.
  - intros Hreg. unfold node_attrs. rewrite Hreg.
    rewrite !NGMFacts.sget_dict_update. split; reflexivity.
Qed.

(** X4: the function node "s" is added again as a node of the
    unregistered type "note". *)
Lemma add_node_again_merges_attributes_witness :
  exists nd',
    sget (nodes (graph (snd (add_node memory_s env1 "s" "note" "remember" None None))))
      "s" = Some nd' /\
    sget nd' "type" = Some (VStr "note") /\
    (forall key, ~ In key (map fst (node_attrs env1 "note" "remember" None)) ->
       sget nd' key = sget (node_attrs env0 "function" "def s(): pass" None) key) /\
    (sget node_types "note" = None ->
       sget nd' "color" = sget (node_attrs env0 "function" "def s(): pass" None) "color" /\
       sget nd' "shape" = sget (node_attrs env0 "function" "def s(): pass" None) "shape").
Proof.
  apply (add_node_again_merges_attributes memory_s env1 "s" "note" "remember" None None
           (node_attrs env0 "function" "def s(): pass" None)).
  reflexivity.
Defined.

(** X5.  [add_code_file] returns the id ["file::" + file_path]; after the
    call the file is a node of type [document] with the given content,
    and for every dependency the analysis found, the node
    [dep_type::dep_name] is in the graph and an edge leads from the file
    to it.  No node is lost, a node that was in the graph other than the
    file itself keeps its attributes (a known dependency is not
    overwritten), no edge is lost, and every edge that is new starts at
    the file. *)
Theorem add_code_file_links_dependencies
    (analyze : string -> string -> string -> list (string * string))
    (self : NeuralGraphMemory) (times : nat -> string) (hash : string -> Z)
    (file_path content language : string) :
  let file_id := ("file::" ++ file_path)%string in
  let '(r, self') := add_code_file analyze self times hash file_path content language in
  r = Ok file_id /\
  (exists nd,
     node_data (graph self') file_id = Ok nd /\
     sget nd "type" = Some (VStr "document") /\
     sget nd "content" = Some (VStr content)) /\
  (forall dep, In dep (analyze file_path content language) ->
     has_node (graph self') (dep_id dep) = true /\
     has_edge (graph self') file_id (dep_id dep) = true) /\
  (forall n, has_node (graph self) n = true ->
     has_node (graph self') n = true /\
     (n <> file_id -> node_data (graph self') n = node_data (graph self) n)) /\
  (forall x y, has_edge (graph self) x y = true -> has_edge (graph self') x y = true) /\
  (forall x y, has_edge (graph self') x y = true -> has_edge (graph self) x y = false ->
     x = file_id).
Proof.
  intros file_id. unfold add_code_file, add_code_file_body. cbn [try_except].
  fold file_id.
  set (self1 := snd (add_node self (env_at times hash 0) file_id "document" content
                       (Some (file_metadata file_path content language)) None)).
  destruct (add_node_keeps self (env_at times hash 0) file_id "document" content
              (Some (file_metadata file_path content language)) None)
    as (K1 & K2 & K3 & K4). fold self1 in K1, K2, K3, K4.
  destruct (add_dependencies_spec times hash file_id (analyze file_path content language)
              self1 1%nat K1) as (A & B & C & D & _).
  split; [reflexivity|]. split; [|split; [exact C|split; [|split]]].
  - destruct (A file_id K1) as [_ A2]. unfold node_data, getitem. rewrite A2.
    unfold self1. rewrite add_node_graph, nodes_nx_add_node, String.eqb_refl.
    eexists. split; [reflexivity|].
    destruct (NGMFacts.node_attrs_written (env_at times hash 0) "document" content
                (Some (file_metadata file_path content language))) as (T & Ct & _).
    rewrite !NGMFacts.sget_dict_update, T, Ct. auto.
  - intros n Hn. destruct (A n (K2 n Hn)) as [A1 A2]. split; [exact A1|].
    intros Hne. unfold node_data, getitem. rewrite A2, K3 by exact Hne. reflexivity.
  - intros x y Hxy. apply B. unfold has_edge in *. rewrite K4. exact Hxy.
  - intros x y Hxy Hold. destruct (D x y Hxy) as [H|[H _]]; [|exact H].
    unfold has_edge in *. rewrite K4 in H. congruence.
Qed.

(** X6.  For an integer [max_depth], [query_neighbors] returns a mapping
    that is either [{"neighbors": []}] or has depths as keys, each
    between 1 and [max(1, max_depth)], with every item under a key
    carrying that key as its [depth].  For a node of the graph and a
    negative [max_depth] the mapping is empty. *)
Theorem query_neighbors_depth_keys
    (self : NeuralGraphMemory) (node_id : string) (max_depth : Z)
    (edge_types : option (list string)) :
  exists r,
    query_neighbors self node_id (VInt max_depth) edge_types = Some (Ok r) /\
    (r = not_found \/
     Forall (fun entry =>
               exists d, fst entry = Depth d /\ 1 <= d <= Z.max 1 max_depth /\
                 Forall (fun info => nb_depth info = d) (snd entry)) r) /\
    (has_node (graph self) node_id = true -> max_depth < 0 -> r = []).
Proof.
  destruct (NGMFacts.query_neighbors_returns self node_id (VInt max_depth) edge_types)
    as [r Hr].
  exists r. split; [exact Hr|]. revert Hr. unfold query_neighbors.
  destruct (has_node (graph self) node_id) eqn:Hn; cbn [negb];
    [|intros [= <-]; split; [auto | discriminate]].
  destruct (qn_loop _ _ _ _ _ _ _) as [[acc|x]|] eqn:Eloop; cbn [bind try_except];
    [| |discriminate].
  - intros [= <-]. split.
    + right. apply Forall_map.
      pose proof (qn_loop_depths _ _ _ _ _ _ _ _ Eloop) as Hacc.
      eapply Forall_impl; [|apply Hacc; repeat constructor; simpl; auto].
      intros [d l] [Hd Hl]. exists d. auto.
    + intros _ Hneg. unfold walk_fuel in Eloop. cbn [qn_loop] in Eloop.
      rewrite py_gt_int in Eloop.
      destruct (Z.ltb_spec max_depth 0) as [_|Hge]; [|lia].
      cbn [orb] in Eloop. destruct (length (edges (graph self))); simpl in Eloop;
        injection Eloop as <-; reflexivity.
  - intros [= <-]. split; [auto|]. intros _ Hneg.
    unfold walk_fuel in Eloop. cbn [qn_loop] in Eloop. rewrite py_gt_int in Eloop.
    destruct (Z.ltb_spec max_depth 0) as [_|Hge]; [|lia].
    cbn [orb] in Eloop. destruct (length (edges (graph self))); simpl in Eloop;
      discriminate.
Qed.

(** X7.  In a memory built by [add_node] and [add_edge], for a node of
    the graph and an integer [max_depth >= 0], [query_neighbors] does not
    fall back to [{"neighbors": []}]: it returns a mapping that under
    depth 1 lists exactly the successors of the node whose edge passes
    the filter, in the order the edges were added, each with the type of
    the neighbour, the type and weight of the edge, depth 1 and the
    first 100 characters of the content.  So [max_depth = 0] lists the
    direct neighbours as [max_depth = 1] does. *)
Theorem query_neighbors_lists_successors
    (self : NeuralGraphMemory) (node_id : string) (max_depth : Z)
    (edge_types : option (list string)) :
  built self -> has_node (graph self) node_id = true -> 0 <= max_depth ->
  exists r,
    query_neighbors self node_id (VInt max_depth) edge_types = Some (Ok r) /\
    r <> not_found /\
    at_depth r 1
    = map (info_for (graph self) node_id 0)
        (passing (graph self) edge_types node_id (successors (graph self) node_id)).
Proof.
  intros Hb Hn Hmd. destruct (built_invariant self Hb) as (Hwf & Hnodes & _).
  destruct (qn_loop_start (graph self) Hwf Hnodes edge_types max_depth node_id Hn Hmd)
    as (out & Hrun & Hone).
  unfold query_neighbors. rewrite Hn, Hrun. cbn [negb bind try_except].
  eexists. split; [reflexivity|]. split.
  - destruct out as [|[d l] out]; discriminate.
  - rewrite at_depth_map. exact Hone.
Qed.

(** X7, on the graph start -> mid -> goal with [max_depth = 0]. *)
Lemma query_neighbors_lists_successors_witness :
  exists r,
    query_neighbors memory_path "start" (VInt 0) None = Some (Ok r) /\
    r <> not_found /\
    at_depth r 1
    = map (info_for (graph memory_path) "start" 0)
        (passing (graph memory_path) None "start" (successors (graph memory_path) "start")).
Proof.
  apply (query_neighbors_lists_successors memory_path "start" 0 None).
  - unfold memory_path, with_edge, with_node.
    apply built_add_edge, built_add_edge, built_add_node, built_add_node, built_add_node.
    exact built_empty.
  - reflexivity.
  - lia.
Defined.

(** X8.  After [add_edge] between two nodes of a built memory, whatever
    it returned, [query_neighbors] of the source without a filter and
    with an integer [max_depth >= 0] lists the target under depth 1,
    with the edge type and the weight that were given. *)
Theorem added_edge_is_a_listed_neighbor
    (self : NeuralGraphMemory) (e : env) (source target edge_type : string)
    (weight : value) (metadata : option attrs) (max_depth : Z) :
  built self ->
  has_node (graph self) source = true -> has_node (graph self) target = true ->
  0 <= max_depth ->
  let self' := snd (add_edge self e source target edge_type weight metadata) in
  exists r info,
    query_neighbors self' source (VInt max_depth) None = Some (Ok r) /\
    In info (at_depth r 1) /\
    nb_node_id info = target /\
    nb_edge_type info = VStr edge_type /\
    nb_weight info = weight /\
    nb_depth info = 1.
Proof.
  intros Hb Hs Ht Hmd self'.
  assert (Hb' : built self') by (apply built_add_edge; exact Hb).
  assert (Hg : graph self'
               = nx_add_edge (graph self) source target
                   (edge_attrs e edge_type weight metadata)).
  { unfold self'. rewrite (add_edge_present _ _ _ _ _ _ _ Hs Ht). reflexivity. }
  assert (Hs' : has_node (graph self') source = true).
  { rewrite Hg. unfold has_node. rewrite nodes_nx_add_edge by assumption. exact Hs. }
  destruct (built_invariant self' Hb') as (Hwf & Hnodes & _).
  destruct (qn_loop_start (graph self') Hwf Hnodes None max_depth source Hs' Hmd)
    as (out & Hrun & Hone).
  unfold query_neighbors. rewrite Hs', Hrun. cbn [negb bind try_except].
  eexists. exists (info_for (graph self') source 0 target).
  split; [reflexivity|]. rewrite at_depth_map, Hone. split.
  - apply in_map. unfold passing. apply filter_In. split; [|reflexivity].
    apply successors_In. rewrite Hg, has_edge_nx_add_edge, pair_eqb_refl. reflexivity.
  - unfold info_for. cbn [nb_node_id nb_edge_type nb_weight nb_depth].
    rewrite Hg, edges_nx_add_edge, pair_eqb_refl.
    destruct (edge_attrs_written e edge_type weight metadata) as (A & B & _).
    unfold get_default. rewrite !NGMFacts.sget_dict_update, A, B. auto.
Qed.

(** X8, adding the edge start -> goal to the graph start -> mid -> goal. *)
Lemma added_edge_is_a_listed_neighbor_witness :
  let self' := snd (add_edge memory_path env1 "start" "goal" "similarity"
                      (VNum (7 # 10)) None) in
  exists r info,
    query_neighbors self' "start" (VInt 2) None = Some (Ok r) /\
    In info (at_depth r 1) /\
    nb_node_id info = "goal" /\
    nb_edge_type info = VStr "similarity" /\
    nb_weight info = VNum (7 # 10) /\
    nb_depth info = 1.
Proof.
  apply (added_edge_is_a_listed_neighbor memory_path env1 "start" "goal" "similarity"
           (VNum (7 # 10)) None 2).
  - unfold memory_path, with_edge, with_node.
    apply built_add_edge, built_add_edge, built_add_node, built_add_node, built_add_node.
    exact built_empty.
  - reflexivity.
  - reflexivity.
  - lia.
Defined.

(** X9.  [reasoning_walk] ignores the start nodes that are not in the
    graph: the call returns what it returns for the start nodes that are
    in the graph, in the same order; with no start node in the graph it
    returns the empty list. *)
Theorem reasoning_walk_skips_unknown_start_nodes
    (nx : Networkx) (self : NeuralGraphMemory) (start_nodes : list string)
    (goal_type : string) (max_steps : value) :
  reasoning_walk nx self start_nodes goal_type max_steps
  = reasoning_walk nx self (filter (has_node (graph self)) start_nodes) goal_type max_steps
  /\
  (filter (has_node (graph self)) start_nodes = [] ->
   reasoning_walk nx self start_nodes goal_type max_steps = Some (Ok [])).
Proof.
  assert (E : reasoning_walk nx self start_nodes goal_type max_steps
              = reasoning_walk nx self (filter (has_node (graph self)) start_nodes)
                  goal_type max_steps).
  { unfold reasoning_walk. rewrite walk_from_known. reflexivity. }
  split; [exact E|]. intros Hnone. rewrite E, Hnone. reflexivity.
Qed.

(** X10.  Whatever the graph, the library and the arguments,
    [reasoning_walk] returns a list in which no two results have the same
    [node_id] and in which the results stand in descending order of
    [composite_score]. *)
Theorem reasoning_walk_results_are_ranked
    (nx : Networkx) (self : NeuralGraphMemory) (start_nodes : list string)
    (goal_type : string) (max_steps : value) :
  exists rs,
    reasoning_walk nx self start_nodes goal_type max_steps = Some (Ok rs) /\
    NoDup (map node_id rs) /\
    StronglySorted (fun a b => (composite_score b <= composite_score a)%Q) rs.
Proof.
  destruct (NGMFacts.reasoning_walk_returns nx self start_nodes goal_type max_steps)
    as [rs Hrs].
  exists rs. split; [exact Hrs|]. revert Hrs. unfold reasoning_walk.
  destruct (walk_from _ _ _ _ _ _) as [[results|x]|]; cbn [bind try_except];
    [| |discriminate].
  - intros [= <-]. split.
    + apply (Permutation_NoDup (l := map node_id (dedupe [] results))).
      * apply Permutation_map. symmetry. apply sorted_desc_perm.
      * apply dedupe_NoDup.
    + apply (sorted_desc_sorted composite_score).
  - intros [= <-]. split; constructor.
Qed.

(** X11.  On a graph in which the end points of every edge are nodes,
    the breadth-first strategy from a node [start] of the graph with an
    integer bound [max_steps] returns at most ten results with pairwise
    different nodes, and each result is a node other than [start] that
    has the goal type, together with a path of the graph that leads from
    [start] to it, the number [depth] of edges of that path, which lies
    between 1 and [max_steps], and the score [1 / (depth + 1)]. *)
Theorem bfs_results_are_paths_within_bound
    (G : DiGraph) (start goal_type : string) (max_steps : Z) :
  wf G -> has_node G start = true ->
  exists rs,
    _bfs_search G start goal_type (VInt max_steps) = Some (Ok rs) /\
    (length rs <= 10)%nat /\
    NoDup (map node_id rs) /\
    forall r, In r rs ->
      exists n p d,
        r = Bfs n p d (1 / inject_Z (d + 1))%Q /\
        n <> start /\ node_is G n goal_type = true /\
        1 <= d <= max_steps /\ Z.of_nat (length p) = d + 1 /\
        is_path G start n p = true.
Proof.
  intros Hwf Hstart.
  destruct (bfs_search_hits G start goal_type max_steps Hwf Hstart)
    as (rs & Hrun & Hlen & Hnd & Hhits).
  exists rs. split; [exact Hrun|]. split; [exact Hlen|]. split; [exact Hnd|].
  intros r Hr. rewrite Forall_forall in Hhits. exact (Hhits r Hr).
Qed.

(** X11, on the graph start -> mid -> goal. *)
Lemma bfs_results_are_paths_within_bound_witness :
  exists rs,
    _bfs_search (graph memory_path) "start" "function" (VInt 2) = Some (Ok rs) /\
    (length rs <= 10)%nat /\
    NoDup (map node_id rs) /\
    forall r, In r rs ->
      exists n p d,
        r = Bfs n p d (1 / inject_Z (d + 1))%Q /\
        n <> "start" /\ node_is (graph memory_path) n "function" = true /\
        1 <= d <= 2 /\ Z.of_nat (length p) = d + 1 /\
        is_path (graph memory_path) "start" n p = true.
Proof.
  apply (bfs_results_are_paths_within_bound (graph memory_path) "start" "function" 2).
  - intros u v a Hin. simpl in Hin.
    destruct Hin as [[= <- <- _]|[[= <- <- _]|[]]]; split; reflexivity.
  - reflexivity.
Defined.

End GraphProps.
Import FTS.

(** ** Facts about query_fuzzy *)

Module FTSFacts.

Lemma slice_to_firstn {A} (l : list A) (k : Z) : exists n, slice_to l k = firstn n l.
Proof. unfold slice_to. destruct (0 <=? k); eauto. Qed.

Lemma slice_to_length {A} (l : list A) (k : Z) :
  0 <= k -> Z.of_nat (length (slice_to l k)) <= k.
Proof.
  intros Hk. unfold slice_to. destruct (Z.leb_spec 0 k) as [_|H]; [|lia].
  rewrite length_firstn. lia.
Qed.

Lemma firstn_In {A} (n : nat) (l : list A) x : In x (firstn n l) -> In x l.
Proof. rewrite <- (firstn_skipn n l) at 2. intros H. apply in_or_app. auto. Qed.

Lemma firstn_NoDupA {A} (eqA : A -> A -> Prop) (n : nat) : forall l,
  NoDupA eqA l -> NoDupA eqA (firstn n l).
Proof.
  induction n as [|n IH]; intros l Hnd; [constructor|].
  destruct l as [|x l]; [constructor|]. simpl.
  inversion Hnd as [|? ? Hnot Hnd']; subst. constructor; [|apply IH; exact Hnd'].
  intros Hin. apply Hnot. apply InA_alt in Hin. destruct Hin as (y & Hy & Hin).
  apply InA_alt. exists y. split; [exact Hy | exact (firstn_In _ _ _ Hin)].
Qed.

Lemma firstn_sorted {A} (R : A -> A -> Prop) (n : nat) : forall l,
  StronglySorted R l -> StronglySorted R (firstn n l).
Proof.
  induction n as [|n IH]; intros l Hs; [constructor|].
  destruct l as [|x l]; [constructor|]. simpl.
  inversion Hs as [|? ? Hs' Hall]; subst. constructor; [apply IH; exact Hs'|].
  rewrite Forall_forall in *. intros y Hy. apply Hall. exact (firstn_In _ _ _ Hy).
Qed.

(** In a sorted list every element of a prefix stands before every
    element of the rest. *)
Lemma sorted_prefix_rest {A} (R : A -> A -> Prop) (n : nat) : forall l x y,
  StronglySorted R l -> In x (firstn n l) -> In y (skipn n l) -> R x y.
Proof.
  induction n as [|n IH]; intros l x y Hs; [intros []|].
  destruct l as [|z l]; [intros []|]. simpl.
  inversion Hs as [|? ? Hs' Hall]; subst. intros [<-|Hx] Hy.
  - rewrite Forall_forall in Hall. apply Hall.
    rewrite <- (firstn_skipn n l). apply in_or_app. auto.
  - exact (IH l x y Hs' Hx Hy).
Qed.

(** *** Deduplication by doc_id *)

Lemma dedupe_hits_In l : forall seen r, In r (dedupe_hits seen l) -> In r l.
Proof.
  induction l as [|x l IH]; intros seen r; simpl; [auto|].
  destruct (existsb (key_eqb (doc_id x)) seen).
  - intros H. right. exact (IH _ _ H).
  - intros [<-|H]; [left; reflexivity | right; exact (IH _ _ H)].
Qed.

Lemma dedupe_hits_unseen l : forall seen r,
  In r (dedupe_hits seen l) -> existsb (key_eqb (doc_id r)) seen = false.
Proof.
  induction l as [|x l IH]; intros seen r; simpl; [contradiction|].
  destruct (existsb (key_eqb (doc_id x)) seen) eqn:E; [apply IH|].
  intros [<-|Hr]; [exact E|].
  apply IH in Hr. simpl in Hr. apply orb_false_iff in Hr. exact (proj2 Hr).
Qed.

Lemma dedupe_hits_NoDupA l : forall seen, NoDupA keq (map doc_id (dedupe_hits seen l)).
Proof.
  induction l as [|x l IH]; intros seen; simpl; [constructor|].
  destruct (existsb (key_eqb (doc_id x)) seen); [apply IH|].
  simpl. constructor; [|apply IH].
  intros Hin. apply InA_alt in Hin. destruct Hin as (d & Hk & Hin).
  apply in_map_iff in Hin. destruct Hin as (r & <- & Hr).
  apply dedupe_hits_unseen in Hr. simpl in Hr. apply orb_false_iff in Hr.
  destruct Hr as [Hr _]. unfold keq in Hk. rewrite key_eqb_sym in Hk. congruence.
Qed.

(** A hit that survives is the first of the list with its doc_id. *)
Lemma dedupe_hits_first l : forall seen r,
  In r (dedupe_hits seen l) ->
  exists l1 l2, l = l1 ++ r :: l2 /\
    forall r', In r' l1 -> key_eqb (doc_id r') (doc_id r) = false.
Proof.
  induction l as [|x l IH]; intros seen r; simpl; [contradiction|].
  destruct (existsb (key_eqb (doc_id x)) seen) eqn:E.
  - intros Hr. pose proof (dedupe_hits_unseen _ _ _ Hr) as Hun.
    destruct (IH _ _ Hr) as (l1 & l2 & -> & Hfirst).
    exists (x :: l1), l2. split; [reflexivity|].
    intros r' [<-|Hr']; [|exact (Hfirst r' Hr')].
    destruct (key_eqb (doc_id x) (doc_id r)) eqn:Ex; [|reflexivity].
    rewrite existsb_exists in E. destruct E as (d & Hd & Hxd).
    assert (Hrd : key_eqb (doc_id r) d = true).
    { eapply key_eqb_trans; [|exact Hxd]. rewrite key_eqb_sym. exact Ex. }
    assert (Hex : existsb (key_eqb (doc_id r)) seen = true)
      by (apply existsb_exists; exists d; auto).
    congruence.
  - intros [<-|Hr].
    + exists [], l. split; [reflexivity | intros r' []].
    + pose proof (dedupe_hits_unseen _ _ _ Hr) as Hun. simpl in Hun.
      apply orb_false_iff in Hun. destruct Hun as [Hxr _].
      destruct (IH _ _ Hr) as (l1 & l2 & -> & Hfirst).
      exists (x :: l1), l2. split; [reflexivity|].
      intros r' [<-|Hr']; [|exact (Hfirst r' Hr')].
      rewrite key_eqb_sym. exact Hxr.
Qed.

(** Every doc_id of the list is the doc_id of a hit that survives. *)
Lemma dedupe_hits_covers l : forall seen r,
  In r l -> existsb (key_eqb (doc_id r)) seen = false ->
  exists r', In r' (dedupe_hits seen l) /\ key_eqb (doc_id r') (doc_id r) = true.
Proof.
  induction l as [|x l IH]; intros seen r; simpl; [contradiction|].
  intros Hin Hun. destruct (existsb (key_eqb (doc_id x)) seen) eqn:E.
  - destruct Hin as [->|Hin]; [congruence | exact (IH _ _ Hin Hun)].
  - destruct (key_eqb (doc_id x) (doc_id r)) eqn:Ex.
    + exists x. split; [left; reflexivity | exact Ex].
    + destruct Hin as [->|Hin]; [rewrite key_eqb_refl in Ex; discriminate|].
      destruct (IH (doc_id x :: seen) r Hin) as (r' & Hr' & Hk).
      * simpl. rewrite key_eqb_sym, Ex, Hun. reflexivity.
      * exists r'. split; [right; exact Hr' | exact Hk].
Qed.

End FTSFacts.
Import FTSFacts.

(** ** Properties of query_fuzzy *)

Module FTSProps.

(** X12.  The list [query_fuzzy] returns holds no two hits with the same
    [doc_id], stands in descending order of [score], has at most [k]
    hits when [k >= 0], and holds the best ones: a deduplicated hit that
    is not returned scores no higher than any hit that is. *)
Theorem query_fuzzy_returns_ranked_distinct_hits
    (s : searches) (query : string) (k : Z) :
  let out := query_fuzzy s query k in
  NoDupA keq (map doc_id out) /\
  StronglySorted (fun a b => (score b <= score a)%Q) out /\
  (0 <= k -> Z.of_nat (length out) <= k) /\
  (forall r r', In r out -> In r' (dedupe_hits [] (gathered s query k)) ->
     ~ In r' out -> (score r' <= score r)%Q).
Proof.
  intros out. unfold out, query_fuzzy.
  set (deduped := dedupe_hits [] (gathered s query k)).
  set (ranked := sorted_desc score deduped).
  assert (Hperm : Permutation ranked deduped) by apply sorted_desc_perm.
  assert (Hsorted : StronglySorted (desc score) ranked) by apply sorted_desc_sorted.
  destruct (slice_to_firstn ranked k) as [n Hn].
  split; [|split; [|split]].
  - rewrite Hn, <- firstn_map. apply firstn_NoDupA.
    apply (PermutationA_preserves_NoDupA _ (l₁ := map doc_id deduped)).
    + apply Permutation_PermutationA; [apply keq_equiv|].
      apply Permutation_map. symmetry. exact Hperm.
    + apply dedupe_hits_NoDupA.
  - rewrite Hn. apply firstn_sorted. exact Hsorted.
  - apply slice_to_length.
  - rewrite Hn. intros r r' Hr Hr' Hnot.
    apply (sorted_prefix_rest (desc score) n ranked r r' Hsorted Hr).
    apply (Permutation_in _ (Permutation_sym Hperm)) in Hr'.
    rewrite <- (firstn_skipn n ranked) in Hr'. apply in_app_or in Hr'.
    destruct Hr' as [H|H]; [contradiction | exact H].
Qed.

(** X13.  Every hit [query_fuzzy] returns is the first one with its
    [doc_id] in the order exact search, wildcard search, approximate
    search, whatever the scores: a document that the exact search found
    is reported with its exact hit.  A hit of the approximate search is
    returned only when the other two searches gave fewer than [k] hits,
    duplicates counted.  With the three example searches the document
    "a.py" comes back with the exact score 2, not the wildcard score 3. *)
Theorem query_fuzzy_reports_the_first_hit_of_a_document
    (s : searches) (query : string) (k : Z) :
  (forall r, In r (query_fuzzy s query k) ->
     (exists l1 l2,
        gathered s query k = l1 ++ r :: l2 /\
        forall r', In r' l1 -> key_eqb (doc_id r') (doc_id r) = false) /\
     (In r (_fts5_search s query k ++ _wildcard_search s query k) \/
      let found := length (_fts5_search s query k ++ _wildcard_search s query k) in
      Z.of_nat found < k /\
      In r (_levenshtein_search s query (k - Z.of_nat found)))) /\
  query_fuzzy three_searches "parse" 10 = [exact_hit; other_hit; approx_hit].
Proof.
  split; [|vm_compute; reflexivity].
  intros r Hr. unfold query_fuzzy in Hr.
  destruct (slice_to_firstn (sorted_desc score (dedupe_hits [] (gathered s query k))) k)
    as [n Hn].
  rewrite Hn in Hr. apply firstn_In in Hr.
  apply (Permutation_in _ (sorted_desc_perm score _)) in Hr.
  split; [exact (dedupe_hits_first _ _ _ Hr)|].
  apply dedupe_hits_In in Hr. unfold gathered in Hr. cbv zeta.
  destruct (Z.ltb_spec
              (Z.of_nat (length (_fts5_search s query k ++ _wildcard_search s query k))) k)
    as [Hlt|_]; [|left; exact Hr].
  apply in_app_or in Hr. destruct Hr as [Hr|Hr]; [left; exact Hr | right; auto].
Qed.

End FTSProps.

(** ** Facts about explain_fusion after fuse_results *)

Module ExplainFacts.

(** *** A loop writes only into hits whose item it meets *)

Section LoopUntouched.
Variables (k : Z) (ws : list (string * Q)) (strategy : string).
Variable step : Z -> loc -> fusion -> M fusion.
Hypothesis Hstep : annotating k ws strategy step.

Lemma loop_untouched results : forall rank st h seen st' h',
  Inv st h seen ->
  for_enumerate step rank results st h = (Ok st', h') ->
  forall l d, id_of h l = Some d -> ~ occurs h d results -> h' l = h l.
Proof.
  induction results as [|result rest IH]; intros rank st h seen st' h' HI; simpl.
  - unfold ret. intros [= _ <-]. reflexivity.
  - unfold mbind. pose proof (Hstep rank result st h) as Hs.
    destruct (accumulate k ws strategy rank result st h) as [[[st1 m]|e] hx] eqn:E.
    + destruct Hs as (h1 & Hrun1 & Hann). rewrite Hrun1. intros Hrun l d Hid Hnot.
      pose proof (accumulate_heap _ _ _ _ _ _ _ _ _ E) as Ehx. subst hx.
      destruct (accumulate_inv _ _ _ _ _ _ _ _ _ _ E)
        as (w & dr & Hidr & _ & _ & _ & _ & Hm).
      pose proof (accumulate_Inv _ _ _ _ _ _ _ _ _ _ seen E HI) as HI1.
      assert (Hlm : l <> m).
      { intros ->. destruct (dict_get_In _ _ _ _ Hm) as (k0 & Hin & Hk0).
        destruct HI1 as (_ & _ & I3 & _). destruct (I3 _ _ Hin) as [Hidm _].
        rewrite Hid in Hidm. injection Hidm as ->.
        apply Hnot. exists result, dr. split; [left; reflexivity|]. split; [exact Hidr|].
        unfold keq. rewrite key_eqb_sym. exact Hk0. }
      assert (F : frame [m] h h1)
        by (apply (annotates_frame _ m); [left; reflexivity | exact Hann]).
      rewrite (IH _ _ _ _ _ _ (Inv_frame _ _ _ _ _ F HI1) Hrun l d).
      * destruct Hann as [A _]. apply A. exact Hlm.
      * rewrite (frame_id_of _ _ _ _ F). exact Hid.
      * intros (l' & d' & Hl' & Hid' & Hk'). apply Hnot. exists l', d'.
        rewrite (frame_id_of _ _ _ _ F) in Hid'. split; [right; exact Hl' | auto].
    + rewrite Hs. discriminate.
Qed.

End LoopUntouched.

Lemma occurs_frame ls h h' d results :
  frame ls h h' -> occurs h' d results -> occurs h d results.
Proof.
  intros F (l & d' & Hl & Hid & Hk). exists l, d'.
  rewrite (frame_id_of _ _ _ _ F) in Hid. auto.
Qed.

(** Everything the two loops establish: the scores, the invariant, and
    for each stored hit the rank of its item in either list, or no
    change of the rank field when the item is not in that list. *)
Lemma fuse_results_full k ws wv wf vs fs h idsv idsf :
  0 <= k -> sget ws "vector" = Some wv -> sget ws "fuzzy" = Some wf ->
  ids_are h vs idsv -> ids_are h fs idsf ->
  exists st h',
    fuse_results k vs fs (Some ws) h
      = (emit_all st h' (sorted_desc snd (doc_scores st)), h') /\
    doc_scores st = bump_all wf k 0 idsf (bump_all wv k 0 idsv []) /\
    Inv st h' (vs ++ fs) /\ frame (vs ++ fs) h h' /\
    (forall d m, In (d, m) (doc_metadata st) ->
       (occurs h d vs -> ranked "vector_rank" "vector_score" h vs 0 d (h' m)) /\
       (~ occurs h d vs -> sget (h' m) "vector_rank" = sget (h m) "vector_rank") /\
       (occurs h d fs -> ranked "fuzzy_rank" "fuzzy_score" h fs 0 d (h' m)) /\
       (~ occurs h d fs -> sget (h' m) "fuzzy_rank" = sget (h m) "fuzzy_rank")).
Proof.
  intros Hk Hwv Hwf Hv Hf. rewrite fuse_results_unfold. simpl.
  destruct (loop_ok k ws "vector" wv _ (vector_step_annotating k ws) Hwv Hk
              vs idsv 0 _ h [] ltac:(lia) Hv (Inv_empty h))
    as (st1 & h1 & Hrun1 & Hsc1 & HI1).
  rewrite Hrun1.
  assert (L0 : locs_in {| doc_scores := []; doc_metadata := [] |} (vs ++ fs))
    by (intros ? ? []).
  destruct (loop_frame k ws "vector" _ (vector_step_annotating k ws) (vs ++ fs)
              vs 0 _ h _ _ ltac:(apply incl_appl, incl_refl) L0 Hrun1) as [F1 L1].
  destruct (loop_ok k ws "fuzzy" wf _ (fuzzy_step_annotating k ws) Hwf Hk
              fs idsf 0 st1 h1 ([] ++ vs) ltac:(lia)
              (frame_ids_are _ _ _ _ _ F1 Hf) HI1)
    as (st2 & h2 & Hrun2 & Hsc2 & HI2).
  rewrite Hrun2.
  destruct (loop_frame k ws "fuzzy" _ (fuzzy_step_annotating k ws) (vs ++ fs)
              fs 0 st1 h1 _ _ ltac:(apply incl_appr, incl_refl)
              (L1 _ eq_refl) Hrun2) as [F2 _].
  assert (S1 : same_data h h1) by (apply (same_data_frame _ _ _ _ (same_data_refl h) F1)).
  destruct (loop_ranked k ws "vector" vector_fields _ _ _ (vector_step_ranking k ws)
              vector_fields_annotations h 0 vs [] _ h [] st1 h1
              (Inv_empty h) (same_data_refl h) ltac:(intros ? ? []) Hrun1)
    as [_ R1].
  destruct (loop_ranked k ws "fuzzy" fuzzy_fields _ _ _ (fuzzy_step_ranking k ws)
              fuzzy_fields_annotations h1 0 fs [] st1 h1 ([] ++ vs) st2 h2
              HI1 (same_data_refl h1)
              ltac:(intros ? ? _ (l & ? & [] & _)) Hrun2)
    as [Hincl R2].
  pose proof (loop_keeps k ws "vector" vector_fields _ _ _ (vector_step_ranking k ws)
                vs 0 _ h _ _ Hrun1) as K1.
  pose proof (loop_keeps k ws "fuzzy" fuzzy_fields _ _ _ (fuzzy_step_ranking k ws)
                fs 0 st1 h1 _ _ Hrun2) as K2.
  pose proof (frame_trans _ _ _ _ F1 F2) as F.
  exists st2, h2. split; [reflexivity|]. split; [rewrite Hsc2, Hsc1; reflexivity|].
  split; [exact HI2|]. split; [exact F|].
  intros d m Hin.
  assert (Hid2 : id_of h2 m = Some d)
    by (destruct HI2 as (_ & _ & I3 & _); exact (proj1 (I3 _ _ Hin))).
  assert (Hid : id_of h m = Some d) by (rewrite <- (frame_id_of _ _ _ _ F); exact Hid2).
  assert (Hid1 : id_of h1 m = Some d) by (rewrite (frame_id_of _ _ _ _ F1); exact Hid).
  split; [|split; [|split]].
  - intros Hocc.
    destruct (Inv_occurs _ _ _ d HI1 (occurs_heap _ _ _ _ S1 Hocc)) as (d1 & m1 & Hin1 & Hk1).
    pose proof (Inv_same_object _ _ _ _ _ _ _ HI2 Hin (Hincl _ Hin1) Hk1) as ->.
    apply (ranked_congr _ _ _ _ _ d1 d _ Hk1).
    apply (ranked_record _ _ _ _ _ _ (h1 m)).
    + apply K2. simpl. intros [H|[H|[H|[]]]]; discriminate.
    + apply K2. simpl. intros [H|[H|[H|[]]]]; discriminate.
    + apply (R1 d1 m Hin1). simpl. apply (occurs_congr _ d); [|exact Hocc].
      unfold keq in *. rewrite key_eqb_sym. exact Hk1.
  - intros Hnot.
    rewrite (K2 m "vector_rank") by (simpl; intros [H|[H|[H|[]]]]; discriminate).
    rewrite (loop_untouched k ws "vector" _ (vector_step_annotating k ws)
               vs 0 _ h [] st1 h1 (Inv_empty h) Hrun1 m d Hid Hnot).
    reflexivity.
  - intros Hocc.
    apply (ranked_heap _ _ h h1 _ _ _ _ S1).
    apply (R2 d m Hin). simpl. apply (occurs_heap _ _ _ _ S1 Hocc).
  - intros Hnot.
    rewrite (loop_untouched k ws "fuzzy" _ (fuzzy_step_annotating k ws)
               fs 0 st1 h1 ([] ++ vs) st2 h2 HI1 Hrun2 m d Hid1).
    + apply K1. simpl. intros [H|[H|[]]]; discriminate.
    + intros Hocc. apply Hnot. exact (occurs_frame _ _ _ _ _ F1 Hocc).
Qed.

(** *** The score of an item that stands once in a list *)

Lemma contributions_congr w k ids d d' : forall rank,
  keq d d' -> contributions w k rank ids d = contributions w k rank ids d'.
Proof.
  intros rank Hk. revert rank. induction ids as [|i ids IH]; intros rank; simpl; [reflexivity|].
  rewrite (IH (rank + 1)).
  rewrite (eqb_congr_r key_eqb key_eqb_sym key_eqb_trans _ _ i Hk). reflexivity.
Qed.

Lemma contributions_absent w k ids d : forall rank,
  ~ InA keq d ids -> (contributions w k rank ids d == 0)%Q.
Proof.
  induction ids as [|i ids IH]; intros rank Hnot; simpl; [reflexivity|].
  destruct (key_eqb i d) eqn:E.
  - exfalso. apply Hnot. left. unfold keq. rewrite key_eqb_sym. exact E.
  - rewrite IH; [ring|]. intros H. apply Hnot. right. exact H.
Qed.

Lemma contributions_once w k ids d : forall rank r d',
  NoDupA keq ids -> nth_error ids r = Some d' -> keq d' d ->
  (contributions w k rank ids d == w / inject_Z (k + (rank + Z.of_nat r) + 1))%Q.
Proof.
  induction ids as [|i ids IH]; intros rank r d' Hnd Hnth Hk; [destruct r; discriminate|].
  inversion Hnd as [|? ? Hnot Hnd']; subst. simpl. destruct r as [|r]; simpl in Hnth.
  - injection Hnth as ->. unfold keq in Hk. rewrite Hk.
    rewrite contributions_absent.
    + simpl. rewrite Z.add_0_r. ring.
    + intros H. apply Hnot. apply InA_alt in H. destruct H as (y & Hy & Hin).
      apply InA_alt. exists y. split; [|exact Hin].
      unfold keq in *. eapply key_eqb_trans; eassumption.
  - destruct (key_eqb i d) eqn:E.
    + exfalso. apply Hnot. apply InA_alt. exists d'. split.
      * unfold keq in *. eapply key_eqb_trans; [exact E|]. rewrite key_eqb_sym. exact Hk.
      * exact (nth_error_In _ _ Hnth).
    + rewrite (IH (rank + 1) r d' Hnd' Hnth Hk).
      replace (k + (rank + 1 + Z.of_nat r) + 1) with (k + (rank + Z.of_nat (S r)) + 1) by lia.
      ring.
Qed.

Lemma ids_are_nth h results ids r l d :
  ids_are h results ids -> nth_error results r = Some l -> id_of h l = Some d ->
  nth_error ids r = Some d.
Proof.
  intros Hids. revert r. induction Hids as [|l0 d0 results ids Hid _ IH]; intros r.
  - destruct r; discriminate.
  - destruct r as [|r]; simpl.
    + intros [= ->] Hd. congruence.
    + apply IH.
Qed.

Lemma occurs_ids h results ids d :
  ids_are h results ids -> occurs h d results -> InA keq d ids.
Proof.
  intros Hids (l & d' & Hl & Hid & Hk).
  induction Hids as [|l0 d0 results ids Hid0 _ IH]; [contradiction|].
  destruct Hl as [->|Hl].
  - left. rewrite Hid in Hid0. injection Hid0 as <-.
    unfold keq in *. rewrite key_eqb_sym. exact Hk.
  - right. exact (IH Hl).
Qed.

Lemma InA_keq_dec d ids : {InA keq d ids} + {~ InA keq d ids}.
Proof.
  apply InA_dec. intros x y. unfold keq. destruct (key_eqb x y); [left | right]; congruence.
Qed.

(** *** One breakdown *)

Lemma contribution_int w k r :
  0 <= k -> 0 <= r ->
  exists c, contribution w k (VInt r) = Ok c /\ (c == w / inject_Z (k + r + 1))%Q.
Proof.
  intros Hk Hr. unfold contribution. cbn [as_number bind].
  assert (Hden : (inject_Z k + inject_Z r + 1 == inject_Z (k + r + 1))%Q).
  { rewrite !inject_Z_plus. reflexivity. }
  destruct (Qeq_bool (inject_Z k + inject_Z r + 1) 0) eqn:E.
  - apply Qeq_bool_iff in E. rewrite Hden in E.
    unfold Qeq in E. simpl in E. lia.
  - eexists. split; [reflexivity|]. rewrite Hden. reflexivity.
Qed.

(** The breakdown of a record that carries no rank, one rank or both. *)
Lemma explain_one_total k (o : record) v s (cv cf : Q) :
  0 <= k ->
  sget o "doc_id" = Some v -> sget o "fused_score" = Some (VNum s) ->
  (sget o "vector_rank" = None /\ (cv == 0)%Q \/
   exists r, 0 <= r /\ sget o "vector_rank" = Some (VInt r) /\
     (cv == (6 # 10) / inject_Z (k + r + 1))%Q) ->
  (sget o "fuzzy_rank" = None /\ (cf == 0)%Q \/
   exists r, 0 <= r /\ sget o "fuzzy_rank" = Some (VInt r) /\
     (cf == (4 # 10) / inject_Z (k + r + 1))%Q) ->
  exists b,
    explain_one k o = Ok b /\ b_doc_id b = v /\ b_final_score b = VNum s /\
    (total_contribution b == cv + cf)%Q.
Proof.
  intros Hk Hid Hs Hv Hf. unfold explain_one, getitem. rewrite Hid, Hs. cbn [bind].
  destruct Hv as [[-> Hcv]|(rv & Hrv & -> & Hcv)];
    destruct Hf as [[-> Hcf]|(rf & Hrf & -> & Hcf)].
  - cbn [bind app]. eexists. split; [reflexivity|]. split; [reflexivity|].
    split; [reflexivity|]. unfold total_contribution. simpl. rewrite Hcv, Hcf. ring.
  - destruct (contribution_int (4 # 10) k rf Hk Hrf) as (c & -> & Hc).
    cbn [bind app]. eexists. split; [reflexivity|]. split; [reflexivity|].
    split; [reflexivity|]. unfold total_contribution. simpl. rewrite Hcv, Hcf, Hc. ring.
  - destruct (contribution_int (6 # 10) k rv Hk Hrv) as (c & -> & Hc).
    cbn [bind app]. eexists. split; [reflexivity|]. split; [reflexivity|].
    split; [reflexivity|]. unfold total_contribution. simpl. rewrite Hcv, Hcf, Hc. ring.
  - destruct (contribution_int (6 # 10) k rv Hk Hrv) as (c1 & -> & Hc1).
    destruct (contribution_int (4 # 10) k rf Hk Hrf) as (c2 & -> & Hc2).
    cbn [bind app]. eexists. split; [reflexivity|]. split; [reflexivity|].
    split; [reflexivity|]. unfold total_contribution. simpl.
    rewrite Hcv, Hcf, Hc1, Hc2. ring.
Qed.

Lemma explain_all_Forall2 k (R : record -> breakdown -> Prop) (l : list record) :
  (forall o, In o l -> exists b, explain_one k o = Ok b /\ R o b) ->
  exists bs, explain_all k l = Ok bs /\ Forall2 R l bs.
Proof.
  induction l as [|o l IH]; intros H; simpl.
  - exists []. split; [reflexivity | constructor].
  - destruct (H o (or_introl eq_refl)) as (b & -> & HR).
    destruct (IH (fun o' Ho' => H o' (or_intror Ho'))) as (bs & -> & HF).
    exists (b :: bs). split; [reflexivity | constructor; assumption].
Qed.

(** The rank a stored hit carries for a list in which no item repeats. *)
Lemma rank_of_item h h' results ids rank_field score_field w k d (o : record) m :
  ids_are h results ids -> NoDupA keq ids ->
  sget o rank_field = sget (h' m) rank_field ->
  sget (h m) rank_field = None ->
  (occurs h d results -> ranked rank_field score_field h results 0 d (h' m)) ->
  (~ occurs h d results -> sget (h' m) rank_field = sget (h m) rank_field) ->
  sget o rank_field = None /\ (contributions w k 0 ids d == 0)%Q \/
  exists r, 0 <= r /\ sget o rank_field = Some (VInt r) /\
    (contributions w k 0 ids d == w / inject_Z (k + r + 1))%Q.
Proof.
  intros Hids Hnd Ho Hfresh Hin Hout.
  destruct (InA_keq_dec d ids) as [Hd|Hd].
  - right. destruct (Hin (occurs_InA _ _ _ _ Hids Hd)) as (r & l & d' & A & B & C & D & _).
    exists (Z.of_nat r). split; [lia|]. split; [rewrite Ho; exact D|].
    rewrite (contributions_once w k ids d 0 r d' Hnd (ids_are_nth _ _ _ _ _ _ Hids A B) C).
    reflexivity.
  - left. split.
    + rewrite Ho, Hout; [exact Hfresh|]. intros Hocc. apply Hd.
      exact (occurs_ids _ _ _ _ Hids Hocc).
    + apply contributions_absent. exact Hd.
Qed.

(** *** Fusing a single list *)

Lemma dict_set_twice {K V} (eqb : K -> K -> bool) (d : list (K * V)) k a b :
  eqb k k = true -> dict_set eqb (dict_set eqb d k a) k b = dict_set eqb d k b.
Proof.
  intros Hrefl. induction d as [|[k0 v0] d IH]; simpl.
  - rewrite Hrefl. reflexivity.
  - destruct (eqb k0 k) eqn:E; simpl; rewrite E; [reflexivity|]. rewrite IH. reflexivity.
Qed.

Lemma bump_fresh w k rank sc d :
  dict_mem key_eqb sc d = false ->
  bump w k rank sc d = sc ++ [(d, (0 + w / inject_Z (k + rank + 1))%Q)].
Proof.
  intros Hm. unfold bump. rewrite Hm.
  rewrite (dict_get_set_same key_eqb key_eqb_sym key_eqb_trans _ _ _ _ (key_eqb_refl d)).
  rewrite dict_set_twice by apply key_eqb_refl.
  apply dict_set_keys_new. exact Hm.
Qed.

Lemma bump_all_fresh w k ids : forall rank sc,
  NoDupA keq ids ->
  (forall d, InA keq d ids -> dict_mem key_eqb sc d = false) ->
  bump_all w k rank ids sc = sc ++ single_scores w k rank ids.
Proof.
  induction ids as [|d ids IH]; intros rank sc Hnd Hnew; simpl.
  - rewrite app_nil_r. reflexivity.
  - inversion Hnd as [|? ? Hnot Hnd']; subst.
    rewrite bump_fresh by (apply Hnew; left; apply key_eqb_refl).
    rewrite IH; [rewrite <- app_assoc; reflexivity | exact Hnd' |].
    intros d' Hd'.
    destruct (dict_mem key_eqb (sc ++ [(d, (0 + w / inject_Z (k + rank + 1))%Q)]) d') eqn:E;
      [|reflexivity].
    apply kmem_InA in E. rewrite map_app in E. apply InA_app in E.
    destruct E as [E|E].
    + apply kmem_InA in E. rewrite Hnew in E; [discriminate | right; exact Hd'].
    + exfalso. apply Hnot. inversion E as [? ? Hk|? ? Hk]; subst; [|inversion Hk].
      apply InA_alt in Hd'. destruct Hd' as (y & Hy & Hin).
      apply InA_alt. exists y. split; [|exact Hin].
      unfold keq in *. simpl in Hk. eapply key_eqb_trans; [|exact Hy].
      rewrite key_eqb_sym. exact Hk.
Qed.

Lemma weight_over_rank (w : Q) (a b : Z) :
  (0 <= w)%Q -> 0 < a -> a <= b -> (w / inject_Z b <= w / inject_Z a)%Q.
Proof.
  intros Hw Ha Hab.
  assert (Ha' : (0 < inject_Z a)%Q) by (change 0%Q with (inject_Z 0); rewrite <- Zlt_Qlt; lia).
  assert (Hb' : (0 < inject_Z b)%Q) by (change 0%Q with (inject_Z 0); rewrite <- Zlt_Qlt; lia).
  assert (Hq : (0 <= w / inject_Z a)%Q).
  { apply Qle_shift_div_l; [exact Ha'|]. rewrite Qmult_0_l. exact Hw. }
  apply Qle_shift_div_r; [exact Hb'|].
  assert (E : (w == w / inject_Z a * inject_Z a)%Q).
  { field. intros H. rewrite H in Ha'. apply (Qlt_irrefl 0). exact Ha'. }
  rewrite E at 1. rewrite !(Qmult_comm (w / inject_Z a)).
  apply Qmult_le_compat_r; [|exact Hq]. rewrite <- Zle_Qle. exact Hab.
Qed.

Lemma single_scores_keys w k ids : forall rank, map fst (single_scores w k rank ids) = ids.
Proof. induction ids as [|d ids IH]; intros rank; simpl; [|rewrite IH]; reflexivity. Qed.

Lemma single_scores_bound w k ids : forall rank x,
  0 <= k -> 0 <= rank -> (0 <= w)%Q -> In x (single_scores w k rank ids) ->
  (snd x <= 0 + w / inject_Z (k + rank + 1))%Q.
Proof.
  induction ids as [|d ids IH]; intros rank x Hk Hrank Hw; simpl; [contradiction|].
  intros [<-|Hin]; [apply Qle_refl|].
  eapply Qle_trans; [apply (IH (rank + 1)); try assumption; lia|].
  apply Qplus_le_r. apply weight_over_rank; [exact Hw | lia | lia].
Qed.

Lemma single_scores_sorted w k ids : forall rank,
  0 <= k -> 0 <= rank -> (0 <= w)%Q ->
  StronglySorted (desc snd) (single_scores w k rank ids).
Proof.
  induction ids as [|d ids IH]; intros rank Hk Hrank Hw; simpl; [constructor|].
  constructor; [apply IH; try assumption; lia|].
  apply Forall_forall. intros x Hx. unfold desc. simpl.
  eapply Qle_trans; [apply (single_scores_bound w k ids (rank + 1)); try assumption; lia|].
  apply Qplus_le_r. apply weight_over_rank; [exact Hw | lia | lia].
Qed.

(** A list that is in descending order already is left as it is. *)
Lemma sorted_desc_fixed {A} (score : A -> Q) (l : list A) :
  StronglySorted (desc score) l -> sorted_desc score l = l.
Proof.
  induction 1 as [|x l Hs IH Hall]; simpl; [reflexivity|].
  rewrite IH. destruct l as [|y l]; [reflexivity|]. simpl.
  inversion Hall as [|? ? Hy _]; subst. unfold desc in Hy.
  apply Qle_bool_iff in Hy. rewrite Hy. reflexivity.
Qed.

End ExplainFacts.
Import ExplainFacts.

(** ** Further properties of reciprocal rank fusion *)

Module FusionProps.

Lemma Forall2_In_l {A B} (R : A -> B -> Prop) (l1 : list A) (l2 : list B) (a : A) :
  Forall2 R l1 l2 -> In a l1 -> exists b, In b l2 /\ R a b.
Proof.
  induction 1 as [|a0 b0 l1 l2 HR _ IH]; simpl; [contradiction|].
  intros [<-|Hin].
  - exists b0. auto.
  - destruct (IH Hin) as (b & Hb & HRb). exists b. auto.
Qed.

Lemma first_hit_In h d ls m : first_hit h d ls = Some m -> In m ls.
Proof. unfold first_hit. intros H. apply find_some in H. exact (proj1 H). Qed.

(** X14.  [explain_fusion] agrees with [fuse_results] called with the
    default weights: on two lists of identified hits that no fusion has
    annotated yet and in which no item repeats within a list, with
    [k >= 0], the fusion succeeds, the explanation of its output
    succeeds, it has one breakdown for each of the first five records,
    and in each breakdown the final score is the record's fused score
    and equals the sum of the contributions the breakdown shows (0.6 and
    0.4 over [k + rank + 1]). *)
Theorem explained_contributions_add_up
    (k : Z) (vs fs : list loc) (h : heap) (idsv idsf : list key) :
  0 <= k -> ids_are h vs idsv -> ids_are h fs idsf ->
  NoDupA keq idsv -> NoDupA keq idsf ->
  (forall l, In l (vs ++ fs) -> unranked (h l)) ->
  exists out h' e,
    fuse_results k vs fs None h = (Ok out, h') /\
    explain_fusion k out = Ok e /\
    Forall2 (fun o b =>
               sget o "doc_id" = Some (b_doc_id b) /\
               sget o "fused_score" = Some (b_final_score b) /\
               exists s, b_final_score b = VNum s /\ (s == total_contribution b)%Q)
      (firstn 5 out) (results_breakdown e).
Proof.
  intros Hk Hv Hf Hndv Hndf Hfresh.
  change (fuse_results k vs fs None h) with (fuse_results k vs fs (Some default_weights) h).
  destruct (fuse_results_full k default_weights (6 # 10) (4 # 10) vs fs h idsv idsf
              Hk eq_refl eq_refl Hv Hf)
    as (st & h' & Hrun & Hsc & HI & F & Hrank).
  set (items := sorted_desc snd (doc_scores st)) in *.
  assert (Hperm : Permutation items (doc_scores st)) by apply sorted_desc_perm.
  destruct (emit_all_ok st h' _ items HI) as (out & Hout & HF).
  { intros x Hx. apply (Permutation_in _ Hperm). exact Hx. }
  destruct (explain_all_Forall2 k
              (fun o b =>
                 sget o "doc_id" = Some (b_doc_id b) /\
                 sget o "fused_score" = Some (b_final_score b) /\
                 exists s, b_final_score b = VNum s /\ (s == total_contribution b)%Q)
              (firstn 5 out)) as (bs & Hbs & HR).
  - intros o Ho. apply firstn_In in Ho.
    destruct (Forall2_In_l _ _ _ _ HF Ho) as ([d s] & Hit & Hkey & Hscore & m & Hm & Heq).
    simpl in Hkey, Hscore, Hm, Heq.
    apply (Permutation_in _ Hperm) in Hit.
    destruct (Inv_lookup _ _ _ _ _ HI Hit) as (Hget & _).
    destruct (dict_get_In _ _ _ _ Hm) as (d0 & Hin & Hd0).
    destruct (Hrank d0 m Hin) as (RV & UV & RF & UF).
    assert (Hmem : In m (vs ++ fs)).
    { destruct HI as (_ & _ & I3 & _). exact (first_hit_In _ _ _ _ (proj2 (I3 _ _ Hin))). }
    destruct (Hfresh m Hmem) as [Hfv Hff].
    assert (Hfields : forall f, f <> "fused_score" -> f <> "fusion_method" ->
                        sget o f = sget (h' m) f).
    { intros f H1 H2. rewrite Heq. apply emit_fields; assumption. }
    assert (Hid : exists v, sget o "doc_id" = Some v).
    { unfold rec_key in Hkey. destruct (sget o "doc_id") as [v|]; [eauto | discriminate]. }
    destruct Hid as (v & Hid).
    assert (Hfs : sget o "fused_score" = Some (VNum s)).
    { rewrite Heq, sget_sset_other by discriminate. apply sget_sset_same. }
    destruct (explain_one_total k o v s
                (contributions (6 # 10) k 0 idsv d0) (contributions (4 # 10) k 0 idsf d0)
                Hk Hid Hfs) as (b & Hb & Hbid & Hbs & Htotal).
    + apply (rank_of_item h h' vs idsv "vector_rank" "vector_score" (6 # 10) k d0 o m);
        try assumption. apply Hfields; discriminate.
    + apply (rank_of_item h h' fs idsf "fuzzy_rank" "fuzzy_score" (4 # 10) k d0 o m);
        try assumption. apply Hfields; discriminate.
    + exists b. split; [exact Hb|]. rewrite Hbid, Hbs.
      split; [exact Hid|]. split; [exact Hfs|]. exists s. split; [reflexivity|].
      rewrite Htotal.
      assert (Hs : s = score_or0 (doc_scores st) d).
      { unfold score_or0. rewrite Hget. reflexivity. }
      rewrite Hs, Hsc, !bump_all_score.
      rewrite (contributions_congr _ _ idsv d0 d 0 Hd0).
      rewrite (contributions_congr _ _ idsf d0 d 0 Hd0).
      unfold score_or0. simpl. ring.
  - exists out, h'. eexists. rewrite Hrun, Hout. split; [reflexivity|].
    unfold explain_fusion. rewrite Hbs. cbn [bind]. split; [reflexivity|]. exact HR.
Qed.

(** X14, at the scenario of the specification. *)
Lemma explained_contributions_add_up_witness :
  exists out h' e,
    fuse_results 60 [0; 1]%nat [2; 3]%nat None scenario_heap = (Ok out, h') /\
    explain_fusion 60 out = Ok e /\
    Forall2 (fun o b =>
               sget o "doc_id" = Some (b_doc_id b) /\
               sget o "fused_score" = Some (b_final_score b) /\
               exists s, b_final_score b = VNum s /\ (s == total_contribution b)%Q)
      (firstn 5 out) (results_breakdown e).
Proof.
  apply (explained_contributions_add_up 60 [0; 1]%nat [2; 3]%nat scenario_heap
           [KStr "d1"; KStr "d2"] [KStr "d2"; KStr "d3"]).
  - lia.
  - repeat constructor.
  - repeat constructor.
  - repeat constructor; intros H; inversion H as [? ? E|? ? E]; subst;
      try discriminate; inversion E.
  - repeat constructor; intros H; inversion H as [? ? E|? ? E]; subst;
      try discriminate; inversion E.
  - intros l [<-|[<-|[<-|[<-|[]]]]]; split; reflexivity.
Defined.

Lemma Forall2_keys (out : list record) (items : list (key * Q)) (P : record -> key * Q -> Prop) :
  (forall o it, P o it -> rec_key o = Some (fst it)) ->
  Forall2 P out items -> Forall2 (fun o d => rec_key o = Some d) out (map fst items).
Proof.
  intros HP. induction 1 as [|o it out items Hoit _ IH]; simpl; constructor.
  - exact (HP o it Hoit).
  - exact IH.
Qed.

(** The output of the last loop of [fuse_results] for a score dictionary
    that one strategy filled from distinct items. *)
Lemma emit_single st h seen w k ids :
  0 <= k -> (0 <= w)%Q -> NoDupA keq ids ->
  Inv st h seen -> doc_scores st = bump_all w k 0 ids [] ->
  exists out,
    emit_all st h (sorted_desc snd (doc_scores st)) = Ok out /\
    Forall2 (fun o d => rec_key o = Some d) out ids.
Proof.
  intros Hk Hw Hnd HI Hsc.
  assert (Hsingle : doc_scores st = single_scores w k 0 ids).
  { rewrite Hsc. apply (bump_all_fresh w k ids 0 [] Hnd). reflexivity. }
  rewrite Hsingle, sorted_desc_fixed by (apply single_scores_sorted; [lia | lia | exact Hw]).
  destruct (emit_all_ok st h seen (single_scores w k 0 ids) HI) as (out & Hout & HF).
  { rewrite Hsingle. apply incl_refl. }
  exists out. split; [exact Hout|].
  rewrite <- (single_scores_keys w k ids 0).
  apply (Forall2_keys _ _ _ (fun o it H => proj1 H) HF).
Qed.

(** X15.  When one of the two lists is empty, the other holds identified
    hits with no item repeated, the weights are not negative and
    [k >= 0], [fuse_results] returns one record per hit, in the order of
    that list. *)
Theorem fusing_one_list_keeps_its_order
    (k : Z) (ws : list (string * Q)) (wv wf : Q) (results : list loc) (h : heap)
    (ids : list key) :
  0 <= k -> sget ws "vector" = Some wv -> sget ws "fuzzy" = Some wf ->
  (0 <= wv)%Q -> (0 <= wf)%Q ->
  ids_are h results ids -> NoDupA keq ids ->
  (exists out h',
     fuse_results k results [] (Some ws) h = (Ok out, h') /\
     Forall2 (fun o d => rec_key o = Some d) out ids) /\
  (exists out h',
     fuse_results k [] results (Some ws) h = (Ok out, h') /\
     Forall2 (fun o d => rec_key o = Some d) out ids).
Proof.
  intros Hk Hwsv Hwsf Hwv Hwf Hids Hnd. split; rewrite fuse_results_unfold; cbv zeta.
  - destruct (loop_ok k ws "vector" wv _ (vector_step_annotating k ws) Hwsv Hk
                results ids 0 _ h [] ltac:(lia) Hids (Inv_empty h))
      as (st1 & h1 & Hrun1 & Hsc1 & HI1).
    rewrite Hrun1. cbn [for_enumerate]. unfold ret.
    destruct (emit_single st1 h1 _ wv k ids Hk Hwv Hnd HI1 Hsc1) as (out & Hout & HF).
    exists out, h1. rewrite Hout. auto.
  - cbn [for_enumerate]. unfold ret.
    destruct (loop_ok k ws "fuzzy" wf _ (fuzzy_step_annotating k ws) Hwsf Hk
                results ids 0 _ h [] ltac:(lia) Hids (Inv_empty h))
      as (st1 & h1 & Hrun1 & Hsc1 & HI1).
    rewrite Hrun1.
    destruct (emit_single st1 h1 _ wf k ids Hk Hwf Hnd HI1 Hsc1) as (out & Hout & HF).
    exists out, h1. rewrite Hout. auto.
Qed.

(** X15, with the vector list of the scenario alone, as the first and
    then as the second list. *)
Lemma fusing_one_list_keeps_its_order_witness :
  (exists out h',
     fuse_results 60 [0; 1]%nat [] (Some default_weights) scenario_heap = (Ok out, h') /\
     Forall2 (fun o d => rec_key o = Some d) out [KStr "d1"; KStr "d2"]) /\
  (exists out h',
     fuse_results 60 [] [0; 1]%nat (Some default_weights) scenario_heap = (Ok out, h') /\
     Forall2 (fun o d => rec_key o = Some d) out [KStr "d1"; KStr "d2"]).
Proof.
  apply (fusing_one_list_keeps_its_order 60 default_weights (6 # 10) (4 # 10) [0; 1]%nat
           scenario_heap [KStr "d1"; KStr "d2"]).
  - lia.
  - reflexivity.
  - reflexivity.
  - discriminate.
  - discriminate.
  - repeat constructor.
  - repeat constructor; intros H; inversion H as [? ? E|? ? E]; subst;
      try discriminate; inversion E.
Defined.

End FusionProps.
Import RAG Generation.

(** ** Facts about the orchestrator *)

Module RagFacts.

(** *** The graph channel *)

Lemma graph_search_returns gm nodes : forall acc,
  exists out, graph_search gm nodes acc = Some (Ok out).
Proof.
  induction nodes as [|n nodes IH]; intros acc; simpl; [eauto|].
  destruct (NGMFacts.query_neighbors_returns gm n (VInt 2) None) as [r ->].
  apply IH.
Qed.

Lemma slice_to_bound {A} (l : list A) (k : Z) :
  0 <= k -> Z.of_nat (length (slice_to l k)) <= k.
Proof.
  intros Hk. unfold slice_to. destruct (Z.leb_spec 0 k) as [_|H]; [|lia].
  rewrite length_firstn. lia.
Qed.

Lemma graph_channel_returns c gm query mode k :
  exists out,
    graph_channel c gm query mode k = Some (Ok out) /\
    (0 <= k -> Z.of_nat (length out) <= k).
Proof.
  unfold graph_channel.
  destruct (mode_in mode ["all"; "graph"]); [|exists []; split; [reflexivity | simpl; lia]].
  destruct (_find_query_nodes c query) as [|n ns];
    [exists []; split; [reflexivity | simpl; lia]|].
  destruct (graph_search_returns gm (slice_to (n :: ns) 3) []) as [out ->].
  cbn [bind]. exists (slice_to out k). split; [reflexivity | apply slice_to_bound].
Qed.

(** *** A fusion that succeeds on some hit returns some record *)

Section LoopNonempty.
Variables (k : Z) (ws : list (string * Q)) (strategy : string).
Variable step : Z -> loc -> fusion -> M fusion.
Hypothesis Hstep : annotating k ws strategy step.

Lemma loop_nonempty results : forall rank st h st' h',
  for_enumerate step rank results st h = (Ok st', h') ->
  results <> [] \/ doc_scores st <> [] -> doc_scores st' <> [].
Proof.
  induction results as [|result rest IH]; intros rank st h st' h'; simpl.
  - unfold ret. intros [= <- _] [H|H]; [contradiction | exact H].
  - unfold mbind. pose proof (Hstep rank result st h) as Hs.
    destruct (accumulate k ws strategy rank result st h) as [[[st1 m]|e] hx] eqn:E.
    + destruct Hs as (h1 & -> & _). intros Hrun _.
      apply (IH _ _ _ _ _ Hrun). right.
      destruct (accumulate_inv _ _ _ _ _ _ _ _ _ _ E) as (w & d & _ & _ & _ & Hsc & _).
      rewrite Hsc. intros Hnil.
      pose proof (bump_kmem_self w k rank (doc_scores st) d) as Hm.
      rewrite Hnil in Hm. discriminate.
    + rewrite Hs. discriminate.
Qed.

End LoopNonempty.

Lemma emit_all_length st h items out :
  emit_all st h items = Ok out -> length out = length items.
Proof.
  revert out. induction items as [|it items IH]; intros out; simpl.
  - intros [= <-]. reflexivity.
  - unfold bind. destruct (emit st h it); [|discriminate].
    destruct (emit_all st h items) as [rs|]; [|discriminate].
    intros [= <-]. simpl. rewrite (IH rs eq_refl). reflexivity.
Qed.

Lemma fuse_results_nonempty k vs fs weights h out h' :
  fuse_results k vs fs weights h = (Ok out, h') -> vs ++ fs <> [] -> out <> [].
Proof.
  rewrite fuse_results_unfold. cbv zeta.
  set (ws := match weights with None => default_weights | Some w => w end).
  destruct (for_enumerate (vector_step k ws) 0 vs _ h) as [[st1|e] h1] eqn:E1;
    [|discriminate].
  destruct (for_enumerate (fuzzy_step k ws) 0 fs st1 h1) as [[st2|e] h2] eqn:E2;
    [|discriminate].
  intros [= Hout <-] Hne.
  assert (H2 : doc_scores st2 <> []).
  { apply (loop_nonempty k ws "fuzzy" _ (fuzzy_step_annotating k ws) _ _ _ _ _ _ E2).
    destruct fs as [|f fs]; [right | left; discriminate].
    apply (loop_nonempty k ws "vector" _ (vector_step_annotating k ws) _ _ _ _ _ _ E1).
    left. rewrite app_nil_r in Hne. exact Hne. }
  apply emit_all_length in Hout. intros ->. simpl in Hout.
  apply H2. apply length_zero_iff_nil.
  rewrite <- (Permutation_length (sorted_desc_perm snd (doc_scores st2))). congruence.
Qed.

(** *** The fusion step of the orchestrator *)

Lemma mode_in_all mode : mode_in mode ["all"] = String.eqb mode "all".
Proof. unfold mode_in. simpl. apply orb_false_r. Qed.

Lemma slice_to_nonempty {A} (l : list A) (k : Z) : 0 < k -> slice_to l k = [] -> l = [].
Proof.
  intros Hk. unfold slice_to. destruct (Z.leb_spec 0 k) as [_|H]; [|lia].
  destruct l as [|x l]; [reflexivity|].
  destruct (Z.to_nat k) eqn:E; [lia | discriminate].
Qed.

Lemma fuse_channel_spec rrf_k mode k vs fs vs' fs' fused :
  fuse_channel rrf_k mode k vs fs = Ok (vs', fs', fused) ->
  length vs' = length vs /\ length fs' = length fs /\
  (mode <> "all" -> vs' = vs /\ fs' = fs /\ fused = []) /\
  (0 <= k -> Z.of_nat (length fused) <= k) /\
  (mode = "all" -> 0 < k -> fused = [] -> vs ++ fs = []).
Proof.
  unfold fuse_channel. rewrite mode_in_all.
  destruct (String.eqb_spec mode "all") as [->|Hmode].
  - destruct (vs ++ fs) as [|x l] eqn:Eapp.
    + intros [= <- <- <-]. repeat split; auto; simpl; lia.
    + destruct (fuse_results rrf_k (seq 0 (length vs)) (seq (length vs) (length fs))
                  (Some [("vector", 6 # 10); ("fuzzy", 4 # 10)]%Q) (allocate vs fs))
        as [[out|e] h] eqn:Ef; cbn [bind]; [|discriminate].
      intros [= <- <- <-]. rewrite !length_map, !length_seq.
      split; [reflexivity|]. split; [reflexivity|]. split; [congruence|].
      split; [apply slice_to_bound|].
      intros _ Hk Hnil. apply slice_to_nonempty in Hnil; [|exact Hk].
      exfalso. apply (fuse_results_nonempty _ _ _ _ _ _ _ Ef); [|exact Hnil].
      intros Hseq. apply (f_equal (@length nat)) in Hseq.
      rewrite length_app, !length_seq in Hseq. simpl in Hseq.
      apply (f_equal (@length record)) in Eapp. rewrite length_app in Eapp.
      simpl in Eapp. lia.
  - intros H. assert (E : (vs, fs, @nil record) = (vs', fs', fused)).
    { destruct (vs ++ fs); congruence. }
    injection E as <- <- <-. repeat split; auto; try (simpl; lia). contradiction.
Qed.

(** *** The whole retrieval *)

(** The shape of the answer, for every behaviour of the collaborators. *)
Lemma hybrid_retrieve_cases c gm rrf_k default_k now query mode pilot k :
  let k' := match k with
            | None => default_k
            | Some k => k
            end in
  (exists e, hybrid_retrieve c gm rrf_k default_k now query mode pilot k
             = Some (Ok (Failed (str e) query))) \/
  (exists vs fs graph_hits vs' fs' fused,
     (if mode_in mode ["all"; "semantic"; "vector"]
      then query_semantic c query (k' * 2) pilot else Ok []) = Ok vs /\
     (if mode_in mode ["all"; "fuzzy"; "lexical"]
      then RAG.query_fuzzy c query (k' * 2) else Ok []) = Ok fs /\
     graph_channel c gm query mode k' = Some (Ok graph_hits) /\
     fuse_channel rrf_k mode k' vs fs = Ok (vs', fs', fused) /\
     hybrid_retrieve c gm rrf_k default_k now query mode pilot k
     = Some (Ok (Retrieved
                   {| RAG.query := query; RAG.mode := mode; RAG.pilot_id := pilot;
                      timestamp := now;
                      vector_results := vs'; fuzzy_results := fs';
                      graph_results := graph_hits;
                      fused_results := fused |}))).
Proof.
  intros k'. unfold hybrid_retrieve, hybrid_retrieve_body. fold k'.
  destruct (if mode_in mode ["all"; "semantic"; "vector"]
            then query_semantic c query (k' * 2) pilot else Ok []) as [vs|e] eqn:Ev;
    [|left; exists e; reflexivity].
  destruct (if mode_in mode ["all"; "fuzzy"; "lexical"]
            then RAG.query_fuzzy c query (k' * 2) else Ok []) as [fs|e] eqn:Efz;
    [|left; exists e; reflexivity].
  destruct (graph_channel_returns c gm query mode k') as (graph_hits & Hg & _).
  rewrite Hg.
  destruct (fuse_channel rrf_k mode k' vs fs) as [[[vs' fs'] fused]|e] eqn:Efuse;
    [|left; exists e; reflexivity].
  right. exists vs, fs, graph_hits, vs', fs', fused. cbn [bind try_except]. auto 10.
Qed.

(** *** Joining the parts of the context *)

Lemma length_append (a b : string) :
  String.length (a ++ b) = (String.length a + String.length b)%nat.
Proof. induction a as [|c a IH]; simpl; [reflexivity | rewrite IH; reflexivity]. Qed.

Lemma len_append (a b : string) : len (a ++ b) = len a + len b.
Proof. unfold len. rewrite length_append. lia. Qed.

Lemma join_length sep parts :
  parts <> [] ->
  len (join sep parts) = total_length parts + len sep * (Z.of_nat (length parts) - 1).
Proof.
  induction parts as [|p parts IH]; intros Hne; [contradiction|].
  destruct parts as [|q parts].
  - simpl. unfold total_length. simpl. lia.
  - change (join sep (p :: q :: parts)) with (p ++ sep ++ join sep (q :: parts))%string.
    rewrite !len_append, IH by discriminate.
    change (total_length (p :: q :: parts)) with (len p + total_length (q :: parts)).
    change (length (p :: q :: parts)) with (S (length (q :: parts))).
    lia.
Qed.

Lemma total_length_app a b : total_length (a ++ b) = total_length a + total_length b.
Proof.
  unfold total_length. induction a as [|p a IH]; simpl; [reflexivity|].
  rewrite IH. lia.
Qed.

(** *** The loop that collects the parts *)

Lemma context_loop_spec py_str max_length chunks : forall context_parts current_length,
  exists n,
    (n <= length chunks)%nat /\
    context_loop py_str chunks max_length context_parts current_length
    = context_parts ++ map (format_chunk py_str) (firstn n chunks) /\
    (n = 0%nat \/
     current_length + total_length (map (format_chunk py_str) (firstn n chunks))
     <= max_length) /\
    (forall chunk, nth_error chunks n = Some chunk ->
       max_length < current_length
                    + total_length (map (format_chunk py_str) (firstn n chunks))
                    + len (format_chunk py_str chunk)).
Proof.
  induction chunks as [|c rest IH]; intros acc cur.
  - exists 0%nat. simpl. rewrite app_nil_r. split; [lia|]. split; [reflexivity|].
    split; [left; reflexivity|]. intros chunk H. discriminate.
  - cbn [context_loop]. cbv zeta.
    destruct (Z.ltb_spec max_length (cur + len (format_chunk py_str c))) as [Hlt|Hge].
    + exists 0%nat. simpl. rewrite app_nil_r. split; [lia|]. split; [reflexivity|].
      split; [left; reflexivity|]. intros chunk [= <-]. unfold total_length. simpl. lia.
    + destruct (IH (acc ++ [format_chunk py_str c]) (cur + len (format_chunk py_str c)))
        as (n & Hn & Hrun & Hfit & Hnext).
      exists (S n). cbn [firstn map length nth_error].
      change (total_length (format_chunk py_str c :: map (format_chunk py_str) (firstn n rest)))
        with (len (format_chunk py_str c)
              + total_length (map (format_chunk py_str) (firstn n rest))).
      split; [lia|]. split; [rewrite Hrun, <- app_assoc; reflexivity|].
      split.
      * right. destruct Hfit as [->|Hfit]; [|lia].
        simpl. unfold total_length. simpl. lia.
      * intros chunk Hchunk. specialize (Hnext chunk Hchunk). lia.
Qed.

(** *** Counting the sources *)

Lemma count_distinct_bound xs : forall seen n,
  count_distinct seen xs = Ok n ->
  Z.of_nat (length seen) <= n <= Z.of_nat (length seen) + Z.of_nat (length xs).
Proof.
  induction xs as [|x xs IH]; intros seen n; cbn [count_distinct].
  - intros [= <-]. cbn [length]. lia.
  - destruct (hash_key x) as [d|e]; cbn [bind]; [|discriminate].
    destruct (existsb (key_eqb d) seen); intros H; apply IH in H;
      cbn [length] in *; lia.
Qed.

End RagFacts.
Import RagFacts.

(** ** Facts about the two managers under the orchestrator *)

Module ManagerFacts.
Import Managers.

(** *** The hits the managers build *)




(** *** The hits as objects of the fusion *)




(** *** The fusion step on identified hits *)


(** *** A backend that fails *)




End ManagerFacts.
Import RagFacts.

(** ** Properties of retrieval and generation in the orchestrator *)

Module RagProps.

(** X16.  With [k >= 0], [hybrid_retrieve] returns a dictionary whatever
    its collaborators do and whatever the mode is: the result dictionary,
    in which [fused_results] and [graph_results] hold at most [k] entries
    and [vector_results] and [fuzzy_results] hold no more hits than the
    two searches returned for [2 * k], or the error dictionary with the
    query. *)
Theorem hybrid_retrieve_respects_k
    (c : collaborators) (gm : NeuralGraphMemory) (rrf_k default_k : Z) (now : string)
    (query mode : string) (pilot : option string) (k : Z) :
  0 <= k ->
  exists r,
    hybrid_retrieve c gm rrf_k default_k now query mode pilot (Some k) = Some (Ok r) /\
    match r with
    | Retrieved res =>
        RAG.query res = query /\ RAG.mode res = mode /\
        Z.of_nat (length (fused_results res)) <= k /\
        Z.of_nat (length (graph_results res)) <= k /\
        (forall hits, query_semantic c query (k * 2) pilot = Ok hits ->
           (length (vector_results res) <= length hits)%nat) /\
        (forall hits, RAG.query_fuzzy c query (k * 2) = Ok hits ->
           (length (fuzzy_results res) <= length hits)%nat)
    | Failed _ q => q = query
    end.
Proof.
  intros Hk.
  destruct (hybrid_retrieve_cases c gm rrf_k default_k now query mode pilot (Some k))
    as [(e & ->)|(vs & fs & gh & vs' & fs' & fused & Hv & Hf & Hg & Hfuse & ->)].
  - eexists. split; [reflexivity|]. reflexivity.
  - eexists. split; [reflexivity|]. cbn.
    destruct (fuse_channel_spec _ _ _ _ _ _ _ _ Hfuse) as (Lv & Lf & _ & Hb & _).
    destruct (graph_channel_returns c gm query mode k) as (gh' & Hg' & Hgb).
    rewrite Hg in Hg'. injection Hg' as <-.
    split; [reflexivity|]. split; [reflexivity|]. split; [exact (Hb Hk)|].
    split; [exact (Hgb Hk)|]. split; intros hits Hhits.
    + rewrite Lv. rewrite Hhits in Hv.
      destruct (mode_in mode ["all"; "semantic"; "vector"]); injection Hv as <-; simpl; lia.
    + rewrite Lf. rewrite Hhits in Hf.
      destruct (mode_in mode ["all"; "fuzzy"; "lexical"]); injection Hf as <-; simpl; lia.
Qed.

(** X16, for one requested result from searches that return two hits
    each. *)
Lemma hybrid_retrieve_respects_k_witness :
  exists r,
    hybrid_retrieve healthy empty_memory 60 10 "t0" "parse" "all" None (Some 1)
    = Some (Ok r) /\
    match r with
    | Retrieved res =>
        RAG.query res = "parse" /\ RAG.mode res = "all" /\
        Z.of_nat (length (fused_results res)) <= 1 /\
        Z.of_nat (length (graph_results res)) <= 1 /\
        (forall hits, query_semantic healthy "parse" (1 * 2) None = Ok hits ->
           (length (vector_results res) <= length hits)%nat) /\
        (forall hits, RAG.query_fuzzy healthy "parse" (1 * 2) = Ok hits ->
           (length (fuzzy_results res) <= length hits)%nat)
    | Failed _ q => q = "parse"
    end.
Proof.
  apply (hybrid_retrieve_respects_k healthy empty_memory 60 10 "t0" "parse" "all" None 1).
  lia.
Defined.

(** X17.  In a mode other than ["all"] nothing is fused and no hit is
    touched: when [hybrid_retrieve] returns the result dictionary,
    [fused_results] is empty, and each of [vector_results] and
    [fuzzy_results] is either empty or exactly the list its search
    returned for [2 * k], neither annotated nor cut to [k]. *)
Theorem other_modes_return_hits_as_found
    (c : collaborators) (gm : NeuralGraphMemory) (rrf_k default_k : Z) (now : string)
    (query mode : string) (pilot : option string) (k : Z) (res : results) :
  mode <> "all" ->
  hybrid_retrieve c gm rrf_k default_k now query mode pilot (Some k)
  = Some (Ok (Retrieved res)) ->
  fused_results res = [] /\
  (vector_results res = [] \/
   query_semantic c query (k * 2) pilot = Ok (vector_results res)) /\
  (fuzzy_results res = [] \/
   RAG.query_fuzzy c query (k * 2) = Ok (fuzzy_results res)).
Proof.
  intros Hmode Hrun.
  destruct (hybrid_retrieve_cases c gm rrf_k default_k now query mode pilot (Some k))
    as [(e & He)|(vs & fs & gh & vs' & fs' & fused & Hv & Hf & Hg & Hfuse & He)];
    rewrite He in Hrun; [discriminate|].
  injection Hrun as <-. cbn.
  destruct (fuse_channel_spec _ _ _ _ _ _ _ _ Hfuse) as (_ & _ & Hsame & _).
  destruct (Hsame Hmode) as (-> & -> & ->).
  split; [reflexivity|]. split.
  - destruct (mode_in mode ["all"; "semantic"; "vector"]); [right; exact Hv|].
    left. congruence.
  - destruct (mode_in mode ["all"; "fuzzy"; "lexical"]); [right; exact Hf|].
    left. congruence.
Qed.

(** X17, in mode ["semantic"]: the two vector hits come back as they are
    although one result was asked for. *)
Lemma other_modes_return_hits_as_found_witness :
  let res := {| RAG.query := "parse"; RAG.mode := "semantic"; RAG.pilot_id := None;
                timestamp := "t0";
                vector_results := two_vector_hits; fuzzy_results := [];
                graph_results := []; fused_results := [] |} in
  fused_results res = [] /\
  (vector_results res = [] \/
   query_semantic healthy "parse" (1 * 2) None = Ok (vector_results res)) /\
  (fuzzy_results res = [] \/
   RAG.query_fuzzy healthy "parse" (1 * 2) = Ok (fuzzy_results res)).
Proof.
  intros res.
  apply (other_modes_return_hits_as_found healthy empty_memory 60 10 "t0" "parse"
           "semantic" None 1 res).
  - discriminate.
  - reflexivity.
Defined.

(** X18.  A mode that is none of ["all"], ["semantic"], ["vector"],
    ["fuzzy"], ["lexical"] and ["graph"] is not an error: no search is
    run and [hybrid_retrieve] returns the result dictionary with four
    empty lists. *)
Theorem unknown_mode_retrieves_nothing
    (c : collaborators) (gm : NeuralGraphMemory) (rrf_k default_k : Z) (now : string)
    (query mode : string) (pilot : option string) (k : option Z) :
  mode_in mode ["all"; "semantic"; "vector"; "fuzzy"; "lexical"; "graph"] = false ->
  hybrid_retrieve c gm rrf_k default_k now query mode pilot k
  = Some (Ok (Retrieved
                {| RAG.query := query; RAG.mode := mode; RAG.pilot_id := pilot;
                   timestamp := now;
                   vector_results := []; fuzzy_results := [];
                   graph_results := []; fused_results := [] |})).
Proof.
  unfold mode_in. cbn [existsb]. intros H.
  repeat (apply orb_false_elim in H; destruct H as [? H]).
  unfold hybrid_retrieve, hybrid_retrieve_body, graph_channel, fuse_channel, mode_in.
  cbn [existsb].
  repeat match goal with
         | E : String.eqb mode _ = false |- _ => rewrite E; clear E
         end.
  reflexivity.
Qed.

(** X18, for the mode ["hybrid"]. *)
Lemma unknown_mode_retrieves_nothing_witness :
  hybrid_retrieve healthy empty_memory 60 10 "t0" "parse" "hybrid" None None
  = Some (Ok (Retrieved
                {| RAG.query := "parse"; RAG.mode := "hybrid"; RAG.pilot_id := None;
                   timestamp := "t0";
                   vector_results := []; fuzzy_results := [];
                   graph_results := []; fused_results := [] |})).
Proof.
  apply (unknown_mode_retrieves_nothing healthy empty_memory 60 10 "t0" "parse" "hybrid"
           None None).
  reflexivity.
Defined.

(** The chunks of the context after a retrieval in mode ["all"] with
    [k >= 0]: the fallback to the two single lists adds nothing. *)
Lemma context_is_fused c gm rrf_k default_k now query pilot k r :
  0 <= k ->
  hybrid_retrieve c gm rrf_k default_k now query "all" pilot (Some k) = Some (Ok r) ->
  context_chunks r k = match r with
                       | Retrieved res => fused_results res
                       | Failed _ _ => []
                       end /\
  Z.of_nat (length (context_chunks r k)) <= k.
Proof.
  intros Hk Hrun.
  destruct (hybrid_retrieve_cases c gm rrf_k default_k now query "all" pilot (Some k))
    as [(e & He)|(vs & fs & gh & vs' & fs' & fused & Hv & Hf & Hg & Hfuse & He)];
    rewrite He in Hrun; injection Hrun as <-.
  - unfold context_chunks. simpl. split; [|apply slice_to_bound; exact Hk].
    unfold slice_to. destruct (0 <=? k); destruct (Z.to_nat k); reflexivity.
  - destruct (fuse_channel_spec _ _ _ _ _ _ _ _ Hfuse) as (Lv & Lf & _ & Hb & Hne).
    unfold context_chunks.
    cbn [get_fused get_vector get_fuzzy fused_results vector_results fuzzy_results].
    destruct fused as [|x fused]; [|split; [reflexivity | exact (Hb Hk)]].
    assert (Hnil : slice_to (vs' ++ fs') k = []).
    { destruct (Z.eq_dec k 0) as [->|Hk0].
      - unfold slice_to. reflexivity.
      - assert (E : vs ++ fs = []) by (apply Hne; [reflexivity | lia | reflexivity]).
        apply app_eq_nil in E. destruct E as [-> ->].
        destruct vs'; [|discriminate]. destruct fs'; [|discriminate].
        unfold slice_to. destruct (0 <=? k); destruct (Z.to_nat k); reflexivity. }
    rewrite Hnil. split; [reflexivity | simpl; lia].
Qed.

(** X19.  With [k >= 0], [query_rag] returns a dictionary whatever the
    searches and the generators do.  In the full result the retrieval is
    what [hybrid_retrieve] returned in mode ["all"]; the chunks of the
    context are its fused results, so at most [k], the fallback to the
    two single lists adding nothing; the sources counted are at most the
    chunks; with a chunk the answer comes from [generate_response] on
    the fused results, and without one from [chat_completion] on the
    bare query, with [context_chunks = 0] and [sources = []] written
    into it. *)
Theorem query_rag_answers_from_the_fused_results
    (g : generators) (c : collaborators) (gm : NeuralGraphMemory) (rrf_k default_k : Z)
    (now query : string) (k : Z) (task_type : string) (pilot : option string)
    (graph : bool) :
  0 <= k ->
  exists res,
    query_rag g c gm rrf_k default_k now query k task_type pilot graph = Some (Ok res) /\
    match res with
    | Answered q response retrieved generation metadata =>
        q = query /\
        hybrid_retrieve c gm rrf_k default_k now query "all" pilot (Some k)
        = Some (Ok retrieved) /\
        response = get_default generation "response" (VStr "") /\
        0 <= sources_used metadata /\
        sources_used metadata <= total_chunks_retrieved metadata /\
        total_chunks_retrieved metadata <= k /\
        match retrieved with
        | Retrieved r =>
            total_chunks_retrieved metadata = Z.of_nat (length (fused_results r)) /\
            (fused_results r <> [] ->
             generation = generate_response g query (fused_results r) task_type pilot)
        | Failed _ _ => total_chunks_retrieved metadata = 0
        end /\
        (total_chunks_retrieved metadata = 0 ->
         generation = sset (sset (chat_completion g (user_message query) task_type)
                              "context_chunks" (VInt 0))
                        "sources" (VList []))
    | Apology q _ response =>
        q = query /\
        response = "I apologize, but I encountered an error processing your request."
    end.
Proof.
  intros Hk. unfold query_rag.
  destruct (hybrid_retrieve c gm rrf_k default_k now query "all" pilot (Some k))
    as [[r|e]|] eqn:Hrun.
  2,3: destruct (hybrid_retrieve_cases c gm rrf_k default_k now query "all" pilot (Some k))
         as [(e' & He)|(vs & fs & gh & vs' & fs' & fused & _ & _ & _ & _ & He)];
       rewrite He in Hrun; discriminate.
  destruct (context_is_fused _ _ _ _ _ _ _ _ _ Hk Hrun) as (Hchunks & Hbound).
  cbn [bind]. unfold query_rag_body. cbv zeta.
  set (chunks := context_chunks r k) in *. clearbody chunks.
  destruct (count_distinct []
              (map (fun chunk => get_default chunk "file_path" (VStr "")) chunks))
    as [n|e] eqn:Hcount; cbn [bind try_except].
  2: { eexists. split; [reflexivity|]. split; reflexivity. }
  apply count_distinct_bound in Hcount. rewrite length_map in Hcount. cbn [length] in Hcount.
  change (@length (list (string * value)) chunks) with (@length record chunks) in Hcount.
  eexists. split; [reflexivity|]. cbn.
  split; [reflexivity|]. split; [reflexivity|]. split; [reflexivity|].
  split; [lia|]. split; [lia|]. split; [exact Hbound|]. split.
  - destruct r as [res|err q].
    + rewrite Hchunks. split; [reflexivity|].
      intros Hne. destruct (fused_results res); [contradiction | reflexivity].
    + rewrite Hchunks. reflexivity.
  - intros H0. destruct chunks; [reflexivity | simpl in H0; lia].
Qed.

(** X19, for ten results from searches that answer. *)
Lemma query_rag_answers_from_the_fused_results_witness :
  exists res,
    query_rag echo healthy empty_memory 60 10 "t0" "parse" 10 "general" None true
    = Some (Ok res) /\
    match res with
    | Answered q response retrieved generation metadata =>
        q = "parse" /\
        hybrid_retrieve healthy empty_memory 60 10 "t0" "parse" "all" None (Some 10)
        = Some (Ok retrieved) /\
        response = get_default generation "response" (VStr "") /\
        0 <= sources_used metadata /\
        sources_used metadata <= total_chunks_retrieved metadata /\
        total_chunks_retrieved metadata <= 10 /\
        match retrieved with
        | Retrieved r =>
            total_chunks_retrieved metadata = Z.of_nat (length (fused_results r)) /\
            (fused_results r <> [] ->
             generation = generate_response echo "parse" (fused_results r) "general" None)
        | Failed _ _ => total_chunks_retrieved metadata = 0
        end /\
        (total_chunks_retrieved metadata = 0 ->
         generation = sset (sset (chat_completion echo (user_message "parse") "general")
                              "context_chunks" (VInt 0))
                        "sources" (VList []))
    | Apology q _ response =>
        q = "parse" /\
        response = "I apologize, but I encountered an error processing your request."
    end.
Proof.
  apply (query_rag_answers_from_the_fused_results echo healthy empty_memory 60 10 "t0"
           "parse" 10 "general" None true).
  lia.
Defined.

(** X20.  When [hybrid_retrieve] returns its error dictionary,
    [query_rag] does not apologise: the error dictionary is taken for a
    retrieval without results, the answer is generated by
    [chat_completion] from the bare query, and the result reports the
    error only under ["retrieval"], with no chunk and no source.
    [hybrid_retrieve] returns the error dictionary when the fusion
    raises, as it does on a hit without [doc_id]. *)
Theorem query_rag_answers_without_context_when_the_retrieval_fails
    (g : generators) (c : collaborators) (gm : NeuralGraphMemory) (rrf_k default_k : Z)
    (now query : string) (k : Z) (task_type : string) (pilot : option string)
    (graph : bool) (error failed_query : string) :
  hybrid_retrieve c gm rrf_k default_k now query "all" pilot (Some k)
  = Some (Ok (Failed error failed_query)) ->
  let generation :=
    sset (sset (chat_completion g (user_message query) task_type)
            "context_chunks" (VInt 0))
      "sources" (VList []) in
  query_rag g c gm rrf_k default_k now query k task_type pilot graph
  = Some (Ok (Answered query
                (get_default generation "response" (VStr ""))
                (Failed error failed_query)
                generation
                {| total_chunks_retrieved := 0;
                   sources_used := 0;
                   meta_task_type := task_type;
                   meta_pilot_id := pilot;
                   include_graph := graph;
                   processing_time := None |})).
Proof.
  intros H generation. unfold query_rag. rewrite H.
  cbn [bind]. unfold query_rag_body, context_chunks. cbn [get_fused get_vector get_fuzzy app].
  assert (Hnil : slice_to (@nil record) k = []).
  { unfold slice_to. destruct (0 <=? k); destruct (Z.to_nat k); reflexivity. }
  rewrite Hnil. reflexivity.
Qed.

(** X20, for a pilot with conversation memory: the vector search
    returns two chunks and, behind them, an utterance of the pilot, a
    hit without [doc_id]; the fusion raises [KeyError] on it. *)
Lemma query_rag_answers_without_context_when_the_retrieval_fails_witness :
  query_rag echo (Managers.managers Managers.with_memory Managers.no_match Managers.no_nodes)
    empty_memory 60 10 "t0" "parse" 10 "general" (Some "p1") true
  = Some (Ok (Answered "parse"
                (VStr "without context")
                (Failed "'doc_id'" "parse")
                [("response", VStr "without context"); ("context_chunks", VInt 0);
                 ("sources", VList [])]
                {| total_chunks_retrieved := 0;
                   sources_used := 0;
                   meta_task_type := "general";
                   meta_pilot_id := Some "p1";
                   include_graph := true;
                   processing_time := None |})).
Proof.
  apply (query_rag_answers_without_context_when_the_retrieval_fails echo
           (Managers.managers Managers.with_memory Managers.no_match Managers.no_nodes)
           empty_memory 60 10 "t0" "parse" 10 "general" (Some "p1") true
           "'doc_id'" "parse").
  vm_compute. reflexivity.
Defined.

(** X21.  [_prepare_context] keeps a prefix of the chunks: the parts it
    joins are the formatted first [n] chunks, in order; unless there is
    no part, their lengths add up to at most [max_length]; and the
    prefix is as long as the bound allows, a chunk after it would pass
    the bound.  Chunks behind the first that does not fit are never
    looked at. *)
Theorem prepare_context_keeps_the_longest_fitting_prefix
    (py_str : value -> string) (chunks : list record) (max_length : Z) :
  exists n,
    (n <= length chunks)%nat /\
    let parts := map (format_chunk py_str) (firstn n chunks) in
    _prepare_context py_str chunks max_length = join (nl ++ "---" ++ nl) parts /\
    (parts = [] \/ total_length parts <= max_length) /\
    (forall chunk, nth_error chunks n = Some chunk ->
       max_length < total_length parts + len (format_chunk py_str chunk)).
Proof.
  destruct (context_loop_spec py_str max_length chunks [] 0) as (n & Hn & Hrun & Hfit & Hnext).
  exists n. split; [exact Hn|]. cbv zeta. unfold _prepare_context. rewrite Hrun.
  split; [reflexivity|]. split.
  - destruct Hfit as [->|Hfit]; [left; reflexivity | right; lia].
  - intros chunk Hchunk. specialize (Hnext chunk Hchunk). lia.
Qed.

(** X22.  The bound of [_prepare_context] does not count the separators:
    with at least one part, the text is as long as its parts together
    plus five characters between any two of them, which can be more than
    [max_length]. *)
Theorem prepared_context_length
    (py_str : value -> string) (chunks : list record) (max_length : Z) :
  let parts := context_loop py_str chunks max_length [] 0 in
  parts <> [] ->
  len (_prepare_context py_str chunks max_length)
  = total_length parts + 5 * (Z.of_nat (length parts) - 1).
Proof.
  intros parts Hne. unfold _prepare_context. fold parts.
  rewrite (join_length _ parts Hne). reflexivity.
Qed.

(** X22, for three chunks of which two fit into 64 characters exactly:
    the text has 69. *)
Lemma prepared_context_length_witness :
  len (_prepare_context str_of_text three_chunks 64) = 64 + 5 * (2 - 1).
Proof.
  apply (prepared_context_length str_of_text three_chunks 64).
  discriminate.
Defined.

End RagProps.
Import ManagerFacts.

(** ** Properties of the retrieval orchestrator *)

Module RAGClaims.
Import Managers.




End RAGClaims.
Import Grok.

(** ** Facts about the key rotation *)

Module GrokFacts.

(** *** Dictionaries with string keys *)

Lemma sget_key_In {V} (d : list (string * V)) k :
  In k (map fst d) <-> exists v, sget d k = Some v.
Proof.
  unfold sget. induction d as [|[k0 v0] d IH]; simpl.
  - split; [intros [] | intros (v & H); discriminate].
  - destruct (String.eqb_spec k0 k) as [->|Hne].
    + split; [intros _; eauto | intros _; left; reflexivity].
    + rewrite <- IH. split; [intros [H|H]; [contradiction | exact H] | intros H; right; exact H].
Qed.

Lemma sset_keys {V} (d : list (string * V)) k v :
  In k (map fst d) -> map fst (sset d k v) = map fst d.
Proof.
  unfold sset. induction d as [|[k0 v0] d IH]; simpl; [intros []|].
  destruct (String.eqb_spec k0 k) as [->|Hne]; [reflexivity|].
  intros [H|H]; [contradiction|]. simpl. rewrite (IH H). reflexivity.
Qed.

Lemma dict_mem_In {V} (d : list (string * V)) k :
  dict_mem String.eqb d k = true <-> In k (map fst d).
Proof.
  rewrite sget_key_In. unfold dict_mem, sget.
  destruct (dict_get String.eqb d k) as [v|].
  - split; [eauto | reflexivity].
  - split; [discriminate | intros (v & H); discriminate].
Qed.

Lemma dict_del_keys {V} (d : list (string * V)) k k' :
  In k' (map fst (dict_del d k)) <-> In k' (map fst d) /\ k' <> k.
Proof.
  unfold dict_del. rewrite !in_map_iff. split.
  - intros ([k0 v0] & <- & Hin). apply filter_In in Hin. destruct Hin as (Hin & Hk).
    simpl in *. split; [exists (k0, v0); auto|].
    intros ->. rewrite String.eqb_refl in Hk. discriminate.
  - intros (([k0 v0] & <- & Hin) & Hne). exists (k0, v0). split; [reflexivity|].
    apply filter_In. split; [exact Hin|]. simpl in *.
    apply negb_true_iff, String.eqb_neq. exact Hne.
Qed.

(** *** Positions in the list of key names *)

Lemma index_None keys k : index keys k = None <-> ~ In k keys.
Proof.
  induction keys as [|k0 keys IH]; simpl.
  - split; [intros _ [] | reflexivity].
  - destruct (String.eqb_spec k0 k) as [->|Hne].
    + split; [discriminate | intros H; exfalso; apply H; left; reflexivity].
    + destruct (index keys k) as [i|].
      * split; [discriminate|]. intros H. exfalso. apply H. right.
        destruct (in_dec string_dec k keys) as [Hin|Hout]; [exact Hin|].
        apply IH in Hout. discriminate.
      * split; [|reflexivity]. intros _ [H|H]; [contradiction|].
        exact (proj1 IH eq_refl H).
Qed.

Lemma index_Some keys k i :
  index keys k = Some i -> (i < length keys)%nat /\ nth i keys "" = k.
Proof.
  revert i. induction keys as [|k0 keys IH]; intros i; simpl; [discriminate|].
  destruct (String.eqb_spec k0 k) as [->|Hne].
  - intros [= <-]. split; [lia | reflexivity].
  - destruct (index keys k) as [j|]; [|discriminate].
    intros [= <-]. destruct (IH j eq_refl) as (Hj & Hnth). split; [lia | exact Hnth].
Qed.

Lemma mod_wrap (n ci i : nat) :
  (ci < n)%nat -> (i < n)%nat ->
  ((ci + i) mod n = if ci + i <? n then ci + i else ci + i - n)%nat.
Proof.
  intros Hci Hi. destruct (Nat.ltb_spec (ci + i) n) as [Hlt|Hge].
  - apply Nat.mod_small. exact Hlt.
  - symmetry. apply (Nat.mod_unique (ci + i) n 1); lia.
Qed.

Lemma key_after_In keys ci i : keys <> [] -> In (key_after keys ci i) keys.
Proof.
  intros Hne. unfold key_after. apply nth_In. apply Nat.mod_upper_bound.
  destruct keys; [contradiction | simpl; lia].
Qed.

Lemma key_after_inj keys ci i j :
  NoDup keys -> (ci < length keys)%nat -> (i < length keys)%nat -> (j < length keys)%nat ->
  key_after keys ci i = key_after keys ci j -> i = j.
Proof.
  intros Hnd Hci Hi Hj. unfold key_after. intros Heq.
  assert (Hn : length keys <> 0%nat) by lia.
  apply (proj1 (NoDup_nth keys "") Hnd) in Heq;
    try (apply Nat.mod_upper_bound; exact Hn).
  rewrite !mod_wrap in Heq by assumption.
  destruct (Nat.ltb_spec (ci + i) (length keys)), (Nat.ltb_spec (ci + j) (length keys)); lia.
Qed.

Lemma key_after_0 keys ci k :
  (ci < length keys)%nat -> nth ci keys "" = k -> key_after keys ci 0 = k.
Proof.
  intros Hci Hk. unfold key_after. rewrite Nat.add_0_r, Nat.mod_small by exact Hci.
  exact Hk.
Qed.

(** Every other key name is some places after the current one. *)
Lemma key_after_covers keys ci k' :
  (ci < length keys)%nat -> In k' keys -> k' <> nth ci keys "" ->
  exists i, (1 <= i < length keys)%nat /\ key_after keys ci i = k'.
Proof.
  intros Hci Hin Hne.
  destruct (In_nth keys k' "" Hin) as (j & Hj & Hnth).
  assert (Hjc : j <> ci) by (intros ->; apply Hne; symmetry; exact Hnth).
  exists (if ci <? j then j - ci else j + length keys - ci)%nat.
  unfold key_after.
  destruct (Nat.ltb_spec ci j) as [Hlt|Hge].
  - split; [lia|]. rewrite mod_wrap by lia.
    destruct (Nat.ltb_spec (ci + (j - ci)) (length keys)); [|lia].
    replace (ci + (j - ci))%nat with j by lia. exact Hnth.
  - split; [lia|]. rewrite mod_wrap by lia.
    destruct (Nat.ltb_spec (ci + (j + length keys - ci)) (length keys)); [lia|].
    replace (ci + (j + length keys - ci) - length keys)%nat with j by lia. exact Hnth.
Qed.

Lemma seq_split a m pre i post :
  seq a m = pre ++ i :: post -> pre = seq a (i - a) /\ (a <= i < a + m)%nat.
Proof.
  revert a m. induction pre as [|p pre IH]; intros a m.
  - destruct m as [|m]; simpl; [discriminate|]. intros [= <- _].
    rewrite Nat.sub_diag. split; [reflexivity | lia].
  - destruct m as [|m]; simpl; [discriminate|]. intros [= <- Hrest].
    destruct (IH _ _ Hrest) as (-> & Hi). split; [|lia].
    replace (i - a)%nat with (S (i - S a)) by lia. reflexivity.
Qed.

(** *** The smallest by a key *)

Lemma Qlt_bool_true a b : Qlt_bool a b = true -> (a <= b)%Q.
Proof.
  unfold Qlt_bool. intros H. apply negb_true_iff in H.
  destruct (Qlt_le_dec a b) as [Hlt|Hle]; [apply Qlt_le_weak; exact Hlt|].
  apply Qle_bool_iff in Hle. congruence.
Qed.

Lemma Qlt_bool_false a b : Qlt_bool a b = false -> (b <= a)%Q.
Proof.
  unfold Qlt_bool. intros H. apply negb_false_iff in H. apply Qle_bool_iff. exact H.
Qed.

Lemma min_from_spec f ks : forall best,
  In (min_from f best ks) (best :: ks) /\
  forall x, In x (best :: ks) -> (f (min_from f best ks) <= f x)%Q.
Proof.
  induction ks as [|k ks IH]; intros best; simpl.
  - split; [left; reflexivity|]. intros x [<-|[]]. apply Qle_refl.
  - destruct (Qlt_bool (f k) (f best)) eqn:E.
    + destruct (IH k) as (Hin & Hmin). split.
      * destruct Hin as [H|H]; [right; left; exact H | right; right; exact H].
      * intros x [<-|[<-|Hx]].
        -- apply Qle_trans with (f k); [apply Hmin; left; reflexivity|].
           apply Qlt_bool_true. exact E.
        -- apply Hmin. left. reflexivity.
        -- apply Hmin. right. exact Hx.
    + destruct (IH best) as (Hin & Hmin). split.
      * destruct Hin as [H|H]; [left; exact H | right; right; exact H].
      * intros x [<-|[<-|Hx]].
        -- apply Hmin. left. reflexivity.
        -- apply Qle_trans with (f best); [apply Hmin; left; reflexivity|].
           apply Qlt_bool_false. exact E.
        -- apply Hmin. right. exact Hx.
Qed.

(** *** One check of a key *)

Lemma should_rotate_spec time self tick key :
  demo_mode self = false -> In key (map fst (rate_limits self)) ->
  exists b self' rate_info rate_info',
    _should_rotate_key time self tick key = (Ok b, self', S tick) /\
    api_keys self' = api_keys self /\ demo_mode self' = false /\
    current_key self' = current_key self /\
    max_requests_per_minute self' = max_requests_per_minute self /\
    map fst (rate_limits self') = map fst (rate_limits self) /\
    (forall k', k' <> key -> sget (rate_limits self') k' = sget (rate_limits self) k') /\
    sget (rate_limits self) key = Some rate_info /\
    sget (rate_limits self') key = Some rate_info' /\
    rate_info' = (if Qlt_bool 60 (time tick - reset_time rate_info)
                  then {| requests := 0; reset_time := time tick |}
                  else rate_info) /\
    b = (max_requests_per_minute self <=? requests rate_info').
Proof.
  intros Hdemo Hin. unfold _should_rotate_key. rewrite Hdemo.
  destruct (proj1 (sget_key_In _ _) Hin) as (ri & Hri). rewrite Hri. cbv zeta.
  destruct (Qlt_bool 60 (time tick - reset_time ri)) eqn:E.
  - exists (max_requests_per_minute self <=? 0),
      (set_rate_limits self (sset (rate_limits self) key
                               {| requests := 0; reset_time := time tick |})),
      ri, {| requests := 0; reset_time := time tick |}.
    rewrite E. cbn.
    split; [reflexivity|]. split; [reflexivity|]. split; [exact Hdemo|].
    split; [reflexivity|]. split; [reflexivity|].
    split; [apply sset_keys; exact Hin|].
    split; [intros k' Hk'; apply RRFFacts.sget_sset_other; congruence|].
    split; [try reflexivity; exact Hri|]. split; [apply RRFFacts.sget_sset_same|].
    split; reflexivity.
  - exists (max_requests_per_minute self <=? requests ri), self, ri, ri.
    rewrite E.
    repeat split; try reflexivity; try exact Hri; exact Hdemo.
Qed.

Lemma limited_frame self self' k :
  max_requests_per_minute self' = max_requests_per_minute self ->
  sget (rate_limits self') k = sget (rate_limits self) k ->
  limited self k -> limited self' k.
Proof. unfold limited. intros -> ->. auto. Qed.

(** *** The loop over the other keys *)

Section Loop.
Variables (time : nat -> Q) (keys : list string) (ci : nat).

Lemma rotate_loop_spec range : forall self tick,
  demo_mode self = false ->
  (forall i, In i range -> In (key_after keys ci i) (map fst (rate_limits self))) ->
  exists b self' checked,
    rotate_loop time keys ci range self tick = (Ok b, self', (tick + length checked)%nat) /\
    api_keys self' = api_keys self /\ demo_mode self' = false /\
    max_requests_per_minute self' = max_requests_per_minute self /\
    map fst (rate_limits self') = map fst (rate_limits self) /\
    (forall k', (forall i, In i checked -> key_after keys ci i <> k') ->
                sget (rate_limits self') k' = sget (rate_limits self) k') /\
    if b then
      exists pre i post,
        range = pre ++ i :: post /\ checked = pre ++ [i] /\
        current_key self' = Some (key_after keys ci i) /\
        free self' (key_after keys ci i) /\
        forall j, In j pre -> key_after keys ci j <> key_after keys ci i ->
                  limited self' (key_after keys ci j)
    else
      checked = range /\ current_key self' = current_key self /\
      forall i, In i range -> limited self' (key_after keys ci i).
Proof.
  induction range as [|i rest IH]; intros self tick Hdemo Hmem.
  - exists false, self, []. simpl. rewrite Nat.add_0_r.
    repeat split; try reflexivity; try assumption. intros i [].
  - cbn [rotate_loop]. cbv zeta. fold (key_after keys ci i).
    destruct (should_rotate_spec time self tick (key_after keys ci i) Hdemo
                (Hmem i (or_introl eq_refl)))
      as (b & s1 & ri & ri' & Hrun & Hapi & Hdemo1 & Hcur & Hmax & Hkeys & Hframe
          & Hri & Hri' & _ & Hb).
    rewrite Hrun. destruct b.
    + (* the key is at its limit: the loop goes on *)
      assert (Hlim1 : limited s1 (key_after keys ci i)).
      { exists ri'. split; [exact Hri'|]. rewrite Hmax. apply Z.leb_le. symmetry. exact Hb. }
      destruct (IH s1 (S tick) Hdemo1) as (b & s2 & checked & Hrun2 & Hapi2 & Hdemo2 & Hmax2
                                            & Hkeys2 & Hframe2 & Hres).
      { intros j Hj. rewrite Hkeys. apply Hmem. right. exact Hj. }
      exists b, s2, (i :: checked). rewrite Hrun2.
      split; [f_equal; simpl; lia|].
      split; [congruence|]. split; [exact Hdemo2|]. split; [congruence|].
      split; [congruence|]. split.
      { intros k' Hk'. rewrite Hframe2, Hframe.
        - reflexivity.
        - intros ->. apply (Hk' i); [left; reflexivity | reflexivity].
        - intros j Hj. apply Hk'. right. exact Hj. }
      destruct b.
      * destruct Hres as (pre & i' & post & -> & -> & Hcur2 & Hfree & Hpre).
        exists (i :: pre), i', post.
        split; [reflexivity|]. split; [reflexivity|]. split; [exact Hcur2|].
        split; [exact Hfree|].
        intros j [<-|Hj] Hne; [|exact (Hpre j Hj Hne)].
        destruct (in_dec string_dec (key_after keys ci i) (map (key_after keys ci) pre))
          as [Hin|Hout].
        -- apply in_map_iff in Hin. destruct Hin as (j & Hkj & Hj).
           rewrite <- Hkj. apply Hpre; [exact Hj | rewrite Hkj; exact Hne].
        -- apply (limited_frame s1); [exact Hmax2 | | exact Hlim1].
           apply Hframe2. intros j Hj Heq. apply in_app_or in Hj.
           destruct Hj as [Hj|[<-|[]]].
           ++ apply Hout. apply in_map_iff. exists j. auto.
           ++ apply Hne. symmetry. exact Heq.
      * destruct Hres as (-> & Hcur2 & Hall).
        split; [reflexivity|]. split; [congruence|].
        intros j [<-|Hj]; [|exact (Hall j Hj)].
        destruct (in_dec string_dec (key_after keys ci i) (map (key_after keys ci) rest))
          as [Hin|Hout].
        -- apply in_map_iff in Hin. destruct Hin as (j & Hkj & Hj).
           rewrite <- Hkj. exact (Hall j Hj).
        -- apply (limited_frame s1); [exact Hmax2 | | exact Hlim1].
           apply Hframe2. intros j Hj Heq. apply Hout. apply in_map_iff. exists j. auto.
    + (* the key has requests left: it becomes the current key *)
      exists true, (set_current_key s1 (Some (key_after keys ci i))), [i].
      split; [f_equal; simpl; lia|]. cbn.
      split; [exact Hapi|]. split; [exact Hdemo1|]. split; [exact Hmax|].
      split; [exact Hkeys|]. split.
      { intros k' Hk'. apply Hframe. intros ->.
        apply (Hk' i); [left; reflexivity | reflexivity]. }
      exists [], i, rest. split; [reflexivity|]. split; [reflexivity|].
      split; [reflexivity|]. split.
      * exists ri'. cbn. split; [exact Hri'|]. rewrite Hmax.
        apply Z.leb_gt. symmetry. exact Hb.
      * intros j [].
Qed.

End Loop.

End GrokFacts.
Import GrokFacts.

(** ** Properties of the key rotation *)

Module GrokProps.

Lemma Qlt_bool_iff a b : Qlt_bool a b = true <-> (a < b)%Q.
Proof.
  unfold Qlt_bool. rewrite negb_true_iff. split.
  - intros H. apply Qnot_le_lt. intros Hle. apply Qle_bool_iff in Hle. congruence.
  - intros H. destruct (Qle_bool b a) eqn:E; [|reflexivity].
    apply Qle_bool_iff in E. exfalso. exact (Qlt_not_le _ _ H E).
Qed.

(** X23.  [_should_rotate_key] on a key with an entry, outside demo
    mode, reads the clock once and answers whether the key is at its
    limit after the check.  A window older than 60 seconds is restarted
    at the time read, with the counter at 0, so that the stored window
    is never older than 60 seconds afterwards; a younger window is left
    as it is.  The entries of the other keys, the order of the entries,
    the keys and the current key do not change. *)
Theorem should_rotate_key_restarts_an_expired_window
    (time : nat -> Q) (self : GrokAPIClient) (tick : nat) (key : string)
    (rate_info : rate_info) :
  demo_mode self = false ->
  sget (rate_limits self) key = Some rate_info ->
  exists answer self' rate_info',
    _should_rotate_key time self tick key = (Ok answer, self', S tick) /\
    sget (rate_limits self') key = Some rate_info' /\
    (answer = true <-> limited self' key) /\
    (time tick - reset_time rate_info' <= 60)%Q /\
    ((60 < time tick - reset_time rate_info)%Q ->
     rate_info' = {| requests := 0; reset_time := time tick |}) /\
    ((time tick - reset_time rate_info <= 60)%Q -> self' = self) /\
    (forall k', k' <> key -> sget (rate_limits self') k' = sget (rate_limits self) k') /\
    map fst (rate_limits self') = map fst (rate_limits self) /\
    api_keys self' = api_keys self /\
    current_key self' = current_key self.
Proof.
  intros Hdemo Hri.
  assert (Hin : In key (map fst (rate_limits self))).
  { apply sget_key_In. eauto. }
  destruct (should_rotate_spec time self tick key Hdemo Hin)
    as (b & s1 & ri & ri' & Hrun & Hapi & _ & Hcur & Hmax & Hkeys & Hframe & Hri0 & Hri'
        & Hdef & Hb).
  rewrite Hri in Hri0. injection Hri0 as <-.
  exists b, s1, ri'. split; [exact Hrun|]. split; [exact Hri'|].
  split.
  { unfold limited. rewrite Hmax, Hri', Hb. split.
    - intros H. exists ri'. split; [reflexivity | apply Z.leb_le; exact H].
    - intros (r & [= <-] & H). apply Z.leb_le. exact H. }
  destruct (Qlt_bool 60 (time tick - reset_time rate_info)) eqn:E.
  - split.
    { rewrite Hdef. cbn. unfold Qminus. rewrite Qplus_opp_r. discriminate. }
    split; [intros _; exact Hdef|]. split.
    { intros Hle. apply Qlt_bool_iff in E. exfalso. exact (Qlt_not_le _ _ E Hle). }
    auto.
  - assert (Hle : (time tick - reset_time rate_info <= 60)%Q).
    { apply Qnot_lt_le. intros Hlt. apply Qlt_bool_iff in Hlt. congruence. }
    split; [rewrite Hdef; exact Hle|]. split.
    { intros Hlt. exfalso. exact (Qlt_not_le _ _ Hlt Hle). }
    split; [|auto].
    intros _. revert Hrun. unfold _should_rotate_key. rewrite Hdemo, Hri. cbv zeta.
    rewrite E. intros [= _ <-]. reflexivity.
Qed.

(** X23, for the second key of the example at 130 seconds: its window
    of 90 seconds is restarted and the key is free again. *)
Lemma should_rotate_key_restarts_an_expired_window_witness :
  exists answer self' rate_info',
    _should_rotate_key at_130 two_keys 0 "general" = (Ok answer, self', 1%nat) /\
    sget (rate_limits self') "general" = Some rate_info' /\
    (answer = true <-> limited self' "general") /\
    (at_130 0%nat - reset_time rate_info' <= 60)%Q /\
    ((60 < at_130 0%nat - reset_time {| requests := 50; reset_time := 40 |})%Q ->
     rate_info' = {| requests := 0; reset_time := at_130 0%nat |}) /\
    ((at_130 0%nat - reset_time {| requests := 50; reset_time := 40 |} <= 60)%Q ->
     self' = two_keys) /\
    (forall k', k' <> "general" ->
                sget (rate_limits self') k' = sget (rate_limits two_keys) k') /\
    map fst (rate_limits self') = map fst (rate_limits two_keys) /\
    api_keys self' = api_keys two_keys /\
    current_key self' = current_key two_keys.
Proof.
  apply (should_rotate_key_restarts_an_expired_window at_130 two_keys 0 "general"
           {| requests := 50; reset_time := 40 |}).
  - reflexivity.
  - reflexivity.
Defined.

(** X24.  [_rotate_key] on a client whose current key is one of its
    keys, each key named once and with its entry in [rate_limits],
    returns and leaves a current key.  That key is the first one after
    the old current key, in the order of [api_keys] and wrapping around,
    that has requests left after its check, every key passed over being
    at its limit; or, when every other key is at its limit, the key of
    [rate_limits] whose window began first.  The keys themselves and the
    order of the entries do not change. *)
Theorem rotate_key_takes_the_next_free_key_or_the_oldest
    (time : nat -> Q) (self : GrokAPIClient) (tick : nat) (k : string) :
  ready self k ->
  exists k' self' tick',
    _rotate_key time self tick = (Ok tt, self', tick') /\
    current_key self' = Some k' /\
    api_keys self' = api_keys self /\
    map fst (rate_limits self') = map fst (rate_limits self) /\
    ((exists current_index i,
        index (map fst (api_keys self)) k = Some current_index /\
        (1 <= i < length (api_keys self))%nat /\
        k' = key_after (map fst (api_keys self)) current_index i /\
        k' <> k /\ In k' (map fst (api_keys self)) /\
        free self' k' /\
        forall j, (1 <= j < i)%nat ->
                  limited self' (key_after (map fst (api_keys self)) current_index j)) \/
     ((forall k'', In k'' (map fst (api_keys self)) -> k'' <> k -> limited self' k'') /\
      In k' (map fst (rate_limits self')) /\
      forall k'', In k'' (map fst (rate_limits self')) ->
                  (reset_time_of (rate_limits self') k'
                   <= reset_time_of (rate_limits self') k'')%Q)).
Proof.
  intros (Hdemo & Hcur & Hin & Hnd & Hmem).
  set (keys := map fst (api_keys self)) in *.
  assert (Hlen : length keys = length (api_keys self)) by apply length_map.
  destruct (index keys k) as [ci|] eqn:Hidx;
    [|apply index_None in Hidx; contradiction].
  destruct (index_Some _ _ _ Hidx) as (Hci & Hnth).
  assert (Hne : keys <> []) by (intros E; rewrite E in Hin; exact Hin).
  destruct (rotate_loop_spec time keys ci (seq 1 (length keys - 1)) self tick Hdemo)
    as (b & s1 & checked & Hrun & Hapi & Hdemo1 & Hmax & Hkeys & Hframe & Hres).
  { intros i _. apply dict_mem_In, Hmem. apply key_after_In. exact Hne. }
  unfold _rotate_key. rewrite Hdemo, Hcur. fold keys. cbv zeta. rewrite Hidx, Hrun.
  destruct b.
  - (* a key with requests left was found *)
    destruct Hres as (pre & i & post & Hsplit & _ & Hcur1 & Hfree & Hpre).
    destruct (seq_split _ _ _ _ _ Hsplit) as (Hpre_eq & Hi).
    exists (key_after keys ci i), s1. eexists. split; [reflexivity|].
    split; [exact Hcur1|]. split; [exact Hapi|]. split; [exact Hkeys|].
    left. exists ci, i. split; [reflexivity|]. split; [lia|]. split; [reflexivity|].
    split.
    { intros Heq. rewrite <- (key_after_0 keys ci k Hci Hnth) in Heq.
      apply key_after_inj in Heq; try assumption; lia. }
    split; [apply key_after_In; exact Hne|]. split; [exact Hfree|].
    intros j Hj. apply Hpre.
    + rewrite Hpre_eq. apply in_seq. lia.
    + intros Heq. apply key_after_inj in Heq; try assumption; lia.
  - (* every other key is at its limit *)
    destruct Hres as (_ & Hcur1 & Hall).
    assert (Hk : In k (map fst (rate_limits s1))).
    { rewrite Hkeys. apply dict_mem_In, Hmem. exact Hin. }
    destruct (map fst (rate_limits s1)) as [|k0 ks] eqn:Hrl; [contradiction|].
    cbn [min_by].
    destruct (min_from_spec (reset_time_of (rate_limits s1)) ks k0) as (Hmin_in & Hmin).
    eexists _, _, _. split; [reflexivity|]. cbn.
    split; [reflexivity|]. split; [exact Hapi|]. split; [rewrite Hrl; exact Hkeys|].
    right. split.
    { intros k'' Hin'' Hne''.
      destruct (key_after_covers keys ci k'' Hci Hin'') as (i & Hi & <-).
      { rewrite Hnth. exact Hne''. }
      destruct (Hall i) as (ri & Hget & Hle); [apply in_seq; lia|].
      exists ri. split; [exact Hget | exact Hle]. }
    rewrite Hrl. split; [exact Hmin_in | exact Hmin].
Qed.

(** X24, for the example at 130 seconds: the second key is taken, its
    window having expired. *)
Lemma rotate_key_takes_the_next_free_key_or_the_oldest_witness :
  exists k' self' tick',
    _rotate_key at_130 two_keys 0 = (Ok tt, self', tick') /\
    current_key self' = Some k' /\
    api_keys self' = api_keys two_keys /\
    map fst (rate_limits self') = map fst (rate_limits two_keys) /\
    ((exists current_index i,
        index (map fst (api_keys two_keys)) "code_fast" = Some current_index /\
        (1 <= i < length (api_keys two_keys))%nat /\
        k' = key_after (map fst (api_keys two_keys)) current_index i /\
        k' <> "code_fast" /\ In k' (map fst (api_keys two_keys)) /\
        free self' k' /\
        forall j, (1 <= j < i)%nat ->
                  limited self' (key_after (map fst (api_keys two_keys)) current_index j)) \/
     ((forall k'', In k'' (map fst (api_keys two_keys)) -> k'' <> "code_fast" ->
                   limited self' k'') /\
      In k' (map fst (rate_limits self')) /\
      forall k'', In k'' (map fst (rate_limits self')) ->
                  (reset_time_of (rate_limits self') k'
                   <= reset_time_of (rate_limits self') k'')%Q)).
Proof.
  apply (rotate_key_takes_the_next_free_key_or_the_oldest at_130 two_keys 0 "code_fast").
  split; [reflexivity|]. split; [reflexivity|]. split; [simpl; auto|].
  split.
  - simpl. repeat constructor; simpl; intuition discriminate.
  - intros k' [<-|[<-|[]]]; reflexivity.
Defined.

(** X25.  The answer of [chat_completion] to the status 401 never
    selects another key.  Outside demo mode and with the current key
    among the keys, the key is deleted and then an exception is raised:
    the one for no key left, or the [ValueError] of [_rotate_key], which
    looks for the deleted key in the list of keys.  The current key
    stays the deleted one, the clock is not read and [rate_limits] is
    not changed. *)
Theorem dropping_an_invalid_key_never_rotates
    (time : nat -> Q) (self : GrokAPIClient) (tick : nat) (k : string) :
  demo_mode self = false ->
  current_key self = Some k ->
  In k (map fst (api_keys self)) ->
  let self' := set_api_keys self (dict_del (api_keys self) k) in
  drop_invalid_key time self tick
  = (Raise match api_keys self' with
           | [] => OtherError "Exception" "All API keys are invalid"
           | _ :: _ => ValueError (repr (Some k) ++ " is not in list")
           end, self', tick) /\
  current_key self' = Some k /\
  ~ In k (map fst (api_keys self')) /\
  rate_limits self' = rate_limits self.
Proof.
  intros Hdemo Hcur Hin self'.
  assert (Hout : ~ In k (map fst (api_keys self'))).
  { unfold self'. cbn. intros H. apply dict_del_keys in H. destruct H as [_ H].
    apply H. reflexivity. }
  split; [|split; [exact Hcur | split; [exact Hout | reflexivity]]].
  unfold drop_invalid_key. rewrite Hcur.
  apply dict_mem_In in Hin. rewrite Hin. cbv zeta. fold self'.
  destruct (api_keys self') as [|kv rest] eqn:Hkeys; [reflexivity|].
  unfold _rotate_key.
  change (demo_mode self') with (demo_mode self).
  change (current_key self') with (current_key self).
  rewrite Hdemo, Hcur. cbv zeta.
  apply index_None in Hout. rewrite ?Hkeys. rewrite Hout. reflexivity.
Qed.

(** X25, for the example: after the first key is dropped, the rotation
    looks for it in vain. *)
Lemma dropping_an_invalid_key_never_rotates_witness :
  let self' := set_api_keys two_keys (dict_del (api_keys two_keys) "code_fast") in
  drop_invalid_key at_130 two_keys 0
  = (Raise match api_keys self' with
           | [] => OtherError "Exception" "All API keys are invalid"
           | _ :: _ => ValueError (repr (Some "code_fast") ++ " is not in list")
           end, self', 0%nat) /\
  current_key self' = Some "code_fast" /\
  ~ In "code_fast" (map fst (api_keys self')) /\
  rate_limits self' = rate_limits two_keys.
Proof.
  apply (dropping_an_invalid_key_never_rotates at_130 two_keys 0 "code_fast").
  - reflexivity.
  - reflexivity.
  - simpl. auto.
Defined.

End GrokProps.
Import Escape.

(** ** Properties of the escaping of queries *)

Module EscapeProps.

Lemma count_append c a b : count c (a ++ b) = (count c a + count c b)%nat.
Proof.
  induction a as [|x a IH]; simpl; [reflexivity|]. rewrite IH. lia.
Qed.

Lemma without_append c a b : without c (a ++ b) = (without c a ++ without c b)%string.
Proof.
  induction a as [|x a IH]; simpl; [reflexivity|].
  destruct (Ascii.eqb x c); simpl; rewrite IH; reflexivity.
Qed.

(** One replacement, seen through the quotation marks and through
    another character [d]. *)
Lemma replace_quoted char s :
  count quote (replace char (quoted char) s)
  = (count quote s + 2 * count char s)%nat /\
  without quote (replace char (quoted char) s) = without quote s /\
  forall d, d <> quote -> count d (replace char (quoted char) s) = count d s.
Proof.
  induction s as [|c s (IHq & IHw & IHd)]; [simpl; auto|].
  cbn [replace]. destruct (Ascii.eqb_spec c char) as [->|Hne].
  - unfold quoted in *. cbn [append count without]. rewrite !Ascii.eqb_refl, IHq, IHw.
    split; [|split].
    + destruct (Ascii.eqb char quote); lia.
    + destruct (Ascii.eqb char quote); reflexivity.
    + intros d Hd. rewrite (IHd d Hd).
      assert (Hqd : Ascii.eqb quote d = false).
      { apply Ascii.eqb_neq. intros E. apply Hd. symmetry. exact E. }
      rewrite Hqd. lia.
  - cbn [count without]. rewrite IHq, IHw.
    assert (Hc : Ascii.eqb c char = false) by (apply Ascii.eqb_neq; exact Hne).
    rewrite Hc. split; [lia|]. split; [reflexivity|].
    intros d Hd. rewrite IHd by exact Hd. reflexivity.
Qed.

(** X26.  [_escape_fts5_query] only adds quotation marks: without the
    quotation marks the escaped query and the query are the same text,
    and every other character occurs as often as before.  The escaped
    query holds three quotation marks for each one of the query and two
    for each star; so a query with an odd number of quotation marks
    stays one after escaping. *)
Theorem escape_only_adds_quotation_marks (query : string) :
  without quote (_escape_fts5_query query) = without quote query /\
  count quote (_escape_fts5_query query)
  = (3 * count quote query + 2 * count star query)%nat /\
  (forall d, d <> quote -> count d (_escape_fts5_query query) = count d query) /\
  (Nat.odd (count quote query) = true ->
   Nat.odd (count quote (_escape_fts5_query query)) = true).
Proof.
  unfold _escape_fts5_query. cbn [fold_left].
  destruct (replace_quoted quote query) as (Q1 & W1 & D1).
  destruct (replace_quoted star (replace quote (quoted quote) query)) as (Q2 & W2 & D2).
  assert (Hstar : star <> quote) by discriminate.
  assert (Hcount : count quote (replace star (quoted star)
                                  (replace quote (quoted quote) query))
                   = (3 * count quote query + 2 * count star query)%nat).
  { rewrite Q2, Q1, (D1 star Hstar). lia. }
  split; [rewrite W2; exact W1|]. split; [exact Hcount|]. split.
  - intros d Hd. rewrite (D2 d Hd). exact (D1 d Hd).
  - rewrite Hcount. intros Hodd.
    replace (3 * count quote query + 2 * count star query)%nat
      with (count quote query + 2 * (count quote query + count star query))%nat by lia.
    rewrite Nat.odd_add_mul_2. exact Hodd.
Qed.

End EscapeProps.
